(** * TrafficSimulator: the core of the simulator, embedded and verified

    The Python sources under [src/core] are embedded shallowly:

    - [estructuras_datos.py]  : [ListaEnlazada], [ColaPrioridad], [HashTable]
    - [grafo_trafico.py]      : [NodoGrafo], [AristaGrafo], [GrafoTrafico]
    - [algoritmos_dijkstra.py]: [AlgoritmoDijkstra], [AnalizadorTrafico]
    - [vehiculos_simulacion.py]: [Vehiculo], [GestorVehiculos],
                                 [MotorSimulacion]

    Python objects that are mutated through several references (edges,
    vehicles) live in an explicit store and are named by their index in it;
    methods are state transformers that may raise, and the state reached when
    an exception is raised is kept, as a caller in Python would see it. *)

From Stdlib Require Import ZArith QArith Lia String Ascii List Permutation DecimalString.
From Stdlib Require Import Sorting.Sorted.
From stdpp Require Import base list strings gmap.

Set Default Proof Using "Type".
Local Open Scope Z_scope.

(* ================================================================== *)
(** * Results, exceptions and the state monad of a method call         *)
(* ================================================================== *)

(** The exceptions the embedded code can raise. *)
Inductive excepcion : Type :=
| TypeError
| ZeroDivisionError
| IndexError
| AttributeError.

(** Outcome of running a piece of Python: a value, a raised exception, or
    [Atascado] when the model has no Python counterpart (a reference that
    names no object of the store, or a loop that used up its fuel). *)
Inductive resultado (A : Type) : Type :=
| Ok (a : A)
| Lanza (e : excepcion)
| Atascado.
Arguments Ok {A} a.
Arguments Lanza {A} e.
Arguments Atascado {A}.

(** A method over a mutable state [S]: the state is threaded, and it is
    returned also when the call raises. *)
Definition M (S A : Type) : Type := S -> resultado A * S.

Definition ret {S A : Type} (a : A) : M S A := fun s => (Ok a, s).

Definition ligar {S A B : Type} (m : M S A) (f : A -> M S B) : M S B :=
  fun s =>
    match m s with
    | (Ok a, s') => f a s'
    | (Lanza e, s') => (Lanza e, s')
    | (Atascado, s') => (Atascado, s')
    end.

Definition lanzar {S A : Type} (e : excepcion) : M S A := fun s => (Lanza e, s).
Definition atascar {S A : Type} : M S A := fun s => (Atascado, s).
Definition leer {S : Type} : M S S := fun s => (Ok s, s).
Definition escribir {S : Type} (s : S) : M S unit := fun _ => (Ok tt, s).
Definition modificar {S : Type} (f : S -> S) : M S unit := fun s => (Ok tt, f s).

(** A pure computation that may raise, run inside a method. *)
Definition puro {S A : Type} (r : resultado A) : M S A := fun s => (r, s).

(** A method of a sub-object (field [ver], updated by [poner]) run on the
    enclosing object. *)
Definition enfocar {S T A : Type} (ver : S -> T) (poner : T -> S -> S)
  (m : M T A) : M S A :=
  fun s => let '(r, t') := m (ver s) in (r, poner t' s).

Declare Scope metodo_scope.
Delimit Scope metodo_scope with metodo.
Notation "x <- m ;; k" := (ligar m (fun x => k))
  (at level 100, m at next level, k at level 200, right associativity) : metodo_scope.
Notation "m ;;; k" := (ligar m (fun _ => k))
  (at level 100, k at level 200, right associativity) : metodo_scope.

(** [for x in l: cuerpo x] with no [break] and no [return]. *)
Fixpoint para_cada {S A : Type} (l : list A) (cuerpo : A -> M S unit) : M S unit :=
  match l with
  | [] => ret tt
  | x :: l' => ligar (cuerpo x) (fun _ => para_cada l' cuerpo)
  end.

(** The same bind for pure computations that may raise. *)
Definition ligar_r {A B : Type} (r : resultado A) (f : A -> resultado B) : resultado B :=
  match r with
  | Ok a => f a
  | Lanza e => Lanza e
  | Atascado => Atascado
  end.

Declare Scope resultado_scope.
Delimit Scope resultado_scope with resultado.
Notation "x <- m ;; k" := (ligar_r m (fun x => k))
  (at level 100, m at next level, k at level 200, right associativity) : resultado_scope.

(* ================================================================== *)
(** * Python numbers, keys and indexing                                *)
(* ================================================================== *)

(** Weights and distances: the rationals stand for Python's ints and floats,
    with [float('inf')] apart. *)
Inductive numero : Type :=
| Fin (q : Q)
| Inf.

Definition num_suma (a b : numero) : numero :=
  match a, b with
  | Fin p, Fin q => Fin (p + q)
  | _, _ => Inf
  end.

(** [a < b] *)
Definition num_menor (a b : numero) : bool :=
  match a, b with
  | Fin p, Fin q => negb (Qle_bool q p)
  | Fin _, Inf => true
  | Inf, _ => false
  end.

(** [a <= b] *)
Definition num_menor_igual (a b : numero) : bool := negb (num_menor b a).

(** [a == b] *)
Definition num_igual (a b : numero) : bool :=
  match a, b with
  | Fin p, Fin q => Qeq_bool p q
  | Inf, Inf => true
  | _, _ => false
  end.

(** The keys given to the containers: ints and strings. *)
Inductive clave : Type :=
| ClaveInt (z : Z)
| ClaveStr (s : string).

(** [a == b] on keys: an int never equals a string. *)
Definition clave_eqb (a b : clave) : bool :=
  match a, b with
  | ClaveInt x, ClaveInt y => x =? y
  | ClaveStr s, ClaveStr t => String.eqb s t
  | _, _ => false
  end.

Global Instance clave_eq_dec : EqDecision clave.
Proof. solve_decision. Defined.

Global Instance clave_countable : Countable clave.
Proof.
  refine (inj_countable'
            (fun k => match k with ClaveInt z => inl z | ClaveStr s => inr s end)
            (fun x => match x with inl z => ClaveInt z | inr s => ClaveStr s end) _).
  intros [z|s]; reflexivity.
Defined.

(** CPython's [hash] of an int (64-bit build): reduction modulo the
    Mersenne prime [2^61 - 1], the sign kept, and [-2] where [-1] would
    come out. *)
Definition hash_int (z : Z) : Z :=
  let h := Z.sgn z * (Z.abs z mod (2 ^ 61 - 1)) in
  if h =? -1 then -2 else h.

(** [sum(ord(c) for c in clave)] *)
Fixpoint suma_ord (s : string) : Z :=
  match s with
  | EmptyString => 0
  | String c s' => Z.of_nat (nat_of_ascii c) + suma_ord s'
  end.

(** [l[i]] on a Python list: a negative index counts from the end, and an
    index outside the list raises [IndexError]. *)
Definition elemento_en {A : Type} (l : list A) (i : Z) : resultado A :=
  let n := Z.of_nat (length l) in
  let j := if i <? 0 then i + n else i in
  if (0 <=? j) && (j <? n) then
    match l !! Z.to_nat j with
    | Some a => Ok a
    | None => Lanza IndexError
    end
  else Lanza IndexError.

(** [l[i] = a], same indexing. *)
Definition asignar_en {A : Type} (l : list A) (i : Z) (a : A) : resultado (list A) :=
  let n := Z.of_nat (length l) in
  let j := if i <? 0 then i + n else i in
  if (0 <=? j) && (j <? n) then Ok (<[Z.to_nat j := a]> l)
  else Lanza IndexError.

(** Truth value of an object reference that may be [None]: instances of the
    classes of this program define neither [__bool__] nor [__len__], so every
    one of them is true. *)
Definition es_objeto {A : Type} (o : option A) : bool :=
  match o with
  | Some _ => true
  | None => false
  end.

(* ================================================================== *)
(** * estructuras_datos.py                                             *)
(* ================================================================== *)

(** ** ListaEnlazada

    The chain of [Nodo] cells from [cabeza] is a list; the counter [tamaño]
    is incremented by [agregar] and decremented by a successful [eliminar],
    so it is the length of the list. *)
Module ListaEnlazada.
Section Lista.
Context {A : Type}.
(** [==] on the stored data. *)
Variable igual : A -> A -> bool.

Definition nueva : list A := [].

(** Walks to the last cell and links the new one after it. *)
Definition agregar (dato : A) (l : list A) : list A := l ++ [dato].

(** Unlinks the first cell whose datum equals [dato]; tells whether one was
    found. *)
Fixpoint eliminar (dato : A) (l : list A) : bool * list A :=
  match l with
  | [] => (false, [])
  | a :: l' =>
      if igual a dato then (true, l')
      else let '(b, r) := eliminar dato l' in (b, a :: r)
  end.

Fixpoint buscar (dato : A) (l : list A) : bool :=
  match l with
  | [] => false
  | a :: l' => if igual a dato then true else buscar dato l'
  end.

Definition obtener_lista (l : list A) : list A := l.

Definition es_vacia (l : list A) : bool :=
  match l with
  | [] => true
  | _ => false
  end.

Definition obtener_tamaño (l : list A) : Z := Z.of_nat (length l).

End Lista.
End ListaEnlazada.

(** ** ColaPrioridad: a binary min-heap of (priority, element) pairs *)
Module ColaPrioridad.
Section Cola.
Context {E : Type}.

Record t : Type := { heap : list (numero * E); tamaño : Z }.

Definition nueva : t := {| heap := []; tamaño := 0 |}.

Definition _padre (i : Z) : Z := (i - 1) / 2.
Definition _hijo_izq (i : Z) : Z := 2 * i + 1.
Definition _hijo_der (i : Z) : Z := 2 * i + 2.

Definition poner_heap (h : list (numero * E)) (c : t) : t :=
  {| heap := h; tamaño := tamaño c |}.
Definition poner_tamaño (n : Z) (c : t) : t :=
  {| heap := heap c; tamaño := n |}.

(** [self.heap[i], self.heap[j] = self.heap[j], self.heap[i]] *)
Definition _intercambiar (i j : Z) : M t unit :=
  (c <- leer ;;
   hj <- puro (elemento_en (heap c) j) ;;
   hi <- puro (elemento_en (heap c) i) ;;
   h1 <- puro (asignar_en (heap c) i hj) ;;
   h2 <- puro (asignar_en h1 j hi) ;;
   modificar (poner_heap h2))%metodo.

(** The [while] of [_heapify_up]: one unit of fuel per turn of the loop. *)
Fixpoint _heapify_up (comb : nat) (i : Z) : M t unit :=
  match comb with
  | O => atascar
  | S comb' =>
      if 0 <? i then
        (c <- leer ;;
         p <- puro (elemento_en (heap c) (_padre i)) ;;
         a <- puro (elemento_en (heap c) i) ;;
         if num_menor (fst a) (fst p) then
           _intercambiar i (_padre i) ;;;
           _heapify_up comb' (_padre i)
         else ret tt)%metodo
      else ret tt
  end.

(** The [while] of [_heapify_down]. *)
Fixpoint _heapify_down (comb : nat) (i : Z) : M t unit :=
  match comb with
  | O => atascar
  | S comb' =>
      (c <- leer ;;
       if _hijo_izq i <? tamaño c then
         d <- (if _hijo_der i <? tamaño c then
                 der <- puro (elemento_en (heap c) (_hijo_der i)) ;;
                 izq <- puro (elemento_en (heap c) (_hijo_izq i)) ;;
                 ret (num_menor (fst der) (fst izq))
               else ret false) ;;
         let hijo_min := if d then _hijo_der i else _hijo_izq i in
         a <- puro (elemento_en (heap c) i) ;;
         m <- puro (elemento_en (heap c) hijo_min) ;;
         if num_menor_igual (fst a) (fst m) then ret tt
         else
           _intercambiar i hijo_min ;;;
           _heapify_down comb' hijo_min
       else ret tt)%metodo
  end.

(** Each turn of either loop moves [i] strictly towards the root, respectively
    the leaves, so the size of the heap bounds the turns. *)
Definition combustible (c : t) : nat := S (Z.to_nat (tamaño c)).

Definition insertar (prioridad : numero) (elemento : E) : M t unit :=
  (modificar (fun c => poner_heap (heap c ++ [(prioridad, elemento)]) c) ;;;
   modificar (fun c => poner_tamaño (tamaño c + 1) c) ;;;
   c <- leer ;;
   _heapify_up (combustible c) (tamaño c - 1))%metodo.

(** [self.heap.pop()]: removes and returns the last item. *)
Definition heap_pop : M t (numero * E) :=
  (c <- leer ;;
   match List.rev (heap c) with
   | [] => lanzar IndexError
   | ultimo :: resto =>
       modificar (poner_heap (List.rev resto)) ;;;
       ret ultimo
   end)%metodo.

Definition extraer_min : M t (option (numero * E)) :=
  (c <- leer ;;
   if tamaño c =? 0 then ret None
   else if tamaño c =? 1 then
     modificar (poner_tamaño 0) ;;;
     u <- heap_pop ;;
     ret (Some u)
   else
     raiz <- puro (elemento_en (heap c) 0) ;;
     u <- heap_pop ;;
     c1 <- leer ;;
     h1 <- puro (asignar_en (heap c1) 0 u) ;;
     modificar (poner_heap h1) ;;;
     modificar (fun c => poner_tamaño (tamaño c - 1) c) ;;;
     c2 <- leer ;;
     _heapify_down (combustible c2) 0 ;;;
     ret (Some raiz))%metodo.

Definition es_vacia (c : t) : bool := tamaño c =? 0.

End Cola.
Arguments t : clear implicits.
End ColaPrioridad.

(** ** HashTable: separate chaining, one [ListaEnlazada] of (key, value)
    tuples per bucket

    A stored value is [None] or an object: [option V]. *)
Module HashTable.
Section Tabla.
Context {V : Type}.

(** A (key, value) tuple of a bucket. *)
Local Abbreviation par := (clave * option V)%type.

Record t : Type := {
  capacidad : Z;
  tamaño : Z;
  buckets : list (list par)
}.

(** [[ListaEnlazada() for _ in range(capacidad)]] *)
Definition buckets_vacios (capacidad : Z) : list (list par) :=
  replicate (Z.to_nat capacidad) ListaEnlazada.nueva.

Definition nueva_con (capacidad_inicial : Z) : t :=
  {| capacidad := capacidad_inicial; tamaño := 0;
     buckets := buckets_vacios capacidad_inicial |}.

(** [HashTable()] *)
Definition nueva : t := nueva_con 16.

(** [%] raises on a zero divisor; otherwise the remainder has the sign of the
    divisor, as [Z.modulo]. *)
Definition _hash (k : clave) (h : t) : resultado Z :=
  if capacidad h =? 0 then Lanza ZeroDivisionError
  else
    Ok (match k with
        | ClaveStr s => suma_ord s
        | ClaveInt z => hash_int z
        end mod capacidad h).

(** [for par in bucket.obtener_lista(): if par[0] == clave: ...]: the first
    tuple of the bucket under that key. *)
Fixpoint buscar_par (k : clave) (bucket : list par) : option par :=
  match bucket with
  | [] => None
  | p :: bucket' => if clave_eqb (fst p) k then Some p else buscar_par k bucket'
  end.

Definition poner_buckets (b : list (list par)) (h : t) : t :=
  {| capacidad := capacidad h; tamaño := tamaño h; buckets := b |}.
Definition poner_tamaño (n : Z) (h : t) : t :=
  {| capacidad := capacidad h; tamaño := n; buckets := buckets h |}.

(** [insertar] and [_redimensionar] call each other; [comb] bounds the depth
    of that nesting.

    On a key already present the loop reaches [par[1] = valor] with [par] the
    tuple that [bucket.agregar((clave, valor))] stored: a tuple does not
    support item assignment, and the statement raises [TypeError]. *)
Fixpoint insertar_comb (comb : nat) (k : clave) (valor : option V) : M t unit :=
  match comb with
  | O => atascar
  | S comb' =>
      (h <- leer ;;
       indice <- puro (_hash k h) ;;
       bucket <- puro (elemento_en (buckets h) indice) ;;
       match buscar_par k (ListaEnlazada.obtener_lista bucket) with
       | Some _ => lanzar TypeError
       | None =>
           b <- puro (asignar_en (buckets h) indice
                        (ListaEnlazada.agregar (k, valor) bucket)) ;;
           modificar (poner_buckets b) ;;;
           modificar (fun h => poner_tamaño (tamaño h + 1) h) ;;;
           (* _redimensionar *)
           h1 <- leer ;;
           if 3 * capacidad h1 <=? 4 * tamaño h1 then
             let buckets_viejos := buckets h1 in
             escribir {| capacidad := capacidad h1 * 2; tamaño := 0;
                         buckets := buckets_vacios (capacidad h1 * 2) |} ;;;
             para_cada buckets_viejos (fun bucket =>
               para_cada (ListaEnlazada.obtener_lista bucket) (fun p =>
                 insertar_comb comb' (fst p) (snd p)))
           else ret tt
       end)%metodo
  end.

Definition obtener_pares (h : t) : list par := concat (buckets h).

(** A nested resize needs as many re-inserted entries as three quarters of a
    capacity that has doubled once more, so the nesting is no deeper than the
    number of entries. *)
Definition combustible (h : t) : nat := S (S (length (obtener_pares h))).

Definition insertar (k : clave) (valor : option V) : M t unit :=
  fun h => insertar_comb (combustible h) k valor h.

Definition obtener (k : clave) (h : t) : resultado (option V) :=
  (indice <- _hash k h ;;
   bucket <- elemento_en (buckets h) indice ;;
   match buscar_par k (ListaEnlazada.obtener_lista bucket) with
   | Some p => Ok (snd p)
   | None => Ok None
   end)%resultado.

(** [bucket.eliminar(par)] compares tuples with [==]. The tuples before [par]
    in the bucket have another key, and [par] equals itself (its items are
    identical to themselves), so the comparison is decided by the keys. *)
Definition igual_par (p q : par) : bool := clave_eqb (fst p) (fst q).

Definition eliminar (k : clave) : M t bool :=
  (h <- leer ;;
   indice <- puro (_hash k h) ;;
   bucket <- puro (elemento_en (buckets h) indice) ;;
   match buscar_par k (ListaEnlazada.obtener_lista bucket) with
   | Some p =>
       b <- puro (asignar_en (buckets h) indice
                    (snd (ListaEnlazada.eliminar igual_par p bucket))) ;;
       modificar (poner_buckets b) ;;;
       modificar (fun h => poner_tamaño (tamaño h - 1) h) ;;;
       ret true
   | None => ret false
   end)%metodo.

(** [self.obtener(clave) is not None] *)
Definition contiene (k : clave) (h : t) : resultado bool :=
  (v <- obtener k h ;; Ok (es_objeto v))%resultado.

Definition obtener_claves (h : t) : list clave := map fst (obtener_pares h).

Definition obtener_valores (h : t) : list (option V) := map snd (obtener_pares h).

(** The object stored under [k] is mutable and the table holds a reference to
    it: a method called on what [obtener] returned changes the stored value
    where it is. [f] is that change. *)
Fixpoint mutar_en_bucket (k : clave) (f : V -> V) (bucket : list par) : list par :=
  match bucket with
  | [] => []
  | p :: bucket' =>
      if clave_eqb (fst p) k then (fst p, f <$> snd p) :: bucket'
      else p :: mutar_en_bucket k f bucket'
  end.

Definition mutar_valor (k : clave) (f : V -> V) : M t unit :=
  (h <- leer ;;
   indice <- puro (_hash k h) ;;
   bucket <- puro (elemento_en (buckets h) indice) ;;
   b <- puro (asignar_en (buckets h) indice (mutar_en_bucket k f bucket)) ;;
   modificar (poner_buckets b))%metodo.

End Tabla.
Arguments t : clear implicits.
Abbreviation par V := (clave * option V)%type.
End HashTable.

(* ================================================================== *)
(** * grafo_trafico.py                                                 *)
(* ================================================================== *)

(** [f"{n}"] for an int. *)
Definition str_de_int (n : Z) : string := NilZero.string_of_int (Z.to_int n).

(** ** NodoGrafo

    No method of the program assigns to a field of a node after its
    construction, so an edge that refers to a node carries the node itself. *)
Record NodoGrafo : Type := {
  nodo_id : Z;
  nodo_x : Q;
  nodo_y : Q;
  nodo_nombre : string;
  nodo_activo : bool;
  nodo_tipo : string
}.

(** [NodoGrafo(id_nodo, x, y, nombre)] *)
Definition NodoGrafo_init (id_nodo : Z) (x y : Q) (nombre : string) : NodoGrafo :=
  {| nodo_id := id_nodo; nodo_x := x; nodo_y := y;
     nodo_nombre := match nombre with
                    | EmptyString => "Nodo_" ++ str_de_int id_nodo
                    | _ => nombre
                    end;
     nodo_activo := true;
     nodo_tipo := "ciudad" |}.

(** ** AristaGrafo *)
Record AristaGrafo : Type := {
  origen : NodoGrafo;
  destino : NodoGrafo;
  peso_base : Q;
  peso_actual : Q;
  bidireccional : bool;
  bloqueada : bool;
  carga_trafico : Z;
  capacidad_maxima : Z;
  arista_tipo : string
}.

(** [AristaGrafo(nodo_origen, nodo_destino, peso, bidireccional)] *)
Definition AristaGrafo_init (nodo_origen nodo_destino : NodoGrafo) (peso : Q)
  (bidireccional : bool) : AristaGrafo :=
  {| origen := nodo_origen; destino := nodo_destino;
     peso_base := peso; peso_actual := peso;
     bidireccional := bidireccional; bloqueada := false;
     carga_trafico := 0; capacidad_maxima := 10;
     arista_tipo := "carretera" |}.

Definition poner_peso_actual (p : Q) (a : AristaGrafo) : AristaGrafo :=
  {| origen := origen a; destino := destino a; peso_base := peso_base a;
     peso_actual := p; bidireccional := bidireccional a;
     bloqueada := bloqueada a; carga_trafico := carga_trafico a;
     capacidad_maxima := capacidad_maxima a; arista_tipo := arista_tipo a |}.

Definition poner_bloqueada (b : bool) (a : AristaGrafo) : AristaGrafo :=
  {| origen := origen a; destino := destino a; peso_base := peso_base a;
     peso_actual := peso_actual a; bidireccional := bidireccional a;
     bloqueada := b; carga_trafico := carga_trafico a;
     capacidad_maxima := capacidad_maxima a; arista_tipo := arista_tipo a |}.

Definition poner_carga_trafico (c : Z) (a : AristaGrafo) : AristaGrafo :=
  {| origen := origen a; destino := destino a; peso_base := peso_base a;
     peso_actual := peso_actual a; bidireccional := bidireccional a;
     bloqueada := bloqueada a; carga_trafico := c;
     capacidad_maxima := capacidad_maxima a; arista_tipo := arista_tipo a |}.

(** [1 + (self.carga_trafico / max(self.capacidad_maxima, 1)) * 2] *)
Definition factor_congestion (a : AristaGrafo) : Q :=
  (1 + (inject_Z (carga_trafico a) / inject_Z (Z.max (capacidad_maxima a) 1)) * 2)%Q.

Definition calcular_peso_dinamico : M AristaGrafo numero :=
  (a <- leer ;;
   if bloqueada a then ret Inf
   else
     modificar (poner_peso_actual (peso_base a * factor_congestion a)%Q) ;;;
     a' <- leer ;;
     ret (Fin (peso_actual a')))%metodo.

Definition agregar_vehiculo : M AristaGrafo unit :=
  (modificar (fun a => poner_carga_trafico (carga_trafico a + 1) a) ;;;
   _ <- calcular_peso_dinamico ;;
   ret tt)%metodo.

Definition remover_vehiculo : M AristaGrafo unit :=
  (a <- leer ;;
   if 0 <? carga_trafico a then
     modificar (fun a => poner_carga_trafico (carga_trafico a - 1) a) ;;;
     _ <- calcular_peso_dinamico ;;
     ret tt
   else ret tt)%metodo.

(** ** The store of edge objects

    An [AristaGrafo] is reached from the adjacency list that holds it, from
    the routes of the vehicles and from the lists the analyzer builds, and is
    mutated through all of them. The objects are kept in a store, in the
    order of their creation; a reference is an index in it, and [==] on two
    edges (the class defines no [__eq__]) is the identity of references. *)
Abbreviation ref := nat.

Definition misma_ref (r1 r2 : ref) : bool := Nat.eqb r1 r2.

Definition desreferenciar {A : Type} (mem : list A) (r : ref) : resultado A :=
  match mem !! r with
  | Some a => Ok a
  | None => Atascado
  end.

(** A method of the object behind [r], run on the store. *)
Definition en_objeto {A B : Type} (r : ref) (m : M A B) : M (list A) B :=
  fun mem =>
    match mem !! r with
    | Some a => let '(res, a') := m a in (res, <[r := a']> mem)
    | None => (Atascado, mem)
    end.

(** ** GrafoTrafico *)
Record GrafoTrafico : Type := {
  nodos : HashTable.t NodoGrafo;
  lista_adyacencia : HashTable.t (list ref);
  contador_nodos : Z;
  aristas_totales : Z
}.

(** The graph object and the edges it refers to. *)
Record EstadoGrafo : Type := {
  mem_aristas : list AristaGrafo;
  grafo : GrafoTrafico
}.

Definition GrafoTrafico_init : GrafoTrafico :=
  {| nodos := HashTable.nueva; lista_adyacencia := HashTable.nueva;
     contador_nodos := 0; aristas_totales := 0 |}.

Definition estado_inicial : EstadoGrafo :=
  {| mem_aristas := []; grafo := GrafoTrafico_init |}.

Definition poner_nodos (t : HashTable.t NodoGrafo) (g : GrafoTrafico) : GrafoTrafico :=
  {| nodos := t; lista_adyacencia := lista_adyacencia g;
     contador_nodos := contador_nodos g; aristas_totales := aristas_totales g |}.
Definition poner_lista_adyacencia (t : HashTable.t (list ref)) (g : GrafoTrafico)
  : GrafoTrafico :=
  {| nodos := nodos g; lista_adyacencia := t;
     contador_nodos := contador_nodos g; aristas_totales := aristas_totales g |}.
Definition poner_contador_nodos (n : Z) (g : GrafoTrafico) : GrafoTrafico :=
  {| nodos := nodos g; lista_adyacencia := lista_adyacencia g;
     contador_nodos := n; aristas_totales := aristas_totales g |}.
Definition poner_aristas_totales (n : Z) (g : GrafoTrafico) : GrafoTrafico :=
  {| nodos := nodos g; lista_adyacencia := lista_adyacencia g;
     contador_nodos := contador_nodos g; aristas_totales := n |}.
Definition poner_grafo (g : GrafoTrafico) (s : EstadoGrafo) : EstadoGrafo :=
  {| mem_aristas := mem_aristas s; grafo := g |}.
Definition poner_mem_aristas (m : list AristaGrafo) (s : EstadoGrafo) : EstadoGrafo :=
  {| mem_aristas := m; grafo := grafo s |}.

(** [self.nodos.<metodo>], [self.lista_adyacencia.<metodo>] and a method of
    an edge, seen from the graph. *)
Definition en_nodos {A : Type} (m : M (HashTable.t NodoGrafo) A) : M EstadoGrafo A :=
  enfocar (fun s => nodos (grafo s))
          (fun t s => poner_grafo (poner_nodos t (grafo s)) s) m.
Definition en_adyacencia {A : Type} (m : M (HashTable.t (list ref)) A) : M EstadoGrafo A :=
  enfocar (fun s => lista_adyacencia (grafo s))
          (fun t s => poner_grafo (poner_lista_adyacencia t (grafo s)) s) m.
Definition en_arista {A : Type} (r : ref) (m : M AristaGrafo A) : M EstadoGrafo A :=
  enfocar mem_aristas poner_mem_aristas (en_objeto r m).

(** Creates the object and returns the reference to it. *)
Definition crear_arista (a : AristaGrafo) : M EstadoGrafo ref :=
  (s <- leer ;;
   modificar (poner_mem_aristas (mem_aristas s ++ [a])) ;;;
   ret (length (mem_aristas s)))%metodo.

Section Grafo.
(** [math.sqrt] on the numbers of the model. *)
Variable raiz : Q -> Q.

Definition agregar_nodo (x y : Q) (nombre : string) : M EstadoGrafo NodoGrafo :=
  (modificar (fun s => poner_grafo
                (poner_contador_nodos (contador_nodos (grafo s) + 1) (grafo s)) s) ;;;
   s <- leer ;;
   let contador := contador_nodos (grafo s) in
   let nuevo_nodo := NodoGrafo_init contador x y nombre in
   en_nodos (HashTable.insertar (ClaveInt contador) (Some nuevo_nodo)) ;;;
   en_adyacencia (HashTable.insertar (ClaveInt contador) (Some ListaEnlazada.nueva)) ;;;
   ret nuevo_nodo)%metodo.

(** [self.lista_adyacencia.obtener(k).agregar(arista)]: on [None] the
    attribute lookup raises. *)
Definition agregar_a_lista (k : clave) (r : ref) : M EstadoGrafo unit :=
  (s <- leer ;;
   lista <- puro (HashTable.obtener k (lista_adyacencia (grafo s))) ;;
   match lista with
   | None => lanzar AttributeError
   | Some _ => en_adyacencia (HashTable.mutar_valor k (ListaEnlazada.agregar r))
   end)%metodo.

Definition agregar_arista (id_origen id_destino : clave) (peso : Q)
  (bidireccional : bool) : M EstadoGrafo bool :=
  (s <- leer ;;
   nodo_origen <- puro (HashTable.obtener id_origen (nodos (grafo s))) ;;
   nodo_destino <- puro (HashTable.obtener id_destino (nodos (grafo s))) ;;
   match nodo_origen, nodo_destino with
   | Some nodo_origen, Some nodo_destino =>
       let peso :=
         if Qeq_bool peso 1 then
           let dx := (nodo_x nodo_destino - nodo_x nodo_origen)%Q in
           let dy := (nodo_y nodo_destino - nodo_y nodo_origen)%Q in
           (raiz (dx * dx + dy * dy) / 50)%Q
         else peso in
       arista <- crear_arista (AristaGrafo_init nodo_origen nodo_destino peso bidireccional) ;;
       agregar_a_lista id_origen arista ;;;
       (if bidireccional then
          arista_inversa <- crear_arista (AristaGrafo_init nodo_destino nodo_origen peso true) ;;
          agregar_a_lista id_destino arista_inversa
        else ret tt) ;;;
       modificar (fun s => poner_grafo
                    (poner_aristas_totales (aristas_totales (grafo s) + 1) (grafo s)) s) ;;;
       ret true
   | _, _ => ret false
   end)%metodo.

(** [[arista for arista in lista if arista.destino.id == id_destino]] *)
Fixpoint aristas_hacia (mem : list AristaGrafo) (id_destino : clave) (l : list ref)
  : resultado (list ref) :=
  match l with
  | [] => Ok []
  | r :: l' =>
      (a <- desreferenciar mem r ;;
       resto <- aristas_hacia mem id_destino l' ;;
       Ok (if clave_eqb (ClaveInt (nodo_id (destino a))) id_destino
           then r :: resto else resto))%resultado
  end.

Definition _eliminar_aristas_hacia_nodo (id_origen id_destino : clave) : M EstadoGrafo unit :=
  (s <- leer ;;
   lista_aristas <- puro (HashTable.obtener id_origen (lista_adyacencia (grafo s))) ;;
   match lista_aristas with
   | Some lista =>
       aristas_a_eliminar <-
         puro (aristas_hacia (mem_aristas s) id_destino (ListaEnlazada.obtener_lista lista)) ;;
       para_cada aristas_a_eliminar (fun arista =>
         en_adyacencia (HashTable.mutar_valor id_origen
           (fun l => snd (ListaEnlazada.eliminar misma_ref arista l))))
   | None => ret tt
   end)%metodo.

Definition eliminar_nodo (id_nodo : clave) : M EstadoGrafo bool :=
  (s <- leer ;;
   existe <- puro (HashTable.contiene id_nodo (nodos (grafo s))) ;;
   if negb existe then ret false
   else
     para_cada (HashTable.obtener_claves (nodos (grafo s))) (fun id_otros =>
       if negb (clave_eqb id_otros id_nodo)
       then _eliminar_aristas_hacia_nodo id_otros id_nodo
       else ret tt) ;;;
     _ <- en_nodos (HashTable.eliminar id_nodo) ;;
     _ <- en_adyacencia (HashTable.eliminar id_nodo) ;;
     ret true)%metodo.

(** The loop of [obtener_vecinos] over the edges of a node. *)
Fixpoint vecinos_de (mem : list AristaGrafo) (l : list ref)
  : resultado (list (NodoGrafo * Q)) :=
  match l with
  | [] => Ok []
  | r :: l' =>
      (a <- desreferenciar mem r ;;
       resto <- vecinos_de mem l' ;;
       Ok (if negb (bloqueada a) && nodo_activo (destino a)
           then (destino a, peso_actual a) :: resto else resto))%resultado
  end.

Definition obtener_vecinos (id_nodo : clave) (s : EstadoGrafo)
  : resultado (list (NodoGrafo * Q)) :=
  (lista_aristas <- HashTable.obtener id_nodo (lista_adyacencia (grafo s)) ;;
   match lista_aristas with
   | None => Ok []
   | Some lista => vecinos_de (mem_aristas s) (ListaEnlazada.obtener_lista lista)
   end)%resultado.

Definition obtener_aristas_nodo (id_nodo : clave) (s : EstadoGrafo) : resultado (list ref) :=
  (lista_aristas <- HashTable.obtener id_nodo (lista_adyacencia (grafo s)) ;;
   match lista_aristas with
   | Some lista => Ok (ListaEnlazada.obtener_lista lista)
   | None => Ok []
   end)%resultado.

(** [for arista in aristas: if arista.destino.id == id_destino: ...]: the
    first edge of the list that leads to [id_destino]. *)
Fixpoint primera_arista_hacia (mem : list AristaGrafo) (id_destino : clave) (l : list ref)
  : resultado (option ref) :=
  match l with
  | [] => Ok None
  | r :: l' =>
      (a <- desreferenciar mem r ;;
       if clave_eqb (ClaveInt (nodo_id (destino a))) id_destino then Ok (Some r)
       else primera_arista_hacia mem id_destino l')%resultado
  end.

Definition bloquear_arista (id_origen id_destino : clave) : M EstadoGrafo bool :=
  (s <- leer ;;
   aristas <- puro (obtener_aristas_nodo id_origen s) ;;
   arista <- puro (primera_arista_hacia (mem_aristas s) id_destino aristas) ;;
   match arista with
   | Some r => en_arista r (modificar (poner_bloqueada true)) ;;; ret true
   | None => ret false
   end)%metodo.

Definition desbloquear_arista (id_origen id_destino : clave) : M EstadoGrafo bool :=
  (s <- leer ;;
   aristas <- puro (obtener_aristas_nodo id_origen s) ;;
   arista <- puro (primera_arista_hacia (mem_aristas s) id_destino aristas) ;;
   match arista with
   | Some r => en_arista r (modificar (poner_bloqueada false)) ;;; ret true
   | None => ret false
   end)%metodo.

Definition obtener_nodos_lista (s : EstadoGrafo) : list (option NodoGrafo) :=
  HashTable.obtener_valores (nodos (grafo s)).

(** [todas_aristas.extend(aristas)] for each key of [nodos]. *)
Fixpoint aristas_de_claves (s : EstadoGrafo) (claves : list clave) : resultado (list ref) :=
  match claves with
  | [] => Ok []
  | id_nodo :: claves' =>
      (aristas <- obtener_aristas_nodo id_nodo s ;;
       resto <- aristas_de_claves s claves' ;;
       Ok (aristas ++ resto))%resultado
  end.

Definition obtener_todas_aristas (s : EstadoGrafo) : resultado (list ref) :=
  aristas_de_claves s (HashTable.obtener_claves (nodos (grafo s))).

(** The loop of [validar_integridad]. *)
Fixpoint problemas_de (s : EstadoGrafo) (l : list ref) : resultado (list string) :=
  match l with
  | [] => Ok []
  | r :: l' =>
      (a <- desreferenciar (mem_aristas s) r ;;
       hay_origen <- HashTable.contiene (ClaveInt (nodo_id (origen a))) (nodos (grafo s)) ;;
       hay_destino <- HashTable.contiene (ClaveInt (nodo_id (destino a))) (nodos (grafo s)) ;;
       resto <- problemas_de s l' ;;
       Ok ((if hay_origen then []
            else [("Nodo origen " ++ str_de_int (nodo_id (origen a)) ++ " no existe")%string]) ++
           (if hay_destino then []
            else [("Nodo destino " ++ str_de_int (nodo_id (destino a)) ++ " no existe")%string]) ++
           resto))%resultado
  end.

Definition validar_integridad (s : EstadoGrafo) : resultado (list string) :=
  (todas <- obtener_todas_aristas s ;;
   problemas_de s todas)%resultado.

(* ================================================================== *)
(** * algoritmos_dijkstra.py                                           *)
(* ================================================================== *)

(** ** AlgoritmoDijkstra

    The object holds a reference to the graph; its methods read the state of
    the graph and change nothing in it. The four containers are locals of
    the call. *)
Record LocalesDijkstra : Type := {
  distancias : HashTable.t numero;
  predecesores : HashTable.t clave;
  visitados : HashTable.t bool;
  cola_prioridad : ColaPrioridad.t clave
}.

Definition locales_iniciales : LocalesDijkstra :=
  {| distancias := HashTable.nueva; predecesores := HashTable.nueva;
     visitados := HashTable.nueva; cola_prioridad := ColaPrioridad.nueva |}.

Definition en_distancias {A : Type} (m : M (HashTable.t numero) A) : M LocalesDijkstra A :=
  enfocar distancias
    (fun t l => {| distancias := t; predecesores := predecesores l;
                   visitados := visitados l; cola_prioridad := cola_prioridad l |}) m.
Definition en_predecesores {A : Type} (m : M (HashTable.t clave) A) : M LocalesDijkstra A :=
  enfocar predecesores
    (fun t l => {| distancias := distancias l; predecesores := t;
                   visitados := visitados l; cola_prioridad := cola_prioridad l |}) m.
Definition en_visitados {A : Type} (m : M (HashTable.t bool) A) : M LocalesDijkstra A :=
  enfocar visitados
    (fun t l => {| distancias := distancias l; predecesores := predecesores l;
                   visitados := t; cola_prioridad := cola_prioridad l |}) m.
Definition en_cola {A : Type} (m : M (ColaPrioridad.t clave) A) : M LocalesDijkstra A :=
  enfocar cola_prioridad
    (fun c l => {| distancias := distancias l; predecesores := predecesores l;
                   visitados := visitados l; cola_prioridad := c |}) m.

(** Truth value of what [visitados.obtener] returns: [None] and [False] are
    false. *)
Definition es_verdadero (v : option bool) : bool :=
  match v with
  | Some b => b
  | None => false
  end.

(** The initialisation loop over [self.grafo.nodos.obtener_claves()]. *)
Definition inicializar (s : EstadoGrafo) : M LocalesDijkstra unit :=
  para_cada (HashTable.obtener_claves (nodos (grafo s))) (fun id_nodo =>
    (en_distancias (HashTable.insertar id_nodo (Some Inf)) ;;;
     en_predecesores (HashTable.insertar id_nodo None) ;;;
     en_visitados (HashTable.insertar id_nodo (Some false)))%metodo).

(** The body of [for nodo_vecino, peso_arista in vecinos]. *)
Definition relajar (distancia_actual : numero) (nodo_actual : clave)
  (vecino : NodoGrafo * Q) : M LocalesDijkstra unit :=
  let '(nodo_vecino, peso_arista) := vecino in
  let id_vecino := ClaveInt (nodo_id nodo_vecino) in
  (l <- leer ;;
   visto <- puro (HashTable.obtener id_vecino (visitados l)) ;;
   if es_verdadero visto then ret tt
   else
     let nueva_distancia := num_suma distancia_actual (Fin peso_arista) in
     d <- puro (HashTable.obtener id_vecino (distancias l)) ;;
     match d with
     | None => lanzar TypeError
     | Some d =>
         if num_menor nueva_distancia d then
           en_distancias (HashTable.insertar id_vecino (Some nueva_distancia)) ;;;
           en_predecesores (HashTable.insertar id_vecino (Some nodo_actual)) ;;;
           en_cola (ColaPrioridad.insertar nueva_distancia id_vecino)
         else ret tt
     end)%metodo.

(** [while not cola_prioridad.es_vacia()], one unit of fuel per turn.
    [id_destino] is [Some d] in the single-pair query, which leaves the loop
    when [d] is extracted, and [None] in the multi-target one, which has no
    such test. *)
Fixpoint bucle_dijkstra (comb : nat) (s : EstadoGrafo) (id_destino : option clave)
  : M LocalesDijkstra unit :=
  match comb with
  | O => atascar
  | S comb' =>
      (l <- leer ;;
       if ColaPrioridad.es_vacia (cola_prioridad l) then ret tt
       else
         extraido <- en_cola ColaPrioridad.extraer_min ;;
         match extraido with
         | None => lanzar TypeError
         | Some (distancia_actual, nodo_actual) =>
             l1 <- leer ;;
             visto <- puro (HashTable.obtener nodo_actual (visitados l1)) ;;
             if es_verdadero visto then bucle_dijkstra comb' s id_destino
             else
               en_visitados (HashTable.insertar nodo_actual (Some true)) ;;;
               if match id_destino with
                  | Some d => clave_eqb nodo_actual d
                  | None => false
                  end
               then ret tt
               else
                 vecinos <- puro (obtener_vecinos nodo_actual s) ;;
                 para_cada vecinos (relajar distancia_actual nodo_actual) ;;;
                 bucle_dijkstra comb' s id_destino
         end)%metodo
  end.

(** Every entry of the queue comes from the seed or from the relaxation of an
    edge out of a node visited for the first time, so the edges of the graph
    bound the turns of the loop. *)
Definition combustible_dijkstra (s : EstadoGrafo) : nat :=
  S (S (length (concat (omap id (HashTable.obtener_valores (lista_adyacencia (grafo s))))))).

Definition _encontrar_arista (id_origen id_destino : clave) (s : EstadoGrafo)
  : resultado (option ref) :=
  (aristas <- obtener_aristas_nodo id_origen s ;;
   primera_arista_hacia (mem_aristas s) id_destino aristas)%resultado.

(** [while nodo_actual is not None] of [_reconstruir_ruta]; the two lists are
    built from the destination backwards. *)
Fixpoint bucle_reconstruir (comb : nat) (s : EstadoGrafo) (pred : HashTable.t clave)
  (nodo_actual : option clave) (ruta_nodos : list clave) (ruta_aristas : list ref)
  : resultado (list clave * list ref) :=
  match nodo_actual with
  | None => Ok (ruta_nodos, ruta_aristas)
  | Some n =>
      match comb with
      | O => Atascado
      | S comb' =>
          (predecesor <- HashTable.obtener n pred ;;
           ruta_aristas' <-
             match predecesor with
             | Some p =>
                 arista <- _encontrar_arista p n s ;;
                 Ok (match arista with
                     | Some r => ruta_aristas ++ [r]
                     | None => ruta_aristas
                     end)
             | None => Ok ruta_aristas
             end ;;
           bucle_reconstruir comb' s pred predecesor (ruta_nodos ++ [n]) ruta_aristas')%resultado
      end
  end.

(** A chain of predecessors without a cycle visits each entry of the table at
    most once. *)
Definition _reconstruir_ruta (s : EstadoGrafo) (pred : HashTable.t clave)
  (id_origen id_destino : clave) : resultado (list clave * list ref) :=
  (rutas <- bucle_reconstruir (S (S (length (HashTable.obtener_pares pred)))) s pred
              (Some id_destino) [] [] ;;
   Ok (List.rev (fst rutas), List.rev (snd rutas)))%resultado.

(** What the locals hold when the queries reach their reconstruction
    step. *)
Definition relajacion (s : EstadoGrafo) (id_origen : clave) (id_destino : option clave)
  : M LocalesDijkstra unit :=
  (inicializar s ;;;
   en_distancias (HashTable.insertar id_origen (Some (Fin 0))) ;;;
   en_cola (ColaPrioridad.insertar (Fin 0) id_origen) ;;;
   bucle_dijkstra (combustible_dijkstra s) s id_destino)%metodo.

(** Returns [(distancia_total, ruta_nodos, ruta_aristas)]; the distance is
    [None] when there is no route. *)
Definition encontrar_ruta_mas_corta (id_origen id_destino : clave) (s : EstadoGrafo)
  : resultado (option numero * list clave * list ref) :=
  (hay_origen <- HashTable.contiene id_origen (nodos (grafo s)) ;;
   hay_destino <- (if hay_origen then HashTable.contiene id_destino (nodos (grafo s))
                   else Ok false) ;;
   if negb hay_origen || negb hay_destino then Ok (None, [], [])
   else
     l <- fst (ligar (relajacion s id_origen (Some id_destino)) (fun _ => leer)
                 locales_iniciales) ;;
     rutas <- _reconstruir_ruta s (predecesores l) id_origen id_destino ;;
     distancia_total <- HashTable.obtener id_destino (distancias l) ;;
     match distancia_total with
     | Some Inf => Ok (None, [], [])
     | _ => Ok (distancia_total, fst rutas, snd rutas)
     end)%resultado.

(** The value stored under a destination in the dict that
    [encontrar_rutas_multiples] returns. *)
Record Ruta : Type := {
  distancia : option numero;
  nodos_de_ruta : list clave;
  aristas_de_ruta : list ref
}.

(** [for id_destino in destinos] of [encontrar_rutas_multiples]. *)
Fixpoint rutas_de_destinos (s : EstadoGrafo) (l : LocalesDijkstra) (id_origen : clave)
  (destinos : list clave) (rutas : gmap clave Ruta) : resultado (gmap clave Ruta) :=
  match destinos with
  | [] => Ok rutas
  | id_destino :: destinos' =>
      (d <- HashTable.obtener id_destino (distancias l) ;;
       match d with
       | Some Inf => rutas_de_destinos s l id_origen destinos' rutas
       | _ =>
           r <- _reconstruir_ruta s (predecesores l) id_origen id_destino ;;
           d' <- HashTable.obtener id_destino (distancias l) ;;
           rutas_de_destinos s l id_origen destinos'
             (<[id_destino := {| distancia := d'; nodos_de_ruta := fst r;
                                 aristas_de_ruta := snd r |}]> rutas)
       end)%resultado
  end.

Definition encontrar_rutas_multiples (id_origen : clave) (destinos : list clave)
  (s : EstadoGrafo) : resultado (gmap clave Ruta) :=
  (l <- fst (ligar (relajacion s id_origen None) (fun _ => leer) locales_iniciales) ;;
   rutas_de_destinos s l id_origen destinos ∅)%resultado.

(** ** AnalizadorTrafico *)

(** [distancia_sin_arista is None or distancia_sin_arista > distancia_con_arista * 2] *)
Definition es_cuello_botella (distancia_sin_arista : option numero) (distancia_con_arista : Q)
  : bool :=
  match distancia_sin_arista with
  | None => true
  | Some d => num_menor (Fin (distancia_con_arista * 2)) d
  end.

(** [for arista in aristas] of [_identificar_cuellos_botella]. The path
    query runs between the two assignments to [arista.bloqueada]; when it
    raises, the method is left at that point. *)
Fixpoint bucle_cuellos_botella (aristas : list ref) (cuellos_botella : list ref)
  : M EstadoGrafo (list ref) :=
  match aristas with
  | [] => ret cuellos_botella
  | arista :: aristas' =>
      (a <- en_arista arista leer ;;
       let estaba_bloqueada := bloqueada a in
       en_arista arista (modificar (poner_bloqueada true)) ;;;
       s <- leer ;;
       ruta <- puro (encontrar_ruta_mas_corta (ClaveInt (nodo_id (origen a)))
                       (ClaveInt (nodo_id (destino a))) s) ;;
       let distancia_sin_arista := fst (fst ruta) in
       en_arista arista (modificar (poner_bloqueada estaba_bloqueada)) ;;;
       a' <- en_arista arista leer ;;
       let distancia_con_arista := peso_actual a' in
       bucle_cuellos_botella aristas'
         (if es_cuello_botella distancia_sin_arista distancia_con_arista
          then cuellos_botella ++ [arista] else cuellos_botella))%metodo
  end.

Definition _identificar_cuellos_botella : M EstadoGrafo (list ref) :=
  (s <- leer ;;
   aristas <- puro (obtener_todas_aristas s) ;;
   cuellos_botella <- bucle_cuellos_botella aristas [] ;;
   ret (take 5 cuellos_botella))%metodo.

(* ================================================================== *)
(** * vehiculos_simulacion.py                                          *)
(* ================================================================== *)

(** ** Vehiculo *)
Inductive EstadoVehiculo : Type :=
| planificando
| viajando
| arribado
| bloqueado.

Definition estado_igual (a b : EstadoVehiculo) : bool :=
  match a, b with
  | planificando, planificando | viajando, viajando
  | arribado, arribado | bloqueado, bloqueado => true
  | _, _ => false
  end.

Record Vehiculo : Type := {
  vehiculo_id : Z;
  nodo_origen : NodoGrafo;
  nodo_destino : NodoGrafo;
  posicion_x : Q;
  posicion_y : Q;
  velocidad : Q;
  estado : EstadoVehiculo;
  ruta_nodos : list clave;
  ruta_aristas : list ref;
  indice_ruta_actual : Z;
  progreso_arista : Q;
  tiempo_espera : Z;
  distancia_total : option numero;
  tiempo_viaje : Q;
  color : Z * Z * Z;
  vehiculo_tipo : string;
  prioridad : Z
}.

(** What the constructor draws from [random]: the speed from
    [uniform(30, 60)], the colour and the type from [choice]. *)
Record Azar : Type := {
  azar_velocidad : Q;
  azar_color : Z * Z * Z;
  azar_tipo : string
}.

(** [Vehiculo(id_vehiculo, nodo_origen, nodo_destino)] *)
Definition Vehiculo_init (azar : Azar) (id_vehiculo : Z) (nodo_origen nodo_destino : NodoGrafo)
  : Vehiculo :=
  {| vehiculo_id := id_vehiculo; nodo_origen := nodo_origen; nodo_destino := nodo_destino;
     posicion_x := nodo_x nodo_origen; posicion_y := nodo_y nodo_origen;
     velocidad := azar_velocidad azar; estado := planificando;
     ruta_nodos := []; ruta_aristas := [];
     indice_ruta_actual := 0; progreso_arista := 0;
     tiempo_espera := 0; distancia_total := Some (Fin 0); tiempo_viaje := 0;
     color := azar_color azar; vehiculo_tipo := azar_tipo azar; prioridad := 1 |}.

Definition poner_estado (e : EstadoVehiculo) (v : Vehiculo) : Vehiculo :=
  {| vehiculo_id := vehiculo_id v; nodo_origen := nodo_origen v;
     nodo_destino := nodo_destino v; posicion_x := posicion_x v;
     posicion_y := posicion_y v; velocidad := velocidad v; estado := e;
     ruta_nodos := ruta_nodos v; ruta_aristas := ruta_aristas v;
     indice_ruta_actual := indice_ruta_actual v; progreso_arista := progreso_arista v;
     tiempo_espera := tiempo_espera v; distancia_total := distancia_total v;
     tiempo_viaje := tiempo_viaje v; color := color v;
     vehiculo_tipo := vehiculo_tipo v; prioridad := prioridad v |}.

Definition poner_posicion (px py : Q) (v : Vehiculo) : Vehiculo :=
  {| vehiculo_id := vehiculo_id v; nodo_origen := nodo_origen v;
     nodo_destino := nodo_destino v; posicion_x := px;
     posicion_y := py; velocidad := velocidad v; estado := estado v;
     ruta_nodos := ruta_nodos v; ruta_aristas := ruta_aristas v;
     indice_ruta_actual := indice_ruta_actual v; progreso_arista := progreso_arista v;
     tiempo_espera := tiempo_espera v; distancia_total := distancia_total v;
     tiempo_viaje := tiempo_viaje v; color := color v;
     vehiculo_tipo := vehiculo_tipo v; prioridad := prioridad v |}.

Definition poner_indice_ruta_actual (i : Z) (v : Vehiculo) : Vehiculo :=
  {| vehiculo_id := vehiculo_id v; nodo_origen := nodo_origen v;
     nodo_destino := nodo_destino v; posicion_x := posicion_x v;
     posicion_y := posicion_y v; velocidad := velocidad v; estado := estado v;
     ruta_nodos := ruta_nodos v; ruta_aristas := ruta_aristas v;
     indice_ruta_actual := i; progreso_arista := progreso_arista v;
     tiempo_espera := tiempo_espera v; distancia_total := distancia_total v;
     tiempo_viaje := tiempo_viaje v; color := color v;
     vehiculo_tipo := vehiculo_tipo v; prioridad := prioridad v |}.

Definition poner_progreso_arista (p : Q) (v : Vehiculo) : Vehiculo :=
  {| vehiculo_id := vehiculo_id v; nodo_origen := nodo_origen v;
     nodo_destino := nodo_destino v; posicion_x := posicion_x v;
     posicion_y := posicion_y v; velocidad := velocidad v; estado := estado v;
     ruta_nodos := ruta_nodos v; ruta_aristas := ruta_aristas v;
     indice_ruta_actual := indice_ruta_actual v; progreso_arista := p;
     tiempo_espera := tiempo_espera v; distancia_total := distancia_total v;
     tiempo_viaje := tiempo_viaje v; color := color v;
     vehiculo_tipo := vehiculo_tipo v; prioridad := prioridad v |}.

Definition poner_tiempo_viaje (t : Q) (v : Vehiculo) : Vehiculo :=
  {| vehiculo_id := vehiculo_id v; nodo_origen := nodo_origen v;
     nodo_destino := nodo_destino v; posicion_x := posicion_x v;
     posicion_y := posicion_y v; velocidad := velocidad v; estado := estado v;
     ruta_nodos := ruta_nodos v; ruta_aristas := ruta_aristas v;
     indice_ruta_actual := indice_ruta_actual v; progreso_arista := progreso_arista v;
     tiempo_espera := tiempo_espera v; distancia_total := distancia_total v;
     tiempo_viaje := t; color := color v;
     vehiculo_tipo := vehiculo_tipo v; prioridad := prioridad v |}.

Definition establecer_ruta (nodos_ruta : list clave) (aristas_ruta : list ref)
  (distancia : option numero) : M Vehiculo unit :=
  modificar (fun v =>
    {| vehiculo_id := vehiculo_id v; nodo_origen := nodo_origen v;
       nodo_destino := nodo_destino v; posicion_x := posicion_x v;
       posicion_y := posicion_y v; velocidad := velocidad v;
       estado := match nodos_ruta with [] => bloqueado | _ => viajando end;
       ruta_nodos := nodos_ruta; ruta_aristas := aristas_ruta;
       indice_ruta_actual := 0; progreso_arista := 0;
       tiempo_espera := tiempo_espera v; distancia_total := distancia;
       tiempo_viaje := tiempo_viaje v; color := color v;
       vehiculo_tipo := vehiculo_tipo v; prioridad := prioridad v |}).

(** ** GestorVehiculos *)
Record Estadisticas : Type := {
  total_creados : Z;
  total_completados : Z;
  tiempo_promedio_viaje : Q;
  vehiculos_bloqueados : Z
}.

Record GestorVehiculos : Type := {
  vehiculos : HashTable.t ref;
  contador_vehiculos : Z;
  vehiculos_activos : list ref;
  vehiculos_completados : list ref;
  estadisticas : Estadisticas
}.

Definition GestorVehiculos_init : GestorVehiculos :=
  {| vehiculos := HashTable.nueva; contador_vehiculos := 0;
     vehiculos_activos := ListaEnlazada.nueva;
     vehiculos_completados := ListaEnlazada.nueva;
     estadisticas := {| total_creados := 0; total_completados := 0;
                        tiempo_promedio_viaje := 0; vehiculos_bloqueados := 0 |} |}.

(** The manager, the graph it was given, and the vehicle objects, which the
    registry and the two lists of the manager share. *)
Record Simulacion : Type := {
  sim_grafo : EstadoGrafo;
  mem_vehiculos : list Vehiculo;
  gestor : GestorVehiculos
}.

Definition poner_sim_grafo (g : EstadoGrafo) (s : Simulacion) : Simulacion :=
  {| sim_grafo := g; mem_vehiculos := mem_vehiculos s; gestor := gestor s |}.
Definition poner_mem_vehiculos (m : list Vehiculo) (s : Simulacion) : Simulacion :=
  {| sim_grafo := sim_grafo s; mem_vehiculos := m; gestor := gestor s |}.
Definition poner_gestor (g : GestorVehiculos) (s : Simulacion) : Simulacion :=
  {| sim_grafo := sim_grafo s; mem_vehiculos := mem_vehiculos s; gestor := g |}.

Definition poner_vehiculos (t : HashTable.t ref) (g : GestorVehiculos) : GestorVehiculos :=
  {| vehiculos := t; contador_vehiculos := contador_vehiculos g;
     vehiculos_activos := vehiculos_activos g;
     vehiculos_completados := vehiculos_completados g;
     estadisticas := estadisticas g |}.
Definition poner_contador_vehiculos (n : Z) (g : GestorVehiculos) : GestorVehiculos :=
  {| vehiculos := vehiculos g; contador_vehiculos := n;
     vehiculos_activos := vehiculos_activos g;
     vehiculos_completados := vehiculos_completados g;
     estadisticas := estadisticas g |}.
Definition poner_vehiculos_activos (l : list ref) (g : GestorVehiculos) : GestorVehiculos :=
  {| vehiculos := vehiculos g; contador_vehiculos := contador_vehiculos g;
     vehiculos_activos := l;
     vehiculos_completados := vehiculos_completados g;
     estadisticas := estadisticas g |}.
Definition poner_vehiculos_completados (l : list ref) (g : GestorVehiculos) : GestorVehiculos :=
  {| vehiculos := vehiculos g; contador_vehiculos := contador_vehiculos g;
     vehiculos_activos := vehiculos_activos g;
     vehiculos_completados := l;
     estadisticas := estadisticas g |}.
Definition poner_estadisticas (e : Estadisticas) (g : GestorVehiculos) : GestorVehiculos :=
  {| vehiculos := vehiculos g; contador_vehiculos := contador_vehiculos g;
     vehiculos_activos := vehiculos_activos g;
     vehiculos_completados := vehiculos_completados g;
     estadisticas := e |}.

Definition en_grafo {A : Type} (m : M EstadoGrafo A) : M Simulacion A :=
  enfocar sim_grafo poner_sim_grafo m.
Definition en_vehiculo {A : Type} (r : ref) (m : M Vehiculo A) : M Simulacion A :=
  enfocar mem_vehiculos poner_mem_vehiculos (en_objeto r m).
Definition en_gestor {A : Type} (m : M GestorVehiculos A) : M Simulacion A :=
  enfocar gestor poner_gestor m.
Definition en_registro {A : Type} (m : M (HashTable.t ref) A) : M Simulacion A :=
  en_gestor (enfocar vehiculos poner_vehiculos m).

(** [arista.obtener_distancia_euclidiana()] *)
Definition obtener_distancia_euclidiana (a : AristaGrafo) : Q :=
  let dx := (nodo_x (destino a) - nodo_x (origen a))%Q in
  let dy := (nodo_y (destino a) - nodo_y (origen a))%Q in
  raiz (dx * dx + dy * dy)%Q.

(** [max(a, b)] on numbers. *)
Definition q_max (a b : Q) : Q := if Qle_bool a b then b else a.

Definition _interpolar_posicion (v : ref) (arista : ref) : M Simulacion unit :=
  (a <- en_grafo (en_arista arista leer) ;;
   en_vehiculo v (modificar (fun veh =>
     poner_posicion
       (nodo_x (origen a) + (nodo_x (destino a) - nodo_x (origen a)) * progreso_arista veh)%Q
       (nodo_y (origen a) + (nodo_y (destino a) - nodo_y (origen a)) * progreso_arista veh)%Q
       veh)))%metodo.

(** [len(self.ruta_aristas)] *)
Definition largo_ruta (veh : Vehiculo) : Z := Z.of_nat (length (ruta_aristas veh)).

Definition actualizar_posicion (v : ref) (delta_tiempo : Q) : M Simulacion unit :=
  (veh <- en_vehiculo v leer ;;
   if negb (estado_igual (estado veh) viajando) || ListaEnlazada.es_vacia (ruta_aristas veh)
   then ret tt
   else if largo_ruta veh <=? indice_ruta_actual veh then
     en_vehiculo v (modificar (poner_estado arribado)) ;;;
     en_vehiculo v (modificar (poner_posicion (nodo_x (nodo_destino veh))
                                              (nodo_y (nodo_destino veh))))
   else
     arista_actual <- puro (elemento_en (ruta_aristas veh) (indice_ruta_actual veh)) ;;
     let distancia_movimiento := (velocidad veh * delta_tiempo)%Q in
     a <- en_grafo (en_arista arista_actual leer) ;;
     let distancia_arista := obtener_distancia_euclidiana a in
     let progreso_incremento := (distancia_movimiento / q_max distancia_arista 1)%Q in
     en_vehiculo v (modificar (fun veh =>
       poner_progreso_arista (progreso_arista veh + progreso_incremento)%Q veh)) ;;;
     veh1 <- en_vehiculo v leer ;;
     (if Qle_bool 1 (progreso_arista veh1) then
        en_grafo (en_arista arista_actual remover_vehiculo) ;;;
        en_vehiculo v (modificar (fun veh =>
          poner_indice_ruta_actual (indice_ruta_actual veh + 1) veh)) ;;;
        en_vehiculo v (modificar (poner_progreso_arista 0)) ;;;
        veh2 <- en_vehiculo v leer ;;
        if indice_ruta_actual veh2 <? largo_ruta veh2 then
          siguiente_arista <-
            puro (elemento_en (ruta_aristas veh2) (indice_ruta_actual veh2)) ;;
          en_grafo (en_arista siguiente_arista agregar_vehiculo)
        else ret tt
      else ret tt) ;;;
     veh3 <- en_vehiculo v leer ;;
     (if indice_ruta_actual veh3 <? largo_ruta veh3 then
        arista_actual <-
          puro (elemento_en (ruta_aristas veh3) (indice_ruta_actual veh3)) ;;
        _interpolar_posicion v arista_actual
      else ret tt) ;;;
     en_vehiculo v (modificar (fun veh =>
       poner_tiempo_viaje (tiempo_viaje veh + delta_tiempo)%Q veh)))%metodo.

(** Creates the object and returns the reference to it. *)
Definition crear_objeto_vehiculo (veh : Vehiculo) : M Simulacion ref :=
  (s <- leer ;;
   modificar (poner_mem_vehiculos (mem_vehiculos s ++ [veh])) ;;;
   ret (length (mem_vehiculos s)))%metodo.

Definition sumar_bloqueado (e : Estadisticas) : Estadisticas :=
  {| total_creados := total_creados e; total_completados := total_completados e;
     tiempo_promedio_viaje := tiempo_promedio_viaje e;
     vehiculos_bloqueados := vehiculos_bloqueados e + 1 |}.
Definition sumar_creado (e : Estadisticas) : Estadisticas :=
  {| total_creados := total_creados e + 1; total_completados := total_completados e;
     tiempo_promedio_viaje := tiempo_promedio_viaje e;
     vehiculos_bloqueados := vehiculos_bloqueados e |}.
Definition sumar_completado (e : Estadisticas) : Estadisticas :=
  {| total_creados := total_creados e; total_completados := total_completados e + 1;
     tiempo_promedio_viaje := tiempo_promedio_viaje e;
     vehiculos_bloqueados := vehiculos_bloqueados e |}.
Definition poner_tiempo_promedio (t : Q) (e : Estadisticas) : Estadisticas :=
  {| total_creados := total_creados e; total_completados := total_completados e;
     tiempo_promedio_viaje := t;
     vehiculos_bloqueados := vehiculos_bloqueados e |}.

(** Returns the new vehicle, or [None] when an endpoint is not a node of the
    graph. *)
Definition crear_vehiculo (azar : Azar) (id_origen id_destino : clave)
  : M Simulacion (option ref) :=
  (s <- leer ;;
   nodo_origen <- puro (HashTable.obtener id_origen (nodos (grafo (sim_grafo s)))) ;;
   nodo_destino <- puro (HashTable.obtener id_destino (nodos (grafo (sim_grafo s)))) ;;
   match nodo_origen, nodo_destino with
   | Some nodo_origen, Some nodo_destino =>
       en_gestor (modificar (fun g =>
         poner_contador_vehiculos (contador_vehiculos g + 1) g)) ;;;
       s1 <- leer ;;
       let id_vehiculo := contador_vehiculos (gestor s1) in
       vehiculo <- crear_objeto_vehiculo
                     (Vehiculo_init azar id_vehiculo nodo_origen nodo_destino) ;;
       ruta <- puro (encontrar_ruta_mas_corta id_origen id_destino (sim_grafo s1)) ;;
       let '(distancia, nodos_ruta, aristas_ruta) := ruta in
       match nodos_ruta with
       | _ :: _ =>
           en_vehiculo vehiculo (establecer_ruta nodos_ruta aristas_ruta distancia) ;;;
           match aristas_ruta with
           | primera :: _ => en_grafo (en_arista primera agregar_vehiculo)
           | [] => ret tt
           end
       | [] =>
           en_vehiculo vehiculo (modificar (poner_estado bloqueado)) ;;;
           en_gestor (modificar (fun g =>
             poner_estadisticas (sumar_bloqueado (estadisticas g)) g))
       end ;;;
       en_registro (HashTable.insertar (ClaveInt id_vehiculo) (Some vehiculo)) ;;;
       en_gestor (modificar (fun g =>
         poner_vehiculos_activos (ListaEnlazada.agregar vehiculo (vehiculos_activos g)) g)) ;;;
       en_gestor (modificar (fun g =>
         poner_estadisticas (sumar_creado (estadisticas g)) g)) ;;;
       ret (Some vehiculo)
   | _, _ => ret None
   end)%metodo.

(** [total_tiempo / count] over the completed vehicles. *)
Fixpoint suma_tiempos (mem : list Vehiculo) (l : list ref) : resultado Q :=
  match l with
  | [] => Ok 0%Q
  | r :: l' =>
      (veh <- desreferenciar mem r ;;
       resto <- suma_tiempos mem l' ;;
       Ok (tiempo_viaje veh + resto)%Q)%resultado
  end.

Definition _procesar_vehiculo_completado (vehiculo : ref) : M Simulacion unit :=
  (en_gestor (modificar (fun g =>
     poner_vehiculos_activos
       (snd (ListaEnlazada.eliminar misma_ref vehiculo (vehiculos_activos g))) g)) ;;;
   en_gestor (modificar (fun g =>
     poner_vehiculos_completados
       (ListaEnlazada.agregar vehiculo (vehiculos_completados g)) g)) ;;;
   en_gestor (modificar (fun g =>
     poner_estadisticas (sumar_completado (estadisticas g)) g)) ;;;
   s <- leer ;;
   let completados := ListaEnlazada.obtener_lista (vehiculos_completados (gestor s)) in
   total_tiempo <- puro (suma_tiempos (mem_vehiculos s) completados) ;;
   let count := Z.of_nat (length completados) in
   if 0 <? count then
     en_gestor (modificar (fun g =>
       poner_estadisticas
         (poner_tiempo_promedio (total_tiempo / inject_Z count)%Q (estadisticas g)) g))
   else ret tt)%metodo.

Definition actualizar_simulacion (delta_tiempo : Q) : M Simulacion unit :=
  (s <- leer ;;
   let vehiculos_a_procesar := ListaEnlazada.obtener_lista (vehiculos_activos (gestor s)) in
   para_cada vehiculos_a_procesar (fun vehiculo =>
     veh <- en_vehiculo vehiculo leer ;;
     let estado_anterior := estado veh in
     actualizar_posicion vehiculo delta_tiempo ;;;
     veh' <- en_vehiculo vehiculo leer ;;
     if estado_igual (estado veh') arribado && negb (estado_igual estado_anterior arribado)
     then _procesar_vehiculo_completado vehiculo
     else ret tt))%metodo.

Definition eliminar_vehiculo (id_vehiculo : clave) : M Simulacion bool :=
  (s <- leer ;;
   vehiculo <- puro (HashTable.obtener id_vehiculo (vehiculos (gestor s))) ;;
   match vehiculo with
   | Some vehiculo =>
       veh <- en_vehiculo vehiculo leer ;;
       (if estado_igual (estado veh) viajando && (indice_ruta_actual veh <? largo_ruta veh)
        then
          arista_actual <- puro (elemento_en (ruta_aristas veh) (indice_ruta_actual veh)) ;;
          en_grafo (en_arista arista_actual remover_vehiculo)
        else ret tt) ;;;
       en_gestor (modificar (fun g =>
         poner_vehiculos_activos
           (snd (ListaEnlazada.eliminar misma_ref vehiculo (vehiculos_activos g))) g)) ;;;
       _ <- en_registro (HashTable.eliminar id_vehiculo) ;;
       ret true
   | None => ret false
   end)%metodo.

End Grafo.

(* ================================================================== *)
(** * algoritmos_dijkstra.py: the rankings of [AnalizadorTrafico]      *)
(* ================================================================== *)

(** [a < b] on what the lists to sort hold in second place: a number, or the
    [None] that [HashTable.obtener] may return, which [<] refuses. *)
Definition valor_menor (a b : option Q) : resultado bool :=
  match a, b with
  | Some x, Some y => Ok (negb (Qle_bool y x))
  | _, _ => Lanza TypeError
  end.

(** [range(n)] *)
Definition rango (n : Z) : list Z := map Z.of_nat (seq 0 (Z.to_nat n)).

(** [range(a, b)] *)
Definition rango_entre (a b : Z) : list Z := map (fun k => a + k) (rango (b - a)).

Section Ordenar.
Context {A : Type}.

(** The body of the inner loop of [_ordenar_por_valor]. With [reverso] the
    test is [lista[j][1] < lista[j + 1][1]], without it
    [lista[j][1] > lista[j + 1][1]]. *)
Definition comparar_e_intercambiar (reverso : bool) (j : Z) : M (list (A * option Q)) unit :=
  (lista <- leer ;;
   a <- puro (elemento_en lista j) ;;
   b <- puro (elemento_en lista (j + 1)) ;;
   fuera_de_orden <-
     puro (if reverso then valor_menor (snd a) (snd b) else valor_menor (snd b) (snd a)) ;;
   if fuera_de_orden then
     l1 <- puro (asignar_en lista j b) ;;
     l2 <- puro (asignar_en l1 (j + 1) a) ;;
     escribir l2
   else ret tt)%metodo.

(** The list is sorted where it is; the state is the list. *)
Definition _ordenar_por_valor (reverso : bool) : M (list (A * option Q)) unit :=
  (lista <- leer ;;
   let n := Z.of_nat (length lista) in
   para_cada (rango n) (fun i =>
     para_cada (rango_entre 0 (n - i - 1)) (fun j =>
       comparar_e_intercambiar reverso j)))%metodo.

(** [self._ordenar_por_valor(lista, reverso=True)[:5]] *)
Definition cinco_primeros (lista : list (A * option Q)) : resultado (list (A * option Q)) :=
  let '(r, ordenada) := _ordenar_por_valor true lista in
  (_ <- r ;; Ok (take 5 ordenada))%resultado.

End Ordenar.

(** [nodo.id], which raises if [nodo] is [None]. *)
Definition id_de (nodo : option NodoGrafo) : resultado clave :=
  match nodo with
  | Some n => Ok (ClaveInt (nodo_id n))
  | None => Lanza AttributeError
  end.

(** [for nodo in nodos] of [_identificar_nodos_muy_conectados]; [nodo.id]
    raises if [nodo] is [None]. *)
Fixpoint conexiones_de (s : EstadoGrafo) (nodos : list (option NodoGrafo))
  : resultado (list (NodoGrafo * option Q)) :=
  match nodos with
  | [] => Ok []
  | None :: _ => Lanza AttributeError
  | Some nodo :: resto =>
      (aristas <- obtener_aristas_nodo (ClaveInt (nodo_id nodo)) s ;;
       let num_conexiones := inject_Z (Z.of_nat (length aristas)) in
       demas <- conexiones_de s resto ;;
       Ok ((nodo, Some num_conexiones) :: demas))%resultado
  end.

Definition _identificar_nodos_muy_conectados (s : EstadoGrafo)
  : resultado (list (NodoGrafo * option Q)) :=
  (nodos_conectados <- conexiones_de s (obtener_nodos_lista s) ;;
   cinco_primeros nodos_conectados)%resultado.

(** [(arista.carga_trafico / max(arista.capacidad_maxima, 1)) * 100] *)
Definition porcentaje_congestion (a : AristaGrafo) : Q :=
  (inject_Z (carga_trafico a) / inject_Z (Z.max (capacidad_maxima a) 1) * 100)%Q.

(** [for arista in aristas] of [_identificar_aristas_congestionadas]. *)
Fixpoint congestion_de (mem : list AristaGrafo) (aristas : list ref)
  : resultado (list (ref * option Q)) :=
  match aristas with
  | [] => Ok []
  | r :: resto =>
      (a <- desreferenciar mem r ;;
       demas <- congestion_de mem resto ;;
       Ok (if 0 <? carga_trafico a
           then (r, Some (porcentaje_congestion a)) :: demas else demas))%resultado
  end.

Definition _identificar_aristas_congestionadas (s : EstadoGrafo)
  : resultado (list (ref * option Q)) :=
  (aristas <- obtener_todas_aristas s ;;
   aristas_congestionadas <- congestion_de (mem_aristas s) aristas ;;
   cinco_primeros aristas_congestionadas)%resultado.

(** [enumerate(l)] *)
Definition enumerar {A : Type} (l : list A) : list (Z * A) :=
  combine (rango (Z.of_nat (length l))) l.

(** [for k in range(1, len(ruta_nodos) - 1)] of
    [_calcular_centralidad_intermediacion]; [valor_actual + 1] raises on
    [None]. *)
Definition incrementar_intermedios (ruta_nodos : list clave) : M (HashTable.t Q) unit :=
  para_cada (rango_entre 1 (Z.of_nat (length ruta_nodos) - 1)) (fun k =>
    (id_intermedio <- puro (elemento_en ruta_nodos k) ;;
     centralidad <- leer ;;
     valor_actual <- puro (HashTable.obtener id_intermedio centralidad) ;;
     match valor_actual with
     | Some v => HashTable.insertar id_intermedio (Some (v + 1)%Q)
     | None => lanzar TypeError
     end)%metodo).

(** [for nodo in nodos: nodos_centrales.append((nodo, centralidad.obtener(nodo.id)))] *)
Fixpoint valores_de_centralidad (centralidad : HashTable.t Q) (nodos : list (option NodoGrafo))
  : resultado (list (NodoGrafo * option Q)) :=
  match nodos with
  | [] => Ok []
  | None :: _ => Lanza AttributeError
  | Some nodo :: resto =>
      (valor <- HashTable.obtener (ClaveInt (nodo_id nodo)) centralidad ;;
       demas <- valores_de_centralidad centralidad resto ;;
       Ok ((nodo, valor) :: demas))%resultado
  end.

(** The state of the method is the table [centralidad]; the graph is only
    read. *)
Definition _calcular_centralidad_intermediacion (s : EstadoGrafo)
  : resultado (list (NodoGrafo * option Q)) :=
  let nodos := obtener_nodos_lista s in
  let '(r, centralidad) :=
    ((para_cada nodos (fun nodo =>
        id <- puro (id_de nodo) ;;
        HashTable.insertar id (Some 0%Q))) ;;;
     para_cada (enumerar nodos) (fun s_ =>
       para_cada (enumerar nodos) (fun t_ =>
         if negb (fst s_ =? fst t_) then
           id_s <- puro (id_de (snd s_)) ;;
           id_t <- puro (id_de (snd t_)) ;;
           ruta <- puro (encontrar_ruta_mas_corta id_s id_t s) ;;
           incrementar_intermedios (snd (fst ruta))
         else ret tt)))%metodo HashTable.nueva in
  (_ <- r ;;
   nodos_centrales <- valores_de_centralidad centralidad nodos ;;
   cinco_primeros nodos_centrales)%resultado.

(** The dict that [identificar_puntos_criticos] returns. *)
Record PuntosCriticos : Type := {
  nodos_centrales : list (NodoGrafo * option Q);
  aristas_congestionadas : list (ref * option Q);
  nodos_conectados : list (NodoGrafo * option Q);
  cuellos_botella : list ref
}.

(** The four entries of the dict are computed in the order in which they
    are written. *)
Definition identificar_puntos_criticos : M EstadoGrafo PuntosCriticos :=
  (s <- leer ;;
   centrales <- puro (_calcular_centralidad_intermediacion s) ;;
   congestionadas <- puro (_identificar_aristas_congestionadas s) ;;
   conectados <- puro (_identificar_nodos_muy_conectados s) ;;
   cuellos <- _identificar_cuellos_botella ;;
   ret {| nodos_centrales := centrales; aristas_congestionadas := congestionadas;
          nodos_conectados := conectados; cuellos_botella := cuellos |})%metodo.

(* ================================================================== *)
(** * vehiculos_simulacion.py: [MotorSimulacion]                       *)
(* ================================================================== *)

(** [for arista in self.grafo.obtener_todas_aristas():
       arista.calcular_peso_dinamico()] *)
Definition _actualizar_pesos_dinamicos : M EstadoGrafo unit :=
  (s <- leer ;;
   aristas <- puro (obtener_todas_aristas s) ;;
   para_cada aristas (fun arista =>
     _ <- en_arista arista calcular_peso_dinamico ;; ret tt))%metodo.

(* ================================================================== *)
(** * Invariants and specifications *)
(* ================================================================== *)

(** The bucket of a key: [hash(clave) % self.capacidad]. *)
Definition hash_de (k : clave) : Z :=
  match k with
  | ClaveStr s => suma_ord s
  | ClaveInt z => hash_int z
  end.

Definition indice_de (k : clave) (cap : Z) : nat := Z.to_nat (hash_de k mod cap).

Section TablaDefs.
Context {V : Type}.

Record coherente (h : HashTable.t V) : Prop := {
  coh_cap : 0 < HashTable.capacidad h;
  coh_len : length (HashTable.buckets h) = Z.to_nat (HashTable.capacidad h);
  coh_col : forall i b p, HashTable.buckets h !! i = Some b -> In p b ->
              indice_de (fst p) (HashTable.capacidad h) = i;
  coh_nodup : List.NoDup (HashTable.obtener_claves h);
  coh_tam : HashTable.tamaño h = Z.of_nat (length (HashTable.obtener_pares h))
}.

(** The table after [bucket.agregar((k, v))] and [self.tamaño += 1]. *)
Definition con_par (k : clave) (v : option V) (h : HashTable.t V) : HashTable.t V :=
  match HashTable.buckets h !! indice_de k (HashTable.capacidad h) with
  | Some b =>
      {| HashTable.capacidad := HashTable.capacidad h;
         HashTable.tamaño := HashTable.tamaño h + 1;
         HashTable.buckets :=
           <[indice_de k (HashTable.capacidad h) := b ++ [(k, v)]]> (HashTable.buckets h) |}
  | None => h
  end.

Definition bien_formada (h : HashTable.t V) : Prop :=
  coherente h /\ 4 * HashTable.tamaño h < 3 * HashTable.capacidad h.

(** What [eliminar] keeps and what [mutar_valor] does, entry by entry. *)
Definition otra_clave (k : clave) (p : HashTable.par V) : bool := negb (clave_eqb (fst p) k).

Definition mutar_par (k : clave) (f : V -> V) (p : HashTable.par V) : HashTable.par V :=
  if clave_eqb (fst p) k then (fst p, f <$> snd p) else p.

End TablaDefs.

(** The three tables of a query hold the same keys. *)
Record locales_coherentes (l : LocalesDijkstra) : Prop := {
  lc_dist : bien_formada (distancias l);
  lc_pred : bien_formada (predecesores l);
  lc_vis : bien_formada (visitados l);
  lc_pred_claves : forall k, In k (HashTable.obtener_claves (predecesores l)) <->
                             In k (HashTable.obtener_claves (distancias l));
  lc_vis_claves : forall k, In k (HashTable.obtener_claves (visitados l)) <->
                            In k (HashTable.obtener_claves (distancias l))
}.

(** The edge behind [r] does not lead to node [n]. *)
Definition no_va_a (mem : list AristaGrafo) (n : clave) (r : ref) : bool :=
  match mem !! r with
  | Some a => negb (clave_eqb (ClaveInt (nodo_id (destino a))) n)
  | None => true
  end.

(** What [eliminar_nodo n] makes of an entry of [lista_adyacencia] when it
    has swept the keys [ks]. *)
Definition podar (mem : list AristaGrafo) (n : clave) (ks : list clave)
  (p : HashTable.par (list ref)) : HashTable.par (list ref) :=
  if existsb (clave_eqb (fst p)) ks && negb (clave_eqb (fst p) n)
  then (fst p, List.filter (no_va_a mem n) <$> snd p)
  else p.

Definition refs_validas (mem : list AristaGrafo) (ps : list (HashTable.par (list ref))) : Prop :=
  forall k l r, In (k, Some l) ps -> In r l -> (r < length mem)%nat.

(** The state of the graph with another adjacency table. *)
Definition con_adyacencia (t : HashTable.t (list ref)) (s : EstadoGrafo) : EstadoGrafo :=
  poner_grafo (poner_lista_adyacencia t (grafo s)) s.
Definition con_nodos (t : HashTable.t NodoGrafo) (s : EstadoGrafo) : EstadoGrafo :=
  poner_grafo (poner_nodos t (grafo s)) s.

(** The invariant of the graph: both tables are well formed; a node is stored
    under its id, which the counter has already passed; every node has an
    adjacency list; and an edge is an object of the store, kept in the list
    of its origin, with a destination that is a node of the graph. *)
Record grafo_integro (s : EstadoGrafo) : Prop := {
  gi_nodos : bien_formada (nodos (grafo s));
  gi_ady : bien_formada (lista_adyacencia (grafo s));
  gi_nodo : forall k v, In (k, v) (HashTable.obtener_pares (nodos (grafo s))) ->
      exists nodo, v = Some nodo /\ k = ClaveInt (nodo_id nodo) /\
                   1 <= nodo_id nodo <= contador_nodos (grafo s);
  gi_lista : forall k v, In (k, v) (HashTable.obtener_pares (lista_adyacencia (grafo s))) ->
      In k (HashTable.obtener_claves (nodos (grafo s))) /\
      exists l, v = Some l /\
        forall r, In r l ->
          exists a, mem_aristas s !! r = Some a /\
                    ClaveInt (nodo_id (origen a)) = k /\
                    In (ClaveInt (nodo_id (destino a))) (HashTable.obtener_claves (nodos (grafo s)));
  gi_claves : forall k, In k (HashTable.obtener_claves (nodos (grafo s))) ->
      In k (HashTable.obtener_claves (lista_adyacencia (grafo s)));
  gi_contador : 0 <= contador_nodos (grafo s)
}.

(** The store [m'] has every edge of [m], between the same nodes. *)
Definition mismos_extremos (m m' : list AristaGrafo) : Prop :=
  forall r a, m !! r = Some a ->
    exists a', m' !! r = Some a' /\ origen a' = origen a /\ destino a' = destino a.

Section Alcance.
Variable raiz : Q -> Q.

(** The states of the graph that the program can reach: from the empty
    graph, by the methods that change it. *)
Inductive alcanzable : EstadoGrafo -> Prop :=
| alc_inicial : alcanzable estado_inicial
| alc_agregar_nodo s x y nombre :
    alcanzable s -> alcanzable (snd (agregar_nodo x y nombre s))
| alc_agregar_arista s id_origen id_destino peso bidir :
    alcanzable s -> alcanzable (snd (agregar_arista raiz id_origen id_destino peso bidir s))
| alc_eliminar_nodo s id_nodo :
    alcanzable s -> alcanzable (snd (eliminar_nodo id_nodo s))
| alc_bloquear_arista s id_origen id_destino :
    alcanzable s -> alcanzable (snd (bloquear_arista id_origen id_destino s))
| alc_desbloquear_arista s id_origen id_destino :
    alcanzable s -> alcanzable (snd (desbloquear_arista id_origen id_destino s))
| alc_agregar_vehiculo s r :
    alcanzable s -> alcanzable (snd (en_arista r agregar_vehiculo s))
| alc_remover_vehiculo s r :
    alcanzable s -> alcanzable (snd (en_arista r remover_vehiculo s))
| alc_calcular_peso s r :
    alcanzable s -> alcanzable (snd (en_arista r calcular_peso_dinamico s)).

End Alcance.

(** ** A checker for the invariant of a table *)
Section TablaComprobar.
Context {V : Type}.

Fixpoint colocados (cap : Z) (i : nat) (bs : list (list (HashTable.par V))) : bool :=
  match bs with
  | [] => true
  | b :: bs' =>
      forallb (fun p => Nat.eqb (indice_de (fst p) cap) i) b && colocados cap (S i) bs'
  end.

Fixpoint sin_repetir (ks : list clave) : bool :=
  match ks with
  | [] => true
  | k :: ks' => negb (existsb (clave_eqb k) ks') && sin_repetir ks'
  end.

Definition bien_formadab (h : HashTable.t V) : bool :=
  (0 <? HashTable.capacidad h) &&
  Nat.eqb (length (HashTable.buckets h)) (Z.to_nat (HashTable.capacidad h)) &&
  colocados (HashTable.capacidad h) 0 (HashTable.buckets h) &&
  sin_repetir (HashTable.obtener_claves h) &&
  (HashTable.tamaño h =? Z.of_nat (length (HashTable.obtener_pares h))) &&
  (4 * HashTable.tamaño h <? 3 * HashTable.capacidad h).

End TablaComprobar.

(** ** The weight equation of an edge *)

(** [base_weight * (1 + 2 * load / max(capacity, 1))] *)
Definition peso_segun_carga (a : AristaGrafo) : Q :=
  (peso_base a *
   (1 + 2 * inject_Z (carga_trafico a) / inject_Z (Z.max (capacidad_maxima a) 1)))%Q.

Definition ecuacion_peso (a : AristaGrafo) : Prop := (peso_actual a == peso_segun_carga a)%Q.

(** ** Routes and their cost

    A route follows the pairs that [obtener_vecinos] returns; its cost is the
    sum of their weights. *)
Inductive ruta_con_costo (s : EstadoGrafo) : clave -> clave -> list clave -> Q -> Prop :=
| ruta_llegada a : ruta_con_costo s a a [a] 0
| ruta_paso a b c vecinos nodo peso resto costo :
    obtener_vecinos a s = Ok vecinos ->
    In (nodo, peso) vecinos ->
    ClaveInt (nodo_id nodo) = b ->
    ruta_con_costo s b c resto costo ->
    ruta_con_costo s a c (a :: resto) (peso + costo)%Q.

(** The neighbour pair leads to the node [v]. *)
Definition vecino_es (v : clave) (x : NodoGrafo * Q) : bool :=
  clave_eqb (ClaveInt (nodo_id (fst x))) v.

(** The edges from [u] to [v], in the order of the adjacency list. *)
Definition aristas_entre (u v : clave) (s : EstadoGrafo) : resultado (list ref) :=
  (aristas <- obtener_aristas_nodo u s ;;
   aristas_hacia (mem_aristas s) v aristas)%resultado.

(** ** The load invariant of the vehicle manager *)

(** The objects of a list of values, [None] left out. *)
Definition objetos {A : Type} (l : list (option A)) : list A :=
  flat_map (fun v => match v with Some x => [x] | None => [] end) l.

(** The registered vehicles: the values of [self.vehiculos]. *)
Definition registrados (s : Simulacion) : list ref :=
  objetos (HashTable.obtener_valores (vehiculos (gestor s))).

(** The current route edge of a vehicle: [ruta_aristas[indice_ruta_actual]]
    while it is travelling and the index is within the route (the index never
    goes below zero). *)
Definition arista_en_curso (veh : Vehiculo) : option ref :=
  if estado_igual (estado veh) viajando
  then ruta_aristas veh !! Z.to_nat (indice_ruta_actual veh)
  else None.

Definition en_arista_b (e : ref) (veh : Vehiculo) : bool :=
  match arista_en_curso veh with
  | Some e' => Nat.eqb e' e
  | None => false
  end.

(** The vehicle behind [r] is travelling on the edge [e]. *)
Definition ocupa (mem : list Vehiculo) (e r : ref) : bool :=
  match mem !! r with
  | Some veh => en_arista_b e veh
  | None => false
  end.

(** The number of registered vehicles in state [viajando] whose current
    route edge is [e]. *)
Definition vehiculos_en_arista (s : Simulacion) (e : ref) : Z :=
  Z.of_nat (length (List.filter (ocupa (mem_vehiculos s) e) (registrados s))).

Definition invariante_carga (s : Simulacion) : Prop :=
  forall e a, mem_aristas (sim_grafo s) !! e = Some a ->
    carga_trafico a = vehiculos_en_arista s e.

(** What the manager keeps true of its own data: the registry is a
    well-formed table that holds each vehicle once; the active vehicles are
    registered, each once; a registered vehicle is an object of the store,
    its index is not negative and its route is made of edges of the store;
    the completed vehicles are objects of the store. *)
Record gestor_coherente (s : Simulacion) : Prop := {
  gc_tabla : bien_formada (vehiculos (gestor s));
  gc_registrados : List.NoDup (registrados s);
  gc_activos_unicos : List.NoDup (vehiculos_activos (gestor s));
  gc_activos : forall r, In r (vehiculos_activos (gestor s)) -> In r (registrados s);
  gc_vehiculo : forall r, In r (registrados s) ->
      exists veh, mem_vehiculos s !! r = Some veh /\
        0 <= indice_ruta_actual veh /\
        forall e, In e (ruta_aristas veh) -> (e < length (mem_aristas (sim_grafo s)))%nat;
  gc_completados : forall r, In r (vehiculos_completados (gestor s)) ->
      (r < length (mem_vehiculos s))%nat
}.

(** 1 when the vehicle travels on [e], else 0. *)
Definition peso_en (e : ref) (veh : Vehiculo) : Z := if en_arista_b e veh then 1 else 0.

Definition contar (mem : list Vehiculo) (e : ref) (regs : list ref) : Z :=
  Z.of_nat (length (List.filter (ocupa mem e) regs)).

(** What one call of [actualizar_posicion] on the vehicle behind [r] does to
    the simulation: the manager and the graph table are left alone, the
    vehicle is replaced by [veh'], which keeps its route, and on every edge
    the load moves with the vehicle. *)
Record paso_vehiculo (r : ref) (veh veh' : Vehiculo) (s s' : Simulacion) : Prop := {
  pv_gestor : gestor s' = gestor s;
  pv_mem : mem_vehiculos s' = <[r := veh']> (mem_vehiculos s);
  pv_largo : length (mem_aristas (sim_grafo s')) = length (mem_aristas (sim_grafo s));
  pv_ruta : ruta_aristas veh' = ruta_aristas veh;
  pv_indice : 0 <= indice_ruta_actual veh';
  pv_carga : forall e a, mem_aristas (sim_grafo s) !! e = Some a ->
      exists a', mem_aristas (sim_grafo s') !! e = Some a' /\
        carga_trafico a' + peso_en e veh = carga_trafico a + peso_en e veh'
}.

Section Bucle.
Variable raiz : Q -> Q.

(** The body of the loop of [actualizar_simulacion]. *)
Definition cuerpo_actualizar (dt : Q) (vehiculo : ref) : M Simulacion unit :=
  (veh <- en_vehiculo vehiculo leer ;;
   let estado_anterior := estado veh in
   actualizar_posicion raiz vehiculo dt ;;;
   veh' <- en_vehiculo vehiculo leer ;;
   if estado_igual (estado veh') arribado && negb (estado_igual estado_anterior arribado)
   then _procesar_vehiculo_completado vehiculo
   else ret tt)%metodo.

End Bucle.

(** ** The tables a program can build *)

(** From [HashTable()], by calls of [insertar] and [eliminar], whatever
    their outcome. *)
Inductive tabla_alcanzable {V : Type} : HashTable.t V -> Prop :=
| ta_nueva : tabla_alcanzable HashTable.nueva
| ta_insertar h k v :
    tabla_alcanzable h -> tabla_alcanzable (snd (HashTable.insertar k v h))
| ta_eliminar h k :
    tabla_alcanzable h -> tabla_alcanzable (snd (HashTable.eliminar k h)).

(** ** The heap of a priority queue *)

(** The index of the parent, on naturals. *)
Definition padre_de (i : nat) : nat := ((i - 1) / 2)%nat.

(** The order of a min-heap: no item is below its parent. *)
Definition es_monticulo {E : Type} (l : list (numero * E)) : Prop :=
  forall i a p, (0 < i)%nat -> l !! i = Some a -> l !! padre_de i = Some p ->
    num_menor_igual (fst p) (fst a) = true.

(** A queue whose counter is the length of its heap, in heap order. *)
Definition cola_bien_formada {E : Type} (c : ColaPrioridad.t E) : Prop :=
  ColaPrioridad.tamaño c = Z.of_nat (length (ColaPrioridad.heap c)) /\
  es_monticulo (ColaPrioridad.heap c).

(** The order of the heap but for the item at [i], which may be below its
    parent; the parent of [i] is not above the children of [i]. *)
Definition casi_monticulo_arriba {E : Type} (l : list (numero * E)) (i : nat) : Prop :=
  (forall j a p, (0 < j)%nat -> j <> i -> l !! j = Some a -> l !! padre_de j = Some p ->
     num_menor_igual (fst p) (fst a) = true) /\
  (forall j a p, (0 < i)%nat -> padre_de j = i -> l !! j = Some a ->
     l !! padre_de i = Some p -> num_menor_igual (fst p) (fst a) = true).

(** The order of the heap but for the item at [i], which may be above its
    children; the parent of [i] is not above the children of [i]. *)
Definition casi_monticulo_abajo {E : Type} (l : list (numero * E)) (i : nat) : Prop :=
  (forall j a p, (0 < j)%nat -> padre_de j <> i -> l !! j = Some a ->
     l !! padre_de j = Some p -> num_menor_igual (fst p) (fst a) = true) /\
  (forall j a p, (0 < i)%nat -> (0 < j)%nat -> padre_de j = i -> l !! j = Some a ->
     l !! padre_de i = Some p -> num_menor_igual (fst p) (fst a) = true).

(** The queues a program can build: from [ColaPrioridad()], by [insertar]
    and [extraer_min]. *)
Inductive cola_alcanzable {E : Type} : ColaPrioridad.t E -> Prop :=
| ca_nueva : cola_alcanzable ColaPrioridad.nueva
| ca_insertar c prioridad elemento :
    cola_alcanzable c ->
    cola_alcanzable (snd (ColaPrioridad.insertar prioridad elemento c))
| ca_extraer_min c :
    cola_alcanzable c -> cola_alcanzable (snd (ColaPrioridad.extraer_min c)).

(** ** The order of a ranking *)

(** The order that [_ordenar_por_valor] establishes: with [reverso] no value
    is below a later one, without it no value is above a later one. *)
Definition ordenada_por_valor {A : Type} (reverso : bool) (l : list (A * option Q)) : Prop :=
  forall i j a b x y, (i <= j)%nat ->
    l !! i = Some (a, Some x) -> l !! j = Some (b, Some y) ->
    if reverso then (y <= x)%Q else (x <= y)%Q.

(** The order between two items of such a list. *)
Definition en_orden {A : Type} (reverso : bool) (p q : A * option Q) : Prop :=
  forall x y, snd p = Some x -> snd q = Some y ->
    if reverso then (y <= x)%Q else (x <= y)%Q.

(** Every item holds a number. *)
Definition con_valores {A : Type} (l : list (A * option Q)) : Prop :=
  forall p, In p l -> exists x, snd p = Some x.

Section OrdenDefs.
Context {A : Type}.
Variable reverso : bool.
Implicit Types (l pre suf : list (A * option Q)) (p q : A * option Q).

(** The test of the loop, on two items that hold numbers. *)
Definition fuera_de_orden p q : resultado bool :=
  if reverso then valor_menor (snd p) (snd q) else valor_menor (snd q) (snd p).

(** The item at [k] is not before any item at or before [k]. *)
Definition domina l (k : nat) : Prop :=
  forall i p q, (i <= k)%nat -> l !! i = Some p -> l !! k = Some q -> en_orden reverso p q.

(** The part [suf] is in place: it is in order and nothing of [pre] comes
    after any item of it. *)
Definition en_su_sitio pre suf : Prop :=
  StronglySorted (en_orden reverso) suf /\
  forall p q, In p pre -> In q suf -> en_orden reverso p q.

End OrdenDefs.

(** ** The weight of an edge, recomputed *)

(** The edge as [calcular_peso_dinamico] leaves it. *)
Definition peso_recalculado (a : AristaGrafo) : AristaGrafo :=
  if bloqueada a then a
  else poner_peso_actual (peso_base a * factor_congestion a)%Q a.

(* ================================================================== *)
(** * Concrete states                                                  *)
(* ================================================================== *)

(** The state a method leaves. *)
Definition tras {S A : Type} (m : M S A) (s : S) : S := snd (m s).

(** [h = HashTable(); h.insertar(1, 3); h.insertar(17, 5)]: both keys fall in
    bucket 1. *)
Definition tabla_ejemplo : HashTable.t Z :=
  tras (HashTable.insertar (ClaveInt 17) (Some 5))
    (tras (HashTable.insertar (ClaveInt 1) (Some 3)) HashTable.nueva).

(** [h = HashTable(); h.insertar(1, None)] *)
Definition tabla_con_None : HashTable.t Z :=
  tras (HashTable.insertar (ClaveInt 1) None) HashTable.nueva.

(** A square root for the scenarios: exact on a quotient of two perfect
    squares, as [math.sqrt] is on the lengths met there. The theorems stated
    for every [raiz] do not depend on it. *)
Definition raiz_racional (q : Q) : Q :=
  (inject_Z (Z.sqrt (Qnum q)) / inject_Z (Z.sqrt (Zpos (Qden q))))%Q.

(** Nodes A(0,0), B(100,0), C(100,100) and the edges A->B and B->C given
    weight 1 and A->C given weight 10, none bidirectional. The nodes get the
    ids 1, 2 and 3. *)
Definition grafo_abc : EstadoGrafo :=
  tras (agregar_arista raiz_racional (ClaveInt 1) (ClaveInt 3) 10 false)
    (tras (agregar_arista raiz_racional (ClaveInt 2) (ClaveInt 3) 1 false)
      (tras (agregar_arista raiz_racional (ClaveInt 1) (ClaveInt 2) 1 false)
        (tras (agregar_nodo 100 100 "C")
          (tras (agregar_nodo 100 0 "B")
            (tras (agregar_nodo 0 0 "A") estado_inicial))))).

(** Two nodes and no edge. *)
Definition grafo_dos_nodos : EstadoGrafo :=
  tras (agregar_nodo 100 0 "B") (tras (agregar_nodo 0 0 "A") estado_inicial).

(** Two nodes and the edge 1 -> 2 of weight 5. *)
Definition grafo_una_arista : EstadoGrafo :=
  tras (agregar_arista raiz_racional (ClaveInt 1) (ClaveInt 2) 5 false) grafo_dos_nodos.

(** Two edges 1 -> 2, of weights 5 and 7, the first one blocked before the
    second was added. *)
Definition grafo_paralelo : EstadoGrafo :=
  tras (agregar_arista raiz_racional (ClaveInt 1) (ClaveInt 2) 7 false)
    (tras (bloquear_arista (ClaveInt 1) (ClaveInt 2)) grafo_una_arista).

(** The edge 1 -> 2 of [grafo_una_arista] blocked, entered by a vehicle, and
    unblocked. *)
Definition grafo_desbloqueado : EstadoGrafo :=
  tras (desbloquear_arista (ClaveInt 1) (ClaveInt 2))
    (tras (en_arista 0%nat agregar_vehiculo)
      (tras (bloquear_arista (ClaveInt 1) (ClaveInt 2)) grafo_una_arista)).

(** The edge A->B of [grafo_abc] and the neighbours of A. *)
Definition arista_ab : AristaGrafo :=
  AristaGrafo_init (NodoGrafo_init 1 0 0 "A") (NodoGrafo_init 2 100 0 "B") (100 # 50) false.

Definition vecinos_de_a : list (NodoGrafo * Q) :=
  [(NodoGrafo_init 2 100 0 "B", 100 # 50); (NodoGrafo_init 3 100 100 "C", 10%Q)].

(** The edge of [grafo_una_arista]. *)
Definition arista_12 : AristaGrafo :=
  AristaGrafo_init (NodoGrafo_init 1 0 0 "A") (NodoGrafo_init 2 100 0 "B") 5 false.

(** A vehicle on its way from A to C over B in [grafo_abc], on the first
    edge of its route. *)
Definition vehiculo_en_ab : Vehiculo :=
  {| vehiculo_id := 1;
     nodo_origen := NodoGrafo_init 1 0 0 "A"; nodo_destino := NodoGrafo_init 3 100 100 "C";
     posicion_x := 0; posicion_y := 0; velocidad := 40; estado := viajando;
     ruta_nodos := [ClaveInt 1; ClaveInt 2; ClaveInt 3]; ruta_aristas := [0%nat; 1%nat];
     indice_ruta_actual := 0; progreso_arista := 0; tiempo_espera := 0;
     distancia_total := Some (Fin 4); tiempo_viaje := 0;
     color := (255, 0, 0); vehiculo_tipo := "auto"; prioridad := 1 |}.

(** The manager with that vehicle registered and active, and the load of the
    edge A->B counting it. *)
Definition simulacion_en_marcha : Simulacion :=
  {| sim_grafo := tras (en_arista 0%nat agregar_vehiculo) grafo_abc;
     mem_vehiculos := [vehiculo_en_ab];
     gestor :=
       {| vehiculos := tras (HashTable.insertar (ClaveInt 1) (Some 0%nat)) HashTable.nueva;
          contador_vehiculos := 1;
          vehiculos_activos := [0%nat];
          vehiculos_completados := [];
          estadisticas := {| total_creados := 1; total_completados := 0;
                             tiempo_promedio_viaje := 0; vehiculos_bloqueados := 0 |} |} |}.

(** The manager as its constructor leaves it, on the graph [g]. *)
Definition simulacion_inicial (g : EstadoGrafo) : Simulacion :=
  {| sim_grafo := g; mem_vehiculos := []; gestor := GestorVehiculos_init |}.

(** ** Further states *)

(** [h = HashTable()] and [h.insertar(i, i)] for [i] from 1 to 11. *)
Definition tabla_once : HashTable.t Z :=
  fold_left (fun h i => tras (HashTable.insertar (ClaveInt i) (Some i)) h)
            [1; 2; 3; 4; 5; 6; 7; 8; 9; 10; 11] HashTable.nueva.

(** [c = ColaPrioridad(); c.insertar(3, 30); c.insertar(1, 10);
    c.insertar(2, 20)] *)
Definition cola_ejemplo : ColaPrioridad.t Z :=
  tras (ColaPrioridad.insertar (Fin 2) 20)
    (tras (ColaPrioridad.insertar (Fin 1) 10)
      (tras (ColaPrioridad.insertar (Fin 3) 30) ColaPrioridad.nueva)).

(** [grafo_abc] once its node B was removed. *)
Definition grafo_ac : EstadoGrafo := tras (eliminar_nodo (ClaveInt 2)) grafo_abc.

(** [[("a", 3), ("b", 1), ("c", 2), ("d", 3)]] *)
Definition lista_ejemplo : list (string * option Q) :=
  [("a"%string, Some 3%Q); ("b"%string, Some 1%Q); ("c"%string, Some 2%Q);
   ("d"%string, Some 3%Q)].

(** [grafo_abc] with one vehicle on its edge A->B. *)
Definition grafo_con_carga : EstadoGrafo := tras (en_arista 0%nat agregar_vehiculo) grafo_abc.

(** [simulacion_en_marcha] two ticks of three seconds later: its vehicle has
    covered both edges of its route and has not been marked as arrived
    yet. *)
Definition simulacion_llegando : Simulacion :=
  tras (actualizar_simulacion raiz_racional 3)
    (tras (actualizar_simulacion raiz_racional 3) simulacion_en_marcha).

(* ================================================================== *)
(** * Lists, keys and buckets *)
(* ================================================================== *)

Lemma clave_eqb_eq (a b : clave) : clave_eqb a b = true <-> a = b.
Proof.
  destruct a as [x|s], b as [y|t]; simpl; split; intros H; try discriminate.
  - apply Z.eqb_eq in H. congruence.
  - inversion H. apply Z.eqb_refl.
  - apply String.eqb_eq in H. congruence.
  - inversion H. apply String.eqb_refl.
Qed.

Lemma clave_eqb_refl (a : clave) : clave_eqb a a = true.
Proof. by apply clave_eqb_eq. Qed.

Lemma clave_eqb_neq (a b : clave) : clave_eqb a b = false <-> a <> b.
Proof.
  rewrite <- clave_eqb_eq. destruct (clave_eqb a b); split; congruence.
Qed.

Lemma elemento_en_Some {A} (l : list A) (n : nat) (a : A) :
  l !! n = Some a -> elemento_en l (Z.of_nat n) = Ok a.
Proof.
  intros H. unfold elemento_en.
  pose proof (lookup_lt_Some _ _ _ H) as Hlt.
  destruct (Z.of_nat n <? 0) eqn:E; [lia|].
  replace (0 <=? Z.of_nat n) with true by (symmetry; apply Z.leb_le; lia).
  replace (Z.of_nat n <? Z.of_nat (length l)) with true by (symmetry; apply Z.ltb_lt; lia).
  simpl. rewrite Nat2Z.id, H. reflexivity.
Qed.

Lemma asignar_en_lt {A} (l : list A) (n : nat) (a : A) :
  (n < length l)%nat -> asignar_en l (Z.of_nat n) a = Ok (<[n := a]> l).
Proof.
  intros Hlt. unfold asignar_en.
  destruct (Z.of_nat n <? 0) eqn:E; [lia|].
  replace (0 <=? Z.of_nat n) with true by (symmetry; apply Z.leb_le; lia).
  replace (Z.of_nat n <? Z.of_nat (length l)) with true by (symmetry; apply Z.ltb_lt; lia).
  simpl. rewrite Nat2Z.id. reflexivity.
Qed.

Lemma concat_insert_bucket {A} (bs : list (list A)) (i : nat) (b b' : list A) :
  bs !! i = Some b ->
  concat bs = concat (take i bs) ++ b ++ concat (drop (S i) bs) /\
  concat (<[i := b']> bs) = concat (take i bs) ++ b' ++ concat (drop (S i) bs).
Proof.
  intros H. split.
  - rewrite <- (take_drop_middle _ _ _ H) at 1. rewrite concat_app. reflexivity.
  - rewrite insert_take_drop by (eapply lookup_lt_Some; eauto).
    rewrite concat_app. reflexivity.
Qed.

(* ================================================================== *)
(** * The hash table *)
(* ================================================================== *)

Section TablaTeoria.
Context {V : Type}.
Implicit Types (h : HashTable.t V) (k : clave) (p : HashTable.par V)
  (b : list (HashTable.par V)).

Lemma hash_coherente h k :
  coherente h ->
  HashTable._hash k h = Ok (Z.of_nat (indice_de k (HashTable.capacidad h))) /\
  (indice_de k (HashTable.capacidad h) < length (HashTable.buckets h))%nat.
Proof.
  intros C. pose proof (coh_cap h C) as Hc. pose proof (coh_len h C) as Hl.
  unfold HashTable._hash, indice_de.
  destruct (HashTable.capacidad h =? 0) eqn:E; [apply Z.eqb_eq in E; lia|].
  pose proof (Z.mod_pos_bound (hash_de k) (HashTable.capacidad h) Hc) as Hb.
  split.
  - f_equal. unfold hash_de in *. destruct k; rewrite Z2Nat.id; lia.
  - rewrite Hl. lia.
Qed.

Lemma bucket_coherente h k :
  coherente h ->
  exists b, HashTable.buckets h !! indice_de k (HashTable.capacidad h) = Some b.
Proof.
  intros C. apply lookup_lt_is_Some_2. by apply hash_coherente.
Qed.

Lemma en_lookup {A} (l : list A) (x : A) : In x l <-> exists i, l !! i = Some x.
Proof. rewrite <- list_elem_of_In. apply list_elem_of_lookup. Qed.

Lemma buscar_par_Some k b p :
  HashTable.buscar_par k b = Some p -> In p b /\ fst p = k.
Proof.
  induction b as [|q b IH]; simpl; [discriminate|].
  destruct (clave_eqb (fst q) k) eqn:E.
  - intros [= <-]. split; [by left|]. by apply clave_eqb_eq.
  - intros H. destruct (IH H). split; [by right|done].
Qed.

Lemma buscar_par_None k b :
  HashTable.buscar_par k b = None <-> ~ In k (map fst b).
Proof.
  induction b as [|q b IH]; simpl.
  - split; [intros _ []|done].
  - destruct (clave_eqb (fst q) k) eqn:E.
    + apply clave_eqb_eq in E. split; [discriminate|]. intros H. exfalso. apply H. by left.
    + apply clave_eqb_neq in E. rewrite IH. tauto.
Qed.

Lemma buscar_par_elem k b :
  In k (map fst b) -> exists p, HashTable.buscar_par k b = Some p.
Proof.
  intros H. destruct (HashTable.buscar_par k b) eqn:E; [eauto|].
  apply buscar_par_None in E. contradiction.
Qed.

Lemma par_en_tabla h p :
  In p (HashTable.obtener_pares h) <->
  exists i b, HashTable.buckets h !! i = Some b /\ In p b.
Proof.
  unfold HashTable.obtener_pares. rewrite in_concat. split.
  - intros (b & Hb & Hp). apply en_lookup in Hb as [i Hi]. eauto.
  - intros (i & b & Hi & Hp). exists b. split; [|done]. apply en_lookup. eauto.
Qed.

Lemma clave_en_bucket h k b :
  coherente h ->
  HashTable.buckets h !! indice_de k (HashTable.capacidad h) = Some b ->
  In k (HashTable.obtener_claves h) <-> In k (map fst b).
Proof.
  intros C Hb. unfold HashTable.obtener_claves. rewrite !in_map_iff. split.
  - intros (p & <- & Hp). apply par_en_tabla in Hp as (i & b' & Hi & Hp).
    pose proof (coh_col h C _ _ _ Hi Hp) as <-. exists p. split; [done|].
    assert (b' = b) as -> by congruence. done.
  - intros (p & <- & Hp). exists p. split; [done|]. apply par_en_tabla. eauto.
Qed.

(** Running [insertar] on a key that is present. *)
Lemma insertar_comb_presente h k (valor : option V) (n : nat) :
  coherente h -> In k (HashTable.obtener_claves h) ->
  HashTable.insertar_comb (S n) k valor h = (Lanza TypeError, h).
Proof.
  intros C Hk. destruct (hash_coherente h k C) as [Hh Hlt].
  destruct (bucket_coherente h k C) as [b Hb].
  simpl. unfold ligar, leer, puro. rewrite Hh. simpl.
  rewrite (elemento_en_Some _ _ _ Hb). 
  pose proof (proj1 (clave_en_bucket h k b C Hb) Hk) as Hkb.
  destruct (buscar_par_elem _ _ Hkb) as [p Hp].
  unfold ListaEnlazada.obtener_lista. rewrite Hp. reflexivity.
Qed.

Lemma para_cada_app {S A} (l1 l2 : list A) (f : A -> M S unit) (s : S) :
  para_cada (l1 ++ l2) f s = ligar (para_cada l1 f) (fun _ => para_cada l2 f) s.
Proof.
  revert s. induction l1 as [|x l1 IH]; intros s; simpl.
  - reflexivity.
  - unfold ligar in *. destruct (f x s) as [[[]| |] s']; simpl; try reflexivity.
    apply IH.
Qed.

Lemma para_cada_concat {S A} (ls : list (list A)) (f : A -> M S unit) (s : S) :
  para_cada ls (fun l => para_cada l f) s = para_cada (concat ls) f s.
Proof.
  revert s. induction ls as [|l ls IH]; intros s; simpl; [reflexivity|].
  rewrite para_cada_app. unfold ligar.
  destruct (para_cada l f s) as [[[]| |] s']; simpl; try reflexivity. apply IH.
Qed.

Lemma insertar_comb_nueva h k (v : option V) (n : nat) :
  coherente h -> ~ In k (HashTable.obtener_claves h) ->
  4 * (HashTable.tamaño h + 1) < 3 * HashTable.capacidad h ->
  HashTable.insertar_comb (S n) k v h = (Ok tt, con_par k v h).
Proof.
  intros C Hk Hcarga. destruct (hash_coherente h k C) as [Hh Hlt].
  destruct (bucket_coherente h k C) as [b Hb].
  simpl. unfold ligar, leer, puro. rewrite Hh. simpl.
  rewrite (elemento_en_Some _ _ _ Hb).
  assert (HashTable.buscar_par k b = None) as Hn.
  { apply buscar_par_None. by rewrite <- (clave_en_bucket h k b C Hb). }
  unfold ListaEnlazada.obtener_lista. rewrite Hn.
  rewrite (asignar_en_lt _ _ _ Hlt). unfold modificar, ret. simpl.
  destruct (3 * HashTable.capacidad h <=? 4 * (HashTable.tamaño h + 1)) eqn:E;
    [apply Z.leb_le in E; lia|].
  unfold con_par. rewrite Hb. reflexivity.
Qed.

Lemma pares_con_par h k (v : option V) :
  coherente h ->
  Permutation (HashTable.obtener_pares (con_par k v h))
              (HashTable.obtener_pares h ++ [(k, v)]).
Proof.
  intros C. destruct (bucket_coherente h k C) as [b Hb].
  unfold con_par. rewrite Hb. unfold HashTable.obtener_pares. simpl.
  destruct (concat_insert_bucket (HashTable.buckets h) _ b (b ++ [(k, v)]) Hb) as [E1 E2].
  rewrite E1, E2. rewrite <- !app_assoc. apply Permutation_app_head.
  apply Permutation_app_head. apply Permutation_app_comm.
Qed.

Lemma con_par_coherente h k (v : option V) :
  coherente h -> ~ In k (HashTable.obtener_claves h) -> coherente (con_par k v h).
Proof.
  intros C Hk. pose proof (pares_con_par h k v C) as HP.
  destruct (bucket_coherente h k C) as [b Hb].
  destruct (hash_coherente h k C) as [_ Hlt].
  assert (Permutation (HashTable.obtener_claves (con_par k v h))
                      (HashTable.obtener_claves h ++ [k])) as HK.
  { unfold HashTable.obtener_claves. rewrite HP, map_app. reflexivity. }
  split.
  - unfold con_par. rewrite Hb. simpl. apply C.
  - unfold con_par. rewrite Hb. simpl. rewrite length_insert. apply C.
  - intros i b' p. unfold con_par at 1 2. rewrite Hb. simpl.
    destruct (decide (i = indice_de k (HashTable.capacidad h))) as [->|Hne].
    + rewrite list_lookup_insert_eq by done. intros [= <-] Hp.
      apply in_app_iff in Hp as [Hp|[<-|[]]]; [|done].
      eapply coh_col; eauto.
    + rewrite list_lookup_insert_ne by done. apply C.
  - eapply Permutation_NoDup; [symmetry; apply HK|].
    apply List.NoDup_app; [apply C| |].
    + apply List.NoDup_cons; [intros []|apply List.NoDup_nil].
    + intros x Hx [<-|[]]. contradiction.
  - rewrite (Permutation_length HP), length_app. simpl.
    unfold con_par. rewrite Hb. simpl. rewrite (coh_tam h C). lia.
Qed.

Lemma con_par_capacidad h k (v : option V) :
  HashTable.capacidad (con_par k v h) = HashTable.capacidad h.
Proof. unfold con_par. by destruct (_ !! _). Qed.

Lemma con_par_tamaño h k (v : option V) :
  coherente h -> HashTable.tamaño (con_par k v h) = HashTable.tamaño h + 1.
Proof.
  intros C. destruct (bucket_coherente h k C) as [b Hb].
  unfold con_par. by rewrite Hb.
Qed.

Lemma claves_permutacion h h' (ps : list (HashTable.par V)) :
  Permutation (HashTable.obtener_pares h') (HashTable.obtener_pares h ++ ps) ->
  Permutation (HashTable.obtener_claves h') (HashTable.obtener_claves h ++ map fst ps).
Proof.
  intros HP. unfold HashTable.obtener_claves. rewrite HP, map_app. reflexivity.
Qed.

(** The loop of [_redimensionar]: re-inserting entries with distinct, new
    keys into a table that stays under its load bound. *)
Lemma reinsertar (ps : list (HashTable.par V)) (n : nat) h :
  coherente h ->
  List.NoDup (map fst ps) ->
  (forall k, In k (map fst ps) -> ~ In k (HashTable.obtener_claves h)) ->
  4 * (HashTable.tamaño h + Z.of_nat (length ps)) < 3 * HashTable.capacidad h ->
  exists h',
    para_cada ps (fun p => HashTable.insertar_comb (S n) (fst p) (snd p)) h = (Ok tt, h') /\
    coherente h' /\
    Permutation (HashTable.obtener_pares h') (HashTable.obtener_pares h ++ ps) /\
    HashTable.capacidad h' = HashTable.capacidad h.
Proof.
  revert h. induction ps as [|[k v] ps IH]; intros h C Hnd Hfr Hcarga.
  - exists h. simpl. rewrite app_nil_r. auto.
  - simpl in Hnd, Hfr, Hcarga. apply List.NoDup_cons_iff in Hnd as [Hk Hnd].
    assert (~ In k (HashTable.obtener_claves h)) as Hkh by (apply Hfr; by left).
    destruct (IH (con_par k v h)) as (h' & Hrun & C' & HP & Hcap).
    + by apply con_par_coherente.
    + done.
    + intros k' Hk' Hin.
      apply (Permutation_in _ (claves_permutacion h _ [(k, v)] (pares_con_par h k v C))) in Hin.
      apply in_app_iff in Hin as [Hin|[<-|[]]]; [|done].
      apply (Hfr k'); [by right|done].
    + rewrite con_par_capacidad, con_par_tamaño by done. lia.
    + exists h'. split; [|split; [done|split]].
      * cbn [para_cada]. unfold ligar. cbn [fst snd].
        rewrite insertar_comb_nueva by (try done; lia). exact Hrun.
      * rewrite HP. rewrite (pares_con_par h k v C), <- app_assoc. reflexivity.
      * by rewrite Hcap, con_par_capacidad.
Qed.

Lemma vacia_coherente (cap : Z) :
  0 < cap ->
  coherente (V := V) {| HashTable.capacidad := cap; HashTable.tamaño := 0;
                        HashTable.buckets := HashTable.buckets_vacios cap |}.
Proof.
  intros Hc.
  assert (concat (HashTable.buckets_vacios (V := V) cap) = []) as Hvac.
  { unfold HashTable.buckets_vacios. induction (Z.to_nat cap); simpl; auto. }
  split; simpl.
  - done.
  - unfold HashTable.buckets_vacios. by rewrite length_replicate.
  - intros i b p Hi Hp. unfold HashTable.buckets_vacios in Hi.
    apply lookup_replicate in Hi as [-> _]. destruct Hp.
  - unfold HashTable.obtener_claves, HashTable.obtener_pares. simpl. rewrite Hvac.
    apply List.NoDup_nil.
  - unfold HashTable.obtener_pares. simpl. by rewrite Hvac.
Qed.

Lemma nueva_bien_formada : bien_formada (V := V) HashTable.nueva.
Proof. split; [by apply vacia_coherente|simpl; lia]. Qed.

(** [insertar] of a key that is not in the table. *)
Lemma insertar_nueva h k (v : option V) :
  bien_formada h -> ~ In k (HashTable.obtener_claves h) ->
  exists h',
    HashTable.insertar k v h = (Ok tt, h') /\
    bien_formada h' /\
    Permutation (HashTable.obtener_pares h') (HashTable.obtener_pares h ++ [(k, v)]) /\
    HashTable.tamaño h' = HashTable.tamaño h + 1.
Proof.
  intros [C Hcarga] Hk. unfold HashTable.insertar, HashTable.combustible.
  set (n := length (HashTable.obtener_pares h)).
  destruct (Z.ltb_spec (4 * (HashTable.tamaño h + 1)) (3 * HashTable.capacidad h)) as [Hlt|Hge].
  - exists (con_par k v h). rewrite insertar_comb_nueva by done.
    split; [done|]. split; [|split].
    + split; [by apply con_par_coherente|].
      rewrite con_par_capacidad, con_par_tamaño by done. lia.
    + by apply pares_con_par.
    + by apply con_par_tamaño.
  - pose proof (con_par_coherente h k v C Hk) as C1.
    pose proof (pares_con_par h k v C) as HP1.
    destruct (reinsertar (HashTable.obtener_pares (con_par k v h)) n
                {| HashTable.capacidad := HashTable.capacidad h * 2;
                   HashTable.tamaño := 0;
                   HashTable.buckets := HashTable.buckets_vacios (HashTable.capacidad h * 2) |})
      as (h' & Hrun & C' & HP & Hcap).
    + apply vacia_coherente. pose proof (coh_cap h C). lia.
    + apply C1.
    + intros k' _. unfold HashTable.obtener_claves, HashTable.obtener_pares. simpl.
      assert (concat (HashTable.buckets_vacios (V := V) (HashTable.capacidad h * 2)) = []) as ->.
      { unfold HashTable.buckets_vacios. induction (Z.to_nat _); simpl; auto. }
      intros [].
    + simpl. rewrite (Permutation_length HP1), length_app. simpl.
      pose proof (coh_tam h C). pose proof (coh_cap h C). lia.
    + assert (HashTable.obtener_pares
                {| HashTable.capacidad := HashTable.capacidad h * 2;
                   HashTable.tamaño := 0;
                   HashTable.buckets := HashTable.buckets_vacios (V := V) (HashTable.capacidad h * 2) |}
              = []) as Hvac.
      { unfold HashTable.obtener_pares, HashTable.buckets_vacios. simpl.
        induction (Z.to_nat _); simpl; auto. }
      rewrite Hvac in HP. simpl in HP.
      exists h'. split; [|split; [split; [done|]|split]].
      * destruct (hash_coherente h k C) as [Hh Hlt].
        destruct (bucket_coherente h k C) as [b Hb].
        cbn [HashTable.insertar_comb]. unfold ligar at 1, leer at 1.
        unfold ligar at 1, puro at 1. rewrite Hh.
        unfold ligar at 1, puro at 1. rewrite (elemento_en_Some _ _ _ Hb).
        assert (HashTable.buscar_par k b = None) as Hn.
        { apply buscar_par_None. by rewrite <- (clave_en_bucket h k b C Hb). }
        unfold ListaEnlazada.obtener_lista at 1. rewrite Hn.
        unfold ligar at 1, puro at 1. rewrite (asignar_en_lt _ _ _ Hlt).
        unfold ligar at 1, modificar at 1. unfold ligar at 1, modificar at 1.
        unfold ligar at 1, leer at 1. cbn [HashTable.poner_tamaño HashTable.poner_buckets
          HashTable.capacidad HashTable.tamaño HashTable.buckets].
        destruct (3 * HashTable.capacidad h <=? 4 * (HashTable.tamaño h + 1)) eqn:E;
          [|apply Z.leb_gt in E; lia].
        unfold ligar at 1, escribir at 1.
        rewrite para_cada_concat.
        unfold ListaEnlazada.obtener_lista, ListaEnlazada.agregar.
        unfold con_par in Hrun. rewrite Hb in Hrun. unfold HashTable.obtener_pares in Hrun at 1.
        cbn [HashTable.buckets] in Hrun. exact Hrun.
      * rewrite Hcap. cbn [HashTable.capacidad].
        rewrite (coh_tam h' C'), (Permutation_length HP), (Permutation_length HP1), length_app.
        simpl. pose proof (coh_tam h C). pose proof (coh_cap h C). lia.
      * by rewrite HP, HP1.
      * rewrite (coh_tam h' C'), (Permutation_length HP), (Permutation_length HP1), length_app.
        simpl. pose proof (coh_tam h C). lia.
Qed.

Lemma claves_unicas (ps : list (HashTable.par V)) k (v v' : option V) :
  List.NoDup (map fst ps) -> In (k, v) ps -> In (k, v') ps -> v = v'.
Proof.
  induction ps as [|[k0 v0] ps IH]; simpl; [intros _ []|].
  intros Hnd H1 H2. apply List.NoDup_cons_iff in Hnd as [Hk Hnd].
  destruct H1 as [E1|H1], H2 as [E2|H2]; auto.
  - congruence.
  - injection E1 as -> ->. exfalso. apply Hk. apply in_map_iff. by exists (k, v').
  - injection E2 as -> ->. exfalso. apply Hk. apply in_map_iff. by exists (k, v).
Qed.

Lemma obtener_presente h k (v : option V) :
  coherente h -> In (k, v) (HashTable.obtener_pares h) -> HashTable.obtener k h = Ok v.
Proof.
  intros C Hin. destruct (hash_coherente h k C) as [Hh Hlt].
  destruct (bucket_coherente h k C) as [b Hb].
  unfold HashTable.obtener. rewrite Hh. cbn [ligar_r]. rewrite (elemento_en_Some _ _ _ Hb).
  cbn [ligar_r].
  assert (In k (map fst b)) as Hkb.
  { apply (clave_en_bucket h k b C Hb). apply in_map_iff. by exists (k, v). }
  destruct (buscar_par_elem _ _ Hkb) as [[k' v'] Hp].
  unfold ListaEnlazada.obtener_lista. rewrite Hp. simpl.
  apply buscar_par_Some in Hp as [Hpb Hk]. simpl in Hk. subst k'.
  f_equal. eapply claves_unicas; [apply (coh_nodup h C)| |exact Hin].
  apply par_en_tabla. eauto.
Qed.

Lemma obtener_ausente h k :
  coherente h -> ~ In k (HashTable.obtener_claves h) -> HashTable.obtener k h = Ok None.
Proof.
  intros C Hk. destruct (hash_coherente h k C) as [Hh Hlt].
  destruct (bucket_coherente h k C) as [b Hb].
  unfold HashTable.obtener. rewrite Hh. cbn [ligar_r]. rewrite (elemento_en_Some _ _ _ Hb).
  cbn [ligar_r]. unfold ListaEnlazada.obtener_lista.
  assert (HashTable.buscar_par k b = None) as ->; [|done].
  apply buscar_par_None. by rewrite <- (clave_en_bucket h k b C Hb).
Qed.

(** Without any assumption on the table: what [obtener] finds is one of its
    entries. *)
Lemma elemento_en_In {A} (l : list A) (i : Z) (a : A) :
  elemento_en l i = Ok a -> In a l.
Proof.
  unfold elemento_en. destruct (_ && _); [|discriminate].
  destruct (l !! _) eqn:E; [|discriminate]. intros [= <-].
  apply en_lookup. eauto.
Qed.

Lemma obtener_Some_In h k (x : V) :
  HashTable.obtener k h = Ok (Some x) -> In (k, Some x) (HashTable.obtener_pares h).
Proof.
  unfold HashTable.obtener. destruct (HashTable._hash k h) as [i| |]; try discriminate.
  simpl. destruct (elemento_en (HashTable.buckets h) i) as [b| |] eqn:Eb; try discriminate.
  simpl. unfold ListaEnlazada.obtener_lista.
  destruct (HashTable.buscar_par k b) as [[k' v']|] eqn:Ep; [|discriminate].
  simpl. intros [= ->]. apply buscar_par_Some in Ep as [Hin Hk]. simpl in Hk. subst k'.
  unfold HashTable.obtener_pares. apply in_concat. exists b. split; [|done].
  by eapply elemento_en_In.
Qed.

Lemma contiene_true_In h k :
  HashTable.contiene k h = Ok true -> In k (HashTable.obtener_claves h).
Proof.
  unfold HashTable.contiene. destruct (HashTable.obtener k h) as [[x|]| |] eqn:E; try discriminate.
  intros _. apply obtener_Some_In in E. apply in_map_iff. by exists (k, Some x).
Qed.

(** ** Changing one bucket *)

Lemma concat_fijo {A} (G : list A -> list A) (ls : list (list A)) :
  (forall l1 l2, G (l1 ++ l2) = G l1 ++ G l2) ->
  (forall l, In l ls -> G l = l) -> G (concat ls) = concat ls.
Proof.
  intros Hd Hf. induction ls as [|l ls IH]; simpl.
  - pose proof (Hd [] []) as E. simpl in E.
    destruct (G []) as [|a r]; [done|]. exfalso.
    apply (f_equal (@length A)) in E. rewrite length_app in E. simpl in E. lia.
  - rewrite Hd, Hf by (by left). rewrite IH; [done|]. intros. apply Hf. by right.
Qed.

Lemma concat_en_bucket {A} (G : list A -> list A) (bs : list (list A)) (i : nat) (b : list A) :
  (forall l1 l2, G (l1 ++ l2) = G l1 ++ G l2) ->
  bs !! i = Some b ->
  (forall j l', j <> i -> bs !! j = Some l' -> G l' = l') ->
  concat (<[i := G b]> bs) = G (concat bs).
Proof.
  intros Hd Hb Hf.
  destruct (concat_insert_bucket bs i b (G b) Hb) as [E1 E2]. rewrite E2, E1.
  rewrite !Hd. f_equal; [|f_equal]; symmetry; apply concat_fijo; try done.
  - intros l Hl. apply en_lookup in Hl as [j Hj].
    pose proof (lookup_lt_Some _ _ _ Hj) as Hlt. rewrite length_take in Hlt.
    rewrite lookup_take_lt in Hj by lia. apply (Hf j); [lia|done].
  - intros l Hl. apply en_lookup in Hl as [j Hj].
    rewrite lookup_drop in Hj. apply (Hf (S i + j)%nat); [lia|done].
Qed.

Lemma filter_fijo {A} (f : A -> bool) (l : list A) :
  (forall a, In a l -> f a = true) -> List.filter f l = l.
Proof.
  induction l as [|a l IH]; simpl; [done|]. intros H.
  rewrite (H a) by (by left). f_equal. apply IH. intros. apply H. by right.
Qed.

Lemma map_fijo {A} (f : A -> A) (l : list A) :
  (forall a, In a l -> f a = a) -> map f l = l.
Proof.
  induction l as [|a l IH]; simpl; [done|]. intros H.
  rewrite (H a) by (by left). f_equal. apply IH. intros. apply H. by right.
Qed.

Lemma bucket_sin_repetir h i b :
  coherente h -> HashTable.buckets h !! i = Some b -> List.NoDup (map fst b).
Proof.
  intros C Hb. pose proof (coh_nodup h C) as Hnd.
  unfold HashTable.obtener_claves, HashTable.obtener_pares in Hnd.
  destruct (concat_insert_bucket (HashTable.buckets h) i b b Hb) as [E _].
  rewrite E, !map_app in Hnd.
  apply NoDup_app_remove_l in Hnd. by apply NoDup_app_remove_r in Hnd.
Qed.

Lemma eliminar_en_bucket k b p :
  HashTable.buscar_par k b = Some p -> List.NoDup (map fst b) ->
  ListaEnlazada.eliminar HashTable.igual_par p b = (true, List.filter (otra_clave k) b).
Proof.
  induction b as [|q b IH]; simpl; [discriminate|]. intros Hp Hnd.
  apply List.NoDup_cons_iff in Hnd as [Hq Hnd]. unfold otra_clave at 1.
  destruct (clave_eqb (fst q) k) eqn:E.
  - injection Hp as <-. unfold HashTable.igual_par at 1. rewrite clave_eqb_refl. simpl.
    f_equal. symmetry. apply filter_fijo. intros a Ha. unfold otra_clave.
    apply clave_eqb_eq in E. destruct (clave_eqb (fst a) k) eqn:E'; [|done].
    apply clave_eqb_eq in E'. exfalso. apply Hq. rewrite E, <- E'. by apply in_map.
  - pose proof (buscar_par_Some _ _ _ Hp) as [_ Hk].
    unfold HashTable.igual_par at 1. rewrite Hk, E. rewrite (IH Hp Hnd). reflexivity.
Qed.

Lemma mutar_en_bucket_map k (f : V -> V) b :
  List.NoDup (map fst b) -> HashTable.mutar_en_bucket k f b = map (mutar_par k f) b.
Proof.
  induction b as [|q b IH]; simpl; [done|]. intros Hnd.
  apply List.NoDup_cons_iff in Hnd as [Hq Hnd]. unfold mutar_par at 1.
  destruct (clave_eqb (fst q) k) eqn:E.
  - f_equal. symmetry. apply map_fijo. intros a Ha. unfold mutar_par.
    apply clave_eqb_eq in E. destruct (clave_eqb (fst a) k) eqn:E'; [|done].
    apply clave_eqb_eq in E'. exfalso. apply Hq. rewrite E, <- E'. by apply in_map.
  - f_equal. by apply IH.
Qed.

Lemma bucket_cambiado_coherente (G : list (HashTable.par V) -> list (HashTable.par V))
  h (i : nat) b (n : Z) :
  coherente h ->
  HashTable.buckets h !! i = Some b ->
  (forall l1 l2, G (l1 ++ l2) = G l1 ++ G l2) ->
  (forall j l', j <> i -> HashTable.buckets h !! j = Some l' -> G l' = l') ->
  (forall p, In p (G b) -> exists q, In q b /\ fst q = fst p) ->
  List.NoDup (map fst (G (HashTable.obtener_pares h))) ->
  n = Z.of_nat (length (G (HashTable.obtener_pares h))) ->
  let h' := {| HashTable.capacidad := HashTable.capacidad h; HashTable.tamaño := n;
               HashTable.buckets := <[i := G b]> (HashTable.buckets h) |} in
  coherente h' /\ HashTable.obtener_pares h' = G (HashTable.obtener_pares h).
Proof.
  intros C Hb Hd Hf Hk Hnd Hn h'.
  assert (HashTable.obtener_pares h' = G (HashTable.obtener_pares h)) as HP.
  { unfold HashTable.obtener_pares. simpl. by apply concat_en_bucket. }
  split; [|done]. split; simpl.
  - apply C.
  - rewrite length_insert. apply C.
  - intros j l' p. destruct (decide (j = i)) as [->|Hne].
    + rewrite list_lookup_insert_eq by (by eapply lookup_lt_Some). intros [= <-] Hp.
      destruct (Hk p Hp) as (q & Hq & <-). eapply coh_col; eauto.
    + rewrite list_lookup_insert_ne by done. apply C.
  - unfold HashTable.obtener_claves. by rewrite HP.
  - by rewrite HP.
Qed.

Lemma clave_de_otro_bucket h k (j : nat) b p :
  coherente h -> j <> indice_de k (HashTable.capacidad h) ->
  HashTable.buckets h !! j = Some b -> In p b -> clave_eqb (fst p) k = false.
Proof.
  intros C Hj Hb Hp. apply clave_eqb_neq. intros <-.
  apply Hj. symmetry. eapply coh_col; eauto.
Qed.

Lemma filter_claves_sin_repetir (f : HashTable.par V -> bool) (ps : list (HashTable.par V)) :
  List.NoDup (map fst ps) -> List.NoDup (map fst (List.filter f ps)).
Proof.
  induction ps as [|q ps IH]; simpl; [done|]. intros Hnd.
  apply List.NoDup_cons_iff in Hnd as [Hq Hnd]. destruct (f q); simpl; [|by apply IH].
  apply List.NoDup_cons; [|by apply IH]. intros Hin. apply Hq.
  apply in_map_iff in Hin as (x & <- & Hx). apply filter_In in Hx as [Hx _]. by apply in_map.
Qed.

Lemma filter_otra_clave_length k (ps : list (HashTable.par V)) :
  List.NoDup (map fst ps) -> In k (map fst ps) ->
  S (length (List.filter (otra_clave k) ps)) = length ps.
Proof.
  induction ps as [|q ps IH]; simpl; [intros _ []|]. intros Hnd Hin.
  apply List.NoDup_cons_iff in Hnd as [Hq Hnd]. unfold otra_clave at 1.
  destruct (clave_eqb (fst q) k) eqn:E; simpl.
  - f_equal. f_equal. apply filter_fijo. intros a Ha. unfold otra_clave.
    apply clave_eqb_eq in E. destruct (clave_eqb (fst a) k) eqn:E'; [|done].
    apply clave_eqb_eq in E'. exfalso. apply Hq. rewrite E, <- E'. by apply in_map.
  - f_equal. apply IH; [done|]. destruct Hin as [Hin|Hin]; [|done].
    apply clave_eqb_neq in E. contradiction.
Qed.

Lemma eliminar_presente h k :
  coherente h -> In k (HashTable.obtener_claves h) ->
  exists h',
    HashTable.eliminar k h = (Ok true, h') /\
    coherente h' /\
    HashTable.obtener_pares h' = List.filter (otra_clave k) (HashTable.obtener_pares h) /\
    HashTable.capacidad h' = HashTable.capacidad h /\
    HashTable.tamaño h' = HashTable.tamaño h - 1.
Proof.
  intros C Hk. destruct (hash_coherente h k C) as [Hh Hlt].
  destruct (bucket_coherente h k C) as [b Hb].
  pose proof (proj1 (clave_en_bucket h k b C Hb) Hk) as Hkb.
  destruct (buscar_par_elem _ _ Hkb) as [p Hp].
  pose proof (bucket_sin_repetir h _ b C Hb) as Hndb.
  destruct (bucket_cambiado_coherente (List.filter (otra_clave k)) h _ b
              (HashTable.tamaño h - 1) C Hb) as [C' HP].
  - intros. apply List.filter_app.
  - intros j l' Hj Hl. apply filter_fijo. intros a Ha. unfold otra_clave.
    by rewrite (clave_de_otro_bucket h k j l' a C Hj Hl Ha).
  - intros q Hq. apply filter_In in Hq as [Hq _]. eauto.
  - apply filter_claves_sin_repetir, C.
  - pose proof (filter_otra_clave_length k _ (coh_nodup h C) Hk) as Hlen.
    rewrite (coh_tam h C). lia.
  - eexists. split; [|split; [exact C'|split; [exact HP|done]]].
    unfold HashTable.eliminar, ligar, leer, puro. rewrite Hh.
    rewrite (elemento_en_Some _ _ _ Hb). unfold ListaEnlazada.obtener_lista. rewrite Hp.
    rewrite (eliminar_en_bucket k b p Hp Hndb). cbn [snd].
    rewrite (asignar_en_lt _ _ _ Hlt). reflexivity.
Qed.

Lemma eliminar_ausente h k :
  coherente h -> ~ In k (HashTable.obtener_claves h) ->
  HashTable.eliminar k h = (Ok false, h).
Proof.
  intros C Hk. destruct (hash_coherente h k C) as [Hh Hlt].
  destruct (bucket_coherente h k C) as [b Hb].
  unfold HashTable.eliminar, ligar, leer, puro. rewrite Hh.
  rewrite (elemento_en_Some _ _ _ Hb). unfold ListaEnlazada.obtener_lista.
  assert (HashTable.buscar_par k b = None) as ->; [|done].
  apply buscar_par_None. by rewrite <- (clave_en_bucket h k b C Hb).
Qed.

Lemma mutar_par_clave k (f : V -> V) p : fst (mutar_par k f p) = fst p.
Proof. unfold mutar_par. by destruct (clave_eqb _ _). Qed.

Lemma mutar_valor_coherente h k (f : V -> V) :
  coherente h ->
  exists h',
    HashTable.mutar_valor k f h = (Ok tt, h') /\
    coherente h' /\
    HashTable.obtener_pares h' = map (mutar_par k f) (HashTable.obtener_pares h) /\
    HashTable.capacidad h' = HashTable.capacidad h /\
    HashTable.tamaño h' = HashTable.tamaño h.
Proof.
  intros C. destruct (hash_coherente h k C) as [Hh Hlt].
  destruct (bucket_coherente h k C) as [b Hb].
  pose proof (bucket_sin_repetir h _ b C Hb) as Hndb.
  assert (map fst (map (mutar_par k f) (HashTable.obtener_pares h)) = HashTable.obtener_claves h)
    as Hclaves.
  { unfold HashTable.obtener_claves. rewrite map_map. apply map_ext. apply mutar_par_clave. }
  destruct (bucket_cambiado_coherente (map (mutar_par k f)) h _ b
              (HashTable.tamaño h) C Hb) as [C' HP].
  - intros. apply map_app.
  - intros j l' Hj Hl. apply map_fijo. intros a Ha. unfold mutar_par.
    by rewrite (clave_de_otro_bucket h k j l' a C Hj Hl Ha).
  - intros q Hq. apply in_map_iff in Hq as (x & <- & Hx). exists x.
    by rewrite mutar_par_clave.
  - rewrite Hclaves. apply C.
  - rewrite length_map. apply C.
  - eexists. split; [|split; [exact C'|split; [exact HP|done]]].
    unfold HashTable.mutar_valor, ligar, leer, puro. rewrite Hh.
    rewrite (elemento_en_Some _ _ _ Hb).
    rewrite (asignar_en_lt _ _ _ Hlt). rewrite (mutar_en_bucket_map k f b Hndb).
    destruct h; reflexivity.
Qed.

End TablaTeoria.

(* ================================================================== *)
(** * The route queries *)
(* ================================================================== *)

Lemma insertar_presente {V} (h : HashTable.t V) k (v : option V) :
  bien_formada h -> In k (HashTable.obtener_claves h) ->
  HashTable.insertar k v h = (Lanza TypeError, h).
Proof. intros [C _] Hk. by apply insertar_comb_presente. Qed.

Lemma claves_tras_insertar {V} (h h' : HashTable.t V) k (v : option V) k' :
  Permutation (HashTable.obtener_pares h') (HashTable.obtener_pares h ++ [(k, v)]) ->
  In k' (HashTable.obtener_claves h') <-> In k' (HashTable.obtener_claves h) \/ k' = k.
Proof.
  intros HP. pose proof (claves_permutacion h h' _ HP) as HK. simpl in HK. split.
  - intros H. apply (Permutation_in _ HK) in H. apply in_app_iff in H as [H|[H|[]]]; auto.
  - intros H. apply (Permutation_in _ (Permutation_sym HK)). apply in_app_iff.
    destruct H as [H| ->]; [by left|right; by left].
Qed.

Lemma locales_iniciales_coherentes : locales_coherentes locales_iniciales.
Proof.
  split; simpl; try apply nueva_bien_formada; intros k; reflexivity.
Qed.

Lemma inicializar_claves (ks : list clave) (l : LocalesDijkstra) :
  locales_coherentes l ->
  let '(r, l') := para_cada ks (fun id_nodo =>
      (en_distancias (HashTable.insertar id_nodo (Some Inf)) ;;;
       en_predecesores (HashTable.insertar id_nodo None) ;;;
       en_visitados (HashTable.insertar id_nodo (Some false)))%metodo) l in
  r = Lanza TypeError \/
  (r = Ok tt /\ locales_coherentes l' /\
   forall k, In k (HashTable.obtener_claves (distancias l')) <->
             In k (HashTable.obtener_claves (distancias l)) \/ In k ks).
Proof.
  revert l. induction ks as [|k ks IH]; intros l L.
  - simpl. right. split; [done|]. split; [done|]. intros k. tauto.
  - cbn [para_cada]. unfold ligar at 1. unfold ligar at 1. unfold en_distancias at 1, enfocar at 1.
    destruct (in_dec clave_eq_dec k (HashTable.obtener_claves (distancias l))) as [Hin|Hout].
    + rewrite (insertar_presente _ _ _ (lc_dist l L) Hin). by left.
    + destruct (insertar_nueva (distancias l) k (Some Inf) (lc_dist l L) Hout)
        as (d' & -> & Wd & Pd & _).
      assert (~ In k (HashTable.obtener_claves (predecesores l))) as Hp
        by (by rewrite (lc_pred_claves l L)).
      assert (~ In k (HashTable.obtener_claves (visitados l))) as Hv
        by (by rewrite (lc_vis_claves l L)).
      destruct (insertar_nueva (predecesores l) k None (lc_pred l L) Hp)
        as (p' & Ep & Wp & Pp & _).
      destruct (insertar_nueva (visitados l) k (Some false) (lc_vis l L) Hv)
        as (v' & Ev & Wv & Pv & _).
      unfold ligar at 1. unfold en_predecesores at 1, enfocar at 1. cbn [predecesores].
      rewrite Ep. unfold en_visitados at 1, enfocar at 1. cbn [visitados]. rewrite Ev.
      match goal with |- context [para_cada ks ?f ?l1] =>
        specialize (IH l1); destruct (para_cada ks f l1) as [r l2] end.
      destruct IH as [->|(-> & L2 & Hk2)].
      * split; cbn; try done.
        -- intros k0. rewrite (claves_tras_insertar _ _ _ _ _ Pp),
             (claves_tras_insertar _ _ _ _ _ Pd), (lc_pred_claves l L). tauto.
        -- intros k0. rewrite (claves_tras_insertar _ _ _ _ _ Pv),
             (claves_tras_insertar _ _ _ _ _ Pd), (lc_vis_claves l L). tauto.
      * by left.
      * right. split; [done|]. split; [done|]. intros k0. rewrite Hk2. cbn.
        rewrite (claves_tras_insertar _ _ _ _ _ Pd). simpl. intuition (subst; auto).
Qed.

(** The relaxation never gets past the seeding of the origin when the origin
    is a key of the graph: its entry in [distancias] exists since the
    initialisation loop, and [insertar] raises on it. *)
Lemma relajacion_lanza (s : EstadoGrafo) (id_origen : clave) (id_destino : option clave) :
  In id_origen (HashTable.obtener_claves (nodos (grafo s))) ->
  fst (relajacion s id_origen id_destino locales_iniciales) = Lanza TypeError.
Proof.
  intros Ho. unfold relajacion, inicializar. unfold ligar at 1.
  pose proof (inicializar_claves (HashTable.obtener_claves (nodos (grafo s)))
                locales_iniciales locales_iniciales_coherentes) as H.
  destruct (para_cada _ _ locales_iniciales) as [r l'].
  destruct H as [->|(-> & L & Hk)]; [done|].
  unfold ligar at 1. unfold en_distancias at 1, enfocar at 1.
  rewrite (insertar_presente _ _ _ (lc_dist l' L)); [done|].
  apply Hk. by right.
Qed.

Lemma ruta_entre_nodos_presentes (s : EstadoGrafo) (id_origen id_destino : clave) :
  HashTable.contiene id_origen (nodos (grafo s)) = Ok true ->
  HashTable.contiene id_destino (nodos (grafo s)) = Ok true ->
  encontrar_ruta_mas_corta id_origen id_destino s = Lanza TypeError.
Proof.
  intros Ho Hd. unfold encontrar_ruta_mas_corta. rewrite Ho. cbn [ligar_r]. rewrite Hd.
  cbn [ligar_r negb orb].
  pose proof (relajacion_lanza s id_origen (Some id_destino) (contiene_true_In _ _ Ho)) as H.
  unfold ligar at 1. destruct (relajacion s id_origen (Some id_destino) locales_iniciales) as [r l].
  simpl in H. subst r. reflexivity.
Qed.

Lemma ruta_con_nodo_ausente (s : EstadoGrafo) (id_origen id_destino : clave) :
  HashTable.contiene id_origen (nodos (grafo s)) = Ok false \/
  (HashTable.contiene id_origen (nodos (grafo s)) = Ok true /\
   HashTable.contiene id_destino (nodos (grafo s)) = Ok false) ->
  encontrar_ruta_mas_corta id_origen id_destino s = Ok (None, [], []).
Proof.
  unfold encontrar_ruta_mas_corta. intros [->|[-> ->]]; reflexivity.
Qed.

Lemma rutas_multiples_lanza (s : EstadoGrafo) (id_origen : clave) (destinos : list clave) :
  In id_origen (HashTable.obtener_claves (nodos (grafo s))) ->
  encontrar_rutas_multiples id_origen destinos s = Lanza TypeError.
Proof.
  intros Ho. unfold encontrar_rutas_multiples.
  pose proof (relajacion_lanza s id_origen None Ho) as H.
  unfold ligar at 1. destruct (relajacion s id_origen None locales_iniciales) as [r l].
  simpl in H. subst r. reflexivity.
Qed.

(* ================================================================== *)
(** * The graph: adjacency lists and node removal *)
(* ================================================================== *)

Section Monada.
Context {S A B : Type}.

Lemma ligar_Ok (m : M S A) (f : A -> M S B) (s s' : S) (a : A) :
  m s = (Ok a, s') -> ligar m f s = f a s'.
Proof. intros H. unfold ligar. by rewrite H. Qed.

Lemma ligar_Lanza (m : M S A) (f : A -> M S B) (s s' : S) (e : excepcion) :
  m s = (Lanza e, s') -> ligar m f s = (Lanza e, s').
Proof. intros H. unfold ligar. by rewrite H. Qed.

End Monada.

Lemma aristas_hacia_filter mem n (l : list ref) :
  (forall r, In r l -> (r < length mem)%nat) ->
  aristas_hacia mem n l = Ok (List.filter (fun r => negb (no_va_a mem n r)) l).
Proof.
  induction l as [|r l IH]; intros Hv; [done|].
  cbn [aristas_hacia]. unfold desreferenciar.
  destruct (lookup_lt_is_Some_2 mem r (Hv r (or_introl eq_refl))) as [a Ha].
  rewrite Ha. cbn [ligar_r]. rewrite IH by (intros; apply Hv; by right). cbn [ligar_r].
  assert (no_va_a mem n r = negb (clave_eqb (ClaveInt (nodo_id (destino a))) n)) as E
    by (unfold no_va_a; by rewrite Ha).
  cbn [List.filter]. rewrite E, negb_involutive.
  by destruct (clave_eqb _ _).
Qed.

Lemma eliminar_otro (a : ref) (xs acc : list ref) :
  (forall x, In x xs -> x <> a) ->
  fold_left (fun l r => snd (ListaEnlazada.eliminar misma_ref r l)) xs (a :: acc) =
  a :: fold_left (fun l r => snd (ListaEnlazada.eliminar misma_ref r l)) xs acc.
Proof.
  revert acc. induction xs as [|x xs IH]; intros acc Hx; [done|].
  assert (misma_ref a x = false) as Hm.
  { apply Nat.eqb_neq. intros ->. apply (Hx x); [by left|done]. }
  cbn [fold_left ListaEnlazada.eliminar]. rewrite Hm.
  destruct (ListaEnlazada.eliminar misma_ref x acc) as [b r'] eqn:E. cbn [snd].
  apply IH. intros; apply Hx; by right.
Qed.

Lemma eliminar_todas (P : ref -> bool) (l : list ref) :
  fold_left (fun l r => snd (ListaEnlazada.eliminar misma_ref r l)) (List.filter P l) l =
  List.filter (fun r => negb (P r)) l.
Proof.
  induction l as [|a l IH]; [done|]. cbn [List.filter].
  destruct (P a) eqn:E; cbn [negb].
  - assert (misma_ref a a = true) as Hm by apply Nat.eqb_refl.
    cbn [fold_left ListaEnlazada.eliminar]. rewrite Hm. cbn [snd]. exact IH.
  - rewrite eliminar_otro; [by rewrite IH|].
    intros x Hx ->. apply filter_In in Hx as [_ Hx]. congruence.
Qed.

Lemma mutar_par_mutar_par {V} k (f g : V -> V) (p : HashTable.par V) :
  mutar_par k g (mutar_par k f p) = mutar_par k (fun x => g (f x)) p.
Proof.
  unfold mutar_par. destruct (clave_eqb (fst p) k) eqn:E; cbn [fst snd]; rewrite ?E; [|done].
  by destruct (snd p).
Qed.

Lemma mutar_par_ext {V} k (f g : V -> V) (p : HashTable.par V) :
  (forall x, f x = g x) -> mutar_par k f p = mutar_par k g p.
Proof.
  intros H. unfold mutar_par. destruct (clave_eqb (fst p) k); [|done].
  destruct (snd p); simpl; [by rewrite H|done].
Qed.

(** The inner loop of [_eliminar_aristas_hacia_nodo]. *)
Lemma eliminar_aristas_lista (xs : list ref) (k : clave) (t : HashTable.t (list ref)) :
  coherente t ->
  exists t',
    para_cada xs (fun arista =>
      HashTable.mutar_valor k (fun l => snd (ListaEnlazada.eliminar misma_ref arista l))) t
    = (Ok tt, t') /\
    coherente t' /\
    HashTable.obtener_pares t' =
      map (mutar_par k (fun l => fold_left
             (fun l r => snd (ListaEnlazada.eliminar misma_ref r l)) xs l))
          (HashTable.obtener_pares t) /\
    HashTable.capacidad t' = HashTable.capacidad t /\
    HashTable.tamaño t' = HashTable.tamaño t.
Proof.
  revert t. induction xs as [|x xs IH]; intros t C.
  - exists t. split; [done|]. split; [done|]. split; [|done].
    symmetry. apply map_fijo. intros [k' [l|]] _; unfold mutar_par; simpl;
      by destruct (clave_eqb k' k).
  - destruct (mutar_valor_coherente t k
                (fun l => snd (ListaEnlazada.eliminar misma_ref x l)) C)
      as (t1 & E1 & C1 & P1 & Hc1 & Ht1).
    destruct (IH t1 C1) as (t' & E' & C' & P' & Hc' & Ht').
    exists t'. split; [|split; [done|split; [|split; congruence]]].
    + cbn [para_cada]. by rewrite (ligar_Ok _ _ _ _ _ E1).
    + rewrite P', P1, map_map. apply map_ext. intros p.
      rewrite mutar_par_mutar_par. by apply mutar_par_ext.
Qed.

Lemma con_adyacencia_misma (s : EstadoGrafo) : con_adyacencia (lista_adyacencia (grafo s)) s = s.
Proof. by destruct s as [m []]. Qed.

Lemma en_adyacencia_corre {A} (m : M (HashTable.t (list ref)) A) (s : EstadoGrafo) r t' :
  m (lista_adyacencia (grafo s)) = (r, t') -> en_adyacencia m s = (r, con_adyacencia t' s).
Proof. intros H. unfold en_adyacencia, enfocar. by rewrite H. Qed.

Lemma en_nodos_corre {A} (m : M (HashTable.t NodoGrafo) A) (s : EstadoGrafo) r t' :
  m (nodos (grafo s)) = (r, t') -> en_nodos m s = (r, con_nodos t' s).
Proof. intros H. unfold en_nodos, enfocar. by rewrite H. Qed.

Lemma para_cada_en_adyacencia {A} (xs : list A) (f : A -> M (HashTable.t (list ref)) unit)
  (s : EstadoGrafo) :
  para_cada xs (fun x => en_adyacencia (f x)) s = en_adyacencia (para_cada xs f) s.
Proof.
  revert s. induction xs as [|x xs IH]; intros s.
  - unfold en_adyacencia, enfocar. simpl. by destruct s as [m []].
  - cbn [para_cada]. unfold ligar at 1. unfold en_adyacencia at 1 3, enfocar.
    unfold ligar. destruct (f x (lista_adyacencia (grafo s))) as [[[]| |] t1]; try done.
Qed.

Lemma obtener_coherente {V} (h : HashTable.t V) k :
  coherente h ->
  (exists v, In (k, v) (HashTable.obtener_pares h) /\ HashTable.obtener k h = Ok v) \/
  (~ In k (HashTable.obtener_claves h) /\ HashTable.obtener k h = Ok None).
Proof.
  intros C. destruct (in_dec clave_eq_dec k (HashTable.obtener_claves h)) as [Hin|Hout].
  - left. apply in_map_iff in Hin as ([k' v] & <- & Hin). exists v. split; [done|].
    by apply obtener_presente.
  - right. split; [done|]. by apply obtener_ausente.
Qed.

Lemma mutar_par_ausente {V} k (f : V -> V) (ps : list (HashTable.par V)) :
  ~ In k (map fst ps) -> map (mutar_par k f) ps = ps.
Proof.
  intros Hk. apply map_fijo. intros p Hp. unfold mutar_par.
  destruct (clave_eqb (fst p) k) eqn:E; [|done].
  apply clave_eqb_eq in E. exfalso. apply Hk. rewrite <- E. by apply in_map.
Qed.

Lemma mutar_par_en {V} k (f g : V -> V) (ps : list (HashTable.par V)) (v : option V) :
  List.NoDup (map fst ps) -> In (k, v) ps -> f <$> v = g <$> v ->
  map (mutar_par k f) ps = map (mutar_par k g) ps.
Proof.
  intros Hnd Hin Hfg. apply map_ext_in. intros [k' v'] Hp. unfold mutar_par. cbn [fst snd].
  destruct (clave_eqb k' k) eqn:E; [|done]. apply clave_eqb_eq in E. subst k'.
  rewrite (claves_unicas ps k v' v Hnd Hp Hin). by rewrite Hfg.
Qed.

(** [_eliminar_aristas_hacia_nodo]: the list under [k] loses its edges to
    [n]; nothing else changes. *)
Lemma podar_una_clave (k n : clave) (s : EstadoGrafo) :
  coherente (lista_adyacencia (grafo s)) ->
  refs_validas (mem_aristas s) (HashTable.obtener_pares (lista_adyacencia (grafo s))) ->
  exists t',
    _eliminar_aristas_hacia_nodo k n s = (Ok tt, con_adyacencia t' s) /\
    coherente t' /\
    HashTable.obtener_pares t' =
      map (mutar_par k (List.filter (no_va_a (mem_aristas s) n)))
          (HashTable.obtener_pares (lista_adyacencia (grafo s))) /\
    HashTable.capacidad t' = HashTable.capacidad (lista_adyacencia (grafo s)) /\
    HashTable.tamaño t' = HashTable.tamaño (lista_adyacencia (grafo s)).
Proof.
  intros C Hv. unfold _eliminar_aristas_hacia_nodo. unfold ligar at 1, leer at 1.
  unfold ligar at 1, puro at 1.
  destruct (obtener_coherente (lista_adyacencia (grafo s)) k C)
    as [([l|] & Hin & ->)|(Hout & ->)].
  - unfold ligar at 1, puro at 1. unfold ListaEnlazada.obtener_lista.
    rewrite (aristas_hacia_filter (mem_aristas s) n l) by (intros; eapply Hv; eauto).
    rewrite para_cada_en_adyacencia.
    destruct (eliminar_aristas_lista
                (List.filter (fun r => negb (no_va_a (mem_aristas s) n r)) l) k
                (lista_adyacencia (grafo s)) C) as (t' & E & C' & P & Hc & Ht).
    exists t'. split; [by apply en_adyacencia_corre|]. split; [done|]. split; [|done].
    rewrite P. apply (mutar_par_en k _ _ _ (Some l)); [apply C|done|].
    cbn. f_equal. rewrite eliminar_todas. apply filter_ext. intros r.
    apply negb_involutive.
  - exists (lista_adyacencia (grafo s)). rewrite con_adyacencia_misma.
    split; [done|]. split; [done|]. split; [|done].
    rewrite (mutar_par_en k _ (fun l => l) _ None); [|apply C|done|done].
    symmetry. apply map_fijo. intros [k' [x|]] _; unfold mutar_par; simpl;
      by destruct (clave_eqb k' k).
  - exists (lista_adyacencia (grafo s)). rewrite con_adyacencia_misma.
    split; [done|]. split; [done|]. split; [|done].
    symmetry. by apply mutar_par_ausente.
Qed.

Lemma existsb_clave (k : clave) (ks : list clave) :
  existsb (clave_eqb k) ks = true <-> In k ks.
Proof.
  rewrite existsb_exists. split.
  - intros (x & Hx & E). apply clave_eqb_eq in E. by subst.
  - intros H. exists k. split; [done|apply clave_eqb_refl].
Qed.

Lemma filter_filter {A} (f : A -> bool) (l : list A) :
  List.filter f (List.filter f l) = List.filter f l.
Proof.
  apply filter_fijo. intros a Ha. by apply filter_In in Ha as [_ Ha].
Qed.

Lemma podar_paso mem (n k : clave) (ks : list clave) (p : HashTable.par (list ref)) :
  clave_eqb k n = false ->
  podar mem n ks (mutar_par k (List.filter (no_va_a mem n)) p) = podar mem n (k :: ks) p.
Proof.
  intros Hkn. unfold podar, mutar_par. cbn [existsb].
  destruct (clave_eqb (fst p) k) eqn:E; cbn [fst snd orb].
  - apply clave_eqb_eq in E. rewrite E, Hkn. cbn [negb]. rewrite !andb_true_r.
    destruct (existsb (clave_eqb k) ks); [|done]. cbn [fst snd].
    f_equal. destruct (snd p); [|done]. cbn. by rewrite filter_filter.
  - done.
Qed.

Lemma podar_salto mem (n : clave) (ks : list clave) (p : HashTable.par (list ref)) :
  podar mem n (n :: ks) p = podar mem n ks p.
Proof.
  unfold podar. cbn [existsb]. destruct (clave_eqb (fst p) n) eqn:E; [|done].
  cbn [negb]. by rewrite !andb_false_r.
Qed.

Lemma refs_validas_mutar mem k (f : list ref -> list ref) (ps : list (HashTable.par (list ref))) :
  (forall l r, In r (f l) -> In r l) ->
  refs_validas mem ps -> refs_validas mem (map (mutar_par k f) ps).
Proof.
  intros Hf Hv k' l' r Hin Hr. apply in_map_iff in Hin as ([k0 v0] & E & Hin).
  unfold mutar_par in E. cbn [fst snd] in E. destruct (clave_eqb k0 k).
  - destruct v0 as [l0|]; [|discriminate]. injection E as <- <-.
    eapply Hv; [exact Hin|]. by apply Hf.
  - injection E as -> ->. eapply Hv; eauto.
Qed.

(** The sweep of [eliminar_nodo] over the keys [ks]. *)
Lemma bucle_podar (ks : list clave) (n : clave) (s : EstadoGrafo) :
  coherente (lista_adyacencia (grafo s)) ->
  refs_validas (mem_aristas s) (HashTable.obtener_pares (lista_adyacencia (grafo s))) ->
  exists t',
    para_cada ks (fun id_otros =>
      if negb (clave_eqb id_otros n) then _eliminar_aristas_hacia_nodo id_otros n
      else ret tt) s = (Ok tt, con_adyacencia t' s) /\
    coherente t' /\
    HashTable.obtener_pares t' =
      map (podar (mem_aristas s) n ks) (HashTable.obtener_pares (lista_adyacencia (grafo s))) /\
    HashTable.capacidad t' = HashTable.capacidad (lista_adyacencia (grafo s)) /\
    HashTable.tamaño t' = HashTable.tamaño (lista_adyacencia (grafo s)).
Proof.
  revert s. induction ks as [|k ks IH]; intros s C Hv.
  - exists (lista_adyacencia (grafo s)). rewrite con_adyacencia_misma.
    split; [done|]. split; [done|]. split; [|done].
    symmetry. apply map_fijo. intros p _. done.
  - cbn [para_cada]. destruct (clave_eqb k n) eqn:Ekn; cbn [negb].
    + destruct (IH s C Hv) as (t' & E & C' & P & Hc & Ht).
      exists t'. split; [|split; [done|split; [|done]]].
      * unfold ligar, ret. exact E.
      * rewrite P. apply map_ext. intros p. apply clave_eqb_eq in Ekn. subst k.
        symmetry. apply podar_salto.
    + destruct (podar_una_clave k n s C Hv) as (t1 & E1 & C1 & P1 & Hc1 & Ht1).
      destruct (IH (con_adyacencia t1 s)) as (t' & E & C' & P & Hc & Ht).
      * exact C1.
      * cbn. rewrite P1. apply refs_validas_mutar; [|done].
        intros l r Hr. by apply filter_In in Hr as [Hr _].
      * exists t'. split; [|split; [done|split; [|split]]].
        -- rewrite (ligar_Ok _ _ _ _ _ E1). exact E.
        -- rewrite P. cbn. rewrite P1, map_map. apply map_ext. intros p.
           by apply podar_paso.
        -- cbn in Hc. congruence.
        -- cbn in Ht. congruence.
Qed.

Lemma eliminar_coherente {V} (h : HashTable.t V) k :
  coherente h ->
  exists b h',
    HashTable.eliminar k h = (Ok b, h') /\
    coherente h' /\
    HashTable.obtener_pares h' = List.filter (otra_clave k) (HashTable.obtener_pares h) /\
    HashTable.capacidad h' = HashTable.capacidad h /\
    HashTable.tamaño h' <= HashTable.tamaño h /\
    (b = true <-> In k (HashTable.obtener_claves h)).
Proof.
  intros C. destruct (in_dec clave_eq_dec k (HashTable.obtener_claves h)) as [Hin|Hout].
  - destruct (eliminar_presente h k C Hin) as (h' & E & C' & P & Hc & Ht).
    exists true, h'. split; [done|]. split; [done|]. split; [done|]. split; [done|].
    split; [lia|]. by split.
  - exists false, h. rewrite (eliminar_ausente h k C Hout).
    split; [done|]. split; [done|]. split; [|split; [done|split; [lia|by split]]].
    symmetry. apply filter_fijo. intros p Hp. unfold otra_clave.
    destruct (clave_eqb (fst p) k) eqn:E; [|done]. apply clave_eqb_eq in E.
    exfalso. apply Hout. rewrite <- E. by apply in_map.
Qed.

Lemma bien_formada_eliminar {V} (h h' : HashTable.t V) :
  bien_formada h -> coherente h' ->
  HashTable.capacidad h' = HashTable.capacidad h ->
  HashTable.tamaño h' <= HashTable.tamaño h -> bien_formada h'.
Proof. intros [_ Hl] C' Hc Ht. split; [done|]. lia. Qed.

Lemma en_filter_otra_clave {V} (k k' : clave) (v : option V) (ps : list (HashTable.par V)) :
  In (k', v) (List.filter (otra_clave k) ps) <-> In (k', v) ps /\ k' <> k.
Proof.
  rewrite filter_In. unfold otra_clave. cbn [fst]. rewrite negb_true_iff, clave_eqb_neq. tauto.
Qed.

Lemma clave_en_filter {V} (k k' : clave) (ps : list (HashTable.par V)) :
  In k' (map fst (List.filter (otra_clave k) ps)) <-> In k' (map fst ps) /\ k' <> k.
Proof.
  rewrite !in_map_iff. split.
  - intros ([k0 v] & E & H). cbn in E. subst k0. apply en_filter_otra_clave in H as [H Hne].
    split; [|done]. by exists (k', v).
  - intros [([k0 v] & E & H) Hne]. cbn in E. subst k0. exists (k', v). split; [done|].
    by apply en_filter_otra_clave.
Qed.

Lemma contiene_nodo (s : EstadoGrafo) (k : clave) :
  grafo_integro s -> In k (HashTable.obtener_claves (nodos (grafo s))) ->
  HashTable.contiene k (nodos (grafo s)) = Ok true.
Proof.
  intros G Hk. apply in_map_iff in Hk as ([k' v] & E & Hin). cbn in E. subst k'.
  destruct (gi_nodo s G k v Hin) as (nodo & -> & _).
  unfold HashTable.contiene.
  by rewrite (obtener_presente _ _ _ (proj1 (gi_nodos s G)) Hin).
Qed.

Lemma contiene_ausente {V} (h : HashTable.t V) (k : clave) :
  coherente h -> ~ In k (HashTable.obtener_claves h) -> HashTable.contiene k h = Ok false.
Proof. intros C Hk. unfold HashTable.contiene. by rewrite obtener_ausente. Qed.

Lemma aristas_nodo_integro (s : EstadoGrafo) (k : clave) :
  grafo_integro s -> In k (HashTable.obtener_claves (nodos (grafo s))) ->
  exists l, In (k, Some l) (HashTable.obtener_pares (lista_adyacencia (grafo s))) /\
            obtener_aristas_nodo k s = Ok l.
Proof.
  intros G Hk. apply (gi_claves s G) in Hk. apply in_map_iff in Hk as ([k' v] & E & Hin).
  cbn in E. subst k'. destruct (gi_lista s G k v Hin) as (_ & l & -> & _).
  exists l. split; [done|]. unfold obtener_aristas_nodo.
  by rewrite (obtener_presente _ _ _ (proj1 (gi_ady s G)) Hin).
Qed.

Lemma aristas_de_claves_integro (s : EstadoGrafo) (ks : list clave) :
  grafo_integro s ->
  (forall k, In k ks -> In k (HashTable.obtener_claves (nodos (grafo s)))) ->
  exists todas, aristas_de_claves s ks = Ok todas /\
    forall r, In r todas ->
      exists k l, In (k, Some l) (HashTable.obtener_pares (lista_adyacencia (grafo s))) /\ In r l.
Proof.
  intros G. induction ks as [|k ks IH]; intros Hks.
  - exists []. split; [done|]. intros r [].
  - destruct (aristas_nodo_integro s k G (Hks k (or_introl eq_refl))) as (l & Hl & El).
    destruct IH as (resto & Er & Hr); [intros; apply Hks; by right|].
    exists (l ++ resto). split.
    + cbn [aristas_de_claves]. rewrite El. cbn [ligar_r]. by rewrite Er.
    + intros r Hin. apply in_app_iff in Hin as [Hin|Hin]; eauto.
Qed.

Lemma problemas_de_integro (s : EstadoGrafo) (l : list ref) :
  (forall r, In r l ->
     exists a, mem_aristas s !! r = Some a /\
       HashTable.contiene (ClaveInt (nodo_id (origen a))) (nodos (grafo s)) = Ok true /\
       HashTable.contiene (ClaveInt (nodo_id (destino a))) (nodos (grafo s)) = Ok true) ->
  problemas_de s l = Ok [].
Proof.
  induction l as [|r l IH]; intros H; [done|].
  destruct (H r (or_introl eq_refl)) as (a & Ha & Ho & Hd).
  cbn [problemas_de]. unfold desreferenciar. rewrite Ha. cbn [ligar_r].
  rewrite Ho. cbn [ligar_r]. rewrite Hd. cbn [ligar_r].
  rewrite IH by (intros; apply H; by right). reflexivity.
Qed.

(** A graph that satisfies the invariant has no dangling reference. *)
Lemma validar_integro (s : EstadoGrafo) :
  grafo_integro s -> validar_integridad s = Ok [].
Proof.
  intros G. unfold validar_integridad, obtener_todas_aristas.
  destruct (aristas_de_claves_integro s _ G (fun k H => H)) as (todas & -> & Ht).
  cbn [ligar_r]. apply problemas_de_integro. intros r Hr.
  destruct (Ht r Hr) as (k & l & Hin & Hrl).
  destruct (gi_lista s G k _ Hin) as (Hk & l' & [= <-] & Hl).
  destruct (Hl r Hrl) as (a & Ha & Ho & Hd). exists a. split; [done|]. split.
  - rewrite Ho. by apply contiene_nodo.
  - by apply contiene_nodo.
Qed.

Lemma podar_clave mem n ks (p : HashTable.par (list ref)) : fst (podar mem n ks p) = fst p.
Proof. unfold podar. by destruct (_ && _). Qed.

Lemma refs_validas_integro (s : EstadoGrafo) :
  grafo_integro s ->
  refs_validas (mem_aristas s) (HashTable.obtener_pares (lista_adyacencia (grafo s))).
Proof.
  intros G k l r Hin Hr. destruct (gi_lista s G k _ Hin) as (_ & l' & [= <-] & Hl).
  destruct (Hl r Hr) as (a & Ha & _). by eapply lookup_lt_Some.
Qed.

(** [eliminar_nodo] on a node of the graph: what it returns, the two tables
    it leaves, and the invariant. *)
Lemma eliminar_nodo_integro (n : clave) (s : EstadoGrafo) :
  grafo_integro s ->
  HashTable.contiene n (nodos (grafo s)) = Ok true ->
  exists s',
    eliminar_nodo n s = (Ok true, s') /\
    grafo_integro s' /\
    mem_aristas s' = mem_aristas s /\
    HashTable.obtener_pares (nodos (grafo s')) =
      List.filter (otra_clave n) (HashTable.obtener_pares (nodos (grafo s))) /\
    HashTable.obtener_pares (lista_adyacencia (grafo s')) =
      List.filter (otra_clave n)
        (map (podar (mem_aristas s) n (HashTable.obtener_claves (nodos (grafo s))))
             (HashTable.obtener_pares (lista_adyacencia (grafo s)))).
Proof.
  intros G Hn.
  destruct (bucle_podar (HashTable.obtener_claves (nodos (grafo s))) n s
              (proj1 (gi_ady s G)) (refs_validas_integro s G))
    as (t1 & E1 & C1 & P1 & Hc1 & Ht1).
  destruct (eliminar_coherente (nodos (grafo s)) n (proj1 (gi_nodos s G)))
    as (b2 & nd & E2 & C2 & P2 & Hc2 & Ht2 & _).
  destruct (eliminar_coherente t1 n C1) as (b3 & t3 & E3 & C3 & P3 & Hc3 & Ht3 & _).
  exists (con_adyacencia t3 (con_nodos nd (con_adyacencia t1 s))).
  split; [|split; [|split; [done|split; [done|]]]].
  - unfold eliminar_nodo. unfold ligar at 1, leer at 1. unfold ligar at 1, puro at 1.
    rewrite Hn. cbn [negb]. rewrite (ligar_Ok _ _ _ _ _ E1).
    erewrite ligar_Ok; [|by apply en_nodos_corre].
    erewrite ligar_Ok; [|by apply en_adyacencia_corre]. reflexivity.
  - split; cbn.
    + eapply bien_formada_eliminar; [apply (gi_nodos s G)|done..].
    + eapply bien_formada_eliminar; [apply (gi_ady s G)|done|congruence|lia].
    + intros k v Hin. rewrite P2 in Hin. apply en_filter_otra_clave in Hin as [Hin _].
      by apply (gi_nodo s G).
    + intros k v Hin. rewrite P3, P1 in Hin. apply en_filter_otra_clave in Hin as [Hin Hkn].
      apply in_map_iff in Hin as ([k0 v0] & E & Hin).
      pose proof (podar_clave (mem_aristas s) n
                    (HashTable.obtener_claves (nodos (grafo s))) (k0, v0)) as Hk.
      rewrite E in Hk. cbn in Hk. subst k0.
      destruct (gi_lista s G k v0 Hin) as (Hkn' & l & -> & Hl).
      unfold podar in E. cbn [fst snd] in E.
      rewrite (proj2 (existsb_clave k _) Hkn') in E.
      rewrite (proj2 (clave_eqb_neq k n) Hkn) in E. cbn in E. injection E as <-.
      split.
      * unfold HashTable.obtener_claves. rewrite P2. apply clave_en_filter. by split.
      * eexists. split; [done|]. intros r Hr. apply filter_In in Hr as [Hr Hno].
        destruct (Hl r Hr) as (a & Ha & Ho & Hd). exists a. split; [done|]. split; [done|].
        unfold HashTable.obtener_claves. rewrite P2. apply clave_en_filter. split; [done|].
        unfold no_va_a in Hno. rewrite Ha in Hno.
        apply negb_true_iff, clave_eqb_neq in Hno. done.
    + intros k Hk. unfold HashTable.obtener_claves in Hk. rewrite P2 in Hk.
      apply clave_en_filter in Hk as [Hk Hkn].
      unfold HashTable.obtener_claves. rewrite P3, P1. apply clave_en_filter. split; [|done].
      rewrite map_map. apply (gi_claves s G) in Hk.
      apply in_map_iff in Hk as (p & <- & Hp). apply in_map_iff. exists p.
      split; [apply podar_clave|done].
    + apply G.
  - cbn. by rewrite P3, P1.
Qed.

(* ================================================================== *)
(** * The invariant of the graph *)
(* ================================================================== *)

Lemma mismos_extremos_refl m : mismos_extremos m m.
Proof. intros r a H. eauto. Qed.

Lemma mismos_extremos_app m a : mismos_extremos m (m ++ [a]).
Proof. intros r a0 H. exists a0. split; [|done]. by apply lookup_app_l_Some. Qed.

Lemma mismos_extremos_insert m r a a' :
  m !! r = Some a -> origen a' = origen a -> destino a' = destino a ->
  mismos_extremos m (<[r := a']> m).
Proof.
  intros Ha Ho Hd r0 a0 H0. destruct (decide (r0 = r)) as [->|Hne].
  - exists a'. rewrite list_lookup_insert_eq by (by eapply lookup_lt_Some).
    split; [done|]. split; congruence.
  - exists a0. by rewrite list_lookup_insert_ne.
Qed.

Lemma integro_transferir (s s' : EstadoGrafo) :
  grafo_integro s ->
  nodos (grafo s') = nodos (grafo s) ->
  lista_adyacencia (grafo s') = lista_adyacencia (grafo s) ->
  contador_nodos (grafo s) <= contador_nodos (grafo s') ->
  mismos_extremos (mem_aristas s) (mem_aristas s') ->
  grafo_integro s'.
Proof.
  intros G Hn Hl Hc Hm. split; rewrite ?Hn, ?Hl.
  - apply G.
  - apply G.
  - intros k v Hin. destruct (gi_nodo s G k v Hin) as (nodo & -> & -> & H).
    exists nodo. split; [done|]. split; [done|]. lia.
  - intros k v Hin. destruct (gi_lista s G k v Hin) as (Hk & l & -> & H).
    split; [done|]. exists l. split; [done|]. intros r Hr.
    destruct (H r Hr) as (a & Ha & Ho & Hd). destruct (Hm r a Ha) as (a' & Ha' & Eo & Ed).
    exists a'. rewrite Eo, Ed. done.
  - apply G.
  - pose proof (gi_contador s G). lia.
Qed.

Lemma estado_inicial_integro : grafo_integro estado_inicial.
Proof.
  split; cbn; try apply nueva_bien_formada.
  - intros k v [].
  - intros k v [].
  - intros k [].
  - done.
Qed.

Lemma en_insertada {V} (h h' : HashTable.t V) k (v : option V) k' (v' : option V) :
  Permutation (HashTable.obtener_pares h') (HashTable.obtener_pares h ++ [(k, v)]) ->
  In (k', v') (HashTable.obtener_pares h') <->
  In (k', v') (HashTable.obtener_pares h) \/ (k', v') = (k, v).
Proof.
  intros HP. split.
  - intros H. apply (Permutation_in _ HP) in H. apply in_app_iff in H as [H|[H|[]]]; auto.
  - intros H. apply (Permutation_in _ (Permutation_sym HP)). apply in_app_iff.
    destruct H as [H| ->]; [by left|right; by left].
Qed.

Lemma agregar_nodo_integro (x y : Q) (nombre : string) (s : EstadoGrafo) :
  grafo_integro s ->
  exists nodo s', agregar_nodo x y nombre s = (Ok nodo, s') /\ grafo_integro s'.
Proof.
  intros G. set (c := contador_nodos (grafo s) + 1).
  assert (~ In (ClaveInt c) (HashTable.obtener_claves (nodos (grafo s)))) as Hn.
  { intros H. apply in_map_iff in H as ([k v] & E & Hin). cbn in E. subst k.
    destruct (gi_nodo s G _ _ Hin) as (nodo & _ & [= E] & H). lia. }
  assert (~ In (ClaveInt c) (HashTable.obtener_claves (lista_adyacencia (grafo s)))) as Hl.
  { intros H. apply in_map_iff in H as ([k v] & E & Hin). cbn in E. subst k.
    by destruct (gi_lista s G _ _ Hin) as (H & _). }
  destruct (insertar_nueva (nodos (grafo s)) (ClaveInt c)
              (Some (NodoGrafo_init c x y nombre)) (gi_nodos s G) Hn)
    as (nd & En & Wn & Pn & _).
  destruct (insertar_nueva (lista_adyacencia (grafo s)) (ClaveInt c)
              (Some ListaEnlazada.nueva) (gi_ady s G) Hl)
    as (t & Et & Wt & Pt & _).
  eexists _, _. split.
  - unfold agregar_nodo. unfold ligar at 1, modificar at 1. unfold ligar at 1, leer at 1.
    cbn [contador_nodos grafo poner_grafo poner_contador_nodos].
    erewrite ligar_Ok; [|apply en_nodos_corre; cbn; exact En].
    erewrite ligar_Ok; [|apply en_adyacencia_corre; cbn; exact Et].
    reflexivity.
  - split; cbn.
    + done.
    + done.
    + intros k v Hin. apply (en_insertada _ _ _ _ _ _ Pn) in Hin as [Hin|[= -> ->]].
      * destruct (gi_nodo s G k v Hin) as (nodo & -> & -> & H). exists nodo.
        split; [done|]. split; [done|]. lia.
      * eexists. split; [done|]. cbn. split; [done|].
        pose proof (gi_contador s G). fold c. lia.
    + intros k v Hin. apply (en_insertada _ _ _ _ _ _ Pt) in Hin as [Hin|[= -> ->]].
      * destruct (gi_lista s G k v Hin) as (Hk & l & -> & H). split.
        -- apply (claves_tras_insertar _ _ _ _ _ Pn). by left.
        -- exists l. split; [done|]. intros r Hr. destruct (H r Hr) as (a & Ha & Ho & Hd).
           exists a. split; [done|]. split; [done|].
           apply (claves_tras_insertar _ _ _ _ _ Pn). by left.
      * split; [apply (claves_tras_insertar _ _ _ _ _ Pn); by right|].
        exists []. split; [done|]. intros r [].
    + intros k Hk. apply (claves_tras_insertar _ _ _ _ _ Pn) in Hk.
      apply (claves_tras_insertar _ _ _ _ _ Pt). destruct Hk as [Hk|Hk]; [left|by right].
      by apply (gi_claves s G).
    + pose proof (gi_contador s G). lia.
Qed.

Lemma poner_mem_aristas_misma (s : EstadoGrafo) : poner_mem_aristas (mem_aristas s) s = s.
Proof. by destruct s. Qed.

Lemma en_arista_corre {A} (r : ref) (m : M AristaGrafo A) (s : EstadoGrafo) a res a' :
  mem_aristas s !! r = Some a -> m a = (res, a') ->
  en_arista r m s = (res, poner_mem_aristas (<[r := a']> (mem_aristas s)) s).
Proof. intros Ha Hm. unfold en_arista, enfocar, en_objeto. by rewrite Ha, Hm. Qed.

Lemma en_arista_invalida {A} (r : ref) (m : M AristaGrafo A) (s : EstadoGrafo) :
  mem_aristas s !! r = None -> en_arista r m s = (Atascado, s).
Proof.
  intros Ha. unfold en_arista, enfocar, en_objeto. rewrite Ha.
  by rewrite poner_mem_aristas_misma.
Qed.

(** A method of an edge that leaves its two nodes alone keeps the
    invariant of the graph. *)
Lemma en_arista_integro {A} (r : ref) (m : M AristaGrafo A) (s : EstadoGrafo) :
  (forall a, origen (snd (m a)) = origen a /\ destino (snd (m a)) = destino a) ->
  grafo_integro s -> grafo_integro (snd (en_arista r m s)).
Proof.
  intros Hm G. destruct (mem_aristas s !! r) as [a|] eqn:Ha.
  - destruct (m a) as [res a'] eqn:E. rewrite (en_arista_corre r m s a res a' Ha E). cbn [snd].
    apply (integro_transferir s); [done|done|done|cbn; lia|]. cbn.
    destruct (Hm a) as [Ho Hd]. rewrite E in Ho, Hd. by apply (mismos_extremos_insert _ _ a).
  - by rewrite en_arista_invalida.
Qed.

Lemma calcular_peso_extremos a :
  origen (snd (calcular_peso_dinamico a)) = origen a /\
  destino (snd (calcular_peso_dinamico a)) = destino a.
Proof. unfold calcular_peso_dinamico, ligar, leer. by destruct (bloqueada a). Qed.

Lemma agregar_vehiculo_extremos a :
  origen (snd (agregar_vehiculo a)) = origen a /\
  destino (snd (agregar_vehiculo a)) = destino a.
Proof.
  unfold agregar_vehiculo, calcular_peso_dinamico, ligar, leer, modificar. cbn.
  by destruct (bloqueada a).
Qed.

Lemma remover_vehiculo_extremos a :
  origen (snd (remover_vehiculo a)) = origen a /\
  destino (snd (remover_vehiculo a)) = destino a.
Proof.
  unfold remover_vehiculo, calcular_peso_dinamico, ligar, leer, modificar. cbn.
  destruct (0 <? carga_trafico a); [|done]. cbn. by destruct (bloqueada a).
Qed.

Lemma primera_arista_valida mem (v : clave) (l : list ref) :
  (forall r, In r l -> (r < length mem)%nat) ->
  exists o, primera_arista_hacia mem v l = Ok o /\
    forall r, o = Some r -> In r l /\
      exists a, mem !! r = Some a /\ clave_eqb (ClaveInt (nodo_id (destino a))) v = true.
Proof.
  induction l as [|r l IH]; intros Hv.
  - exists None. split; [done|]. discriminate.
  - destruct (lookup_lt_is_Some_2 mem r (Hv r (or_introl eq_refl))) as [a Ha].
    cbn [primera_arista_hacia]. unfold desreferenciar. rewrite Ha. cbn [ligar_r].
    destruct (clave_eqb (ClaveInt (nodo_id (destino a))) v) eqn:E.
    + exists (Some r). split; [done|]. intros r' [= <-]. split; [by left|]. eauto.
    + destruct IH as (o & Eo & Ho); [intros; apply Hv; by right|].
      exists o. split; [done|]. intros r' Hr'. destruct (Ho r' Hr') as [Hin Ha'].
      split; [by right|done].
Qed.

Lemma aristas_nodo_total (s : EstadoGrafo) (k : clave) :
  grafo_integro s ->
  exists l, obtener_aristas_nodo k s = Ok l /\
            forall r, In r l -> (r < length (mem_aristas s))%nat.
Proof.
  intros G. unfold obtener_aristas_nodo.
  destruct (obtener_coherente (lista_adyacencia (grafo s)) k (proj1 (gi_ady s G)))
    as [(v & Hin & ->)|(Hout & ->)].
  - destruct (gi_lista s G k v Hin) as (_ & l & -> & Hl). exists l. split; [done|].
    intros r Hr. destruct (Hl r Hr) as (a & Ha & _). by eapply lookup_lt_Some.
  - exists []. split; [done|]. intros r [].
Qed.

Lemma cambiar_bloqueo_integro (b : bool) (u v : clave) (s : EstadoGrafo) :
  grafo_integro s ->
  exists res s',
    (s0 <- leer ;;
     aristas <- puro (obtener_aristas_nodo u s0) ;;
     arista <- puro (primera_arista_hacia (mem_aristas s0) v aristas) ;;
     match arista with
     | Some r => en_arista r (modificar (poner_bloqueada b)) ;;; ret true
     | None => ret false
     end)%metodo s = (Ok res, s') /\ grafo_integro s'.
Proof.
  intros G. unfold ligar at 1, leer at 1.
  destruct (aristas_nodo_total s u G) as (l & El & Hl).
  unfold ligar at 1, puro at 1. rewrite El.
  destruct (primera_arista_valida (mem_aristas s) v l Hl) as (o & Eo & Ho).
  unfold ligar at 1, puro at 1. rewrite Eo. destruct o as [r|].
  - destruct (Ho r eq_refl) as (_ & a & Ha & _).
    erewrite ligar_Ok;
      [|apply (en_arista_corre r _ s a (Ok tt) (poner_bloqueada b a) Ha); reflexivity].
    eexists _, _. split; [reflexivity|].
    apply (integro_transferir s); [done|done|done|cbn; lia|]. cbn.
    by apply (mismos_extremos_insert _ _ a).
  - by exists false, s.
Qed.

Lemma bloquear_arista_integro (u v : clave) (s : EstadoGrafo) :
  grafo_integro s ->
  exists res s', bloquear_arista u v s = (Ok res, s') /\ grafo_integro s'.
Proof. apply (cambiar_bloqueo_integro true). Qed.

Lemma desbloquear_arista_integro (u v : clave) (s : EstadoGrafo) :
  grafo_integro s ->
  exists res s', desbloquear_arista u v s = (Ok res, s') /\ grafo_integro s'.
Proof. apply (cambiar_bloqueo_integro false). Qed.

Lemma eliminar_nodo_total (n : clave) (s : EstadoGrafo) :
  grafo_integro s ->
  exists res s', eliminar_nodo n s = (Ok res, s') /\ grafo_integro s'.
Proof.
  intros G.
  destruct (in_dec clave_eq_dec n (HashTable.obtener_claves (nodos (grafo s)))) as [Hin|Hout].
  - destruct (eliminar_nodo_integro n s G (contiene_nodo s n G Hin)) as (s' & E & G' & _).
    by exists true, s'.
  - exists false, s. unfold eliminar_nodo, ligar, leer, puro.
    by rewrite (contiene_ausente _ _ (proj1 (gi_nodos s G)) Hout).
Qed.

Lemma agregar_a_lista_integro (k : clave) (r : ref) (s : EstadoGrafo) a :
  grafo_integro s ->
  In k (HashTable.obtener_claves (nodos (grafo s))) ->
  mem_aristas s !! r = Some a ->
  ClaveInt (nodo_id (origen a)) = k ->
  In (ClaveInt (nodo_id (destino a))) (HashTable.obtener_claves (nodos (grafo s))) ->
  exists s',
    agregar_a_lista k r s = (Ok tt, s') /\ grafo_integro s' /\
    mem_aristas s' = mem_aristas s /\ nodos (grafo s') = nodos (grafo s).
Proof.
  intros G Hk Ha Ho Hd.
  pose proof (gi_claves s G k Hk) as Hkl.
  apply in_map_iff in Hkl as ([k' v] & E & Hin). cbn in E. subst k'.
  destruct (gi_lista s G _ v Hin) as (_ & l & -> & Hl).
  destruct (mutar_valor_coherente (lista_adyacencia (grafo s)) k (ListaEnlazada.agregar r)
              (proj1 (gi_ady s G))) as (t & Et & Ct & Pt & Hc & Hs).
  exists (con_adyacencia t s). split; [|split; [|done]].
  - unfold agregar_a_lista. unfold ligar at 1, leer at 1. unfold ligar at 1, puro at 1.
    rewrite (obtener_presente _ _ _ (proj1 (gi_ady s G)) Hin).
    by apply en_adyacencia_corre.
  - assert (forall k0, In k0 (HashTable.obtener_claves t) <->
                       In k0 (HashTable.obtener_claves (lista_adyacencia (grafo s)))) as Hclaves.
    { intros k0. unfold HashTable.obtener_claves. rewrite Pt, map_map.
      erewrite map_ext; [reflexivity|]. intros p. apply mutar_par_clave. }
    split; cbn.
    + apply G.
    + split; [done|]. destruct (gi_ady s G) as [_ Hb]. lia.
    + apply G.
    + intros k0 v0 Hin0. rewrite Pt in Hin0. apply in_map_iff in Hin0 as ([k1 v1] & E & Hin1).
      destruct (gi_lista s G k1 v1 Hin1) as (Hk1 & l1 & -> & Hl1).
      unfold mutar_par in E. cbn [fst snd] in E.
      destruct (clave_eqb k1 k) eqn:Ek; injection E as <- <-.
      * split; [done|]. eexists. split; [done|]. unfold ListaEnlazada.agregar.
        intros r0 Hr0. apply in_app_iff in Hr0 as [Hr0|[<-|[]]]; [by apply Hl1|].
        apply clave_eqb_eq in Ek. subst k1. eauto.
      * split; [done|]. eauto.
    + intros k0 Hk0. apply Hclaves. by apply (gi_claves s G).
    + apply G.
Qed.

Section ConRaiz.
Variable raiz : Q -> Q.

Lemma agregar_arista_integro (id_origen id_destino : clave) (peso : Q) (bidir : bool)
  (s : EstadoGrafo) :
  grafo_integro s ->
  exists res s', agregar_arista raiz id_origen id_destino peso bidir s = (Ok res, s') /\
                 grafo_integro s'.
Proof.
  intros G. unfold agregar_arista. unfold ligar at 1, leer at 1.
  assert (forall k, exists v, HashTable.obtener k (nodos (grafo s)) = Ok v /\
            forall nodo, v = Some nodo ->
              k = ClaveInt (nodo_id nodo) /\
              In k (HashTable.obtener_claves (nodos (grafo s)))) as Hobt.
  { intros k. destruct (obtener_coherente (nodos (grafo s)) k (proj1 (gi_nodos s G)))
      as [(v & Hin & E)|(Hout & E)].
    - exists v. split; [exact E|].
      intros nodo ->. destruct (gi_nodo s G _ _ Hin) as (nodo' & [= <-] & -> & _).
      split; [done|]. apply in_map_iff. by eexists (_, _).
    - exists None. split; [exact E|]. discriminate. }
  destruct (Hobt id_origen) as (vo & Eo & Ho). destruct (Hobt id_destino) as (vd & Ed & Hd).
  unfold ligar at 1, puro at 1. rewrite Eo. unfold ligar at 1, puro at 1. rewrite Ed.
  destruct vo as [no|]; [|by exists false, s]. destruct vd as [nd|]; [|by exists false, s].
  destruct (Ho no eq_refl) as [Eko Hko]. destruct (Hd nd eq_refl) as [Ekd Hkd].
  match goal with |- context [AristaGrafo_init no nd ?p bidir] => set (w := p) end.
  set (a1 := AristaGrafo_init no nd w bidir).
  set (s1 := poner_mem_aristas (mem_aristas s ++ [a1]) s).
  assert (grafo_integro s1) as G1.
  { apply (integro_transferir s); [done|done|done|cbn; lia|]. apply mismos_extremos_app. }
  assert (mem_aristas s1 !! length (mem_aristas s) = Some a1) as Ha1.
  { cbn. by apply list_lookup_middle. }
  destruct (agregar_a_lista_integro id_origen (length (mem_aristas s)) s1 a1 G1)
    as (s2 & E2 & G2 & Hm2 & Hn2); [done|done|by rewrite Eko|by rewrite Ekd in Hkd|].
  unfold crear_arista at 1. unfold ligar at 1. unfold ligar at 1, leer at 1.
  unfold ligar at 1, modificar at 1. unfold ret at 1. fold a1. fold s1.
  rewrite (ligar_Ok _ _ _ _ _ E2).
  destruct bidir.
  - set (a2 := AristaGrafo_init nd no w true).
    set (s3 := poner_mem_aristas (mem_aristas s2 ++ [a2]) s2).
    assert (grafo_integro s3) as G3.
    { apply (integro_transferir s2); [done|done|done|cbn; lia|]. apply mismos_extremos_app. }
    assert (mem_aristas s3 !! length (mem_aristas s2) = Some a2) as Ha2.
    { cbn. by apply list_lookup_middle. }
    destruct (agregar_a_lista_integro id_destino (length (mem_aristas s2)) s3 a2 G3)
      as (s4 & E4 & G4 & Hm4 & Hn4).
    + cbn. by rewrite Hn2.
    + done.
    + by rewrite Ekd.
    + cbn. rewrite Hn2. by rewrite Eko in Hko.
    + assert ((arista_inversa <- crear_arista a2 ;;
                agregar_a_lista id_destino arista_inversa)%metodo s2 = (Ok tt, s4)) as E5.
      { erewrite ligar_Ok; [exact E4|]. reflexivity. }
      rewrite (ligar_Ok _ _ _ _ _ E5).
      eexists _, _. split; [reflexivity|].
      apply (integro_transferir s4); [done|done|done|cbn; lia|]. apply mismos_extremos_refl.
  - eexists _, _. split; [reflexivity|].
    apply (integro_transferir s2); [done|done|done|cbn; lia|]. apply mismos_extremos_refl.
Qed.

Lemma alcanzable_integro (s : EstadoGrafo) : alcanzable raiz s -> grafo_integro s.
Proof.
  induction 1 as [|s x y nombre _ IH|s o d peso bidir _ IH|s n _ IH|s u v _ IH|s u v _ IH
                  |s r _ IH|s r _ IH|s r _ IH].
  - apply estado_inicial_integro.
  - by destruct (agregar_nodo_integro x y nombre s IH) as (nodo & s' & -> & G).
  - by destruct (agregar_arista_integro o d peso bidir s IH) as (res & s' & -> & G).
  - by destruct (eliminar_nodo_total n s IH) as (res & s' & -> & G).
  - by destruct (bloquear_arista_integro u v s IH) as (res & s' & -> & G).
  - by destruct (desbloquear_arista_integro u v s IH) as (res & s' & -> & G).
  - apply en_arista_integro; [apply agregar_vehiculo_extremos|done].
  - apply en_arista_integro; [apply remover_vehiculo_extremos|done].
  - apply en_arista_integro; [apply calcular_peso_extremos|done].
Qed.

End ConRaiz.

(* ================================================================== *)
(** * Checking a table by computation *)
(* ================================================================== *)

Section TablaComprobar.
Context {V : Type}.

Lemma colocados_correcto (cap : Z) (bs : list (list (HashTable.par V))) (i0 : nat) :
  colocados cap i0 bs = true ->
  forall i b p, bs !! i = Some b -> In p b -> indice_de (fst p) cap = (i0 + i)%nat.
Proof.
  revert i0. induction bs as [|b0 bs IH]; intros i0 H i b p Hb Hp; [done|].
  cbn [colocados] in H. apply andb_true_iff in H as [H0 H1].
  destruct i as [|i]; cbn in Hb.
  - injection Hb as <-. rewrite forallb_forall in H0. specialize (H0 p Hp).
    apply Nat.eqb_eq in H0. lia.
  - rewrite (IH (S i0) H1 i b p Hb Hp). lia.
Qed.

Lemma sin_repetir_correcto (ks : list clave) : sin_repetir ks = true -> List.NoDup ks.
Proof.
  induction ks as [|k ks IH]; cbn [sin_repetir]; intros H; [apply List.NoDup_nil|].
  apply andb_true_iff in H as [H0 H1]. apply List.NoDup_cons; [|by apply IH].
  intros Hin. apply existsb_clave in Hin. by rewrite Hin in H0.
Qed.

Lemma bien_formadab_correcta (h : HashTable.t V) : bien_formadab h = true -> bien_formada h.
Proof.
  unfold bien_formadab. rewrite !andb_true_iff.
  intros [[[[[H1 H2] H3] H4] H5] H6]. split; [split|].
  - by apply Z.ltb_lt.
  - by apply Nat.eqb_eq.
  - intros i b p Hb Hp. by rewrite (colocados_correcto _ _ _ H3 i b p Hb Hp).
  - by apply sin_repetir_correcto.
  - by apply Z.eqb_eq.
  - by apply Z.ltb_lt.
Qed.

End TablaComprobar.

(* ================================================================== *)
(** * The map: insertion and membership *)
(* ================================================================== *)

(** C1. For a well-formed map and a key already in it, [insertar] does not
    overwrite: the assignment to the stored tuple raises [TypeError], and the
    map is left as it was. *)
Theorem insertar_clave_presente_lanza {V : Type} (h : HashTable.t V) (k : clave)
  (valor : option V) :
  bien_formada h -> In k (HashTable.obtener_claves h) ->
  HashTable.insertar k valor h = (Lanza TypeError, h).
Proof. apply insertar_presente. Qed.

(** On [tabla_ejemplo], where 17 is stored with the value 5. *)
Lemma insertar_clave_presente_lanza_testigo :
  bien_formada tabla_ejemplo /\
  In (ClaveInt 17) (HashTable.obtener_claves tabla_ejemplo) /\
  HashTable.obtener (ClaveInt 17) tabla_ejemplo = Ok (Some 5) /\
  HashTable.insertar (ClaveInt 17) (Some 9) tabla_ejemplo = (Lanza TypeError, tabla_ejemplo).
Proof.
  assert (bien_formada tabla_ejemplo) as W by (apply bien_formadab_correcta; reflexivity).
  assert (In (ClaveInt 17) (HashTable.obtener_claves tabla_ejemplo)) as Hk
    by (right; left; reflexivity).
  split; [exact W|]. split; [exact Hk|]. split; [reflexivity|].
  exact (insertar_clave_presente_lanza tabla_ejemplo (ClaveInt 17) (Some 9) W Hk).
Defined.

(** C10. [contiene(k)] is true exactly when [obtener(k)] returns a value
    other than [None], on every map; and when [insertar(k, None)] succeeds on
    a well-formed map, the entry is stored and counted in [tamaño], yet
    [contiene(k)] is false and [obtener(k)] returns [None], as it does for a
    key that is not in the map. *)
Theorem contiene_no_distingue_None {V : Type} (h h' : HashTable.t V) (k : clave) :
  bien_formada h ->
  HashTable.insertar k None h = (Ok tt, h') ->
  (forall (t : HashTable.t V) (k' : clave),
     HashTable.contiene k' t = Ok true <-> exists x, HashTable.obtener k' t = Ok (Some x)) /\
  In (k, None) (HashTable.obtener_pares h') /\
  HashTable.tamaño h' = HashTable.tamaño h + 1 /\
  HashTable.contiene k h' = Ok false /\
  HashTable.obtener k h' = Ok None /\
  (forall k', ~ In k' (HashTable.obtener_claves h') -> HashTable.obtener k' h' = Ok None).
Proof.
  intros W E. split.
  { intros t k'. unfold HashTable.contiene.
    destruct (HashTable.obtener k' t) as [[x|]| |]; cbn; split;
      try discriminate; eauto; intros [x' [=]]. }
  destruct (in_dec clave_eq_dec k (HashTable.obtener_claves h)) as [Hin|Hout].
  { rewrite (insertar_presente h k None W Hin) in E. discriminate. }
  destruct (insertar_nueva h k None W Hout) as (h'' & E' & W' & P & Ht).
  rewrite E in E'. injection E' as <-.
  assert (In (k, None) (HashTable.obtener_pares h')) as Hk.
  { apply (Permutation_in _ (Permutation_sym P)). apply in_app_iff. right. by left. }
  assert (HashTable.obtener k h' = Ok None) as Ho by (by apply obtener_presente; [apply W'|]).
  split; [done|]. split; [done|]. split; [|split; [done|]].
  - unfold HashTable.contiene. by rewrite Ho.
  - intros k' Hk'. apply obtener_ausente; [apply W'|done].
Qed.

(** On the empty table, with [insertar(1, None)]. *)
Lemma contiene_no_distingue_None_testigo :
  bien_formada (V := Z) HashTable.nueva /\
  HashTable.insertar (ClaveInt 1) None HashTable.nueva = (Ok tt, tabla_con_None) /\
  HashTable.obtener_pares tabla_con_None = [(ClaveInt 1, None)] /\
  HashTable.tamaño tabla_con_None = 1 /\
  HashTable.contiene (ClaveInt 1) tabla_con_None = Ok false /\
  HashTable.obtener (ClaveInt 1) tabla_con_None = Ok None /\
  HashTable.obtener (ClaveInt 2) tabla_con_None = Ok None.
Proof.
  assert (bien_formada (V := Z) HashTable.nueva) as W
    by (apply bien_formadab_correcta; reflexivity).
  assert (HashTable.insertar (ClaveInt 1) None HashTable.nueva = (Ok tt, tabla_con_None)) as E
    by reflexivity.
  pose proof (contiene_no_distingue_None HashTable.nueva tabla_con_None (ClaveInt 1) W E)
    as (_ & _ & Ht & Hc & Ho & Ha).
  split; [exact W|]. split; [exact E|]. split; [reflexivity|]. split; [exact Ht|].
  split; [exact Hc|]. split; [exact Ho|]. reflexivity.
Defined.

(* ================================================================== *)
(** * The scenarios *)
(* ================================================================== *)

(** C2, as stated: on the graph of the scenario the query returns nothing; it
    raises [TypeError] when it seeds the distance of the origin. *)
Lemma ruta_abc_lanza :
  encontrar_ruta_mas_corta (ClaveInt 1) (ClaveInt 3) grafo_abc = Lanza TypeError.
Proof. vm_compute. reflexivity. Qed.

(** C3. With both nodes in the graph and no route between them the query
    aborts with [TypeError]; with an id that is not in the graph it returns
    the no-path result. *)
Theorem ruta_inalcanzable_lanza :
  encontrar_ruta_mas_corta (ClaveInt 1) (ClaveInt 9) grafo_dos_nodos = Ok (None, [], []) /\
  encontrar_ruta_mas_corta (ClaveInt 9) (ClaveInt 1) grafo_dos_nodos = Ok (None, [], []) /\
  obtener_vecinos (ClaveInt 1) grafo_dos_nodos = Ok [] /\
  encontrar_ruta_mas_corta (ClaveInt 1) (ClaveInt 2) grafo_dos_nodos = Lanza TypeError.
Proof. vm_compute. auto. Qed.

(** C4. With the origin in the graph neither query returns: both raise
    [TypeError], and no mapping of destinations comes back. *)
Theorem rutas_multiples_lanzan :
  encontrar_rutas_multiples (ClaveInt 1) [ClaveInt 2] grafo_una_arista = Lanza TypeError /\
  encontrar_ruta_mas_corta (ClaveInt 1) (ClaveInt 2) grafo_una_arista = Lanza TypeError.
Proof. vm_compute. auto. Qed.

(** C6. On a graph with one edge, bottleneck detection raises [TypeError]
    out of the path query and leaves the edge, which was not blocked,
    blocked. *)
Theorem cuellos_botella_deja_bloqueada :
  bloqueada <$> mem_aristas grafo_una_arista !! 0%nat = Some false /\
  fst (_identificar_cuellos_botella grafo_una_arista) = Lanza TypeError /\
  bloqueada <$> mem_aristas (tras _identificar_cuellos_botella grafo_una_arista) !! 0%nat
    = Some true.
Proof. vm_compute. auto. Qed.

(** C5, as stated: after [desbloquear_arista] the edge is not blocked and
    carries one vehicle, and its current weight is still the base weight 5,
    not 5 * (1 + 2 * 1 / 10) = 6. *)
Lemma peso_atrasado_tras_desbloquear :
  exists a, mem_aristas grafo_desbloqueado !! 0%nat = Some a /\
    bloqueada a = false /\ carga_trafico a = 1 /\
    Qeq_bool (peso_actual a) 5 = true /\
    Qeq_bool (peso_segun_carga a) 6 = true /\
    Qeq_bool (peso_actual a) (peso_segun_carga a) = false.
Proof. eexists. vm_compute. auto 10. Qed.

(** C7, as stated: with two edges from 1 to 2, the first of them blocked
    beforehand, node 2 is still a neighbour of 1 after
    [bloquear_arista(1, 2)], and after [desbloquear_arista(1, 2)] the
    neighbours of 1 are not what they were before the block. *)
Lemma bloqueo_con_aristas_paralelas :
  exists b : NodoGrafo,
    nodo_id b = 2 /\
    obtener_vecinos (ClaveInt 1) grafo_paralelo = Ok [(b, 7%Q)] /\
    obtener_vecinos (ClaveInt 1)
      (tras (bloquear_arista (ClaveInt 1) (ClaveInt 2)) grafo_paralelo) = Ok [(b, 7%Q)] /\
    obtener_vecinos (ClaveInt 1)
      (tras (desbloquear_arista (ClaveInt 1) (ClaveInt 2))
         (tras (bloquear_arista (ClaveInt 1) (ClaveInt 2)) grafo_paralelo))
      = Ok [(b, 5%Q); (b, 7%Q)].
Proof. exists (NodoGrafo_init 2 100 0 "B"). vm_compute. auto. Qed.

Lemma vecinos_abc :
  exists b c : NodoGrafo,
    nodo_id b = 2 /\ nodo_id c = 3 /\
    obtener_vecinos (ClaveInt 1) grafo_abc = Ok [(b, 100 # 50); (c, 10%Q)] /\
    obtener_vecinos (ClaveInt 2) grafo_abc = Ok [(c, 100 # 50)] /\
    obtener_vecinos (ClaveInt 3) grafo_abc = Ok [].
Proof.
  exists (NodoGrafo_init 2 100 0 "B"), (NodoGrafo_init 3 100 100 "C").
  vm_compute. auto 10.
Qed.

(** C2, amended. [agregar_arista] reads the weight 1 of A->B and B->C as not
    given and stores the Euclidean length 100 divided by 50, that is 2; A->C
    keeps 10. The route [A, B, C] then costs 4, and no route from A to C
    costs less. *)
Theorem ruta_abc_cuesta_cuatro :
  map (fun a => (nodo_id (origen a), nodo_id (destino a), Qred (peso_actual a)))
      (mem_aristas grafo_abc) = [(1, 2, 2%Q); (2, 3, 2%Q); (1, 3, 10%Q)] /\
  (exists costo, ruta_con_costo grafo_abc (ClaveInt 1) (ClaveInt 3)
                   [ClaveInt 1; ClaveInt 2; ClaveInt 3] costo /\ (costo == 4)%Q) /\
  (forall ruta costo,
     ruta_con_costo grafo_abc (ClaveInt 1) (ClaveInt 3) ruta costo -> (4 <= costo)%Q).
Proof.
  destruct vecinos_abc as (b & c & Hb & Hc & V1 & V2 & V3).
  split; [reflexivity|]. split.
  - exists ((100 # 50) + ((100 # 50) + 0))%Q. split; [|reflexivity].
    eapply ruta_paso; [exact V1|by left|by rewrite Hb|].
    eapply ruta_paso; [exact V2|by left|by rewrite Hc|].
    apply ruta_llegada.
  - assert (forall ruta costo, ruta_con_costo grafo_abc (ClaveInt 3) (ClaveInt 3) ruta costo ->
              (0 <= costo)%Q) as H3.
    { intros ruta costo H. inversion H as [|? ? ? vs nodo peso resto co Hv Hin]; subst.
      - apply Qle_refl.
      - rewrite V3 in Hv. injection Hv as <-. destruct Hin. }
    assert (forall ruta costo, ruta_con_costo grafo_abc (ClaveInt 2) (ClaveInt 3) ruta costo ->
              (2 <= costo)%Q) as H2.
    { intros ruta costo H. inversion H as [|? ? ? vs nodo peso resto co Hv Hin Hn Hr]; subst.
      rewrite V2 in Hv. injection Hv as <-. destruct Hin as [[= <- <-]|[]].
      rewrite Hc in Hr. apply H3 in Hr.
      apply Qle_trans with ((100 # 50) + 0)%Q; [by vm_compute|].
      apply Qplus_le_compat; [apply Qle_refl|done]. }
    intros ruta costo H. inversion H as [|? ? ? vs nodo peso resto co Hv Hin Hn Hr]; subst.
    rewrite V1 in Hv. injection Hv as <-. destruct Hin as [[= <- <-]|[[= <- <-]|[]]].
    + rewrite Hb in Hr. apply H2 in Hr.
      apply Qle_trans with ((100 # 50) + 2)%Q; [by vm_compute|].
      apply Qplus_le_compat; [apply Qle_refl|done].
    + rewrite Hc in Hr. apply H3 in Hr.
      apply Qle_trans with (10 + 0)%Q; [by vm_compute|].
      apply Qplus_le_compat; [apply Qle_refl|done].
Qed.

(* ================================================================== *)
(** * The weight of an edge *)
(* ================================================================== *)

Lemma primera_arista_Some mem (v : clave) (l : list ref) (r : ref) :
  primera_arista_hacia mem v l = Ok (Some r) ->
  In r l /\ exists a, mem !! r = Some a /\ clave_eqb (ClaveInt (nodo_id (destino a))) v = true.
Proof.
  induction l as [|r0 l IH]; [discriminate|].
  cbn [primera_arista_hacia]. unfold desreferenciar.
  destruct (mem !! r0) as [a0|] eqn:E0; [|discriminate]. cbn [ligar_r].
  destruct (clave_eqb (ClaveInt (nodo_id (destino a0))) v) eqn:Ev.
  - intros [= <-]. split; [by left|eauto].
  - intros H. destruct (IH H) as [Hin Ha]. split; [by right|done].
Qed.

Lemma primera_arista_mismos_destinos (mem mem' : list AristaGrafo) (v : clave) (l : list ref) :
  (forall r, destino <$> mem' !! r = destino <$> mem !! r) ->
  primera_arista_hacia mem' v l = primera_arista_hacia mem v l.
Proof.
  intros Hd. induction l as [|r l IH]; [done|].
  cbn [primera_arista_hacia]. unfold desreferenciar. specialize (Hd r).
  destruct (mem' !! r) as [a'|], (mem !! r) as [a|]; try discriminate; [|done].
  injection Hd as Hd. cbn [ligar_r]. rewrite Hd, IH. done.
Qed.

Lemma destinos_tras_bloqueo (mem : list AristaGrafo) (r : ref) a (b : bool) :
  mem !! r = Some a ->
  forall r0, destino <$> <[r := poner_bloqueada b a]> mem !! r0 = destino <$> mem !! r0.
Proof.
  intros Ha r0. destruct (decide (r0 = r)) as [->|Hne].
  - rewrite list_lookup_insert_eq by (by eapply lookup_lt_Some). by rewrite Ha.
  - by rewrite list_lookup_insert_ne.
Qed.

(** [bloquear_arista] ([b] true) and [desbloquear_arista] ([b] false) when
    the first edge from [u] to [v] is [r]. *)
Lemma cambiar_bloqueo_corre (b : bool) (u v : clave) (s : EstadoGrafo) (r : ref) a :
  _encontrar_arista u v s = Ok (Some r) -> mem_aristas s !! r = Some a ->
  (s0 <- leer ;;
   aristas <- puro (obtener_aristas_nodo u s0) ;;
   arista <- puro (primera_arista_hacia (mem_aristas s0) v aristas) ;;
   match arista with
   | Some r => en_arista r (modificar (poner_bloqueada b)) ;;; ret true
   | None => ret false
   end)%metodo s
  = (Ok true, poner_mem_aristas (<[r := poner_bloqueada b a]> (mem_aristas s)) s).
Proof.
  unfold _encontrar_arista. intros He Ha. unfold ligar at 1, leer at 1.
  unfold ligar at 1, puro at 1.
  destruct (obtener_aristas_nodo u s) as [l| |]; try discriminate. cbn [ligar_r] in He.
  unfold ligar at 1, puro at 1. rewrite He.
  erewrite ligar_Ok;
    [|apply (en_arista_corre r _ s a (Ok tt) (poner_bloqueada b a) Ha); reflexivity].
  reflexivity.
Qed.

Lemma poner_bloqueada_misma a : poner_bloqueada (bloqueada a) a = a.
Proof. by destruct a. Qed.

Lemma ecuacion_peso_recalculada a :
  ecuacion_peso (poner_peso_actual (peso_base a * factor_congestion a)%Q a).
Proof.
  unfold ecuacion_peso, peso_segun_carga, factor_congestion. cbn. unfold Qdiv. ring.
Qed.

(** C5, amended. On an edge that is not blocked the equation holds after
    [agregar_vehiculo], and after [remover_vehiculo] when the edge had load;
    without load [remover_vehiculo] changes nothing. [bloquear_arista] and
    [desbloquear_arista] change the blocked flag of the edge they find and
    nothing else of it, so the equation holds after them exactly when it held
    before. While the edge is blocked [calcular_peso_dinamico] returns
    infinity and leaves the edge untouched, and the neighbour query omits
    it. *)
Theorem ecuacion_peso_tras_operaciones (s : EstadoGrafo) (r : ref) (a : AristaGrafo) :
  mem_aristas s !! r = Some a ->
  (exists a1, mem_aristas (tras (en_arista r agregar_vehiculo) s) !! r = Some a1 /\
     carga_trafico a1 = carga_trafico a + 1 /\ bloqueada a1 = bloqueada a /\
     (bloqueada a = false -> ecuacion_peso a1)) /\
  (0 < carga_trafico a ->
   exists a2, mem_aristas (tras (en_arista r remover_vehiculo) s) !! r = Some a2 /\
     carga_trafico a2 = carga_trafico a - 1 /\ bloqueada a2 = bloqueada a /\
     (bloqueada a = false -> ecuacion_peso a2)) /\
  (carga_trafico a <= 0 -> tras (en_arista r remover_vehiculo) s = s) /\
  (forall u v, _encontrar_arista u v s = Ok (Some r) ->
     mem_aristas (tras (bloquear_arista u v) s) !! r = Some (poner_bloqueada true a) /\
     mem_aristas (tras (desbloquear_arista u v) s) !! r = Some (poner_bloqueada false a)) /\
  (forall b, ecuacion_peso (poner_bloqueada b a) <-> ecuacion_peso a) /\
  (bloqueada a = true ->
     calcular_peso_dinamico a = (Ok Inf, a) /\ vecinos_de (mem_aristas s) [r] = Ok []).
Proof.
  intros Ha. pose proof (lookup_lt_Some _ _ _ Ha) as Hlt.
  split; [|split; [|split; [|split; [|split]]]].
  - destruct (agregar_vehiculo a) as [res a1] eqn:E.
    exists a1. unfold tras. rewrite (en_arista_corre r _ s a res a1 Ha E). cbn.
    rewrite list_lookup_insert_eq by done. split; [done|].
    unfold agregar_vehiculo, calcular_peso_dinamico, ligar, leer, modificar in E. cbn in E.
    destruct (bloqueada a) eqn:Eb; cbn in E; injection E as _ <-; cbn;
      (split; [done|]); (split; [done|]); [discriminate|].
    intros _. apply (ecuacion_peso_recalculada (poner_carga_trafico (carga_trafico a + 1) a)).
  - intros Hc. destruct (remover_vehiculo a) as [res a2] eqn:E.
    exists a2. unfold tras. rewrite (en_arista_corre r _ s a res a2 Ha E). cbn.
    rewrite list_lookup_insert_eq by done. split; [done|].
    unfold remover_vehiculo, calcular_peso_dinamico, ligar, leer, modificar in E.
    apply Z.ltb_lt in Hc. rewrite Hc in E. cbn in E.
    destruct (bloqueada a) eqn:Eb; cbn in E; injection E as _ <-; cbn;
      (split; [done|]); (split; [done|]); [discriminate|].
    intros _. apply (ecuacion_peso_recalculada (poner_carga_trafico (carga_trafico a - 1) a)).
  - intros Hc. unfold tras.
    assert (remover_vehiculo a = (Ok tt, a)) as E.
    { unfold remover_vehiculo, ligar, leer.
      destruct (0 <? carga_trafico a) eqn:E0; [apply Z.ltb_lt in E0; lia|done]. }
    rewrite (en_arista_corre r _ s a _ a Ha E). cbn.
    rewrite list_insert_id by done. apply poner_mem_aristas_misma.
  - intros u v He. unfold tras, bloquear_arista, desbloquear_arista.
    rewrite !(cambiar_bloqueo_corre _ u v s r a He Ha). cbn.
    by rewrite !list_lookup_insert_eq.
  - intros b. unfold ecuacion_peso, peso_segun_carga. by destruct a.
  - intros Hb. split.
    + unfold calcular_peso_dinamico, ligar, leer. by rewrite Hb.
    + cbn. unfold desreferenciar. rewrite Ha. cbn. by rewrite Hb.
Qed.

(** On the edge of [grafo_una_arista]. *)
Lemma ecuacion_peso_tras_operaciones_testigo :
  mem_aristas grafo_una_arista !! 0%nat = Some arista_12 /\
  exists a1, mem_aristas (tras (en_arista 0%nat agregar_vehiculo) grafo_una_arista) !! 0%nat
             = Some a1 /\ carga_trafico a1 = 1 /\ ecuacion_peso a1.
Proof.
  assert (mem_aristas grafo_una_arista !! 0%nat = Some arista_12) as Ha
    by (vm_compute; reflexivity).
  split; [exact Ha|].
  destruct (ecuacion_peso_tras_operaciones grafo_una_arista 0%nat arista_12 Ha)
    as ((a1 & H1 & H2 & _ & H3) & _).
  exists a1. split; [exact H1|]. split; [exact H2|]. exact (H3 eq_refl).
Defined.

(* ================================================================== *)
(** * Blocking and unblocking *)
(* ================================================================== *)

Lemma aristas_hacia_primera (mem : list AristaGrafo) (v : clave) (l : list ref) r rs :
  aristas_hacia mem v l = Ok (r :: rs) -> primera_arista_hacia mem v l = Ok (Some r).
Proof.
  induction l as [|r0 l IH]; [discriminate|].
  cbn [aristas_hacia primera_arista_hacia]. unfold desreferenciar.
  destruct (mem !! r0) as [a0|]; [|discriminate]. cbn [ligar_r].
  destruct (aristas_hacia mem v l) as [resto| |]; try discriminate. cbn [ligar_r].
  destruct (clave_eqb (ClaveInt (nodo_id (destino a0))) v).
  - by intros [= -> _].
  - intros [= ->]. by apply IH.
Qed.

Lemma aristas_hacia_cons (mem : list AristaGrafo) (v : clave) (r : ref) (l : list ref) :
  aristas_hacia mem v (r :: l) =
  (a <- desreferenciar mem r ;;
   resto <- aristas_hacia mem v l ;;
   Ok (if clave_eqb (ClaveInt (nodo_id (destino a))) v then r :: resto else resto))%resultado.
Proof. reflexivity. Qed.

Lemma filter_vecino (v : clave) (x : NodoGrafo * Q) (l : list (NodoGrafo * Q)) :
  List.filter (fun x => negb (vecino_es v x)) (x :: l) =
  if clave_eqb (ClaveInt (nodo_id (fst x))) v
  then List.filter (fun x => negb (vecino_es v x)) l
  else x :: List.filter (fun x => negb (vecino_es v x)) l.
Proof. cbn [List.filter]. unfold vecino_es at 1. by destruct (clave_eqb _ v). Qed.

Lemma vecinos_de_cons (mem : list AristaGrafo) (r : ref) (l : list ref) :
  vecinos_de mem (r :: l) =
  (a <- desreferenciar mem r ;;
   resto <- vecinos_de mem l ;;
   Ok (if negb (bloqueada a) && nodo_activo (destino a)
       then (destino a, peso_actual a) :: resto else resto))%resultado.
Proof. reflexivity. Qed.

(** The neighbours over a list of edges once the edge [r], the only one of
    the list that leads to [v], is blocked. *)
Lemma vecinos_tras_bloquear (mem : list AristaGrafo) (v : clave) (r : ref) a (l : list ref)
  (rs : list ref) (vecinos : list (NodoGrafo * Q)) :
  mem !! r = Some a ->
  clave_eqb (ClaveInt (nodo_id (destino a))) v = true ->
  aristas_hacia mem v l = Ok rs -> (forall x, In x rs -> x = r) ->
  vecinos_de mem l = Ok vecinos ->
  vecinos_de (<[r := poner_bloqueada true a]> mem) l
  = Ok (List.filter (fun x => negb (vecino_es v x)) vecinos).
Proof.
  intros Ha Hv. revert rs vecinos. induction l as [|r0 l IH]; intros rs vecinos Hrs Hu Hvec.
  - injection Hvec as <-. done.
  - rewrite aristas_hacia_cons in Hrs. rewrite vecinos_de_cons in Hvec.
    rewrite vecinos_de_cons. unfold desreferenciar in *.
    destruct (mem !! r0) as [a0|] eqn:E0; [|discriminate].
    unfold ligar_r at 1 in Hrs. unfold ligar_r at 1 in Hvec.
    destruct (aristas_hacia mem v l) as [rs'| |] eqn:Ers; try discriminate.
    destruct (vecinos_de mem l) as [vs'| |] eqn:Evs; try discriminate.
    unfold ligar_r in Hrs, Hvec. injection Hvec as <-.
    destruct (decide (r0 = r)) as [->|Hne].
    + rewrite list_lookup_insert_eq by (by eapply lookup_lt_Some).
      assert (a0 = a) as Eq by congruence. subst a0. rewrite Hv in Hrs. injection Hrs as <-.
      unfold ligar_r at 1.
      rewrite (IH rs' vs') by (done || (intros; apply Hu; by right)).
      unfold ligar_r. cbn [bloqueada poner_bloqueada negb andb].
      destruct (negb (bloqueada a) && nodo_activo (destino a)); [|done].
      rewrite filter_vecino. unfold fst at 1. by rewrite Hv.
    + rewrite list_lookup_insert_ne by done. rewrite E0. unfold ligar_r at 1.
      destruct (clave_eqb (ClaveInt (nodo_id (destino a0))) v) eqn:Hv0.
      { injection Hrs as <-. exfalso. apply Hne. apply Hu. by left. }
      injection Hrs as <-. rewrite (IH rs' vs') by done. unfold ligar_r.
      destruct (negb (bloqueada a0) && nodo_activo (destino a0)); [|done].
      rewrite filter_vecino. unfold fst at 1. by rewrite Hv0.
Qed.

(** C7, amended. When [r] is the only edge from [u] to [v] and it is not
    blocked, [bloquear_arista(u, v)] returns true and takes the pairs of [v]
    out of [obtener_vecinos(u)], leaving the others; [desbloquear_arista(u, v)]
    then returns true and gives back the state, and so the neighbours, that
    preceded the block. *)
Theorem bloquear_desbloquear_vecinos (s : EstadoGrafo) (u v : clave) (r : ref)
  (a : AristaGrafo) (vecinos : list (NodoGrafo * Q)) :
  aristas_entre u v s = Ok [r] ->
  mem_aristas s !! r = Some a ->
  bloqueada a = false ->
  obtener_vecinos u s = Ok vecinos ->
  fst (bloquear_arista u v s) = Ok true /\
  obtener_vecinos u (tras (bloquear_arista u v) s)
    = Ok (List.filter (fun x => negb (vecino_es v x)) vecinos) /\
  (forall x, In x (List.filter (fun x => negb (vecino_es v x)) vecinos) ->
     ClaveInt (nodo_id (fst x)) <> v) /\
  fst (desbloquear_arista u v (tras (bloquear_arista u v) s)) = Ok true /\
  tras (desbloquear_arista u v) (tras (bloquear_arista u v) s) = s /\
  obtener_vecinos u (tras (desbloquear_arista u v) (tras (bloquear_arista u v) s))
    = Ok vecinos.
Proof.
  intros He Ha Hb Hvec. unfold aristas_entre in He.
  destruct (obtener_aristas_nodo u s) as [l| |] eqn:El; try discriminate. cbn [ligar_r] in He.
  pose proof (aristas_hacia_primera _ _ _ _ _ He) as Hp.
  destruct (primera_arista_Some _ _ _ _ Hp) as (Hrl & a' & Ha' & Hv).
  assert (a' = a) as -> by congruence.
  assert (_encontrar_arista u v s = Ok (Some r)) as Hen
    by (unfold _encontrar_arista; by rewrite El).
  pose proof (cambiar_bloqueo_corre true u v s r a Hen Ha) as E1.
  set (s1 := poner_mem_aristas (<[r := poner_bloqueada true a]> (mem_aristas s)) s) in *.
  assert (bloquear_arista u v s = (Ok true, s1)) as E1' by exact E1.
  assert (obtener_aristas_nodo u s1 = Ok l) as El1 by exact El.
  assert (mem_aristas s1 !! r = Some (poner_bloqueada true a)) as Ha1.
  { cbn. apply list_lookup_insert_eq. by eapply lookup_lt_Some. }
  assert (_encontrar_arista u v s1 = Ok (Some r)) as Hen1.
  { unfold _encontrar_arista. rewrite El1. cbn [ligar_r]. cbn [mem_aristas s1 poner_mem_aristas].
    rewrite (primera_arista_mismos_destinos (mem_aristas s)); [done|].
    by apply destinos_tras_bloqueo. }
  pose proof (cambiar_bloqueo_corre false u v s1 r _ Hen1 Ha1) as E2.
  assert (poner_mem_aristas
            (<[r := poner_bloqueada false (poner_bloqueada true a)]> (mem_aristas s1)) s1 = s)
    as Es.
  { unfold s1, poner_mem_aristas. cbn [mem_aristas grafo]. rewrite list_insert_insert_eq.
    replace (poner_bloqueada false (poner_bloqueada true a)) with a
      by (destruct a; cbn in Hb; by subst).
    rewrite list_insert_id by done. by destruct s. }
  rewrite Es in E2.
  assert (desbloquear_arista u v s1 = (Ok true, s)) as E2' by exact E2.
  unfold tras. rewrite E1'. cbn [fst snd]. rewrite E2'. cbn [fst snd].
  split; [done|]. split; [|split; [|done]].
  - unfold obtener_vecinos in Hvec |- *. unfold obtener_aristas_nodo in El.
    change (lista_adyacencia (grafo s1)) with (lista_adyacencia (grafo s)).
    destruct (HashTable.obtener u (lista_adyacencia (grafo s))) as [[lista|]| |];
      try discriminate; unfold ligar_r in El, Hvec |- *.
    + injection El as <-. unfold ListaEnlazada.obtener_lista in *.
      apply (vecinos_tras_bloquear (mem_aristas s) v r a lista [r] vecinos Ha Hv He);
        [|done]. intros x [<-|[]]. done.
    + injection El as <-. discriminate.
  - intros x Hx. apply filter_In in Hx as [_ Hx]. apply negb_true_iff in Hx.
    by apply clave_eqb_neq.
Qed.

(** On [grafo_abc], with the edge from A to B. *)
Lemma bloquear_desbloquear_vecinos_testigo :
  aristas_entre (ClaveInt 1) (ClaveInt 2) grafo_abc = Ok [0%nat] /\
  mem_aristas grafo_abc !! 0%nat = Some arista_ab /\
  bloqueada arista_ab = false /\
  obtener_vecinos (ClaveInt 1) grafo_abc = Ok vecinos_de_a /\
  obtener_vecinos (ClaveInt 1) (tras (bloquear_arista (ClaveInt 1) (ClaveInt 2)) grafo_abc)
    = Ok [(NodoGrafo_init 3 100 100 "C", 10%Q)] /\
  obtener_vecinos (ClaveInt 1)
    (tras (desbloquear_arista (ClaveInt 1) (ClaveInt 2))
       (tras (bloquear_arista (ClaveInt 1) (ClaveInt 2)) grafo_abc)) = Ok vecinos_de_a.
Proof.
  assert (aristas_entre (ClaveInt 1) (ClaveInt 2) grafo_abc = Ok [0%nat]) as He
    by (vm_compute; reflexivity).
  assert (mem_aristas grafo_abc !! 0%nat = Some arista_ab) as Ha by (vm_compute; reflexivity).
  assert (bloqueada arista_ab = false) as Hb by reflexivity.
  assert (obtener_vecinos (ClaveInt 1) grafo_abc = Ok vecinos_de_a) as Hv
    by (vm_compute; reflexivity).
  destruct (bloquear_desbloquear_vecinos grafo_abc (ClaveInt 1) (ClaveInt 2) 0%nat arista_ab
              vecinos_de_a He Ha Hb Hv) as (_ & H2 & _ & _ & _ & H6).
  split; [exact He|]. split; [exact Ha|]. split; [exact Hb|]. split; [exact Hv|].
  split; [exact H2|]. exact H6.
Defined.

(* ================================================================== *)
(** * Removing a node *)
(* ================================================================== *)

Lemma obtener_tras_eliminar {V} (h h' : HashTable.t V) (n k : clave) :
  coherente h -> coherente h' ->
  HashTable.obtener_pares h' = List.filter (otra_clave n) (HashTable.obtener_pares h) ->
  (HashTable.obtener n h' = Ok None) /\
  (k <> n -> HashTable.obtener k h' = HashTable.obtener k h).
Proof.
  intros C C' P. split.
  - apply obtener_ausente; [done|]. unfold HashTable.obtener_claves. rewrite P.
    intros H. apply clave_en_filter in H as [_ H]. done.
  - intros Hk. destruct (obtener_coherente h k C) as [(v & Hin & ->)|(Hout & ->)].
    + apply obtener_presente; [done|]. rewrite P. by apply en_filter_otra_clave.
    + apply obtener_ausente; [done|]. unfold HashTable.obtener_claves. rewrite P.
      intros H. apply clave_en_filter in H as [H _]. done.
Qed.

Section ConRaiz.
Variable raiz : Q -> Q.

(** C9. On a graph that the program can build, [eliminar_nodo(n)] of a node
    [n] of the graph returns true; afterwards [n] is in neither table, the
    other nodes are as before, the adjacency list of every other node is its
    former list without the edges whose destination is [n], the edge objects
    are untouched, and [validar_integridad] finds no problem. *)
Theorem eliminar_nodo_sin_referencias (s : EstadoGrafo) (n : clave) :
  alcanzable raiz s ->
  HashTable.contiene n (nodos (grafo s)) = Ok true ->
  exists s',
    eliminar_nodo n s = (Ok true, s') /\
    HashTable.contiene n (nodos (grafo s')) = Ok false /\
    HashTable.obtener n (lista_adyacencia (grafo s')) = Ok None /\
    (forall k, k <> n ->
       HashTable.obtener k (nodos (grafo s')) = HashTable.obtener k (nodos (grafo s))) /\
    (forall k, k <> n -> In k (HashTable.obtener_claves (nodos (grafo s))) ->
       exists l, obtener_aristas_nodo k s = Ok l /\
         obtener_aristas_nodo k s' = Ok (List.filter (no_va_a (mem_aristas s) n) l)) /\
    mem_aristas s' = mem_aristas s /\
    validar_integridad s' = Ok [].
Proof.
  intros Halc Hn. pose proof (alcanzable_integro raiz s Halc) as G.
  destruct (eliminar_nodo_integro n s G Hn) as (s' & E & G' & Hm & Pn & Pl).
  exists s'. split; [done|].
  destruct (obtener_tras_eliminar (nodos (grafo s)) (nodos (grafo s')) n n
              (proj1 (gi_nodos s G)) (proj1 (gi_nodos s' G')) Pn) as [Hon _].
  split; [unfold HashTable.contiene; by rewrite Hon|]. split; [|split; [|split; [|split]]].
  - apply obtener_ausente; [apply (gi_ady s' G')|].
    unfold HashTable.obtener_claves. rewrite Pl. intros H.
    apply clave_en_filter in H as [_ H]. done.
  - intros k Hk.
    by apply (obtener_tras_eliminar (nodos (grafo s)) (nodos (grafo s')) n k
                (proj1 (gi_nodos s G)) (proj1 (gi_nodos s' G')) Pn).
  - intros k Hk Hin. destruct (aristas_nodo_integro s k G Hin) as (l & Hl & El).
    exists l. split; [done|]. unfold obtener_aristas_nodo.
    rewrite (obtener_presente _ k (Some (List.filter (no_va_a (mem_aristas s) n) l))
               (proj1 (gi_ady s' G'))); [done|].
    rewrite Pl. apply en_filter_otra_clave. split; [|done].
    apply in_map_iff. exists (k, Some l). split; [|done].
    unfold podar. cbn [fst snd]. rewrite (proj2 (existsb_clave k _) Hin).
    by rewrite (proj2 (clave_eqb_neq k n) Hk).
  - done.
  - by apply validar_integro.
Qed.

End ConRaiz.

(** On [grafo_abc], with the node B. *)
Lemma eliminar_nodo_sin_referencias_testigo :
  alcanzable raiz_racional grafo_abc /\
  HashTable.contiene (ClaveInt 2) (nodos (grafo grafo_abc)) = Ok true /\
  obtener_aristas_nodo (ClaveInt 1) grafo_abc = Ok [0%nat; 2%nat] /\
  exists s',
    eliminar_nodo (ClaveInt 2) grafo_abc = (Ok true, s') /\
    obtener_aristas_nodo (ClaveInt 1) s' = Ok [2%nat] /\
    validar_integridad s' = Ok [].
Proof.
  assert (alcanzable raiz_racional grafo_abc) as Halc
    by (unfold grafo_abc, tras;
        do 3 apply alc_agregar_arista; do 3 apply alc_agregar_nodo; apply alc_inicial).
  assert (HashTable.contiene (ClaveInt 2) (nodos (grafo grafo_abc)) = Ok true) as Hn
    by (vm_compute; reflexivity).
  assert (obtener_aristas_nodo (ClaveInt 1) grafo_abc = Ok [0%nat; 2%nat]) as Hl
    by (vm_compute; reflexivity).
  split; [exact Halc|]. split; [exact Hn|]. split; [exact Hl|].
  destruct (eliminar_nodo_sin_referencias raiz_racional grafo_abc (ClaveInt 2) Halc Hn)
    as (s' & E & _ & _ & _ & H5 & _ & H7).
  exists s'. split; [exact E|]. split; [|exact H7].
  assert (ClaveInt 1 <> ClaveInt 2) as Hne by discriminate.
  assert (In (ClaveInt 1) (HashTable.obtener_claves (nodos (grafo grafo_abc)))) as Hin
    by (vm_compute; tauto).
  destruct (H5 (ClaveInt 1) Hne Hin) as (l & El & El').
  rewrite Hl in El. injection El as <-. rewrite El'. vm_compute. reflexivity.
Defined.

(* ================================================================== *)
(** * The load of the edges and the vehicles *)
(* ================================================================== *)

Lemma contar_cons (mem : list Vehiculo) e r regs :
  contar mem e (r :: regs) = (if ocupa mem e r then 1 else 0) + contar mem e regs.
Proof. unfold contar. cbn [List.filter]. destruct (ocupa mem e r); cbn [length]; lia. Qed.

Lemma contar_app (mem : list Vehiculo) e l1 l2 :
  contar mem e (l1 ++ l2) = contar mem e l1 + contar mem e l2.
Proof. unfold contar. rewrite List.filter_app, length_app. lia. Qed.

Lemma contar_fuera (mem : list Vehiculo) e r veh' regs :
  ~ In r regs -> contar (<[r := veh']> mem) e regs = contar mem e regs.
Proof.
  induction regs as [|r0 regs IH]; intros Hr; [done|].
  rewrite !contar_cons, IH by (intros H; apply Hr; by right).
  unfold ocupa. rewrite list_lookup_insert_ne; [done|].
  intros ->. apply Hr. by left.
Qed.

Lemma contar_dentro (mem : list Vehiculo) e r veh veh' regs :
  List.NoDup regs -> In r regs -> mem !! r = Some veh ->
  contar (<[r := veh']> mem) e regs + peso_en e veh = contar mem e regs + peso_en e veh'.
Proof.
  intros Hnd Hin Hm. induction regs as [|r0 regs IH]; [destruct Hin|].
  apply List.NoDup_cons_iff in Hnd as [Hr0 Hnd]. rewrite !contar_cons.
  destruct (decide (r0 = r)) as [->|Hne].
  - rewrite contar_fuera by done. unfold ocupa.
    rewrite list_lookup_insert_eq by (by eapply lookup_lt_Some). rewrite Hm.
    unfold peso_en. lia.
  - destruct Hin as [Hin|Hin]; [done|]. specialize (IH Hnd Hin).
    assert (ocupa (<[r := veh']> mem) e r0 = ocupa mem e r0) as ->; [|lia].
    unfold ocupa. by rewrite list_lookup_insert_ne by done.
Qed.

Lemma contar_ext (mem mem' : list Vehiculo) e regs :
  (forall r, In r regs -> mem' !! r = mem !! r) ->
  contar mem' e regs = contar mem e regs.
Proof.
  induction regs as [|r0 regs IH]; intros H; [done|].
  rewrite !contar_cons, IH by (intros; apply H; by right).
  unfold ocupa. rewrite H by (by left). done.
Qed.

Lemma carga_tras_agregar a :
  agregar_vehiculo a = (Ok tt, snd (agregar_vehiculo a)) /\
  carga_trafico (snd (agregar_vehiculo a)) = carga_trafico a + 1.
Proof.
  unfold agregar_vehiculo, calcular_peso_dinamico, ligar, leer, modificar. cbn.
  by destruct (bloqueada a).
Qed.

Lemma carga_tras_remover a :
  remover_vehiculo a = (Ok tt, snd (remover_vehiculo a)) /\
  carga_trafico (snd (remover_vehiculo a)) =
    if 0 <? carga_trafico a then carga_trafico a - 1 else carga_trafico a.
Proof.
  unfold remover_vehiculo, calcular_peso_dinamico, ligar, leer, modificar.
  destruct (0 <? carga_trafico a); [|done]. cbn. by destruct (bloqueada a).
Qed.

Lemma elemento_en_lookup {A} (l : list A) (i : Z) (a : A) :
  0 <= i -> l !! Z.to_nat i = Some a -> elemento_en l i = Ok a.
Proof.
  intros Hi H. rewrite <- (Z2Nat.id i Hi). by apply elemento_en_Some.
Qed.

Lemma contar_ext_filter (mem mem' : list Vehiculo) e regs :
  (forall r, In r regs -> mem' !! r = mem !! r) ->
  List.filter (ocupa mem' e) regs = List.filter (ocupa mem e) regs.
Proof.
  intros H. apply filter_ext_in. intros r Hr. unfold ocupa. by rewrite H.
Qed.

Lemma poner_mem_vehiculos_misma (s : Simulacion) : poner_mem_vehiculos (mem_vehiculos s) s = s.
Proof. by destruct s. Qed.

Lemma en_vehiculo_corre {A} (r : ref) (m : M Vehiculo A) (s : Simulacion) veh res veh' :
  mem_vehiculos s !! r = Some veh -> m veh = (res, veh') ->
  en_vehiculo r m s = (res, poner_mem_vehiculos (<[r := veh']> (mem_vehiculos s)) s).
Proof. intros Hv Hm. unfold en_vehiculo, enfocar, en_objeto. by rewrite Hv, Hm. Qed.

Lemma en_vehiculo_leer (r : ref) (s : Simulacion) veh :
  mem_vehiculos s !! r = Some veh -> en_vehiculo r leer s = (Ok veh, s).
Proof.
  intros Hv. rewrite (en_vehiculo_corre r leer s veh (Ok veh) veh Hv eq_refl).
  by rewrite list_insert_id, poner_mem_vehiculos_misma.
Qed.

Lemma en_vehiculo_modificar (r : ref) (f : Vehiculo -> Vehiculo) (s : Simulacion) veh :
  mem_vehiculos s !! r = Some veh ->
  en_vehiculo r (modificar f) s
  = (Ok tt, poner_mem_vehiculos (<[r := f veh]> (mem_vehiculos s)) s).
Proof. intros Hv. by apply (en_vehiculo_corre r (modificar f) s veh). Qed.

Lemma en_grafo_arista {A} (e : ref) (m : M AristaGrafo A) (s : Simulacion) a res a' :
  mem_aristas (sim_grafo s) !! e = Some a -> m a = (res, a') ->
  en_grafo (en_arista e m) s
  = (res, poner_sim_grafo
            (poner_mem_aristas (<[e := a']> (mem_aristas (sim_grafo s))) (sim_grafo s)) s).
Proof.
  intros Ha Hm. unfold en_grafo, enfocar.
  by rewrite (en_arista_corre e m (sim_grafo s) a res a' Ha Hm).
Qed.

Lemma en_grafo_arista_leer (e : ref) (s : Simulacion) a :
  mem_aristas (sim_grafo s) !! e = Some a ->
  en_grafo (en_arista e leer) s = (Ok a, s).
Proof.
  intros Ha. rewrite (en_grafo_arista e leer s a (Ok a) a Ha eq_refl).
  rewrite list_insert_id by done. rewrite poner_mem_aristas_misma. by destruct s.
Qed.

Lemma paso_vehiculo_nulo r veh s :
  mem_vehiculos s !! r = Some veh -> 0 <= indice_ruta_actual veh ->
  paso_vehiculo r veh veh s s.
Proof.
  intros Hv Hi. split; try done.
  - by rewrite list_insert_id.
  - intros e a Ha. by exists a.
Qed.

Lemma peso_en_igual e veh veh' :
  estado veh' = estado veh -> ruta_aristas veh' = ruta_aristas veh ->
  indice_ruta_actual veh' = indice_ruta_actual veh ->
  peso_en e veh' = peso_en e veh.
Proof.
  intros H1 H2 H3. unfold peso_en, en_arista_b, arista_en_curso. by rewrite H1, H2, H3.
Qed.

Lemma peso_en_fuera e veh :
  arista_en_curso veh = None -> peso_en e veh = 0.
Proof. intros H. unfold peso_en, en_arista_b. by rewrite H. Qed.

Lemma peso_en_curso e e' veh :
  arista_en_curso veh = Some e' -> peso_en e veh = if Nat.eqb e' e then 1 else 0.
Proof. intros H. unfold peso_en, en_arista_b. by rewrite H. Qed.

Section Paso.
Variable raiz : Q -> Q.

(** The end of [actualizar_posicion]: the interpolated position and the
    travel time. *)
Lemma actualizar_posicion_cola (r : ref) (dt : Q) (s : Simulacion) veh :
  mem_vehiculos s !! r = Some veh -> 0 <= indice_ruta_actual veh ->
  (forall e, In e (ruta_aristas veh) -> (e < length (mem_aristas (sim_grafo s)))%nat) ->
  exists veh',
    ((veh3 <- en_vehiculo r leer ;;
      (if indice_ruta_actual veh3 <? largo_ruta veh3 then
         arista_actual <-
           puro (elemento_en (ruta_aristas veh3) (indice_ruta_actual veh3)) ;;
         _interpolar_posicion r arista_actual
       else ret tt) ;;;
      en_vehiculo r (modificar (fun veh =>
        poner_tiempo_viaje (tiempo_viaje veh + dt)%Q veh)))%metodo s)
    = (Ok tt, poner_mem_vehiculos (<[r := veh']> (mem_vehiculos s)) s) /\
    estado veh' = estado veh /\ ruta_aristas veh' = ruta_aristas veh /\
    indice_ruta_actual veh' = indice_ruta_actual veh.
Proof.
  intros Hv Hi Hr.
  rewrite (ligar_Ok _ _ s s veh) by (by apply en_vehiculo_leer).
  destruct (indice_ruta_actual veh <? largo_ruta veh) eqn:E.
  - apply Z.ltb_lt in E. unfold largo_ruta in E.
    destruct (ruta_aristas veh !! Z.to_nat (indice_ruta_actual veh)) as [e|] eqn:He.
    2:{ apply lookup_ge_None in He. lia. }
    assert (In e (ruta_aristas veh)) as Hin
      by (apply en_lookup; eauto).
    destruct (mem_aristas (sim_grafo s) !! e) as [a|] eqn:Ha.
    2:{ apply lookup_ge_None in Ha. specialize (Hr e Hin). lia. }
    eexists. split.
    + erewrite ligar_Ok.
      2:{ erewrite ligar_Ok by (unfold puro; erewrite elemento_en_lookup; eauto).
          unfold _interpolar_posicion.
          erewrite ligar_Ok by (by apply en_grafo_arista_leer).
          by apply en_vehiculo_modificar. }
      erewrite en_vehiculo_modificar
        by (cbn; apply list_lookup_insert_eq; by eapply lookup_lt_Some).
      cbn. by rewrite list_insert_insert_eq.
    + done.
  - eexists. split.
    + erewrite ligar_Ok by reflexivity. by apply en_vehiculo_modificar.
    + done.
Qed.

End Paso.

Lemma estado_igual_eq a b : estado_igual a b = true <-> a = b.
Proof. destruct a, b; cbn; split; congruence. Qed.

Lemma arista_en_curso_viajando veh :
  estado veh = viajando ->
  arista_en_curso veh = ruta_aristas veh !! Z.to_nat (indice_ruta_actual veh).
Proof. intros H. unfold arista_en_curso. by rewrite H. Qed.

Lemma arista_en_curso_detenido veh :
  estado veh <> viajando -> arista_en_curso veh = None.
Proof.
  intros H. unfold arista_en_curso.
  destruct (estado_igual (estado veh) viajando) eqn:E; [|done].
  by apply estado_igual_eq in E.
Qed.

Lemma carga_tras_salir (ma : list AristaGrafo) e1 a1 :
  ma !! e1 = Some a1 -> 0 < carga_trafico a1 ->
  forall e a, ma !! e = Some a ->
    exists a', (<[e1 := snd (remover_vehiculo a1)]> ma) !! e = Some a' /\
      carga_trafico a' + (if Nat.eqb e1 e then 1 else 0) = carga_trafico a.
Proof.
  intros H1 Hpos e a Ha. destruct (Nat.eqb_spec e1 e) as [->|Hne].
  - exists (snd (remover_vehiculo a1)). split.
    + apply list_lookup_insert_eq. by eapply lookup_lt_Some.
    + destruct (carga_tras_remover a1) as [_ ->].
      replace (0 <? carga_trafico a1) with true by (symmetry; apply Z.ltb_lt; lia).
      rewrite H1 in Ha. injection Ha as <-. lia.
  - exists a. split; [|lia]. by rewrite list_lookup_insert_ne.
Qed.

Lemma carga_tras_entrar (ma : list AristaGrafo) e2 a2 :
  ma !! e2 = Some a2 ->
  forall e a, ma !! e = Some a ->
    exists a', (<[e2 := snd (agregar_vehiculo a2)]> ma) !! e = Some a' /\
      carga_trafico a' = carga_trafico a + (if Nat.eqb e2 e then 1 else 0).
Proof.
  intros H2 e a Ha. destruct (Nat.eqb_spec e2 e) as [->|Hne].
  - exists (snd (agregar_vehiculo a2)). split.
    + apply list_lookup_insert_eq. by eapply lookup_lt_Some.
    + destruct (carga_tras_agregar a2) as [_ ->].
      rewrite H2 in Ha. by injection Ha as <-.
  - exists a. split; [|lia]. by rewrite list_lookup_insert_ne.
Qed.

Ltac estado_simple :=
  cbn [mem_vehiculos sim_grafo gestor poner_mem_vehiculos poner_sim_grafo poner_gestor
       mem_aristas grafo poner_mem_aristas].

Ltac recien_puesto :=
  cbn; apply list_lookup_insert_eq; rewrite ?length_insert; done.

Section Paso.
Variable raiz : Q -> Q.

Lemma actualizar_posicion_paso (r : ref) (dt : Q) (s : Simulacion) veh :
  mem_vehiculos s !! r = Some veh -> 0 <= indice_ruta_actual veh ->
  (forall e, In e (ruta_aristas veh) -> (e < length (mem_aristas (sim_grafo s)))%nat) ->
  (forall e a, arista_en_curso veh = Some e ->
     mem_aristas (sim_grafo s) !! e = Some a -> 0 < carga_trafico a) ->
  exists veh' s',
    actualizar_posicion raiz r dt s = (Ok tt, s') /\ paso_vehiculo r veh veh' s s'.
Proof.
  intros Hv Hi Hr Hc. unfold actualizar_posicion.
  rewrite (ligar_Ok _ _ s s veh) by (by apply en_vehiculo_leer).
  destruct (negb (estado_igual (estado veh) viajando)
            || ListaEnlazada.es_vacia (ruta_aristas veh)) eqn:E1.
  { exists veh, s. split; [done|]. by apply paso_vehiculo_nulo. }
  apply orb_false_iff in E1 as [Ev _]. apply negb_false_iff, estado_igual_eq in Ev.
  pose proof (lookup_lt_Some _ _ _ Hv) as Hlt.
  destruct (largo_ruta veh <=? indice_ruta_actual veh) eqn:E2.
  { apply Z.leb_le in E2. unfold largo_ruta in E2.
    exists (poner_posicion (nodo_x (nodo_destino veh)) (nodo_y (nodo_destino veh))
              (poner_estado arribado veh)).
    eexists. split.
    - erewrite ligar_Ok by (by apply en_vehiculo_modificar).
      apply en_vehiculo_modificar. cbn. by apply list_lookup_insert_eq.
    - split; [done|cbn; by rewrite list_insert_insert_eq|done|done|done|].
      intros e a Ha. exists a. split; [done|].
      rewrite (peso_en_fuera e veh), peso_en_fuera; [done| |].
      + by apply arista_en_curso_detenido.
      + rewrite arista_en_curso_viajando by done. apply lookup_ge_None. lia. }
  apply Z.leb_gt in E2. unfold largo_ruta in E2.
  destruct (ruta_aristas veh !! Z.to_nat (indice_ruta_actual veh)) as [e1|] eqn:He1.
  2:{ apply lookup_ge_None in He1. lia. }
  assert (In e1 (ruta_aristas veh)) as Hin1 by (apply en_lookup; eauto).
  destruct (mem_aristas (sim_grafo s) !! e1) as [a1|] eqn:Ha1.
  2:{ apply lookup_ge_None in Ha1. specialize (Hr e1 Hin1). lia. }
  erewrite ligar_Ok by (unfold puro; erewrite elemento_en_lookup; eauto).
  erewrite ligar_Ok by (by apply en_grafo_arista_leer).
  erewrite ligar_Ok by (by apply en_vehiculo_modificar).
  erewrite ligar_Ok by (apply en_vehiculo_leer; cbn; by apply list_lookup_insert_eq).
  cbn [progreso_arista poner_progreso_arista].
  match goal with |- context [Qle_bool 1 ?p] => destruct (Qle_bool 1 p) end.
  - destruct (carga_tras_remover a1) as [Hrem Hcr].
    set (veh1 := poner_progreso_arista _ veh).
    set (veh2 := poner_progreso_arista 0
                   (poner_indice_ruta_actual (indice_ruta_actual veh1 + 1) veh1)).
    set (ma1 := <[e1 := snd (remover_vehiculo a1)]> (mem_aristas (sim_grafo s))).
    assert (length ma1 = length (mem_aristas (sim_grafo s))) as Hl1
      by (unfold ma1; by rewrite length_insert).
    assert (0 < carga_trafico a1) as Hpos
      by (apply (Hc e1 a1); [by rewrite arista_en_curso_viajando|done]).
    destruct (indice_ruta_actual veh + 1 <? largo_ruta veh) eqn:E3.
    + apply Z.ltb_lt in E3. unfold largo_ruta in E3.
      destruct (ruta_aristas veh !! Z.to_nat (indice_ruta_actual veh + 1)) as [e2|] eqn:He2.
      2:{ apply lookup_ge_None in He2. lia. }
      assert (In e2 (ruta_aristas veh)) as Hin2 by (apply en_lookup; eauto).
      destruct (ma1 !! e2) as [a2|] eqn:Ha2.
      2:{ apply lookup_ge_None in Ha2. specialize (Hr e2 Hin2). lia. }
      destruct (carga_tras_agregar a2) as [Hagr Hca].
      set (ma2 := <[e2 := snd (agregar_vehiculo a2)]> ma1).
      set (s5 := {| sim_grafo := poner_mem_aristas ma2 (sim_grafo s);
                    mem_vehiculos := <[r := veh2]> (mem_vehiculos s);
                    gestor := gestor s |}).
      destruct (actualizar_posicion_cola r dt s5 veh2) as (veh' & Hcola & Hest & Hruta & Hind).
      { cbn. by apply list_lookup_insert_eq. }
      { cbn. lia. }
      { cbn. intros e He. unfold ma2. rewrite length_insert, Hl1. by apply Hr. }
      exists veh', (poner_mem_vehiculos (<[r := veh']> (mem_vehiculos s5)) s5). split.
      * erewrite ligar_Ok; [exact Hcola|].
        erewrite ligar_Ok by (by eapply en_grafo_arista).
        erewrite ligar_Ok by (apply en_vehiculo_modificar; recien_puesto).
        erewrite ligar_Ok by (apply en_vehiculo_modificar; recien_puesto).
        erewrite ligar_Ok by (apply en_vehiculo_leer; recien_puesto).
        unfold largo_ruta.
        cbn [indice_ruta_actual poner_progreso_arista poner_indice_ruta_actual veh1
             ruta_aristas].
        estado_simple.
        replace (indice_ruta_actual veh + 1 <? Z.of_nat (length (ruta_aristas veh)))
          with true by (symmetry; apply Z.ltb_lt; lia).
        erewrite ligar_Ok by (unfold puro; erewrite elemento_en_lookup; eauto; lia).
        erewrite en_grafo_arista; [|cbn; exact Ha2|exact Hagr].
        cbn. unfold s5, poner_mem_aristas. cbn. by rewrite !list_insert_insert_eq.
      * split.
        -- done.
        -- cbn. by rewrite list_insert_insert_eq.
        -- cbn. unfold ma2. by rewrite length_insert.
        -- by rewrite Hruta.
        -- rewrite Hind. cbn. lia.
        -- intros e a Ha. cbn [mem_vehiculos sim_grafo poner_mem_vehiculos s5 mem_aristas
                                poner_mem_aristas].
           destruct (carga_tras_salir _ e1 a1 Ha1 Hpos e a Ha) as (a' & Ha' & Hc').
           destruct (carga_tras_entrar ma1 e2 a2 Ha2 e a' Ha') as (a'' & Ha'' & Hc'').
           exists a''. split; [done|].
           rewrite (peso_en_curso e e1 veh) by (by rewrite arista_en_curso_viajando).
           rewrite (peso_en_igual e veh2 veh') by done.
           rewrite (peso_en_curso e e2 veh2)
             by (rewrite arista_en_curso_viajando by done; exact He2).
           lia.
    + apply Z.ltb_ge in E3. unfold largo_ruta in E3.
      set (s5 := {| sim_grafo := poner_mem_aristas ma1 (sim_grafo s);
                    mem_vehiculos := <[r := veh2]> (mem_vehiculos s);
                    gestor := gestor s |}).
      destruct (actualizar_posicion_cola r dt s5 veh2) as (veh' & Hcola & Hest & Hruta & Hind).
      { cbn. by apply list_lookup_insert_eq. }
      { cbn. lia. }
      { cbn. intros e He. rewrite Hl1. by apply Hr. }
      exists veh', (poner_mem_vehiculos (<[r := veh']> (mem_vehiculos s5)) s5). split.
      * erewrite ligar_Ok; [exact Hcola|].
        erewrite ligar_Ok by (by eapply en_grafo_arista).
        erewrite ligar_Ok by (apply en_vehiculo_modificar; recien_puesto).
        erewrite ligar_Ok by (apply en_vehiculo_modificar; recien_puesto).
        erewrite ligar_Ok by (apply en_vehiculo_leer; recien_puesto).
        unfold largo_ruta.
        cbn [indice_ruta_actual poner_progreso_arista poner_indice_ruta_actual veh1
             ruta_aristas].
        estado_simple.
        replace (indice_ruta_actual veh + 1 <? Z.of_nat (length (ruta_aristas veh)))
          with false by (symmetry; apply Z.ltb_ge; lia).
        cbn. unfold s5, poner_mem_aristas. cbn. by rewrite !list_insert_insert_eq.
      * split.
        -- done.
        -- cbn. by rewrite list_insert_insert_eq.
        -- done.
        -- by rewrite Hruta.
        -- rewrite Hind. cbn. lia.
        -- intros e a Ha. cbn [mem_vehiculos sim_grafo poner_mem_vehiculos s5 mem_aristas
                                poner_mem_aristas].
           destruct (carga_tras_salir _ e1 a1 Ha1 Hpos e a Ha) as (a' & Ha' & Hc').
           exists a'. split; [done|].
           rewrite (peso_en_curso e e1 veh) by (by rewrite arista_en_curso_viajando).
           rewrite (peso_en_igual e veh2 veh') by done.
           rewrite (peso_en_fuera e veh2); [lia|].
           rewrite arista_en_curso_viajando by done. apply lookup_ge_None. cbn. lia.
  - set (veh1 := poner_progreso_arista _ veh).
    set (s1 := poner_mem_vehiculos (<[r := veh1]> (mem_vehiculos s)) s).
    destruct (actualizar_posicion_cola r dt s1 veh1) as (veh' & Hcola & Hest & Hruta & Hind).
    { cbn. by apply list_lookup_insert_eq. }
    { done. }
    { done. }
    exists veh', (poner_mem_vehiculos (<[r := veh']> (mem_vehiculos s1)) s1). split.
    + by erewrite ligar_Ok by reflexivity.
    + split.
      * done.
      * cbn. by rewrite list_insert_insert_eq.
      * done.
      * by rewrite Hruta.
      * by rewrite Hind.
      * intros e a Ha. exists a. split; [done|].
        by rewrite (peso_en_igual e veh' veh) by (by rewrite ?Hest, ?Hruta, ?Hind).
Qed.

End Paso.

(** ** The lists of the manager *)

Lemma en_objetos {A} (x : A) (l : list (option A)) : In x (objetos l) <-> In (Some x) l.
Proof.
  unfold objetos. rewrite in_flat_map. split.
  - intros ([y|] & Hin & Hx); [|destruct Hx]. destruct Hx as [->|[]]. done.
  - intros H. exists (Some x). split; [done|by left].
Qed.

Lemma en_registrados (s : Simulacion) (r : ref) :
  In r (registrados s) <->
  exists k, In (k, Some r) (HashTable.obtener_pares (vehiculos (gestor s))).
Proof.
  unfold registrados, HashTable.obtener_valores. rewrite en_objetos, in_map_iff. split.
  - intros ([k v] & E & Hin). cbn in E. subst v. by exists k.
  - intros [k Hin]. by exists (k, Some r).
Qed.

Lemma objetos_app {A} (l1 l2 : list (option A)) : objetos (l1 ++ l2) = objetos l1 ++ objetos l2.
Proof. unfold objetos. by rewrite flat_map_app. Qed.

Lemma eliminar_ref_en (r x : ref) (l : list ref) :
  In x (snd (ListaEnlazada.eliminar misma_ref r l)) -> In x l.
Proof.
  induction l as [|a l IH]; [done|]. cbn [ListaEnlazada.eliminar].
  destruct (misma_ref a r).
  - cbn. by right.
  - destruct (ListaEnlazada.eliminar misma_ref r l) as [b l']. cbn [snd] in *.
    intros [->|H]; [by left|right; by apply IH].
Qed.

Lemma eliminar_ref_unicos (r : ref) (l : list ref) :
  List.NoDup l ->
  List.NoDup (snd (ListaEnlazada.eliminar misma_ref r l)) /\
  ~ In r (snd (ListaEnlazada.eliminar misma_ref r l)).
Proof.
  induction l as [|a l IH]; intros Hnd.
  - split; [constructor|intros []].
  - apply List.NoDup_cons_iff in Hnd as [Ha Hnd]. cbn [ListaEnlazada.eliminar].
    destruct (misma_ref a r) eqn:E.
    + apply Nat.eqb_eq in E. subst a. by split.
    + apply Nat.eqb_neq in E. pose proof (eliminar_ref_en r a l) as Hen.
      destruct (IH Hnd) as [IH1 IH2].
      destruct (ListaEnlazada.eliminar misma_ref r l) as [b l']. cbn [snd] in *. split.
      * constructor; [|done]. intros H. by apply Ha, Hen.
      * intros [->|H]; [done|by apply IH2].
Qed.

Lemma suma_tiempos_total (mem : list Vehiculo) (l : list ref) :
  (forall r, In r l -> (r < length mem)%nat) -> exists q, suma_tiempos mem l = Ok q.
Proof.
  induction l as [|r l IH]; intros H; [by eexists|].
  destruct (IH ltac:(intros; apply H; by right)) as [q Hq].
  destruct (lookup_lt_is_Some_2 mem r (H r ltac:(by left))) as [veh Hveh].
  cbn [suma_tiempos]. unfold desreferenciar. rewrite Hveh. cbn [ligar_r]. rewrite Hq.
  by eexists.
Qed.

Lemma contar_positivo (mem : list Vehiculo) e r regs :
  In r regs -> ocupa mem e r = true -> 0 < contar mem e regs.
Proof.
  intros Hin Ho. unfold contar.
  assert (In r (List.filter (ocupa mem e) regs)) as H by (by apply filter_In).
  destruct (List.filter (ocupa mem e) regs); [destruct H|]. cbn [length]. lia.
Qed.

Lemma ocupa_en_curso (mem : list Vehiculo) r veh e e' :
  mem !! r = Some veh -> arista_en_curso veh = Some e' ->
  ocupa mem e r = Nat.eqb e' e.
Proof. intros Hv Hc. unfold ocupa, en_arista_b. by rewrite Hv, Hc. Qed.

Lemma ocupa_fuera (mem : list Vehiculo) r veh e :
  mem !! r = Some veh -> arista_en_curso veh = None -> ocupa mem e r = false.
Proof. intros Hv Hc. unfold ocupa, en_arista_b. by rewrite Hv, Hc. Qed.

(** ** One vehicle moves *)

Lemma carga_positiva (s : Simulacion) r veh e a :
  invariante_carga s -> In r (registrados s) -> mem_vehiculos s !! r = Some veh ->
  arista_en_curso veh = Some e -> mem_aristas (sim_grafo s) !! e = Some a ->
  0 < carga_trafico a.
Proof.
  intros I Hr Hv Hc Ha. rewrite (I e a Ha).
  apply (contar_positivo _ e r); [done|].
  rewrite (ocupa_en_curso _ r veh e e Hv Hc). apply Nat.eqb_refl.
Qed.

Lemma paso_conserva (s s' : Simulacion) r veh veh' :
  gestor_coherente s -> invariante_carga s ->
  In r (registrados s) -> mem_vehiculos s !! r = Some veh ->
  paso_vehiculo r veh veh' s s' ->
  gestor_coherente s' /\ invariante_carga s'.
Proof.
  intros G I Hr Hv P.
  assert (registrados s' = registrados s) as Hregs
    by (unfold registrados; by rewrite (pv_gestor _ _ _ _ _ P)).
  split.
  - split.
    + rewrite (pv_gestor _ _ _ _ _ P). apply G.
    + rewrite Hregs. apply G.
    + rewrite (pv_gestor _ _ _ _ _ P). apply G.
    + rewrite Hregs, (pv_gestor _ _ _ _ _ P). apply G.
    + rewrite Hregs. intros r0 Hr0. rewrite (pv_mem _ _ _ _ _ P), (pv_largo _ _ _ _ _ P).
      destruct (decide (r0 = r)) as [->|Hne].
      * exists veh'. rewrite list_lookup_insert_eq by (by eapply lookup_lt_Some).
        split; [done|]. split; [apply P|]. rewrite (pv_ruta _ _ _ _ _ P).
        destruct (gc_vehiculo s G r Hr) as (veh0 & Hv0 & _ & Hruta).
        rewrite Hv in Hv0. by injection Hv0 as <-.
      * rewrite list_lookup_insert_ne by done. by apply G.
    + rewrite (pv_gestor _ _ _ _ _ P), (pv_mem _ _ _ _ _ P), length_insert. apply G.
  - intros e a' Ha'.
    destruct (lookup_lt_is_Some_2 (mem_aristas (sim_grafo s)) e) as [a Ha].
    { rewrite <- (pv_largo _ _ _ _ _ P). by eapply lookup_lt_Some. }
    destruct (pv_carga _ _ _ _ _ P e a Ha) as (a'' & Ha'' & Hc).
    rewrite Ha' in Ha''. injection Ha'' as <-.
    unfold vehiculos_en_arista. rewrite Hregs, (pv_mem _ _ _ _ _ P).
    pose proof (contar_dentro (mem_vehiculos s) e r veh veh' (registrados s)
                  (gc_registrados s G) Hr Hv) as Hcont.
    pose proof (I e a Ha) as Hi. unfold vehiculos_en_arista in Hi.
    unfold contar in Hcont. lia.
Qed.

Lemma en_gestor_modificar (f : GestorVehiculos -> GestorVehiculos) (s : Simulacion) :
  en_gestor (modificar f) s = (Ok tt, poner_gestor (f (gestor s)) s).
Proof. reflexivity. Qed.

(** The part of the manager that the invariant reads. *)
Lemma gestor_coherente_transferir (s s' : Simulacion) :
  gestor_coherente s -> invariante_carga s ->
  sim_grafo s' = sim_grafo s -> mem_vehiculos s' = mem_vehiculos s ->
  vehiculos (gestor s') = vehiculos (gestor s) ->
  List.NoDup (vehiculos_activos (gestor s')) ->
  (forall r, In r (vehiculos_activos (gestor s')) -> In r (vehiculos_activos (gestor s))) ->
  (forall r, In r (vehiculos_completados (gestor s')) -> (r < length (mem_vehiculos s))%nat) ->
  gestor_coherente s' /\ invariante_carga s'.
Proof.
  intros G I Hg Hm Hv Hnd Hact Hcom.
  assert (registrados s' = registrados s) as Hregs by (unfold registrados; by rewrite Hv).
  split.
  - split.
    + rewrite Hv. apply G.
    + rewrite Hregs. apply G.
    + done.
    + rewrite Hregs. intros r Hr. by apply G, Hact.
    + rewrite Hregs, Hm, Hg. apply G.
    + by rewrite Hm.
  - intros e a Ha. unfold vehiculos_en_arista. rewrite Hregs, Hm. rewrite Hg in Ha.
    by apply I.
Qed.

Section Gestor.
Variable raiz : Q -> Q.

Lemma procesar_completado_conserva (s : Simulacion) (r : ref) :
  gestor_coherente s -> invariante_carga s -> In r (registrados s) ->
  exists s', _procesar_vehiculo_completado r s = (Ok tt, s') /\
    gestor_coherente s' /\ invariante_carga s' /\
    vehiculos (gestor s') = vehiculos (gestor s).
Proof.
  intros G I Hr.
  destruct (gc_vehiculo s G r Hr) as (veh & Hv & _).
  destruct (suma_tiempos_total (mem_vehiculos s)
              (ListaEnlazada.agregar r (vehiculos_completados (gestor s)))) as [q Hq].
  { intros x Hx. apply in_app_or in Hx as [Hx|[<-|[]]]; [by apply G|by eapply lookup_lt_Some]. }
  destruct (eliminar_ref_unicos r (vehiculos_activos (gestor s)) (gc_activos_unicos s G))
    as [Hnd _].
  unfold _procesar_vehiculo_completado.
  rewrite !(ligar_Ok _ _ _ _ _ (en_gestor_modificar _ _)).
  rewrite (ligar_Ok _ _ _ _ _ (eq_refl : leer _ = (Ok _, _))).
  cbn [mem_vehiculos gestor poner_gestor vehiculos_completados poner_estadisticas
       poner_vehiculos_completados poner_vehiculos_activos ListaEnlazada.obtener_lista].
  rewrite (ligar_Ok _ _ _ _ _ (f_equal (fun x => (x, _)) Hq : puro _ _ = (Ok q, _))).
  match goal with |- context [if ?c then _ else _] => destruct c end.
  - eexists. split; [apply en_gestor_modificar|].
    match goal with |- gestor_coherente ?x /\ _ =>
      cut (gestor_coherente x /\ invariante_carga x); [intros [? ?]; split; [done|split; [done|reflexivity]]|] end.
    apply (gestor_coherente_transferir s); try done.
    + cbn. intros x. by apply eliminar_ref_en.
    + cbn. intros x Hx. apply in_app_or in Hx as [Hx|[<-|[]]]; [by apply G|by eapply lookup_lt_Some].
  - eexists. split; [reflexivity|].
    match goal with |- gestor_coherente ?x /\ _ =>
      cut (gestor_coherente x /\ invariante_carga x); [intros [? ?]; split; [done|split; [done|reflexivity]]|] end.
    apply (gestor_coherente_transferir s); try done.
    + cbn. intros x. by apply eliminar_ref_en.
    + cbn. intros x Hx. apply in_app_or in Hx as [Hx|[<-|[]]]; [by apply G|by eapply lookup_lt_Some].
Qed.

Lemma cuerpo_actualizar_conserva (dt : Q) (s : Simulacion) (r : ref) :
  gestor_coherente s -> invariante_carga s -> In r (registrados s) ->
  exists s', cuerpo_actualizar raiz dt r s = (Ok tt, s') /\
    gestor_coherente s' /\ invariante_carga s' /\
    vehiculos (gestor s') = vehiculos (gestor s).
Proof.
  intros G I Hr.
  destruct (gc_vehiculo s G r Hr) as (veh & Hv & Hi & Hruta).
  destruct (actualizar_posicion_paso raiz r dt s veh Hv Hi Hruta) as (veh' & s1 & Hrun & P).
  { intros e a Hc Ha. by apply (carga_positiva s r veh e a). }
  destruct (paso_conserva s s1 r veh veh' G I Hr Hv P) as [G1 I1].
  assert (mem_vehiculos s1 !! r = Some veh') as Hv1.
  { rewrite (pv_mem _ _ _ _ _ P). apply list_lookup_insert_eq. by eapply lookup_lt_Some. }
  assert (vehiculos (gestor s1) = vehiculos (gestor s)) as Hv01
    by (by rewrite (pv_gestor _ _ _ _ _ P)).
  unfold cuerpo_actualizar.
  rewrite (ligar_Ok _ _ _ _ _ (en_vehiculo_leer r s veh Hv)).
  rewrite (ligar_Ok _ _ _ _ _ Hrun).
  rewrite (ligar_Ok _ _ _ _ _ (en_vehiculo_leer r s1 veh' Hv1)).
  match goal with |- context [if ?c then _ else _] => destruct c end.
  - destruct (procesar_completado_conserva s1 r G1 I1) as (s2 & Hrun2 & G2 & I2 & Hv12).
    { unfold registrados. rewrite Hv01. exact Hr. }
    exists s2. split; [done|]. split; [done|]. split; [done|]. by rewrite Hv12.
  - by exists s1.
Qed.

Lemma bucle_actualizar_conserva (dt : Q) (l : list ref) (s : Simulacion) :
  gestor_coherente s -> invariante_carga s ->
  (forall r, In r l -> In r (registrados s)) ->
  exists s', para_cada l (cuerpo_actualizar raiz dt) s = (Ok tt, s') /\
    gestor_coherente s' /\ invariante_carga s'.
Proof.
  revert s. induction l as [|r l IH]; intros s G I Hl.
  - by exists s.
  - destruct (cuerpo_actualizar_conserva dt s r G I (Hl r ltac:(by left)))
      as (s1 & Hrun & G1 & I1 & Hv).
    destruct (IH s1 G1 I1) as (s2 & Hrun2 & G2 & I2).
    { intros x Hx. unfold registrados. rewrite Hv. apply Hl. by right. }
    exists s2. split; [|done]. cbn [para_cada]. by rewrite (ligar_Ok _ _ _ _ _ Hrun).
Qed.

Lemma actualizar_simulacion_conserva (dt : Q) (s : Simulacion) :
  gestor_coherente s -> invariante_carga s ->
  exists s', actualizar_simulacion raiz dt s = (Ok tt, s') /\
    gestor_coherente s' /\ invariante_carga s'.
Proof.
  intros G I.
  destruct (bucle_actualizar_conserva dt (vehiculos_activos (gestor s)) s G I (gc_activos s G))
    as (s' & Hrun & G' & I').
  exists s'. split; [|done]. exact Hrun.
Qed.

End Gestor.

(** ** Taking a vehicle out of the registry *)

Lemma filter_otra_clave_partes {V} (ps : list (HashTable.par V)) k (v : option V) :
  List.NoDup (map fst ps) -> In (k, v) ps ->
  exists p1 p2, ps = p1 ++ (k, v) :: p2 /\ List.filter (otra_clave k) ps = p1 ++ p2.
Proof.
  intros Hnd Hin. apply in_split in Hin as (p1 & p2 & ->). exists p1, p2. split; [done|].
  rewrite map_app in Hnd. cbn [map fst] in Hnd.
  pose proof (List.NoDup_remove_2 _ _ _ Hnd) as Hk.
  rewrite List.filter_app. cbn [List.filter]. unfold otra_clave at 2. cbn [fst].
  rewrite clave_eqb_refl. cbn [negb].
  rewrite !filter_fijo; [done| |].
  - intros [k' v'] Hp. unfold otra_clave. cbn [fst]. apply negb_true_iff, clave_eqb_neq.
    intros ->. apply Hk, in_or_app. right. apply in_map_iff. by exists (k, v').
  - intros [k' v'] Hp. unfold otra_clave. cbn [fst]. apply negb_true_iff, clave_eqb_neq.
    intros ->. apply Hk, in_or_app. left. apply in_map_iff. by exists (k, v').
Qed.

Lemma registrados_partes (h h' : HashTable.t ref) k r :
  coherente h -> In (k, Some r) (HashTable.obtener_pares h) ->
  HashTable.obtener_pares h' = List.filter (otra_clave k) (HashTable.obtener_pares h) ->
  exists l1 l2,
    objetos (HashTable.obtener_valores h) = l1 ++ r :: l2 /\
    objetos (HashTable.obtener_valores h') = l1 ++ l2.
Proof.
  intros C Hin Hp.
  destruct (filter_otra_clave_partes _ k (Some r) (coh_nodup h C) Hin) as (p1 & p2 & E1 & E2).
  exists (objetos (map snd p1)), (objetos (map snd p2)).
  unfold HashTable.obtener_valores. rewrite Hp, E2, E1, !map_app, !objetos_app. done.
Qed.

Lemma en_registro_corre {A} (m : M (HashTable.t ref) A) (s : Simulacion) res h' :
  m (vehiculos (gestor s)) = (res, h') ->
  en_registro m s = (res, poner_gestor (poner_vehiculos h' (gestor s)) s).
Proof. intros H. unfold en_registro, en_gestor, enfocar. by rewrite H. Qed.

Section Gestor.
Variable raiz : Q -> Q.

Lemma eliminar_vehiculo_conserva (id_vehiculo : clave) (s : Simulacion) :
  gestor_coherente s -> invariante_carga s ->
  exists b s', eliminar_vehiculo id_vehiculo s = (Ok b, s') /\
    gestor_coherente s' /\ invariante_carga s'.
Proof.
  intros G I. pose proof (proj1 (gc_tabla s G)) as C.
  unfold eliminar_vehiculo.
  rewrite (ligar_Ok _ _ _ _ _ (eq_refl : leer s = (Ok s, s))).
  destruct (obtener_coherente (vehiculos (gestor s)) id_vehiculo C)
    as [(v & Hin & Hob)|[Hout Hob]].
  2:{ rewrite (ligar_Ok _ _ _ _ _ (f_equal (fun x => (x, s)) Hob : puro _ s = (Ok None, s))).
      by exists false, s. }
  rewrite (ligar_Ok _ _ _ _ _ (f_equal (fun x => (x, s)) Hob : puro _ s = (Ok v, s))).
  destruct v as [r|]; [|by exists false, s].
  assert (In r (registrados s)) as Hr by (apply en_registrados; eauto).
  destruct (gc_vehiculo s G r Hr) as (veh & Hv & Hi & Hruta).
  rewrite (ligar_Ok _ _ _ _ _ (en_vehiculo_leer r s veh Hv)).
  destruct (eliminar_coherente (vehiculos (gestor s)) id_vehiculo C)
    as (b & h' & Hel & C' & Hp & Hcap & Htam & _).
  destruct (registrados_partes _ h' id_vehiculo r C Hin Hp) as (l1 & l2 & Hl & Hl').
  pose proof (gc_registrados s G) as Hnd. unfold registrados in Hnd. rewrite Hl in Hnd.
  destruct (eliminar_ref_unicos r (vehiculos_activos (gestor s)) (gc_activos_unicos s G))
    as [Hact1 Hact2].
  (* the state once the edge has been left *)
  assert (exists ma',
    (if estado_igual (estado veh) viajando && (indice_ruta_actual veh <? largo_ruta veh)
     then
       arista_actual <- puro (elemento_en (ruta_aristas veh) (indice_ruta_actual veh)) ;;
       en_grafo (en_arista arista_actual remover_vehiculo)
     else ret tt)%metodo s
    = (Ok tt, poner_sim_grafo (poner_mem_aristas ma' (sim_grafo s)) s) /\
    length ma' = length (mem_aristas (sim_grafo s)) /\
    forall e a, mem_aristas (sim_grafo s) !! e = Some a ->
      exists a', ma' !! e = Some a' /\
        carga_trafico a' + (if ocupa (mem_vehiculos s) e r then 1 else 0) = carga_trafico a)
    as (ma' & Hrun & Hlen & Hcarga).
  { destruct (estado_igual (estado veh) viajando) eqn:Ev; cbn [andb].
    - apply estado_igual_eq in Ev.
      destruct (indice_ruta_actual veh <? largo_ruta veh) eqn:E.
      + apply Z.ltb_lt in E. unfold largo_ruta in E.
        destruct (ruta_aristas veh !! Z.to_nat (indice_ruta_actual veh)) as [e1|] eqn:He1.
        2:{ apply lookup_ge_None in He1. lia. }
        assert (In e1 (ruta_aristas veh)) as Hin1 by (apply en_lookup; eauto).
        destruct (mem_aristas (sim_grafo s) !! e1) as [a1|] eqn:Ha1.
        2:{ apply lookup_ge_None in Ha1. specialize (Hruta e1 Hin1). lia. }
        assert (arista_en_curso veh = Some e1) as Hc
          by (by rewrite arista_en_curso_viajando).
        exists (<[e1 := snd (remover_vehiculo a1)]> (mem_aristas (sim_grafo s))).
        split; [|split].
        * erewrite ligar_Ok by (unfold puro; erewrite elemento_en_lookup; eauto).
          eapply en_grafo_arista; [done|]. apply carga_tras_remover.
        * by rewrite length_insert.
        * intros e a Ha. rewrite (ocupa_en_curso _ r veh e e1 Hv Hc).
          apply (carga_tras_salir _ e1 a1 Ha1); [|done].
          by apply (carga_positiva s r veh e1 a1).
      + apply Z.ltb_ge in E. unfold largo_ruta in E.
        exists (mem_aristas (sim_grafo s)). split; [|split; [done|]].
        * rewrite poner_mem_aristas_misma. by destruct s.
        * intros e a Ha. exists a. split; [done|].
          rewrite (ocupa_fuera _ r veh e Hv); [lia|].
          rewrite arista_en_curso_viajando by done. apply lookup_ge_None. lia.
    - exists (mem_aristas (sim_grafo s)). split; [|split; [done|]].
      + rewrite poner_mem_aristas_misma. by destruct s.
      + intros e a Ha. exists a. split; [done|].
        rewrite (ocupa_fuera _ r veh e Hv); [lia|].
        apply arista_en_curso_detenido. intros H. apply estado_igual_eq in H. congruence. }
  rewrite (ligar_Ok _ _ _ _ _ Hrun).
  rewrite (ligar_Ok _ _ _ _ _ (en_gestor_modificar _ _)).
  erewrite ligar_Ok by (apply en_registro_corre; cbn; exact Hel).
  eexists _, _. split; [reflexivity|]. split.
  - split; cbn.
    + eapply bien_formada_eliminar; [apply G|done|done|done].
    + unfold registrados. cbn. rewrite Hl'. by eapply List.NoDup_remove_1.
    + done.
    + unfold registrados. cbn. rewrite Hl'. intros x Hx.
      assert (x <> r) as Hne by (intros ->; done).
      apply eliminar_ref_en, (gc_activos s G) in Hx. unfold registrados in Hx.
      rewrite Hl in Hx. apply in_app_or in Hx as [Hx|[Hx|Hx]]; [|done|];
        apply in_or_app; auto.
    + unfold registrados. cbn. rewrite Hl', Hlen. intros x Hx. apply G.
      unfold registrados. rewrite Hl. apply in_app_or in Hx as [Hx|Hx];
        apply in_or_app; [by left|right; by right].
    + apply G.
  - intros e a' Ha'. cbn in Ha'.
    destruct (lookup_lt_is_Some_2 (mem_aristas (sim_grafo s)) e) as [a Ha].
    { rewrite <- Hlen. by eapply lookup_lt_Some. }
    destruct (Hcarga e a Ha) as (a'' & Ha'' & Hc).
    rewrite Ha' in Ha''. injection Ha'' as <-.
    pose proof (I e a Ha) as Hi'. unfold vehiculos_en_arista in *. cbn.
    unfold registrados in *. cbn. rewrite Hl'. rewrite Hl in Hi'.
    rewrite List.filter_app, length_app in *. cbn [List.filter] in Hi'.
    destruct (ocupa (mem_vehiculos s) e r); cbn [length] in Hi'; lia.
Qed.

End Gestor.

(** A new object in the store and another value of the counter do not touch
    what the invariant reads. *)
Lemma objeto_nuevo_conserva (s : Simulacion) (veh : Vehiculo) (n : Z) :
  gestor_coherente s -> invariante_carga s ->
  let s' := {| sim_grafo := sim_grafo s;
               mem_vehiculos := mem_vehiculos s ++ [veh];
               gestor := poner_contador_vehiculos n (gestor s) |} in
  gestor_coherente s' /\ invariante_carga s'.
Proof.
  intros G I s'. split.
  - split; try apply G.
    + intros r Hr. destruct (gc_vehiculo s G r Hr) as (veh0 & Hv & Hrest).
      exists veh0. split; [|done]. cbn. rewrite lookup_app_l; [done|by eapply lookup_lt_Some].
    + intros r Hr. cbn. rewrite length_app. pose proof (gc_completados s G r Hr). lia.
  - intros e a Ha. rewrite (I e a Ha). unfold vehiculos_en_arista. f_equal. f_equal.
    symmetry. apply (contar_ext_filter (mem_vehiculos s) (mem_vehiculos s ++ [veh])).
    intros r Hr. destruct (gc_vehiculo s G r Hr) as (veh0 & Hv & _).
    rewrite lookup_app_l; [done|by eapply lookup_lt_Some].
Qed.

Lemma contiene_presente {V} (h : HashTable.t V) k (x : V) :
  HashTable.obtener k h = Ok (Some x) -> HashTable.contiene k h = Ok true.
Proof. intros H. unfold HashTable.contiene. by rewrite H. Qed.

Section Gestor.
Variable raiz : Q -> Q.

(** With both nodes in the graph the route query raises, after the counter
    was advanced and the vehicle object made; nothing is registered. *)
Lemma crear_vehiculo_lanza (azar : Azar) (id_origen id_destino : clave) (s : Simulacion)
    (nodo_o nodo_d : NodoGrafo) :
  HashTable.obtener id_origen (nodos (grafo (sim_grafo s))) = Ok (Some nodo_o) ->
  HashTable.obtener id_destino (nodos (grafo (sim_grafo s))) = Ok (Some nodo_d) ->
  crear_vehiculo azar id_origen id_destino s
  = (Lanza TypeError,
     {| sim_grafo := sim_grafo s;
        mem_vehiculos := mem_vehiculos s ++
          [Vehiculo_init azar (contador_vehiculos (gestor s) + 1) nodo_o nodo_d];
        gestor := poner_contador_vehiculos (contador_vehiculos (gestor s) + 1) (gestor s) |}).
Proof.
  intros Ho Hd. unfold crear_vehiculo.
  rewrite (ligar_Ok _ _ _ _ _ (eq_refl : leer s = (Ok s, s))).
  rewrite (ligar_Ok _ _ _ _ _ (f_equal (fun x => (x, s)) Ho : puro _ s = (Ok _, s))).
  rewrite (ligar_Ok _ _ _ _ _ (f_equal (fun x => (x, s)) Hd : puro _ s = (Ok _, s))).
  rewrite (ligar_Ok _ _ _ _ _ (en_gestor_modificar _ _)).
  erewrite ligar_Ok by reflexivity.
  erewrite ligar_Ok by reflexivity.
  eapply ligar_Lanza. unfold puro. f_equal.
  apply ruta_entre_nodos_presentes; by eapply contiene_presente.
Qed.

Lemma crear_vehiculo_conserva (azar : Azar) (id_origen id_destino : clave) (s : Simulacion) :
  gestor_coherente s -> invariante_carga s ->
  gestor_coherente (snd (crear_vehiculo azar id_origen id_destino s)) /\
  invariante_carga (snd (crear_vehiculo azar id_origen id_destino s)).
Proof.
  intros G I.
  destruct (HashTable.obtener id_origen (nodos (grafo (sim_grafo s)))) as [[nodo_o|]| |] eqn:Ho.
  - destruct (HashTable.obtener id_destino (nodos (grafo (sim_grafo s))))
      as [[nodo_d|]| |] eqn:Hd.
    + rewrite (crear_vehiculo_lanza azar _ _ s nodo_o nodo_d Ho Hd). cbn [snd].
      by apply objeto_nuevo_conserva.
    + unfold crear_vehiculo, ligar, leer, puro. by rewrite Ho, Hd.
    + unfold crear_vehiculo, ligar, leer, puro. by rewrite Ho, Hd.
    + unfold crear_vehiculo, ligar, leer, puro. by rewrite Ho, Hd.
  - destruct (HashTable.obtener id_destino (nodos (grafo (sim_grafo s))))
      as [[nodo_d|]| |] eqn:Hd; unfold crear_vehiculo, ligar, leer, puro; by rewrite Ho, Hd.
  - unfold crear_vehiculo, ligar, leer, puro. by rewrite Ho.
  - unfold crear_vehiculo, ligar, leer, puro. by rewrite Ho.
Qed.

End Gestor.

(** The manager starts in the invariant on a graph that no vehicle has
    entered. *)
Lemma simulacion_inicial_coherente (g : EstadoGrafo) :
  (forall e a, mem_aristas g !! e = Some a -> carga_trafico a = 0) ->
  gestor_coherente (simulacion_inicial g) /\ invariante_carga (simulacion_inicial g).
Proof.
  intros H. split.
  - split.
    + apply nueva_bien_formada.
    + constructor.
    + constructor.
    + intros r [].
    + intros r [].
    + intros r [].
  - intros e a Ha. by rewrite (H e a Ha).
Qed.

Lemma simulacion_en_marcha_coherente :
  gestor_coherente simulacion_en_marcha /\ invariante_carga simulacion_en_marcha.
Proof.
  assert (registrados simulacion_en_marcha = [0%nat]) as Hregs by (vm_compute; reflexivity).
  split.
  - split.
    + apply bien_formadab_correcta. vm_compute. reflexivity.
    + rewrite Hregs. constructor; [intros []|constructor].
    + cbn. constructor; [intros []|constructor].
    + rewrite Hregs. by intros r Hr.
    + rewrite Hregs. intros r [<-|[]]. exists vehiculo_en_ab.
      split; [reflexivity|]. split; [cbn; lia|].
      intros e [<-|[<-|[]]]; vm_compute; lia.
    + intros r [].
  - intros e a Ha. unfold vehiculos_en_arista. rewrite Hregs.
    do 3 (destruct e as [|e];
          [vm_compute in Ha; injection Ha as <-; vm_compute; reflexivity|]).
    vm_compute in Ha. discriminate.
Qed.

(** After one tick of three seconds the vehicle of [simulacion_en_marcha] has
    left the edge A->B for the edge B->C, and the loads have moved with it. *)
Example carga_se_mueve :
  let s' := tras (actualizar_simulacion raiz_racional 3) simulacion_en_marcha in
  fst (actualizar_simulacion raiz_racional 3 simulacion_en_marcha) = Ok tt /\
  map carga_trafico (mem_aristas (sim_grafo s')) = [0; 1; 0] /\
  map indice_ruta_actual (mem_vehiculos s') = [1].
Proof. vm_compute. repeat split. Qed.

Section Gestor.
Variable raiz : Q -> Q.

(** C8. From a state of the manager in which every edge's load is the number
    of registered vehicles in state [viajando] whose current route edge it
    is, each operation of the manager leaves such a state: [crear_vehiculo]
    whatever its outcome, [actualizar_simulacion] for any [dt], which
    returns, and [eliminar_vehiculo], which returns. *)
Theorem carga_igual_a_vehiculos_en_curso (s : Simulacion) :
  gestor_coherente s -> invariante_carga s ->
  (forall azar id_origen id_destino,
     let s' := snd (crear_vehiculo azar id_origen id_destino s) in
     gestor_coherente s' /\ invariante_carga s') /\
  (forall dt, exists s',
     actualizar_simulacion raiz dt s = (Ok tt, s') /\
     gestor_coherente s' /\ invariante_carga s') /\
  (forall id_vehiculo, exists b s',
     eliminar_vehiculo id_vehiculo s = (Ok b, s') /\
     gestor_coherente s' /\ invariante_carga s').
Proof.
  intros G I. split; [|split].
  - intros azar id_origen id_destino. by apply crear_vehiculo_conserva.
  - intros dt. by apply actualizar_simulacion_conserva.
  - intros id_vehiculo. by apply eliminar_vehiculo_conserva.
Qed.

End Gestor.

(** On [simulacion_en_marcha], where one vehicle travels on the edge A->B. *)
Lemma carga_igual_a_vehiculos_en_curso_testigo :
  gestor_coherente simulacion_en_marcha /\ invariante_carga simulacion_en_marcha /\
  vehiculos_en_arista simulacion_en_marcha 0%nat = 1 /\
  (forall azar id_origen id_destino,
     let s' := snd (crear_vehiculo azar id_origen id_destino simulacion_en_marcha) in
     gestor_coherente s' /\ invariante_carga s') /\
  (forall dt, exists s',
     actualizar_simulacion raiz_racional dt simulacion_en_marcha = (Ok tt, s') /\
     gestor_coherente s' /\ invariante_carga s') /\
  (forall id_vehiculo, exists b s',
     eliminar_vehiculo id_vehiculo simulacion_en_marcha = (Ok b, s') /\
     gestor_coherente s' /\ invariante_carga s').
Proof.
  destruct simulacion_en_marcha_coherente as [G I].
  split; [exact G|]. split; [exact I|]. split; [vm_compute; reflexivity|].
  exact (carga_igual_a_vehiculos_en_curso raiz_racional simulacion_en_marcha G I).
Defined.

(* ================================================================== *)
(** * The hash table: round trips, growth and removal *)
(* ================================================================== *)

Section TablaUso.
Context {V : Type}.
Implicit Types (h : HashTable.t V) (k : clave).

(** Two coherent tables with the same entries answer [obtener] alike. *)
Lemma obtener_mismos_pares h h' k :
  coherente h -> coherente h' ->
  (forall v, In (k, v) (HashTable.obtener_pares h') <-> In (k, v) (HashTable.obtener_pares h)) ->
  HashTable.obtener k h' = HashTable.obtener k h.
Proof.
  intros C C' Hp.
  destruct (obtener_coherente h k C) as [(v & Hin & ->)|[Hout ->]].
  - apply obtener_presente; [done|]. by apply Hp.
  - apply obtener_ausente; [done|]. intros Hin. apply Hout.
    apply in_map_iff in Hin as ([k' v] & E & Hin). cbn in E. subst k'.
    apply in_map_iff. exists (k, v). split; [done|]. by apply Hp.
Qed.

(** [insertar] of a new key, with the capacity that results. *)
Lemma insertar_nueva_capacidad h k (v : option V) :
  bien_formada h -> ~ In k (HashTable.obtener_claves h) ->
  exists h',
    HashTable.insertar k v h = (Ok tt, h') /\
    bien_formada h' /\
    Permutation (HashTable.obtener_pares h') (HashTable.obtener_pares h ++ [(k, v)]) /\
    HashTable.tamaño h' = HashTable.tamaño h + 1 /\
    HashTable.capacidad h' =
      (if 3 * HashTable.capacidad h <=? 4 * (HashTable.tamaño h + 1)
       then HashTable.capacidad h * 2 else HashTable.capacidad h).
Proof.
  intros [C Hcarga] Hk. unfold HashTable.insertar, HashTable.combustible.
  set (n := length (HashTable.obtener_pares h)).
  destruct (Z.ltb_spec (4 * (HashTable.tamaño h + 1)) (3 * HashTable.capacidad h)) as [Hlt|Hge].
  - exists (con_par k v h). rewrite insertar_comb_nueva by done.
    split; [done|]. split; [|split; [|split]].
    + split; [by apply con_par_coherente|].
      rewrite con_par_capacidad, con_par_tamaño by done. lia.
    + by apply pares_con_par.
    + by apply con_par_tamaño.
    + rewrite con_par_capacidad.
      by replace (3 * HashTable.capacidad h <=? 4 * (HashTable.tamaño h + 1)) with false
        by (symmetry; apply Z.leb_gt; lia).
  - pose proof (con_par_coherente h k v C Hk) as C1.
    pose proof (pares_con_par h k v C) as HP1.
    destruct (reinsertar (HashTable.obtener_pares (con_par k v h)) n
                {| HashTable.capacidad := HashTable.capacidad h * 2;
                   HashTable.tamaño := 0;
                   HashTable.buckets := HashTable.buckets_vacios (HashTable.capacidad h * 2) |})
      as (h' & Hrun & C' & HP & Hcap).
    + apply vacia_coherente. pose proof (coh_cap h C). lia.
    + apply C1.
    + intros k' _. unfold HashTable.obtener_claves, HashTable.obtener_pares. simpl.
      assert (concat (HashTable.buckets_vacios (V := V) (HashTable.capacidad h * 2)) = []) as ->.
      { unfold HashTable.buckets_vacios. induction (Z.to_nat _); simpl; auto. }
      intros [].
    + simpl. rewrite (Permutation_length HP1), length_app. simpl.
      pose proof (coh_tam h C). pose proof (coh_cap h C). lia.
    + assert (HashTable.obtener_pares
                {| HashTable.capacidad := HashTable.capacidad h * 2;
                   HashTable.tamaño := 0;
                   HashTable.buckets := HashTable.buckets_vacios (V := V) (HashTable.capacidad h * 2) |}
              = []) as Hvac.
      { unfold HashTable.obtener_pares, HashTable.buckets_vacios. simpl.
        induction (Z.to_nat _); simpl; auto. }
      rewrite Hvac in HP. simpl in HP.
      exists h'. split; [|split; [split; [done|]|split; [|split]]].
      * destruct (hash_coherente h k C) as [Hh Hlt].
        destruct (bucket_coherente h k C) as [b Hb].
        cbn [HashTable.insertar_comb]. unfold ligar at 1, leer at 1.
        unfold ligar at 1, puro at 1. rewrite Hh.
        unfold ligar at 1, puro at 1. rewrite (elemento_en_Some _ _ _ Hb).
        assert (HashTable.buscar_par k b = None) as Hn.
        { apply buscar_par_None. by rewrite <- (clave_en_bucket h k b C Hb). }
        unfold ListaEnlazada.obtener_lista at 1. rewrite Hn.
        unfold ligar at 1, puro at 1. rewrite (asignar_en_lt _ _ _ Hlt).
        unfold ligar at 1, modificar at 1. unfold ligar at 1, modificar at 1.
        unfold ligar at 1, leer at 1. cbn [HashTable.poner_tamaño HashTable.poner_buckets
          HashTable.capacidad HashTable.tamaño HashTable.buckets].
        destruct (3 * HashTable.capacidad h <=? 4 * (HashTable.tamaño h + 1)) eqn:E;
          [|apply Z.leb_gt in E; lia].
        unfold ligar at 1, escribir at 1.
        rewrite para_cada_concat.
        unfold ListaEnlazada.obtener_lista, ListaEnlazada.agregar.
        unfold con_par in Hrun. rewrite Hb in Hrun. unfold HashTable.obtener_pares in Hrun at 1.
        cbn [HashTable.buckets] in Hrun. exact Hrun.
      * rewrite Hcap. cbn [HashTable.capacidad].
        rewrite (coh_tam h' C'), (Permutation_length HP), (Permutation_length HP1), length_app.
        simpl. pose proof (coh_tam h C). pose proof (coh_cap h C). lia.
      * by rewrite HP, HP1.
      * rewrite (coh_tam h' C'), (Permutation_length HP), (Permutation_length HP1), length_app.
        simpl. pose proof (coh_tam h C). lia.
      * rewrite Hcap. cbn [HashTable.capacidad].
        by replace (3 * HashTable.capacidad h <=? 4 * (HashTable.tamaño h + 1)) with true
          by (symmetry; apply Z.leb_le; lia).
Qed.

Lemma insertar_efecto h k (v : option V) :
  bien_formada h -> ~ In k (HashTable.obtener_claves h) ->
  exists h',
    HashTable.insertar k v h = (Ok tt, h') /\
    bien_formada h' /\
    HashTable.obtener k h' = Ok v /\
    (forall k', k' <> k -> HashTable.obtener k' h' = HashTable.obtener k' h) /\
    HashTable.tamaño h' = HashTable.tamaño h + 1 /\
    Permutation (HashTable.obtener_claves h') (k :: HashTable.obtener_claves h).
Proof.
  intros W Hk. destruct (insertar_nueva h k v W Hk) as (h' & Hrun & W' & HP & Ht).
  exists h'. split; [done|]. split; [done|]. split; [|split; [|split; [done|]]].
  - apply obtener_presente; [apply W'|].
    apply (Permutation_in _ (Permutation_sym HP)), in_app_iff. right. by left.
  - intros k' Hne. apply obtener_mismos_pares; [apply W|apply W'|].
    intros v'. split; intros Hin.
    + apply (Permutation_in _ HP), in_app_iff in Hin as [Hin|[[= -> _]|[]]]; done.
    + apply (Permutation_in _ (Permutation_sym HP)), in_app_iff. by left.
  - rewrite (claves_permutacion h h' [(k, v)] HP). cbn [map fst].
    symmetry. apply Permutation_cons_append.
Qed.

Lemma eliminar_efecto h k :
  bien_formada h ->
  exists b h',
    HashTable.eliminar k h = (Ok b, h') /\
    bien_formada h' /\
    (b = true <-> In k (HashTable.obtener_claves h)) /\
    ~ In k (HashTable.obtener_claves h') /\
    HashTable.obtener k h' = Ok None /\
    HashTable.contiene k h' = Ok false /\
    (forall k', k' <> k -> HashTable.obtener k' h' = HashTable.obtener k' h) /\
    HashTable.tamaño h' = HashTable.tamaño h - (if b then 1 else 0) /\
    HashTable.capacidad h' = HashTable.capacidad h /\
    (b = false -> h' = h).
Proof.
  intros W. pose proof (proj1 W) as C.
  assert (forall h', HashTable.obtener_pares h' =
                     List.filter (otra_clave k) (HashTable.obtener_pares h) ->
          ~ In k (HashTable.obtener_claves h')) as Hfuera.
  { intros h' HP Hin. apply in_map_iff in Hin as ([k' v] & E & Hin). cbn in E. subst k'.
    rewrite HP in Hin. apply en_filter_otra_clave in Hin as [_ Hne]. done. }
  assert (forall h', coherente h' ->
            HashTable.obtener_pares h' =
              List.filter (otra_clave k) (HashTable.obtener_pares h) ->
            forall k', k' <> k -> HashTable.obtener k' h' = HashTable.obtener k' h) as Hotras.
  { intros h' C' HP k' Hne. apply obtener_mismos_pares; [done|done|].
    intros v. rewrite HP, en_filter_otra_clave. tauto. }
  destruct (in_dec clave_eq_dec k (HashTable.obtener_claves h)) as [Hin|Hout].
  - destruct (eliminar_presente h k C Hin) as (h' & Hrun & C' & HP & Hcap & Ht).
    exists true, h'. split; [done|].
    assert (bien_formada h') as W' by (eapply bien_formada_eliminar; eauto; lia).
    split; [done|]. split; [done|]. split; [by apply Hfuera|].
    split; [by apply obtener_ausente; [|apply Hfuera]|].
    split; [by apply contiene_ausente; [|apply Hfuera]|].
    split; [by apply Hotras|]. done.
  - rewrite (eliminar_ausente h k C Hout). exists false, h.
    split; [done|]. split; [done|]. split; [split; [discriminate|done]|].
    split; [done|]. split; [by apply obtener_ausente|].
    split; [by apply contiene_ausente|]. split; [done|]. split; [lia|]. done.
Qed.

(** X1. After [insertar] of a key that the map does not hold, [obtener] returns
    the value under that key and what it returned before under every other;
    the size has grown by one, the keys are the former ones and the new one,
    and the map is well formed again, whether it was resized or not. *)
Theorem insertar_y_obtener h k (v : option V) :
  bien_formada h -> ~ In k (HashTable.obtener_claves h) ->
  exists h',
    HashTable.insertar k v h = (Ok tt, h') /\
    bien_formada h' /\
    HashTable.obtener k h' = Ok v /\
    (forall k', k' <> k -> HashTable.obtener k' h' = HashTable.obtener k' h) /\
    HashTable.tamaño h' = HashTable.tamaño h + 1 /\
    Permutation (HashTable.obtener_claves h') (k :: HashTable.obtener_claves h).
Proof. apply insertar_efecto. Qed.

(** X2. [_redimensionar]: the capacity doubles exactly when the size that
    [insertar] has just reached is three quarters of the capacity or more;
    otherwise it stays. Either way the load ends below three quarters. *)
Theorem insertar_duplica_capacidad h k (v : option V) :
  bien_formada h -> ~ In k (HashTable.obtener_claves h) ->
  exists h',
    HashTable.insertar k v h = (Ok tt, h') /\
    HashTable.capacidad h' =
      (if 3 * HashTable.capacidad h <=? 4 * (HashTable.tamaño h + 1)
       then HashTable.capacidad h * 2 else HashTable.capacidad h) /\
    4 * HashTable.tamaño h' < 3 * HashTable.capacidad h'.
Proof.
  intros W Hk.
  destruct (insertar_nueva_capacidad h k v W Hk) as (h' & Hrun & W' & _ & _ & Hcap).
  exists h'. split; [done|]. split; [done|]. apply W'.
Qed.

(** X3. [eliminar] tells whether the key was stored (be it with the value
    [None]); afterwards the key is gone, the other keys keep their values,
    the size has dropped by one if something was removed and the capacity
    never shrinks; when nothing was removed the map is untouched. *)
Theorem eliminar_y_obtener h k :
  bien_formada h ->
  exists b h',
    HashTable.eliminar k h = (Ok b, h') /\
    bien_formada h' /\
    (b = true <-> In k (HashTable.obtener_claves h)) /\
    ~ In k (HashTable.obtener_claves h') /\
    HashTable.obtener k h' = Ok None /\
    HashTable.contiene k h' = Ok false /\
    (forall k', k' <> k -> HashTable.obtener k' h' = HashTable.obtener k' h) /\
    HashTable.tamaño h' = HashTable.tamaño h - (if b then 1 else 0) /\
    HashTable.capacidad h' = HashTable.capacidad h /\
    (b = false -> h' = h).
Proof. apply eliminar_efecto. Qed.

(** X4. The way to change the value of a key: [eliminar] and then [insertar].
    On every well-formed map both calls return, the key then holds the new
    value, the other keys keep theirs, and the size is the former one if the
    key was stored and one more if it was not. *)
Theorem eliminar_e_insertar h k (v : option V) :
  bien_formada h ->
  exists b h1 h2,
    HashTable.eliminar k h = (Ok b, h1) /\
    HashTable.insertar k v h1 = (Ok tt, h2) /\
    bien_formada h2 /\
    HashTable.obtener k h2 = Ok v /\
    (forall k', k' <> k -> HashTable.obtener k' h2 = HashTable.obtener k' h) /\
    HashTable.tamaño h2 = HashTable.tamaño h + (if b then 0 else 1).
Proof.
  intros W.
  destruct (eliminar_efecto h k W) as (b & h1 & E1 & W1 & _ & Hk & _ & _ & Ho1 & Ht1 & _).
  destruct (insertar_efecto h1 k v W1 Hk) as (h2 & E2 & W2 & Hv & Ho2 & Ht2 & _).
  exists b, h1, h2. split; [done|]. split; [done|]. split; [done|]. split; [done|]. split.
  - intros k' Hne. by rewrite Ho2, Ho1.
  - rewrite Ht2, Ht1. destruct b; lia.
Qed.

Lemma tabla_alcanzable_formada h :
  tabla_alcanzable h ->
  bien_formada h /\ exists n : nat, HashTable.capacidad h = 16 * 2 ^ Z.of_nat n.
Proof.
  induction 1 as [|h k v _ [W [n Hn]]|h k _ [W [n Hn]]].
  - split; [apply nueva_bien_formada|]. by exists 0%nat.
  - destruct (in_dec clave_eq_dec k (HashTable.obtener_claves h)) as [Hin|Hout].
    + rewrite (insertar_presente h k v W Hin). cbn [snd]. eauto.
    + destruct (insertar_nueva_capacidad h k v W Hout) as (h' & -> & W' & _ & _ & Hcap).
      cbn [snd]. split; [done|]. rewrite Hcap.
      destruct (3 * HashTable.capacidad h <=? 4 * (HashTable.tamaño h + 1)); [|eauto].
      exists (S n). rewrite Hn, Nat2Z.inj_succ, Z.pow_succ_r by lia. lia.
  - destruct (eliminar_efecto h k W) as (b & h' & -> & W' & _ & _ & _ & _ & _ & _ & Hcap & _).
    cbn [snd]. split; [done|]. rewrite Hcap. eauto.
Qed.

(** X5. Every map built from [HashTable()] by [insertar] and [eliminar] is well
    formed: its keys are distinct, [tamaño] is their number, the load is
    below three quarters of a capacity that is 16 doubled some number of
    times, and [obtener] never raises on it. *)
Theorem tabla_alcanzable_bien_formada h :
  tabla_alcanzable h ->
  List.NoDup (HashTable.obtener_claves h) /\
  HashTable.tamaño h = Z.of_nat (length (HashTable.obtener_claves h)) /\
  4 * HashTable.tamaño h < 3 * HashTable.capacidad h /\
  (exists n : nat, HashTable.capacidad h = 16 * 2 ^ Z.of_nat n) /\
  (forall k, exists v, HashTable.obtener k h = Ok v /\
     (In k (HashTable.obtener_claves h) <-> In (k, v) (HashTable.obtener_pares h))).
Proof.
  intros A. destruct (tabla_alcanzable_formada h A) as [[C Hcarga] Hcap].
  split; [apply C|]. split.
  { unfold HashTable.obtener_claves. rewrite length_map. apply C. }
  split; [done|]. split; [done|].
  intros k. destruct (obtener_coherente h k C) as [(v & Hin & ->)|[Hout ->]].
  - exists v. split; [done|]. split; [done|]. intros _. apply in_map_iff. by exists (k, v).
  - exists None. split; [done|]. split; [done|]. intros Hin. exfalso. apply Hout.
    apply in_map_iff. by exists (k, None).
Qed.

End TablaUso.

Lemma tabla_ejemplo_bien_formada : bien_formada tabla_ejemplo.
Proof. apply bien_formadab_correcta. reflexivity. Qed.

Lemma tabla_once_bien_formada : bien_formada tabla_once.
Proof. apply bien_formadab_correcta. vm_compute. reflexivity. Qed.

(** On [tabla_ejemplo], with the new key 33, which falls in the bucket of 1
    and 17. *)
Lemma insertar_y_obtener_testigo :
  HashTable.obtener (ClaveInt 33) tabla_ejemplo = Ok None /\
  exists h',
    HashTable.insertar (ClaveInt 33) (Some 7) tabla_ejemplo = (Ok tt, h') /\
    bien_formada h' /\
    HashTable.obtener (ClaveInt 33) h' = Ok (Some 7) /\
    (forall k', k' <> ClaveInt 33 -> HashTable.obtener k' h' = HashTable.obtener k' tabla_ejemplo) /\
    HashTable.tamaño h' = HashTable.tamaño tabla_ejemplo + 1 /\
    Permutation (HashTable.obtener_claves h')
                (ClaveInt 33 :: HashTable.obtener_claves tabla_ejemplo).
Proof.
  split; [reflexivity|].
  apply (insertar_y_obtener tabla_ejemplo (ClaveInt 33) (Some 7) tabla_ejemplo_bien_formada).
  vm_compute. intros [H|[H|[]]]; discriminate.
Defined.

(** On [tabla_once], whose 11 entries are one short of three quarters of 16:
    the twelfth doubles the capacity. *)
Lemma insertar_duplica_capacidad_testigo :
  HashTable.capacidad tabla_once = 16 /\ HashTable.tamaño tabla_once = 11 /\
  exists h',
    HashTable.insertar (ClaveInt 12) (Some 12) tabla_once = (Ok tt, h') /\
    HashTable.capacidad h' = 32 /\
    4 * HashTable.tamaño h' < 3 * HashTable.capacidad h'.
Proof.
  split; [reflexivity|]. split; [reflexivity|].
  apply (insertar_duplica_capacidad tabla_once (ClaveInt 12) (Some 12) tabla_once_bien_formada).
  vm_compute. intuition discriminate.
Defined.

(** On [tabla_con_None], whose only key holds [None]. *)
Lemma eliminar_y_obtener_testigo :
  HashTable.contiene (ClaveInt 1) tabla_con_None = Ok false /\
  exists b h',
    HashTable.eliminar (ClaveInt 1) tabla_con_None = (Ok b, h') /\
    bien_formada h' /\
    (b = true <-> In (ClaveInt 1) (HashTable.obtener_claves tabla_con_None)) /\
    ~ In (ClaveInt 1) (HashTable.obtener_claves h') /\
    HashTable.obtener (ClaveInt 1) h' = Ok None /\
    HashTable.contiene (ClaveInt 1) h' = Ok false /\
    (forall k', k' <> ClaveInt 1 ->
       HashTable.obtener k' h' = HashTable.obtener k' tabla_con_None) /\
    HashTable.tamaño h' = HashTable.tamaño tabla_con_None - (if b then 1 else 0) /\
    HashTable.capacidad h' = HashTable.capacidad tabla_con_None /\
    (b = false -> h' = tabla_con_None).
Proof.
  split; [reflexivity|].
  apply (eliminar_y_obtener tabla_con_None (ClaveInt 1)).
  apply bien_formadab_correcta. reflexivity.
Defined.

(** On [tabla_ejemplo], where 17 holds 5. *)
Lemma eliminar_e_insertar_testigo :
  HashTable.obtener (ClaveInt 17) tabla_ejemplo = Ok (Some 5) /\
  exists b h1 h2,
    HashTable.eliminar (ClaveInt 17) tabla_ejemplo = (Ok b, h1) /\
    HashTable.insertar (ClaveInt 17) (Some 9) h1 = (Ok tt, h2) /\
    bien_formada h2 /\
    HashTable.obtener (ClaveInt 17) h2 = Ok (Some 9) /\
    (forall k', k' <> ClaveInt 17 ->
       HashTable.obtener k' h2 = HashTable.obtener k' tabla_ejemplo) /\
    HashTable.tamaño h2 = HashTable.tamaño tabla_ejemplo + (if b then 0 else 1).
Proof.
  split; [reflexivity|].
  exact (eliminar_e_insertar tabla_ejemplo (ClaveInt 17) (Some 9) tabla_ejemplo_bien_formada).
Defined.

(** On [tabla_once]. *)
Lemma tabla_alcanzable_bien_formada_testigo :
  tabla_alcanzable tabla_once /\
  List.NoDup (HashTable.obtener_claves tabla_once) /\
  HashTable.tamaño tabla_once = Z.of_nat (length (HashTable.obtener_claves tabla_once)) /\
  4 * HashTable.tamaño tabla_once < 3 * HashTable.capacidad tabla_once /\
  (exists n : nat, HashTable.capacidad tabla_once = 16 * 2 ^ Z.of_nat n) /\
  (forall k, exists v, HashTable.obtener k tabla_once = Ok v /\
     (In k (HashTable.obtener_claves tabla_once) <->
      In (k, v) (HashTable.obtener_pares tabla_once))).
Proof.
  assert (tabla_alcanzable tabla_once) as A.
  { unfold tabla_once, tras. cbn [fold_left]. do 11 apply ta_insertar. apply ta_nueva. }
  split; [exact A|]. exact (tabla_alcanzable_bien_formada tabla_once A).
Defined.

(* ================================================================== *)
(** * The linked list *)
(* ================================================================== *)

(** ** ListaEnlazada *)

(** X6. [eliminar] answers what [buscar] answers. When the datum is not in the
    list the list is left as it is; when it is, the first cell that equals it
    is unlinked and no other, so a second copy stays. *)
Theorem eliminar_primera_aparicion {A : Type} (igual : A -> A -> bool) (dato : A)
    (l : list A) :
  fst (ListaEnlazada.eliminar igual dato l) = ListaEnlazada.buscar igual dato l /\
  (ListaEnlazada.buscar igual dato l = false ->
     snd (ListaEnlazada.eliminar igual dato l) = l) /\
  (ListaEnlazada.buscar igual dato l = true ->
     exists l1 a l2,
       l = l1 ++ a :: l2 /\ igual a dato = true /\
       (forall x, In x l1 -> igual x dato = false) /\
       snd (ListaEnlazada.eliminar igual dato l) = l1 ++ l2 /\
       ListaEnlazada.obtener_tamaño (snd (ListaEnlazada.eliminar igual dato l))
         = ListaEnlazada.obtener_tamaño l - 1).
Proof.
  induction l as [|a l (IH1 & IH2 & IH3)].
  - split; [done|]. split; [done|]. discriminate.
  - cbn [ListaEnlazada.eliminar ListaEnlazada.buscar].
    destruct (igual a dato) eqn:E.
    + split; [done|]. split; [discriminate|]. intros _.
      exists [], a, l. split; [done|]. split; [done|]. split; [intros x []|].
      split; [done|]. unfold ListaEnlazada.obtener_tamaño. cbn [snd length]. lia.
    + destruct (ListaEnlazada.eliminar igual dato l) as [b r]. cbn [fst snd] in *.
      split; [done|]. split.
      * intros H. by rewrite IH2.
      * intros H. destruct (IH3 H) as (l1 & x & l2 & -> & Hx & Hl1 & -> & Ht).
        exists (a :: l1), x, l2. split; [done|]. split; [done|]. split.
        { intros y [<-|Hy]; [done|by apply Hl1]. }
        split; [done|]. unfold ListaEnlazada.obtener_tamaño in *. cbn [length] in *.
        rewrite !length_app in *. cbn [length] in *. lia.
Qed.

(* ================================================================== *)
(** * The priority queue *)
(* ================================================================== *)

(** ** The order of the priorities *)

Lemma menor_igual_refl (a : numero) : num_menor_igual a a = true.
Proof.
  destruct a as [p|]; [|done]. unfold num_menor_igual, num_menor.
  rewrite negb_involutive. apply Qle_bool_iff, Qle_refl.
Qed.

Lemma menor_igual_trans (a b c : numero) :
  num_menor_igual a b = true -> num_menor_igual b c = true -> num_menor_igual a c = true.
Proof.
  unfold num_menor_igual, num_menor.
  destruct a as [p|], b as [q|], c as [r|]; cbn; try done.
  rewrite !negb_involutive, !Qle_bool_iff. apply Qle_trans.
Qed.

Lemma menor_es_menor_igual (a b : numero) :
  num_menor a b = true -> num_menor_igual a b = true.
Proof.
  unfold num_menor_igual, num_menor. destruct a as [p|], b as [q|]; cbn; try done.
  rewrite negb_involutive, negb_true_iff. intros H. apply Qle_bool_iff.
  apply Qlt_le_weak, Qnot_le_lt. intros Hle. apply Qle_bool_iff in Hle. congruence.
Qed.

Lemma no_menor_igual (a b : numero) :
  num_menor_igual a b = false -> num_menor_igual b a = true.
Proof.
  intros H. apply menor_es_menor_igual. unfold num_menor_igual in H.
  by apply negb_false_iff in H.
Qed.

Lemma no_menor (a b : numero) : num_menor a b = false -> num_menor_igual b a = true.
Proof. intros H. unfold num_menor_igual. by rewrite H. Qed.

(** ** Swapping two items of a list *)

Lemma permutacion_poner {A} (l : list A) (j : nat) (x y : A) :
  l !! j = Some y -> Permutation (y :: <[j := x]> l) (x :: l).
Proof.
  revert j. induction l as [|a l IH]; intros [|j] H; try done.
  - injection H as ->. cbn. apply perm_swap.
  - cbn in *. rewrite perm_swap. rewrite (IH j H). apply perm_swap.
Qed.

Lemma permutacion_intercambio {A} (l : list A) (i j : nat) (x y : A) :
  l !! i = Some x -> l !! j = Some y ->
  Permutation (<[j := x]> (<[i := y]> l)) l.
Proof.
  destruct (decide (i = j)) as [->|Hne].
  { intros Hx Hy. rewrite Hx in Hy. injection Hy as <-.
    rewrite list_insert_insert_eq. by rewrite list_insert_id. }
  revert i j Hne. induction l as [|a l IH]; intros [|i] [|j] Hne Hx Hy; try done.
  - injection Hx as ->. cbn in *. by apply permutacion_poner.
  - injection Hy as ->. cbn in *. by apply permutacion_poner.
  - cbn in *. apply perm_skip. apply IH; [lia|done|done].
Qed.

(** ** Indices *)

Lemma padre_menor (i : nat) : (0 < i)%nat -> (padre_de i < i)%nat.
Proof.
  intros H. unfold padre_de.
  pose proof (Nat.Div0.div_lt_upper_bound (i - 1) 2 i). lia.
Qed.

Lemma padre_Z (i : nat) :
  (0 < i)%nat -> ColaPrioridad._padre (Z.of_nat i) = Z.of_nat (padre_de i).
Proof.
  intros H. unfold ColaPrioridad._padre, padre_de.
  rewrite Nat2Z.inj_div. f_equal. lia.
Qed.

Lemma padre_de_hijo_izq (i : nat) : padre_de (2 * i + 1) = i.
Proof.
  unfold padre_de. replace (2 * i + 1 - 1)%nat with (i * 2)%nat by lia.
  by rewrite Nat.div_mul.
Qed.

Lemma padre_de_hijo_der (i : nat) : padre_de (2 * i + 2) = i.
Proof.
  unfold padre_de. replace (2 * i + 2 - 1)%nat with (1 + i * 2)%nat by lia.
  rewrite Nat.div_add by lia. done.
Qed.

Lemma hijos_de (i j : nat) :
  (0 < j)%nat -> padre_de j = i -> j = (2 * i + 1)%nat \/ j = (2 * i + 2)%nat.
Proof.
  unfold padre_de. intros Hj <-.
  pose proof (Nat.div_mod_eq (j - 1) 2) as E.
  pose proof (Nat.mod_upper_bound (j - 1) 2). lia.
Qed.

Lemma asignar_en_Z {A} (l : list A) (i : nat) (a : A) :
  (i < length l)%nat -> asignar_en l (Z.of_nat i) a = Ok (<[i := a]> l).
Proof.
  intros H. unfold asignar_en.
  replace (Z.of_nat i <? 0) with false by (symmetry; apply Z.ltb_ge; lia).
  replace (0 <=? Z.of_nat i) with true by (symmetry; apply Z.leb_le; lia).
  replace (Z.of_nat i <? Z.of_nat (length l)) with true by (symmetry; apply Z.ltb_lt; lia).
  cbn. by rewrite Nat2Z.id.
Qed.

Section Cola.
Context {E : Type}.
Implicit Types (c : ColaPrioridad.t E) (l : list (numero * E)).

Lemma intercambiar_corre c (i j : nat) x y :
  ColaPrioridad.heap c !! i = Some x -> ColaPrioridad.heap c !! j = Some y ->
  ColaPrioridad._intercambiar (Z.of_nat i) (Z.of_nat j) c
  = (Ok tt, ColaPrioridad.poner_heap (<[j := x]> (<[i := y]> (ColaPrioridad.heap c))) c).
Proof.
  intros Hx Hy. unfold ColaPrioridad._intercambiar, ligar, leer, puro.
  rewrite (elemento_en_Some _ _ _ Hy), (elemento_en_Some _ _ _ Hx).
  rewrite asignar_en_Z by (by eapply lookup_lt_Some).
  rewrite asignar_en_Z by (rewrite length_insert; by eapply lookup_lt_Some).
  done.
Qed.

Lemma lookup_intercambio l (i j k : nat) x y :
  l !! i = Some x -> l !! j = Some y ->
  <[j := x]> (<[i := y]> l) !! k =
    if decide (k = j) then Some x else if decide (k = i) then Some y else l !! k.
Proof.
  intros Hx Hy. pose proof (lookup_lt_Some _ _ _ Hx). pose proof (lookup_lt_Some _ _ _ Hy).
  destruct (decide (k = j)) as [->|Hj].
  - apply list_lookup_insert_eq. by rewrite length_insert.
  - rewrite list_lookup_insert_ne by done. destruct (decide (k = i)) as [->|Hi].
    + by apply list_lookup_insert_eq.
    + by rewrite list_lookup_insert_ne.
Qed.

(** One turn of the loop of [_heapify_up]. *)
Lemma casi_arriba_paso l (i : nat) a p :
  casi_monticulo_arriba l i -> (0 < i)%nat ->
  l !! i = Some a -> l !! padre_de i = Some p ->
  num_menor (fst a) (fst p) = true ->
  casi_monticulo_arriba (<[padre_de i := a]> (<[i := p]> l)) (padre_de i).
Proof.
  intros [H1 H2] Hi Ha Hp Hmenor.
  pose proof (padre_menor i Hi) as Hpi.
  pose proof (menor_es_menor_igual _ _ Hmenor) as Hap.
  split.
  - intros j b q Hj Hne. rewrite !(lookup_intercambio l i (padre_de i) _ a p Ha Hp).
    destruct (decide (j = padre_de i)) as [|_]; [done|].
    pose proof (padre_menor j Hj) as Hpj.
    destruct (decide (j = i)) as [->|Hji].
    + rewrite decide_True by done. by intros [= <-] [= <-].
    + intros Hb. destruct (decide (padre_de j = padre_de i)) as [Epp|Hpp].
      * intros [= <-].
        apply (menor_igual_trans _ (fst p)); [done|].
        apply (H1 j b p); [done|done|done|by rewrite Epp].
      * destruct (decide (padre_de j = i)) as [Epi|Hpi'].
        -- intros [= <-]. by apply (H2 j b p).
        -- intros Hq. by apply (H1 j b q).
  - intros j b q Hpp Hpj. rewrite !(lookup_intercambio l i (padre_de i) _ a p Ha Hp).
    pose proof (padre_menor _ Hpp) as Hppi.
    destruct (decide (j = padre_de i)) as [->|_].
    { destruct (decide (padre_de i = 0%nat)); [lia|].
      pose proof (padre_menor (padre_de i) ltac:(lia)). lia. }
    rewrite (decide_False (P := padre_de (padre_de i) = padre_de i)) by lia.
    rewrite (decide_False (P := padre_de (padre_de i) = i)) by lia.
    assert (num_menor_igual (fst q) (fst p) = true -> num_menor_igual (fst q) (fst p) = true)
      by done.
    destruct (decide (j = i)) as [->|Hji].
    + intros [= <-] Hq. by apply (H1 (padre_de i) p q); [|lia| |].
    + intros Hb Hq. apply (menor_igual_trans _ (fst p)).
      * by apply (H1 (padre_de i) p q); [|lia| |].
      * assert (0 < j)%nat as Hj.
        { destruct j; [|lia]. change (padre_de 0) with 0%nat in Hpj. lia. }
        apply (H1 j b p); [done|done|done|by rewrite Hpj].
Qed.

Lemma poner_heap_mismo c : ColaPrioridad.poner_heap (ColaPrioridad.heap c) c = c.
Proof. by destruct c. Qed.

Lemma heapify_up_correcto (comb i : nat) c :
  (i < comb)%nat -> (i < length (ColaPrioridad.heap c))%nat ->
  casi_monticulo_arriba (ColaPrioridad.heap c) i ->
  exists l',
    ColaPrioridad._heapify_up comb (Z.of_nat i) c = (Ok tt, ColaPrioridad.poner_heap l' c) /\
    Permutation l' (ColaPrioridad.heap c) /\ es_monticulo l'.
Proof.
  revert i c. induction comb as [|comb IH]; intros i c Hcomb Hlen Hcasi; [lia|].
  cbn [ColaPrioridad._heapify_up].
  destruct (0 <? Z.of_nat i) eqn:E0.
  - apply Z.ltb_lt in E0. assert (0 < i)%nat as Hi by lia.
    pose proof (padre_menor i Hi) as Hpi.
    destruct (lookup_lt_is_Some_2 (ColaPrioridad.heap c) i Hlen) as [a Ha].
    destruct (lookup_lt_is_Some_2 (ColaPrioridad.heap c) (padre_de i) ltac:(lia)) as [p Hp].
    unfold ligar at 1, leer at 1. unfold ligar at 1, puro at 1.
    rewrite (padre_Z i Hi), (elemento_en_Some _ _ _ Hp).
    unfold ligar at 1, puro at 1. rewrite (elemento_en_Some _ _ _ Ha).
    destruct (num_menor (fst a) (fst p)) eqn:Em.
    + unfold ligar at 1. rewrite (intercambiar_corre c i (padre_de i) a p Ha Hp).
      destruct (IH (padre_de i)
                  (ColaPrioridad.poner_heap
                     (<[padre_de i := a]> (<[i := p]> (ColaPrioridad.heap c))) c))
        as (l' & Hrun & HP & Hm).
      * lia.
      * cbn [ColaPrioridad.heap ColaPrioridad.poner_heap]. rewrite !length_insert. lia.
      * cbn [ColaPrioridad.heap ColaPrioridad.poner_heap]. by apply casi_arriba_paso.
      * exists l'. split; [by rewrite Hrun|]. split; [|done].
        cbn in HP. rewrite HP. by apply permutacion_intercambio.
    + exists (ColaPrioridad.heap c). rewrite poner_heap_mismo. split; [done|].
      split; [done|]. destruct Hcasi as [H1 _]. intros j b q Hj Hb Hq.
      destruct (decide (j = i)) as [->|Hne]; [|by apply (H1 j b q)].
      rewrite Ha in Hb. rewrite Hp in Hq. injection Hb as <-. injection Hq as <-.
      by apply no_menor.
  - apply Z.ltb_ge in E0. assert (i = 0%nat) as -> by lia.
    exists (ColaPrioridad.heap c). rewrite poner_heap_mismo. split; [done|].
    split; [done|]. destruct Hcasi as [H1 _]. intros j b q Hj Hb Hq.
    apply (H1 j b q); [done|lia|done|done].
Qed.

End Cola.

Section Cola.
Context {E : Type}.
Implicit Types (c : ColaPrioridad.t E) (l : list (numero * E)).

(** One turn of the loop of [_heapify_down]: [m] is the child of [i] with
    the least priority. *)
Lemma casi_abajo_paso l (i m : nat) a hm :
  casi_monticulo_abajo l i ->
  l !! i = Some a -> l !! m = Some hm -> (0 < m)%nat -> padre_de m = i ->
  (forall j b, (0 < j)%nat -> padre_de j = i -> l !! j = Some b ->
     num_menor_igual (fst hm) (fst b) = true) ->
  num_menor_igual (fst hm) (fst a) = true ->
  casi_monticulo_abajo (<[m := a]> (<[i := hm]> l)) m.
Proof.
  intros [D1 D2] Ha Hm Hm0 Hpm Hmin Hle.
  pose proof (padre_menor m Hm0) as Him. rewrite Hpm in Him.
  split.
  - intros j b q Hj Hne. rewrite !(lookup_intercambio l i m _ a hm Ha Hm).
    pose proof (padre_menor j Hj) as Hpj.
    destruct (decide (j = m)) as [->|Hjm].
    + rewrite Hpm. rewrite (decide_False (P := i = m)) by lia.
      rewrite decide_True by done. by intros [= <-] [= <-].
    + rewrite (decide_False (P := padre_de j = m)) by done.
      destruct (decide (j = i)) as [->|Hji].
      * rewrite (decide_False (P := padre_de i = i)) by lia.
        intros [= <-] Hq. apply (D2 m hm q); [done|done|done|done|done].
      * intros Hb. destruct (decide (padre_de j = i)) as [Epi|Hpi].
        -- intros [= <-]. by apply (Hmin j b).
        -- intros Hq. by apply (D1 j b q).
  - intros j b q _ Hj Hpj. rewrite !(lookup_intercambio l i m _ a hm Ha Hm).
    pose proof (padre_menor j Hj) as Hpjj.
    rewrite (decide_False (P := j = m)) by lia.
    rewrite (decide_False (P := j = i)) by lia.
    rewrite Hpm. rewrite (decide_False (P := i = m)) by lia.
    rewrite decide_True by done. intros Hb [= <-].
    apply (D1 j b hm); [done|lia|done|by rewrite Hpj].
Qed.

Lemma hijo_izq_Z (i : nat) :
  ColaPrioridad._hijo_izq (Z.of_nat i) = Z.of_nat (2 * i + 1).
Proof. unfold ColaPrioridad._hijo_izq. lia. Qed.

Lemma hijo_der_Z (i : nat) :
  ColaPrioridad._hijo_der (Z.of_nat i) = Z.of_nat (2 * i + 2).
Proof. unfold ColaPrioridad._hijo_der. lia. Qed.

Lemma heapify_down_correcto (comb i : nat) c :
  ColaPrioridad.tamaño c = Z.of_nat (length (ColaPrioridad.heap c)) ->
  (length (ColaPrioridad.heap c) - i < comb)%nat ->
  casi_monticulo_abajo (ColaPrioridad.heap c) i ->
  exists l',
    ColaPrioridad._heapify_down comb (Z.of_nat i) c = (Ok tt, ColaPrioridad.poner_heap l' c) /\
    Permutation l' (ColaPrioridad.heap c) /\ es_monticulo l'.
Proof.
  revert i c. induction comb as [|comb IH]; intros i c Ht Hcomb Hcasi; [lia|].
  cbn [ColaPrioridad._heapify_down]. unfold ligar at 1, leer at 1.
  rewrite hijo_izq_Z, hijo_der_Z, Ht.
  set (l := ColaPrioridad.heap c) in *.
  destruct (Z.of_nat (2 * i + 1) <? Z.of_nat (length l)) eqn:EL.
  2:{ (* no child *)
      apply Z.ltb_ge in EL. exists l. unfold l. rewrite poner_heap_mismo. fold l.
      split; [done|]. split; [done|]. destruct Hcasi as [D1 _].
      intros j b q Hj Hb Hq. destruct (decide (padre_de j = i)) as [Hpj|Hpj].
      - apply lookup_lt_Some in Hb. destruct (hijos_de i j Hj Hpj); lia.
      - by apply (D1 j b q). }
  apply Z.ltb_lt in EL.
  destruct (lookup_lt_is_Some_2 l (2 * i + 1) ltac:(lia)) as [izq Hizq].
  destruct (lookup_lt_is_Some_2 l i ltac:(lia)) as [a Ha].
  (* the child with the least priority *)
  assert (exists (m : nat) hm,
    (if Z.of_nat (2 * i + 2) <? Z.of_nat (length l)
     then
       (der <- puro (elemento_en l (Z.of_nat (2 * i + 2))) ;;
        izq <- puro (elemento_en l (Z.of_nat (2 * i + 1))) ;;
        ret (num_menor (fst der) (fst izq)))%metodo
     else ret false) c
    = (Ok (Nat.eqb m (2 * i + 2)), c) /\
    (m = (2 * i + 1)%nat \/ m = (2 * i + 2)%nat) /\
    l !! m = Some hm /\
    forall j b, (0 < j)%nat -> padre_de j = i -> l !! j = Some b ->
      num_menor_igual (fst hm) (fst b) = true) as (m & hm & Hd & Hm12 & Hm & Hmin).
  { destruct (Z.of_nat (2 * i + 2) <? Z.of_nat (length l)) eqn:ER.
    - apply Z.ltb_lt in ER.
      destruct (lookup_lt_is_Some_2 l (2 * i + 2) ltac:(lia)) as [der Hder].
      unfold ligar, puro. rewrite (elemento_en_Some _ _ _ Hder), (elemento_en_Some _ _ _ Hizq).
      destruct (num_menor (fst der) (fst izq)) eqn:Em.
      + exists (2 * i + 2)%nat, der. rewrite Nat.eqb_refl. split; [done|]. split; [by right|].
        split; [done|]. intros j b Hj Hpj Hb.
        destruct (hijos_de i j Hj Hpj) as [->| ->].
        * rewrite Hizq in Hb. injection Hb as <-. by apply menor_es_menor_igual.
        * rewrite Hder in Hb. injection Hb as <-. apply menor_igual_refl.
      + exists (2 * i + 1)%nat, izq.
        replace (2 * i + 1 =? 2 * i + 2)%nat with false by (symmetry; apply Nat.eqb_neq; lia).
        split; [done|]. split; [by left|]. split; [done|]. intros j b Hj Hpj Hb.
        destruct (hijos_de i j Hj Hpj) as [->| ->].
        * rewrite Hizq in Hb. injection Hb as <-. apply menor_igual_refl.
        * rewrite Hder in Hb. injection Hb as <-. by apply no_menor.
    - apply Z.ltb_ge in ER. exists (2 * i + 1)%nat, izq.
      replace (2 * i + 1 =? 2 * i + 2)%nat with false by (symmetry; apply Nat.eqb_neq; lia).
      split; [done|]. split; [by left|]. split; [done|]. intros j b Hj Hpj Hb.
      destruct (hijos_de i j Hj Hpj) as [->| ->].
      + rewrite Hizq in Hb. injection Hb as <-. apply menor_igual_refl.
      + apply lookup_lt_Some in Hb. lia. }
  unfold ligar at 1. rewrite Hd.
  assert ((if (m =? 2 * i + 2)%nat
           then Z.of_nat (2 * i + 2) else Z.of_nat (2 * i + 1)) = Z.of_nat m) as ->.
  { destruct Hm12 as [-> | ->].
    - by replace (2 * i + 1 =? 2 * i + 2)%nat with false by (symmetry; apply Nat.eqb_neq; lia).
    - by rewrite Nat.eqb_refl. }
  assert (0 < m)%nat as Hm0 by lia.
  assert (padre_de m = i) as Hpm
    by (destruct Hm12 as [-> | ->]; [apply padre_de_hijo_izq|apply padre_de_hijo_der]).
  unfold ligar at 1, puro at 1. fold l. rewrite (elemento_en_Some _ _ _ Ha).
  unfold ligar at 1, puro at 1. rewrite (elemento_en_Some _ _ _ Hm).
  destruct (num_menor_igual (fst a) (fst hm)) eqn:Ele.
  - exists l. unfold l. rewrite poner_heap_mismo. fold l.
    split; [done|]. split; [done|]. destruct Hcasi as [D1 _].
    intros j b q Hj Hb Hq. destruct (decide (padre_de j = i)) as [Hpj|Hpj].
    + rewrite Hpj, Ha in Hq. injection Hq as <-.
      apply (menor_igual_trans _ (fst hm)); [done|]. by apply (Hmin j b).
    + by apply (D1 j b q).
  - unfold ligar at 1. rewrite (intercambiar_corre c i m a hm Ha Hm). fold l.
    destruct (IH m (ColaPrioridad.poner_heap (<[m := a]> (<[i := hm]> l)) c))
      as (l' & Hrun & HP & Hmont).
    + cbn [ColaPrioridad.heap ColaPrioridad.poner_heap ColaPrioridad.tamaño].
      by rewrite !length_insert.
    + cbn [ColaPrioridad.heap ColaPrioridad.poner_heap]. rewrite !length_insert.
      apply lookup_lt_Some in Hm. lia.
    + cbn [ColaPrioridad.heap ColaPrioridad.poner_heap].
      apply casi_abajo_paso; try done. by apply no_menor_igual.
    + exists l'. split; [by rewrite Hrun|]. split; [|done].
      cbn [ColaPrioridad.heap ColaPrioridad.poner_heap] in HP. rewrite HP.
      by apply permutacion_intercambio.
Qed.

(** In a heap no item is below the first. *)
Lemma raiz_minima l r :
  es_monticulo l -> l !! 0%nat = Some r ->
  forall a, In a l -> num_menor_igual (fst r) (fst a) = true.
Proof.
  intros Hm Hr a Ha. apply en_lookup in Ha as [i Hi]. revert a Hi.
  induction i as [i IH] using lt_wf_ind. intros a Hi.
  destruct (decide (i = 0%nat)) as [->|Hne].
  - rewrite Hr in Hi. injection Hi as <-. apply menor_igual_refl.
  - pose proof (padre_menor i ltac:(lia)) as Hp.
    destruct (lookup_lt_is_Some_2 l (padre_de i)) as [p Hpl].
    { apply lookup_lt_Some in Hi. lia. }
    apply (menor_igual_trans _ (fst p)).
    + by apply (IH (padre_de i)).
    + apply (Hm i a p); [lia|done|done].
Qed.

Lemma heap_pop_corre c l u :
  ColaPrioridad.heap c = l ++ [u] ->
  ColaPrioridad.heap_pop c = (Ok u, ColaPrioridad.poner_heap l c).
Proof.
  intros H. unfold ColaPrioridad.heap_pop, ligar, leer. rewrite H, rev_app_distr. cbn.
  by rewrite rev_involutive.
Qed.

End Cola.

Section Cola.
Context {E : Type}.
Implicit Types (c : ColaPrioridad.t E) (l : list (numero * E)).

(** A heap with one more item at its end. *)
Lemma casi_arriba_al_final l x :
  es_monticulo l -> casi_monticulo_arriba (l ++ [x]) (length l).
Proof.
  intros Hm. split.
  - intros j a p Hj Hne Ha Hp. pose proof (padre_menor j Hj) as Hpj.
    assert (j < length l)%nat as Hlt.
    { apply lookup_lt_Some in Ha. rewrite length_app in Ha. cbn in Ha. lia. }
    rewrite lookup_app_l in Ha, Hp by lia. by apply (Hm j a p).
  - intros j a p Hi Hpj Ha _. exfalso.
    apply lookup_lt_Some in Ha. rewrite length_app in Ha. cbn in Ha.
    destruct (decide (j = 0%nat)) as [->|Hj].
    + change (padre_de 0) with 0%nat in Hpj. lia.
    + pose proof (padre_menor j ltac:(lia)). lia.
Qed.

Lemma cola_insertar_efecto (prioridad : numero) (elemento : E) c :
  cola_bien_formada c ->
  exists c',
    ColaPrioridad.insertar prioridad elemento c = (Ok tt, c') /\
    cola_bien_formada c' /\
    Permutation (ColaPrioridad.heap c') ((prioridad, elemento) :: ColaPrioridad.heap c).
Proof.
  intros [Ht Hm]. unfold ColaPrioridad.insertar.
  unfold ligar at 1, modificar at 1. unfold ligar at 1, modificar at 1.
  unfold ligar at 1, leer at 1.
  set (l := ColaPrioridad.heap c) in *.
  set (c1 := ColaPrioridad.poner_tamaño _ _).
  assert (ColaPrioridad.heap c1 = l ++ [(prioridad, elemento)]) as Hh1 by done.
  assert (ColaPrioridad.tamaño c1 = Z.of_nat (length l) + 1) as Ht1
    by (unfold c1; cbn; lia).
  replace (ColaPrioridad.tamaño c1 - 1) with (Z.of_nat (length l)) by lia.
  destruct (heapify_up_correcto (ColaPrioridad.combustible c1) (length l) c1)
    as (l' & Hrun & HP & Hm').
  - unfold ColaPrioridad.combustible. rewrite Ht1. lia.
  - rewrite Hh1, length_app. cbn. lia.
  - rewrite Hh1. by apply casi_arriba_al_final.
  - exists (ColaPrioridad.poner_heap l' c1). split; [done|]. split.
    + split; [|done]. cbn [ColaPrioridad.heap ColaPrioridad.poner_heap ColaPrioridad.tamaño].
      rewrite (Permutation_length HP), Hh1, length_app. cbn. unfold c1. cbn. lia.
    + cbn [ColaPrioridad.heap ColaPrioridad.poner_heap]. rewrite HP, Hh1.
      symmetry. apply Permutation_cons_append.
Qed.

Lemma cola_extraer_efecto c :
  cola_bien_formada c ->
  (ColaPrioridad.heap c = [] -> ColaPrioridad.extraer_min c = (Ok None, c)) /\
  (ColaPrioridad.heap c <> [] ->
   exists r c',
     ColaPrioridad.extraer_min c = (Ok (Some r), c') /\
     cola_bien_formada c' /\
     Permutation (ColaPrioridad.heap c) (r :: ColaPrioridad.heap c') /\
     forall a, In a (ColaPrioridad.heap c) -> num_menor_igual (fst r) (fst a) = true).
Proof.
  intros [Ht Hm]. destruct c as [l n]. cbn in Ht, Hm. subst n. split.
  - cbn. by intros ->.
  - cbn [ColaPrioridad.heap]. intros Hne.
    destruct l as [|r t]; [done|]. clear Hne.
    assert (forall a, In a (r :: t) -> num_menor_igual (fst r) (fst a) = true) as Hmin
      by (by apply raiz_minima).
    unfold ColaPrioridad.extraer_min. unfold ligar at 1, leer at 1.
    cbn [ColaPrioridad.tamaño].
    replace (Z.of_nat (length (r :: t)) =? 0) with false
      by (symmetry; apply Z.eqb_neq; cbn [length]; lia).
    destruct t as [|t0 t'].
    + (* one item *)
      cbn. exists r, {| ColaPrioridad.heap := []; ColaPrioridad.tamaño := 0 |}.
      split; [done|]. split; [|split; [done|done]].
      split; [done|]. intros i a p Hi Ha. done.
    + destruct (exists_last (l := t0 :: t') ltac:(done)) as (mid & u & Et). rewrite Et in *.
      replace (Z.of_nat (length (r :: mid ++ [u])) =? 1) with false
        by (symmetry; apply Z.eqb_neq; cbn [length]; rewrite length_app; cbn [length]; lia).
      unfold ligar at 1, puro at 1. cbn [ColaPrioridad.heap].
      assert (elemento_en (r :: mid ++ [u]) 0 = Ok r) as -> by reflexivity.
      unfold ligar at 1.
      erewrite (heap_pop_corre _ (r :: mid) u) by reflexivity.
      unfold ligar at 1, leer at 1. unfold ligar at 1, puro at 1.
      cbn [ColaPrioridad.heap ColaPrioridad.poner_heap].
      assert (asignar_en (r :: mid) 0 u = Ok (u :: mid)) as -> by reflexivity.
      unfold ligar at 1, modificar at 1. unfold ligar at 1, modificar at 1.
      unfold ligar at 1, leer at 1.
      cbn [ColaPrioridad.heap ColaPrioridad.poner_heap ColaPrioridad.tamaño
           ColaPrioridad.poner_tamaño].
      set (c2 := ColaPrioridad.poner_tamaño _ _).
      assert (ColaPrioridad.heap c2 = u :: mid) as Hh2 by reflexivity.
      assert (ColaPrioridad.tamaño c2 = Z.of_nat (length (ColaPrioridad.heap c2))) as Ht2.
      { rewrite Hh2. unfold c2.
        cbn [ColaPrioridad.heap ColaPrioridad.tamaño ColaPrioridad.poner_tamaño length].
        rewrite length_app. cbn [length]. lia. }
      destruct (heapify_down_correcto (ColaPrioridad.combustible c2) 0 c2 Ht2)
        as (l' & Hrun & HP & Hm').
      * unfold ColaPrioridad.combustible. rewrite Ht2. lia.
      * split; [|intros; lia].
        intros j a p Hj Hpj Ha Hp. rewrite Hh2 in Ha, Hp.
        pose proof (padre_menor j Hj) as Hpjj.
        destruct j as [|j]; [lia|]. destruct (padre_de (S j)) as [|pj] eqn:Epj; [done|].
        cbn in Ha, Hp.
        apply (Hm (S j) a p); [lia| |].
        -- change ((mid ++ [u]) !! j = Some a).
           rewrite lookup_app_l; [done|by eapply lookup_lt_Some].
        -- rewrite Epj. change ((mid ++ [u]) !! pj = Some p).
           rewrite lookup_app_l; [done|by eapply lookup_lt_Some].
      * change (Z.of_nat 0) with 0 in Hrun. unfold ligar at 1. rewrite Hrun.
        exists r, (ColaPrioridad.poner_heap l' c2). split; [done|]. split; [|split; [|done]].
        -- split; [|done].
           cbn [ColaPrioridad.heap ColaPrioridad.poner_heap ColaPrioridad.tamaño].
           rewrite (Permutation_length HP). exact Ht2.
        -- cbn [ColaPrioridad.heap ColaPrioridad.poner_heap]. rewrite HP, Hh2.
           apply perm_skip.
           symmetry. apply Permutation_cons_append.
Qed.

(** X7. [insertar] on a queue in heap order returns, leaves a queue in heap
    order, and the queue then holds the new pair and the pairs it held, each
    as many times as before. *)
Theorem cola_insertar_monticulo (prioridad : numero) (elemento : E) c :
  cola_bien_formada c ->
  exists c',
    ColaPrioridad.insertar prioridad elemento c = (Ok tt, c') /\
    cola_bien_formada c' /\
    Permutation (ColaPrioridad.heap c') ((prioridad, elemento) :: ColaPrioridad.heap c).
Proof. apply cola_insertar_efecto. Qed.

(** X8. [extraer_min] on an empty queue returns [None] and changes nothing. On
    a queue in heap order that is not empty it returns a pair whose priority
    no pair of the queue is below, takes that pair and no other out, and
    leaves a queue in heap order. *)
Theorem cola_extraer_min_minimo c :
  cola_bien_formada c ->
  (ColaPrioridad.heap c = [] -> ColaPrioridad.extraer_min c = (Ok None, c)) /\
  (ColaPrioridad.heap c <> [] ->
   exists r c',
     ColaPrioridad.extraer_min c = (Ok (Some r), c') /\
     cola_bien_formada c' /\
     Permutation (ColaPrioridad.heap c) (r :: ColaPrioridad.heap c') /\
     forall a, In a (ColaPrioridad.heap c) -> num_menor_igual (fst r) (fst a) = true).
Proof. apply cola_extraer_efecto. Qed.

(** X9. What two extractions in a row return comes out in the order of the
    priorities: the second pair is not below the first. *)
Theorem cola_extracciones_en_orden c c1 c2 (r1 r2 : numero * E) :
  cola_bien_formada c ->
  ColaPrioridad.extraer_min c = (Ok (Some r1), c1) ->
  ColaPrioridad.extraer_min c1 = (Ok (Some r2), c2) ->
  num_menor_igual (fst r1) (fst r2) = true.
Proof.
  intros W E1 E2. destruct (cola_extraer_efecto c W) as [Hvac Hno].
  destruct (ColaPrioridad.heap c) as [|x l] eqn:Eh.
  { rewrite Hvac in E1 by done. discriminate. }
  destruct (Hno ltac:(done)) as (r & c' & E1' & W' & HP & Hmin).
  rewrite E1 in E1'. injection E1' as <- <-.
  destruct (cola_extraer_efecto c1 W') as [Hvac1 Hno1].
  destruct (ColaPrioridad.heap c1) as [|y l1] eqn:Eh1.
  { rewrite Hvac1 in E2 by done. discriminate. }
  destruct (Hno1 ltac:(done)) as (r & c' & E2' & _ & HP1 & _).
  rewrite E2 in E2'. injection E2' as <- <-.
  apply Hmin. apply (Permutation_in _ (Permutation_sym HP)). right.
  apply (Permutation_in _ (Permutation_sym HP1)). by left.
Qed.

Lemma cola_alcanzable_formada c : cola_alcanzable c -> cola_bien_formada c.
Proof.
  induction 1 as [|c p e _ W|c _ W].
  - split; [done|]. intros i a q _ Ha. done.
  - destruct (cola_insertar_efecto p e c W) as (c' & -> & W' & _). done.
  - destruct (cola_extraer_efecto c W) as [Hvac Hno].
    destruct (ColaPrioridad.heap c) as [|x l] eqn:Eh.
    + by rewrite Hvac.
    + destruct (Hno ltac:(done)) as (r & c' & -> & W' & _). done.
Qed.

End Cola.

Lemma cola_ejemplo_bien_formada : cola_bien_formada cola_ejemplo.
Proof.
  apply cola_alcanzable_formada. unfold cola_ejemplo, tras.
  do 3 apply ca_insertar. apply ca_nueva.
Qed.

(** On [cola_ejemplo], with a pair of priority 0. *)
Lemma cola_insertar_monticulo_testigo :
  map fst (ColaPrioridad.heap cola_ejemplo) = [Fin 1; Fin 3; Fin 2] /\
  exists c',
    ColaPrioridad.insertar (Fin 0) 0 cola_ejemplo = (Ok tt, c') /\
    cola_bien_formada c' /\
    Permutation (ColaPrioridad.heap c') ((Fin 0, 0) :: ColaPrioridad.heap cola_ejemplo).
Proof.
  split; [reflexivity|].
  exact (cola_insertar_monticulo (Fin 0) 0 cola_ejemplo cola_ejemplo_bien_formada).
Defined.

(** On [cola_ejemplo], whose least priority is 1. *)
Lemma cola_extraer_min_minimo_testigo :
  fst (ColaPrioridad.extraer_min cola_ejemplo) = Ok (Some (Fin 1, 10)) /\
  (ColaPrioridad.heap cola_ejemplo = [] ->
     ColaPrioridad.extraer_min cola_ejemplo = (Ok None, cola_ejemplo)) /\
  (ColaPrioridad.heap cola_ejemplo <> [] ->
   exists r c',
     ColaPrioridad.extraer_min cola_ejemplo = (Ok (Some r), c') /\
     cola_bien_formada c' /\
     Permutation (ColaPrioridad.heap cola_ejemplo) (r :: ColaPrioridad.heap c') /\
     forall a, In a (ColaPrioridad.heap cola_ejemplo) ->
       num_menor_igual (fst r) (fst a) = true).
Proof.
  split; [reflexivity|].
  exact (cola_extraer_min_minimo cola_ejemplo cola_ejemplo_bien_formada).
Defined.

(** On [cola_ejemplo]: 1 comes out, then 2. *)
Lemma cola_extracciones_en_orden_testigo :
  fst (ColaPrioridad.extraer_min cola_ejemplo) = Ok (Some (Fin 1, 10)) /\
  fst (ColaPrioridad.extraer_min (tras ColaPrioridad.extraer_min cola_ejemplo))
    = Ok (Some (Fin 2, 20)) /\
  num_menor_igual (Fin 1) (Fin 2) = true.
Proof.
  split; [reflexivity|]. split; [reflexivity|].
  exact (cola_extracciones_en_orden cola_ejemplo _ _ (Fin 1, 10) (Fin 2, 20)
           cola_ejemplo_bien_formada eq_refl eq_refl).
Defined.

(* ================================================================== *)
(** * The graph: what its methods keep and change *)
(* ================================================================== *)

(** ** The methods of the graph on the graphs a program can build *)

Lemma vecinos_de_total (mem : list AristaGrafo) (l : list ref) :
  (forall r, In r l -> (r < length mem)%nat) ->
  exists vs, vecinos_de mem l = Ok vs.
Proof.
  induction l as [|r l IH]; intros H; [by eexists|].
  destruct (IH ltac:(intros; apply H; by right)) as [vs Hvs].
  destruct (lookup_lt_is_Some_2 mem r (H r ltac:(by left))) as [a Ha].
  rewrite vecinos_de_cons. unfold desreferenciar. rewrite Ha. cbn [ligar_r]. rewrite Hvs.
  by eexists.
Qed.

Lemma obtener_vecinos_total (s : EstadoGrafo) (k : clave) :
  grafo_integro s -> exists vs, obtener_vecinos k s = Ok vs.
Proof.
  intros G. unfold obtener_vecinos.
  destruct (obtener_coherente (lista_adyacencia (grafo s)) k (proj1 (gi_ady s G)))
    as [(v & Hin & ->)|[_ ->]]; [|by eexists].
  cbn [ligar_r]. destruct (gi_lista s G k v Hin) as (_ & l & -> & Hl).
  apply vecinos_de_total. intros r Hr. destruct (Hl r Hr) as (a & Ha & _).
  by eapply lookup_lt_Some.
Qed.

Lemma todas_aristas_total (s : EstadoGrafo) :
  grafo_integro s -> exists l, obtener_todas_aristas s = Ok l.
Proof.
  intros G. destruct (aristas_de_claves_integro s _ G (fun k H => H)) as (l & Hl & _).
  by exists l.
Qed.

Section GrafoUso.
Variable raiz : Q -> Q.

(** X10. On every graph built by the methods of [GrafoTrafico] and of its edges,
    [validar_integridad] finds no problem. *)
Theorem grafo_alcanzable_valido (s : EstadoGrafo) :
  alcanzable raiz s -> validar_integridad s = Ok [].
Proof. intros A. by apply validar_integro, (alcanzable_integro raiz). Qed.

(** X11. On every such graph no method of the graph raises: [agregar_nodo] does
    not meet a key that is taken, [agregar_arista] finds the adjacency list
    of each node it has found, and the queries find every edge they look
    up. *)
Theorem metodos_del_grafo_no_lanzan (s : EstadoGrafo) :
  alcanzable raiz s ->
  (forall x y nombre, exists nodo s', agregar_nodo x y nombre s = (Ok nodo, s')) /\
  (forall id_origen id_destino peso bidireccional, exists res s',
     agregar_arista raiz id_origen id_destino peso bidireccional s = (Ok res, s')) /\
  (forall id_nodo, exists res s', eliminar_nodo id_nodo s = (Ok res, s')) /\
  (forall id_origen id_destino, exists res s',
     bloquear_arista id_origen id_destino s = (Ok res, s')) /\
  (forall id_origen id_destino, exists res s',
     desbloquear_arista id_origen id_destino s = (Ok res, s')) /\
  (forall id_nodo, exists vecinos, obtener_vecinos id_nodo s = Ok vecinos) /\
  (forall id_nodo, exists aristas, obtener_aristas_nodo id_nodo s = Ok aristas) /\
  (exists aristas, obtener_todas_aristas s = Ok aristas).
Proof.
  intros A. pose proof (alcanzable_integro raiz s A) as G.
  split; [|split; [|split; [|split; [|split; [|split; [|split]]]]]].
  - intros x y nombre. destruct (agregar_nodo_integro x y nombre s G) as (n & s' & E & _).
    by exists n, s'.
  - intros o d p b. destruct (agregar_arista_integro raiz o d p b s G) as (r & s' & E & _).
    by exists r, s'.
  - intros n. destruct (eliminar_nodo_total n s G) as (r & s' & E & _). by exists r, s'.
  - intros o d. destruct (bloquear_arista_integro o d s G) as (r & s' & E & _).
    by exists r, s'.
  - intros o d. destruct (desbloquear_arista_integro o d s G) as (r & s' & E & _).
    by exists r, s'.
  - intros k. by apply obtener_vecinos_total.
  - intros k. destruct (aristas_nodo_total s k G) as (l & E & _). by exists l.
  - by apply todas_aristas_total.
Qed.

End GrafoUso.

(** On [grafo_abc]. *)
Lemma grafo_abc_alcanzable : alcanzable raiz_racional grafo_abc.
Proof.
  unfold grafo_abc, tras.
  do 3 apply alc_agregar_arista. do 3 apply alc_agregar_nodo. apply alc_inicial.
Qed.

Lemma grafo_alcanzable_valido_testigo :
  alcanzable raiz_racional grafo_abc /\ validar_integridad grafo_abc = Ok [].
Proof.
  split; [exact grafo_abc_alcanzable|].
  exact (grafo_alcanzable_valido raiz_racional grafo_abc grafo_abc_alcanzable).
Defined.

Lemma metodos_del_grafo_no_lanzan_testigo :
  alcanzable raiz_racional grafo_abc /\
  (forall x y nombre, exists nodo s', agregar_nodo x y nombre grafo_abc = (Ok nodo, s')) /\
  (forall id_origen id_destino peso bidireccional, exists res s',
     agregar_arista raiz_racional id_origen id_destino peso bidireccional grafo_abc
     = (Ok res, s')) /\
  (forall id_nodo, exists res s', eliminar_nodo id_nodo grafo_abc = (Ok res, s')) /\
  (forall id_origen id_destino, exists res s',
     bloquear_arista id_origen id_destino grafo_abc = (Ok res, s')) /\
  (forall id_origen id_destino, exists res s',
     desbloquear_arista id_origen id_destino grafo_abc = (Ok res, s')) /\
  (forall id_nodo, exists vecinos, obtener_vecinos id_nodo grafo_abc = Ok vecinos) /\
  (forall id_nodo, exists aristas, obtener_aristas_nodo id_nodo grafo_abc = Ok aristas) /\
  (exists aristas, obtener_todas_aristas grafo_abc = Ok aristas).
Proof.
  split; [exact grafo_abc_alcanzable|].
  exact (metodos_del_grafo_no_lanzan raiz_racional grafo_abc grafo_abc_alcanzable).
Defined.

Lemma aristas_nodo_de_tabla (s s' : EstadoGrafo) (k : clave) :
  HashTable.obtener k (lista_adyacencia (grafo s')) =
  HashTable.obtener k (lista_adyacencia (grafo s)) ->
  obtener_aristas_nodo k s' = obtener_aristas_nodo k s.
Proof. intros H. unfold obtener_aristas_nodo. by rewrite H. Qed.

Section GrafoUso.
Variable raiz : Q -> Q.

(** X12. [agregar_nodo] gives the new node the id that follows the counter, an id
    no node of the graph has, even after nodes were removed. The node is
    then found under that id, with no edge; the other nodes, their edges and
    the edge objects are as before. *)
Theorem agregar_nodo_identificador_nuevo (x y : Q) (nombre : string) (s : EstadoGrafo) :
  alcanzable raiz s ->
  exists nodo s',
    agregar_nodo x y nombre s = (Ok nodo, s') /\
    nodo = NodoGrafo_init (contador_nodos (grafo s) + 1) x y nombre /\
    contador_nodos (grafo s') = contador_nodos (grafo s) + 1 /\
    ~ In (ClaveInt (nodo_id nodo)) (HashTable.obtener_claves (nodos (grafo s))) /\
    HashTable.obtener (ClaveInt (nodo_id nodo)) (nodos (grafo s')) = Ok (Some nodo) /\
    obtener_aristas_nodo (ClaveInt (nodo_id nodo)) s' = Ok [] /\
    (forall k, k <> ClaveInt (nodo_id nodo) ->
       HashTable.obtener k (nodos (grafo s')) = HashTable.obtener k (nodos (grafo s)) /\
       obtener_aristas_nodo k s' = obtener_aristas_nodo k s) /\
    mem_aristas s' = mem_aristas s /\
    aristas_totales (grafo s') = aristas_totales (grafo s).
Proof.
  intros A. pose proof (alcanzable_integro raiz s A) as G.
  set (c := contador_nodos (grafo s) + 1).
  assert (~ In (ClaveInt c) (HashTable.obtener_claves (nodos (grafo s)))) as Hn.
  { intros H. apply in_map_iff in H as ([k v] & E & Hin). cbn in E. subst k.
    destruct (gi_nodo s G _ _ Hin) as (nodo & _ & [= E] & H). lia. }
  assert (~ In (ClaveInt c) (HashTable.obtener_claves (lista_adyacencia (grafo s)))) as Hl.
  { intros H. apply in_map_iff in H as ([k v] & E & Hin). cbn in E. subst k.
    by destruct (gi_lista s G _ _ Hin) as (H & _). }
  destruct (insertar_efecto (nodos (grafo s)) (ClaveInt c)
              (Some (NodoGrafo_init c x y nombre)) (gi_nodos s G) Hn)
    as (nd & En & _ & Hnd & Hnd' & _).
  destruct (insertar_efecto (lista_adyacencia (grafo s)) (ClaveInt c)
              (Some ListaEnlazada.nueva) (gi_ady s G) Hl)
    as (t & Et & _ & Ht & Ht' & _).
  eexists _, _. split.
  - unfold agregar_nodo. unfold ligar at 1, modificar at 1. unfold ligar at 1, leer at 1.
    cbn [contador_nodos grafo poner_grafo poner_contador_nodos].
    erewrite ligar_Ok; [|apply en_nodos_corre; cbn; exact En].
    erewrite ligar_Ok; [|apply en_adyacencia_corre; cbn; exact Et].
    reflexivity.
  - fold c. cbn [nodo_id NodoGrafo_init].
    split; [done|]. split; [done|]. split; [done|]. split; [exact Hnd|].
    split; [unfold obtener_aristas_nodo; cbn; by rewrite Ht|].
    split; [|done]. intros k Hk. split; [by apply Hnd'|].
    unfold obtener_aristas_nodo. cbn. by rewrite Ht'.
Qed.

(** X13. [eliminar_nodo] of an id that is not a node returns false and leaves the
    graph as it is. In no case does it touch [contador_nodos] or
    [aristas_totales]: the count of edges stays what it was when edges went
    away with the node, and the edge objects stay as they are. *)
Theorem eliminar_nodo_contadores (id_nodo : clave) (s : EstadoGrafo) :
  alcanzable raiz s ->
  exists res s',
    eliminar_nodo id_nodo s = (Ok res, s') /\
    (res = true <-> HashTable.contiene id_nodo (nodos (grafo s)) = Ok true) /\
    (res = false -> s' = s) /\
    contador_nodos (grafo s') = contador_nodos (grafo s) /\
    aristas_totales (grafo s') = aristas_totales (grafo s) /\
    mem_aristas s' = mem_aristas s.
Proof.
  intros A. pose proof (alcanzable_integro raiz s A) as G.
  destruct (HashTable.contiene id_nodo (nodos (grafo s))) as [[|]| |] eqn:Hn.
  - destruct (bucle_podar (HashTable.obtener_claves (nodos (grafo s))) id_nodo s
                (proj1 (gi_ady s G)) (refs_validas_integro s G))
      as (t1 & E1 & C1 & _).
    destruct (eliminar_coherente (nodos (grafo s)) id_nodo (proj1 (gi_nodos s G)))
      as (b2 & nd & E2 & _).
    destruct (eliminar_coherente t1 id_nodo C1) as (b3 & t3 & E3 & _).
    exists true, (con_adyacencia t3 (con_nodos nd (con_adyacencia t1 s))). split.
    + unfold eliminar_nodo. unfold ligar at 1, leer at 1. unfold ligar at 1, puro at 1.
      rewrite Hn. cbn [negb]. rewrite (ligar_Ok _ _ _ _ _ E1).
      erewrite ligar_Ok; [|by apply en_nodos_corre].
      erewrite ligar_Ok; [|by apply en_adyacencia_corre]. reflexivity.
    + done.
  - exists false, s. split.
    + unfold eliminar_nodo. unfold ligar at 1, leer at 1. unfold ligar at 1, puro at 1.
      by rewrite Hn.
    + split; [split; discriminate|done].
  - exfalso. unfold HashTable.contiene in Hn.
    destruct (obtener_coherente (nodos (grafo s)) id_nodo (proj1 (gi_nodos s G)))
      as [(v & _ & E)|[_ E]]; rewrite E in Hn; discriminate.
  - exfalso. unfold HashTable.contiene in Hn.
    destruct (obtener_coherente (nodos (grafo s)) id_nodo (proj1 (gi_nodos s G)))
      as [(v & _ & E)|[_ E]]; rewrite E in Hn; discriminate.
Qed.

End GrafoUso.

(** On [grafo_abc] without its node B: the next node gets the id 4. *)
Lemma agregar_nodo_identificador_nuevo_testigo :
  alcanzable raiz_racional grafo_ac /\
  HashTable.obtener_claves (nodos (grafo grafo_ac)) = [ClaveInt 1; ClaveInt 3] /\
  exists nodo s',
    agregar_nodo 50 50 "D" grafo_ac = (Ok nodo, s') /\
    nodo = NodoGrafo_init (contador_nodos (grafo grafo_ac) + 1) 50 50 "D" /\
    contador_nodos (grafo s') = contador_nodos (grafo grafo_ac) + 1 /\
    ~ In (ClaveInt (nodo_id nodo)) (HashTable.obtener_claves (nodos (grafo grafo_ac))) /\
    HashTable.obtener (ClaveInt (nodo_id nodo)) (nodos (grafo s')) = Ok (Some nodo) /\
    obtener_aristas_nodo (ClaveInt (nodo_id nodo)) s' = Ok [] /\
    (forall k, k <> ClaveInt (nodo_id nodo) ->
       HashTable.obtener k (nodos (grafo s')) = HashTable.obtener k (nodos (grafo grafo_ac)) /\
       obtener_aristas_nodo k s' = obtener_aristas_nodo k grafo_ac) /\
    mem_aristas s' = mem_aristas grafo_ac /\
    aristas_totales (grafo s') = aristas_totales (grafo grafo_ac).
Proof.
  assert (alcanzable raiz_racional grafo_ac) as A
    by (apply alc_eliminar_nodo, grafo_abc_alcanzable).
  split; [exact A|]. split; [vm_compute; reflexivity|].
  exact (agregar_nodo_identificador_nuevo raiz_racional 50 50 "D" grafo_ac A).
Defined.

(** On [grafo_abc], with its node B and with an id it does not have. *)
Lemma eliminar_nodo_contadores_testigo :
  alcanzable raiz_racional grafo_abc /\
  aristas_totales (grafo grafo_abc) = 3 /\
  aristas_totales (grafo grafo_ac) = 3 /\
  obtener_todas_aristas grafo_ac = Ok [2%nat] /\
  exists res s',
    eliminar_nodo (ClaveInt 9) grafo_abc = (Ok res, s') /\
    (res = true <-> HashTable.contiene (ClaveInt 9) (nodos (grafo grafo_abc)) = Ok true) /\
    (res = false -> s' = grafo_abc) /\
    contador_nodos (grafo s') = contador_nodos (grafo grafo_abc) /\
    aristas_totales (grafo s') = aristas_totales (grafo grafo_abc) /\
    mem_aristas s' = mem_aristas grafo_abc.
Proof.
  split; [exact grafo_abc_alcanzable|]. split; [vm_compute; reflexivity|].
  split; [vm_compute; reflexivity|]. split; [vm_compute; reflexivity|].
  exact (eliminar_nodo_contadores raiz_racional (ClaveInt 9) grafo_abc grafo_abc_alcanzable).
Defined.

Lemma obtener_tras_mutar {V} (h h' : HashTable.t V) (k k' : clave) (f : V -> V)
    (v : option V) :
  coherente h -> coherente h' ->
  HashTable.obtener_pares h' = map (mutar_par k f) (HashTable.obtener_pares h) ->
  HashTable.obtener k' h = Ok v ->
  HashTable.obtener k' h' = Ok (if decide (k' = k) then f <$> v else v).
Proof.
  intros C C' HP Hv.
  destruct (obtener_coherente h k' C) as [(v0 & Hin & E)|[Hout E]];
    rewrite E in Hv; injection Hv as <-.
  - apply obtener_presente; [done|]. rewrite HP. apply in_map_iff.
    exists (k', v0). split; [|done]. unfold mutar_par. cbn [fst snd].
    destruct (decide (k' = k)) as [->|Hne].
    + by rewrite clave_eqb_refl.
    + by rewrite (proj2 (clave_eqb_neq k' k) Hne).
  - assert (HashTable.obtener k' h' = Ok None) as ->.
    { apply obtener_ausente; [done|]. unfold HashTable.obtener_claves.
      rewrite HP, map_map. erewrite map_ext; [exact Hout|]. intros p. apply mutar_par_clave. }
    by destruct (decide (k' = k)).
Qed.

Lemma agregar_a_lista_efecto (k : clave) (r : ref) (s : EstadoGrafo) :
  grafo_integro s -> In k (HashTable.obtener_claves (nodos (grafo s))) ->
  exists t,
    agregar_a_lista k r s = (Ok tt, con_adyacencia t s) /\
    forall k' l, obtener_aristas_nodo k' s = Ok l ->
      obtener_aristas_nodo k' (con_adyacencia t s)
      = Ok (l ++ if decide (k' = k) then [r] else []).
Proof.
  intros G Hk.
  pose proof (gi_claves s G k Hk) as Hkl.
  apply in_map_iff in Hkl as ([k0 v] & E & Hin). cbn in E. subst k0.
  destruct (gi_lista s G _ v Hin) as (_ & lk & -> & _).
  destruct (mutar_valor_coherente (lista_adyacencia (grafo s)) k (ListaEnlazada.agregar r)
              (proj1 (gi_ady s G))) as (t & Et & Ct & Pt & _).
  exists t. split.
  - unfold agregar_a_lista. unfold ligar at 1, leer at 1. unfold ligar at 1, puro at 1.
    rewrite (obtener_presente _ _ _ (proj1 (gi_ady s G)) Hin).
    by apply en_adyacencia_corre.
  - intros k' l Hl. unfold obtener_aristas_nodo in *. cbn [grafo con_adyacencia poner_grafo
      lista_adyacencia poner_lista_adyacencia].
    destruct (obtener_coherente (lista_adyacencia (grafo s)) k' (proj1 (gi_ady s G)))
      as [(v0 & Hin0 & E0)|[Hout E0]].
    + rewrite (obtener_tras_mutar _ t k k' _ v0 (proj1 (gi_ady s G)) Ct Pt E0).
      rewrite E0 in Hl. cbn [ligar_r] in *.
      destruct (gi_lista s G _ v0 Hin0) as (_ & l0 & -> & _). injection Hl as <-.
      destruct (decide (k' = k)); cbn; [done|]. by rewrite app_nil_r.
    + rewrite (obtener_tras_mutar _ t k k' _ None (proj1 (gi_ady s G)) Ct Pt E0).
      rewrite E0 in Hl. cbn [ligar_r] in *. injection Hl as <-.
      destruct (decide (k' = k)) as [->|]; [|done].
      exfalso. apply Hout. apply in_map_iff. by exists (k, Some lk).
Qed.

Lemma aristas_nodo_otra_memoria (s : EstadoGrafo) (m : list AristaGrafo) (k : clave) :
  obtener_aristas_nodo k (poner_mem_aristas m s) = obtener_aristas_nodo k s.
Proof. reflexivity. Qed.

Section GrafoUso.
Variable raiz : Q -> Q.

(** X14. [agregar_arista] between two nodes of the graph returns true. It makes
    one edge object, or two when the edge is bidirectional, the second one
    from the destination back; each goes to the end of the adjacency list of
    the node it leaves. A weight equal to 1 is taken as not given: the
    stored weight is then the distance between the nodes divided by 50.
    [aristas_totales] grows by one, also for the two objects of a
    bidirectional edge. When a node is missing it returns false and the
    graph stays as it is. *)
Theorem agregar_arista_efecto (id_origen id_destino : clave) (peso : Q)
    (bidireccional : bool) (s : EstadoGrafo) :
  alcanzable raiz s ->
  (forall nodo_o nodo_d,
     HashTable.obtener id_origen (nodos (grafo s)) = Ok (Some nodo_o) ->
     HashTable.obtener id_destino (nodos (grafo s)) = Ok (Some nodo_d) ->
     exists s',
       agregar_arista raiz id_origen id_destino peso bidireccional s = (Ok true, s') /\
       (let dx := (nodo_x nodo_d - nodo_x nodo_o)%Q in
        let dy := (nodo_y nodo_d - nodo_y nodo_o)%Q in
        let w := if Qeq_bool peso 1 then (raiz (dx * dx + dy * dy) / 50)%Q else peso in
        mem_aristas s' =
          mem_aristas s ++
            AristaGrafo_init nodo_o nodo_d w bidireccional ::
            (if bidireccional then [AristaGrafo_init nodo_d nodo_o w true] else [])) /\
       nodos (grafo s') = nodos (grafo s) /\
       contador_nodos (grafo s') = contador_nodos (grafo s) /\
       aristas_totales (grafo s') = aristas_totales (grafo s) + 1 /\
       forall k l, obtener_aristas_nodo k s = Ok l ->
         obtener_aristas_nodo k s' =
           Ok (l ++ (if decide (k = id_origen) then [length (mem_aristas s)] else []) ++
                    (if bidireccional && bool_decide (k = id_destino)
                     then [S (length (mem_aristas s))] else []))) /\
  (HashTable.obtener id_origen (nodos (grafo s)) = Ok None \/
   HashTable.obtener id_destino (nodos (grafo s)) = Ok None ->
   agregar_arista raiz id_origen id_destino peso bidireccional s = (Ok false, s)).
Proof.
  intros A. pose proof (alcanzable_integro raiz s A) as G. split.
  2:{ intros H. unfold agregar_arista. unfold ligar at 1, leer at 1.
      destruct (obtener_coherente (nodos (grafo s)) id_origen (proj1 (gi_nodos s G)))
        as [(vo & _ & Eo)|[_ Eo]];
      destruct (obtener_coherente (nodos (grafo s)) id_destino (proj1 (gi_nodos s G)))
        as [(vd & _ & Ed)|[_ Ed]];
      unfold ligar at 1, puro at 1; rewrite Eo; unfold ligar at 1, puro at 1; rewrite Ed;
      destruct H as [H|H]; rewrite ?Eo, ?Ed in H; try injection H as ->; try done;
      by destruct vo. }
  intros no nd Eo Ed.
  assert (forall k nodo, HashTable.obtener k (nodos (grafo s)) = Ok (Some nodo) ->
            k = ClaveInt (nodo_id nodo) /\
            In k (HashTable.obtener_claves (nodos (grafo s)))) as Hobt.
  { intros k nodo E. apply obtener_Some_In in E.
    destruct (gi_nodo s G _ _ E) as (nodo' & [= <-] & -> & _).
    split; [done|]. apply in_map_iff. by eexists (_, _). }
  destruct (Hobt _ _ Eo) as [Eko Hko]. destruct (Hobt _ _ Ed) as [Ekd Hkd].
  unfold agregar_arista. unfold ligar at 1, leer at 1.
  unfold ligar at 1, puro at 1. rewrite Eo. unfold ligar at 1, puro at 1. rewrite Ed.
  match goal with |- context [AristaGrafo_init no nd ?p bidireccional] => set (w := p) end.
  set (a1 := AristaGrafo_init no nd w bidireccional).
  set (s1 := poner_mem_aristas (mem_aristas s ++ [a1]) s).
  assert (grafo_integro s1) as G1.
  { apply (integro_transferir s); [done|done|done|cbn; lia|]. apply mismos_extremos_app. }
  assert (mem_aristas s1 !! length (mem_aristas s) = Some a1) as Ha1.
  { cbn. by apply list_lookup_middle. }
  destruct (agregar_a_lista_integro id_origen (length (mem_aristas s)) s1 a1 G1)
    as (s2 & E2 & G2 & Hm2 & Hn2); [done|done|by rewrite Eko|by rewrite Ekd in Hkd|].
  destruct (agregar_a_lista_efecto id_origen (length (mem_aristas s)) s1 G1 Hko)
    as (t1 & E2' & Hl2).
  rewrite E2' in E2. injection E2 as <-.
  unfold crear_arista at 1. unfold ligar at 1. unfold ligar at 1, leer at 1.
  unfold ligar at 1, modificar at 1. unfold ret at 1. fold a1. fold s1.
  rewrite (ligar_Ok _ _ _ _ _ E2').
  set (s2 := con_adyacencia t1 s1) in *.
  destruct bidireccional.
  - set (a2 := AristaGrafo_init nd no w true).
    set (s3 := poner_mem_aristas (mem_aristas s2 ++ [a2]) s2).
    assert (grafo_integro s3) as G3.
    { apply (integro_transferir s2); [done|done|done|cbn; lia|]. apply mismos_extremos_app. }
    assert (In id_destino (HashTable.obtener_claves (nodos (grafo s3)))) as Hkd3 by done.
    destruct (agregar_a_lista_efecto id_destino (length (mem_aristas s2)) s3 G3 Hkd3)
      as (t2 & E4 & Hl4).
    assert ((arista_inversa <- crear_arista a2 ;;
              agregar_a_lista id_destino arista_inversa)%metodo s2
            = (Ok tt, con_adyacencia t2 s3)) as E5.
    { erewrite ligar_Ok; [exact E4|]. reflexivity. }
    rewrite (ligar_Ok _ _ _ _ _ E5).
    eexists. split; [reflexivity|].
    split; [cbn; by rewrite <- app_assoc|]. split; [done|]. split; [done|].
    split; [done|].
    intros k l Hl.
    change (obtener_aristas_nodo k (con_adyacencia t2 s3)
            = Ok (l ++ (if decide (k = id_origen) then [length (mem_aristas s)] else []) ++
                       (if true && bool_decide (k = id_destino)
                        then [S (length (mem_aristas s))] else []))).
    rewrite (Hl4 k (l ++ if decide (k = id_origen) then [length (mem_aristas s)] else [])).
    + rewrite <- app_assoc. do 3 f_equal. cbn [andb].
      replace (length (mem_aristas s2)) with (S (length (mem_aristas s)))
        by (cbn; rewrite length_app; cbn; lia).
      destruct (decide (k = id_destino)) as [->|Hne].
      * by rewrite bool_decide_eq_true_2.
      * by rewrite bool_decide_eq_false_2.
    + exact (Hl2 k l Hl).
  - eexists. split; [reflexivity|].
    split; [done|]. split; [done|]. split; [done|]. split; [done|].
    intros k l Hl. cbn [andb]. rewrite app_nil_r.
    change (obtener_aristas_nodo k s2
            = Ok (l ++ (if decide (k = id_origen) then [length (mem_aristas s)] else []))).
    exact (Hl2 k l Hl).
Qed.

End GrafoUso.

Lemma grafo_dos_nodos_alcanzable : alcanzable raiz_racional grafo_dos_nodos.
Proof. unfold grafo_dos_nodos, tras. do 2 apply alc_agregar_nodo. apply alc_inicial. Qed.

(** On [grafo_dos_nodos], a bidirectional edge between A and B given the
    weight 1: two objects of weight 100 / 50, one count. *)
Lemma agregar_arista_efecto_testigo :
  alcanzable raiz_racional grafo_dos_nodos /\
  exists s',
    agregar_arista raiz_racional (ClaveInt 1) (ClaveInt 2) 1 true grafo_dos_nodos
    = (Ok true, s') /\
    map (fun a => (nodo_id (origen a), nodo_id (destino a), Qred (peso_base a),
                   bidireccional a)) (mem_aristas s')
    = [(1, 2, 2%Q, true); (2, 1, 2%Q, true)] /\
    aristas_totales (grafo s') = 1 /\
    obtener_aristas_nodo (ClaveInt 1) s' = Ok [0%nat] /\
    obtener_aristas_nodo (ClaveInt 2) s' = Ok [1%nat].
Proof.
  split; [exact grafo_dos_nodos_alcanzable|].
  destruct (proj1 (agregar_arista_efecto raiz_racional (ClaveInt 1) (ClaveInt 2) 1 true
                     grafo_dos_nodos grafo_dos_nodos_alcanzable)
              (NodoGrafo_init 1 0 0 "A") (NodoGrafo_init 2 100 0 "B") eq_refl eq_refl)
    as (s' & E & Hm & _ & _ & Ht & Hl).
  exists s'. split; [exact E|]. split; [rewrite Hm; vm_compute; reflexivity|].
  split; [rewrite Ht; reflexivity|]. split.
  - rewrite (Hl (ClaveInt 1) [] eq_refl). reflexivity.
  - rewrite (Hl (ClaveInt 2) [] eq_refl). reflexivity.
Defined.

(* ================================================================== *)
(** * The queries of the analyser *)
(* ================================================================== *)

(** ** [_ordenar_por_valor] *)

Lemma rango_entre_cero (m : Z) : rango_entre 0 m = map Z.of_nat (seq 0 (Z.to_nat m)).
Proof.
  unfold rango_entre, rango. rewrite Z.sub_0_r, map_map. apply map_ext. intros; lia.
Qed.

Lemma lookup_cambio {B} (l : list B) (i j k : nat) (x y : B) :
  l !! i = Some x -> l !! j = Some y ->
  <[j := x]> (<[i := y]> l) !! k =
    if decide (k = j) then Some x else if decide (k = i) then Some y else l !! k.
Proof.
  intros Hx Hy. pose proof (lookup_lt_Some _ _ _ Hx). pose proof (lookup_lt_Some _ _ _ Hy).
  destruct (decide (k = j)) as [->|Hj].
  - apply list_lookup_insert_eq. by rewrite length_insert.
  - rewrite list_lookup_insert_ne by done. destruct (decide (k = i)) as [->|Hi].
    + by apply list_lookup_insert_eq.
    + by rewrite list_lookup_insert_ne.
Qed.

Section Ordenar.
Context {A : Type}.
Variable reverso : bool.
Implicit Types (l pre suf : list (A * option Q)) (p q : A * option Q).

Lemma en_orden_refl p : en_orden reverso p p.
Proof.
  intros x y Hx Hy. rewrite Hx in Hy. injection Hy as <-.
  destruct reverso; apply Qle_refl.
Qed.

Lemma en_orden_trans p q r :
  (exists y, snd q = Some y) ->
  en_orden reverso p q -> en_orden reverso q r -> en_orden reverso p r.
Proof.
  intros [y Hy] H1 H2 x z Hx Hz. specialize (H1 x y Hx Hy). specialize (H2 y z Hy Hz).
  destruct reverso; eapply Qle_trans; eauto.
Qed.

Lemma fuera_de_orden_decide p q :
  (exists x, snd p = Some x) -> (exists y, snd q = Some y) ->
  (fuera_de_orden reverso p q = Ok true /\ en_orden reverso q p) \/
  (fuera_de_orden reverso p q = Ok false /\ en_orden reverso p q).
Proof.
  intros [x Hx] [y Hy]. unfold fuera_de_orden, valor_menor, en_orden. rewrite Hx, Hy.
  destruct reverso.
  - destruct (Qle_bool y x) eqn:E; [right|left]; (split; [done|]);
      intros x' y' [= <-] [= <-].
    + by apply Qle_bool_iff.
    + apply Qlt_le_weak, Qnot_le_lt. intros H. apply Qle_bool_iff in H. congruence.
  - destruct (Qle_bool x y) eqn:E; [right|left]; (split; [done|]);
      intros x' y' [= <-] [= <-].
    + by apply Qle_bool_iff.
    + apply Qlt_le_weak, Qnot_le_lt. intros H. apply Qle_bool_iff in H. congruence.
Qed.

Lemma comparar_corre l (j : nat) p q :
  l !! j = Some p -> l !! S j = Some q ->
  (exists x, snd p = Some x) -> (exists y, snd q = Some y) ->
  exists l',
    comparar_e_intercambiar reverso (Z.of_nat j) l = (Ok tt, l') /\
    ((l' = l /\ en_orden reverso p q) \/
     (l' = <[S j := p]> (<[j := q]> l) /\ en_orden reverso q p)).
Proof.
  intros Hp Hq Hx Hy. unfold comparar_e_intercambiar.
  unfold ligar at 1, leer at 1. unfold ligar at 1, puro at 1.
  rewrite (elemento_en_Some _ _ _ Hp). unfold ligar at 1, puro at 1.
  replace (Z.of_nat j + 1) with (Z.of_nat (S j)) by lia.
  rewrite (elemento_en_Some _ _ _ Hq). unfold ligar at 1, puro at 1.
  fold (fuera_de_orden reverso p q).
  destruct (fuera_de_orden_decide p q Hx Hy) as [[-> Ho]|[-> Ho]].
  - unfold ligar at 1, puro at 1.
    rewrite asignar_en_Z by (by eapply lookup_lt_Some).
    unfold ligar at 1, puro at 1.
    rewrite asignar_en_Z by (rewrite length_insert; by eapply lookup_lt_Some).
    eexists. split; [reflexivity|]. by right.
  - eexists. split; [reflexivity|]. by left.
Qed.

(** One pass of the inner loop, from [k] on, over the part [pre] of the list
    that is not yet in place. *)
Lemma pasada (cnt k : nat) pre suf :
  (k + cnt < length pre)%nat -> con_valores pre -> domina reverso pre k ->
  exists pre',
    para_cada (map Z.of_nat (seq k cnt)) (comparar_e_intercambiar reverso) (pre ++ suf)
    = (Ok tt, pre' ++ suf) /\
    Permutation pre' pre /\ domina reverso pre' (k + cnt).
Proof.
  revert k pre. induction cnt as [|cnt IH]; intros k pre Hlen Hval Hdom.
  - exists pre. rewrite Nat.add_0_r. by split.
  - destruct (lookup_lt_is_Some_2 pre k ltac:(lia)) as [p Hp].
    destruct (lookup_lt_is_Some_2 pre (S k) ltac:(lia)) as [q Hq].
    assert (exists x, snd p = Some x) as Hx by (apply Hval, en_lookup; eauto).
    assert (exists y, snd q = Some y) as Hy by (apply Hval, en_lookup; eauto).
    destruct (comparar_corre (pre ++ suf) k p q) as (l1 & Hrun & Hcases); try done.
    { rewrite lookup_app_l; [done|lia]. }
    { rewrite lookup_app_l; [done|lia]. }
    assert (exists pre1, l1 = pre1 ++ suf /\ Permutation pre1 pre /\ domina reverso pre1 (S k))
      as (pre1 & -> & HP1 & Hdom1).
    { destruct Hcases as [[-> Ho]|[-> Ho]].
      - exists pre. split; [done|]. split; [done|]. intros i a b Hi Ha Hb.
        rewrite Hq in Hb. injection Hb as <-.
        destruct (decide (i = S k)) as [->|Hne].
        + rewrite Hq in Ha. injection Ha as <-. apply en_orden_refl.
        + apply (en_orden_trans _ p); [done| |done]. apply (Hdom i a p); [lia|done|done].
      - exists (<[S k := p]> (<[k := q]> pre)). split.
        { rewrite (insert_app_l pre suf k q) by lia.
          by rewrite insert_app_l by (rewrite length_insert; lia). }
        split; [by apply permutacion_intercambio|].
        intros i a b Hi. rewrite !(lookup_cambio pre k (S k) _ p q Hp Hq).
        rewrite (decide_True (P := S k = S k)) by done. intros Ha [= <-].
        destruct (decide (i = S k)) as [->|Hne].
        + injection Ha as <-. apply en_orden_refl.
        + destruct (decide (i = k)) as [->|Hne'].
          * by injection Ha as <-.
          * apply (Hdom i a p); [lia|done|done]. }
    destruct (IH (S k) pre1) as (pre' & Hrun' & HP' & Hdom').
    + rewrite (Permutation_length HP1). lia.
    + intros a Ha. apply Hval. by apply (Permutation_in _ HP1).
    + done.
    + exists pre'. split; [|split].
      * cbn [seq map para_cada]. by rewrite (ligar_Ok _ _ _ _ _ Hrun).
      * by rewrite HP'.
      * by replace (k + S cnt)%nat with (S k + cnt)%nat by lia.
Qed.

(** The outer loop, from the pass [i] on, with [length suf = i]. *)
Lemma pasadas (cnt : nat) pre suf :
  length pre = cnt -> con_valores pre -> en_su_sitio reverso pre suf ->
  exists l',
    para_cada (map Z.of_nat (seq (length suf) cnt))
      (fun i => para_cada (rango_entre 0 (Z.of_nat (length pre + length suf) - i - 1))
                  (comparar_e_intercambiar reverso)) (pre ++ suf)
    = (Ok tt, l') /\
    Permutation l' (pre ++ suf) /\ StronglySorted (en_orden reverso) l'.
Proof.
  revert pre suf. induction cnt as [|cnt IH]; intros pre suf Hlen Hval [Hs Hps].
  - destruct pre; [|done]. exists suf. by split.
  - cbn [seq map para_cada]. rewrite rango_entre_cero.
    replace (Z.to_nat (Z.of_nat (length pre + length suf) - Z.of_nat (length suf) - 1))
      with cnt by lia.
    destruct (pasada cnt 0 pre suf) as (pre' & Hrun & HP & Hdom); [lia|done| |].
    { intros i p q Hi Hp Hq. assert (i = 0%nat) as -> by lia.
      rewrite Hp in Hq. injection Hq as <-. apply en_orden_refl. }
    rewrite (ligar_Ok _ _ _ _ _ Hrun).
    assert (length pre' = S cnt) as Hlen' by (by rewrite (Permutation_length HP)).
    destruct (exists_last (l := pre') ltac:(by destruct pre')) as (ini & z & ->).
    rewrite length_app in Hlen'. cbn in Hlen'.
    assert (forall p, In p ini -> en_orden reverso p z) as Hz.
    { intros p Hp. apply en_lookup in Hp as [i Hi].
      apply (Hdom i p z).
      - apply lookup_lt_Some in Hi. lia.
      - rewrite lookup_app_l; [done|by eapply lookup_lt_Some].
      - replace (0 + cnt)%nat with (length ini) by lia. by apply list_lookup_middle. }
    destruct (IH ini (z :: suf)) as (l' & Hrun' & HP' & Hs').
    + lia.
    + intros p Hp. apply Hval, (Permutation_in _ HP), in_or_app. by left.
    + split.
      * constructor; [done|]. apply List.Forall_forall. intros q Hq. apply Hps; [|done].
        apply (Permutation_in _ HP), in_or_app. right. by left.
      * intros p q Hp [<-|Hq]; [by apply Hz|].
        apply Hps; [|done]. apply (Permutation_in _ HP), in_or_app. by left.
    + exists l'. split; [|split; [|done]].
      * rewrite <- app_assoc. cbn [app].
        replace (length pre + length suf)%nat with (length ini + length (z :: suf))%nat
          by (cbn [length]; lia).
        exact Hrun'.
      * rewrite HP', <- HP, <- app_assoc. done.
Qed.

Lemma ordenar_efecto l :
  con_valores l ->
  exists l',
    _ordenar_por_valor reverso l = (Ok tt, l') /\
    Permutation l' l /\ StronglySorted (en_orden reverso) l'.
Proof.
  intros Hval. unfold _ordenar_por_valor. unfold ligar at 1, leer at 1.
  destruct (pasadas (length l) l []) as (l' & Hrun & HP & Hs); [done|done| |].
  { split; [constructor|]. intros p q _ []. }
  exists l'. rewrite app_nil_r in *. split; [|done].
  cbn [length] in Hrun. rewrite Nat.add_0_r in Hrun. unfold rango.
  rewrite Nat2Z.id. exact Hrun.
Qed.

Lemma ordenada_por_indices l :
  StronglySorted (en_orden reverso) l -> ordenada_por_valor reverso l.
Proof.
  induction 1 as [|p l Hs IH Hall]; intros i j a b x y Hij Ha Hb; [done|].
  destruct i as [|i], j as [|j]; try lia.
  - cbn in Ha, Hb. rewrite Ha in Hb. injection Hb as <- <-.
    destruct reverso; apply Qle_refl.
  - cbn in Ha, Hb. injection Ha as ->. rewrite List.Forall_forall in Hall.
    apply (Hall (b, Some y)); [|done..]. apply en_lookup. eauto.
  - cbn in Ha, Hb. apply (IH i j a b); [lia|done|done].
Qed.

End Ordenar.

(** X15. [_ordenar_por_valor] on a list whose items all hold a number does not
    raise; the list it leaves holds the same items, each as many times, in
    ascending order of the numbers, or descending with [reverso]. *)
Theorem ordenar_por_valor_ordena {A : Type} (reverso : bool) (l : list (A * option Q)) :
  con_valores l ->
  exists l',
    _ordenar_por_valor reverso l = (Ok tt, l') /\
    Permutation l' l /\ ordenada_por_valor reverso l'.
Proof.
  intros Hval. destruct (ordenar_efecto reverso l Hval) as (l' & Hrun & HP & Hs).
  exists l'. split; [done|]. split; [done|]. by apply ordenada_por_indices.
Qed.

(** On [lista_ejemplo], in descending order: the two items with 3 keep their
    places with respect to each other. *)
Lemma ordenar_por_valor_ordena_testigo :
  con_valores lista_ejemplo /\
  snd (_ordenar_por_valor true lista_ejemplo)
    = [("a"%string, Some 3%Q); ("d"%string, Some 3%Q); ("c"%string, Some 2%Q);
       ("b"%string, Some 1%Q)] /\
  exists l',
    _ordenar_por_valor true lista_ejemplo = (Ok tt, l') /\
    Permutation l' lista_ejemplo /\ ordenada_por_valor true l'.
Proof.
  assert (con_valores lista_ejemplo) as H.
  { intros p [<-|[<-|[<-|[<-|[]]]]]; eexists; reflexivity. }
  split; [exact H|]. split; [vm_compute; reflexivity|].
  exact (ordenar_por_valor_ordena true lista_ejemplo H).
Defined.

(** ** The rankings of the analyzer *)

Lemma cinco_primeros_efecto {A : Type} (l : list (A * option Q)) :
  con_valores l ->
  exists l',
    cinco_primeros l = Ok (take 5 l') /\
    Permutation l' l /\ ordenada_por_valor true l'.
Proof.
  intros H. destruct (ordenar_efecto true l H) as (l' & Hrun & HP & Hs).
  exists l'. unfold cinco_primeros. rewrite Hrun. split; [done|]. split; [done|].
  by apply ordenada_por_indices.
Qed.

Lemma nodos_lista_integro (s : EstadoGrafo) (v : option NodoGrafo) :
  grafo_integro s -> In v (obtener_nodos_lista s) ->
  exists nodo, v = Some nodo /\
    In (ClaveInt (nodo_id nodo)) (HashTable.obtener_claves (nodos (grafo s))).
Proof.
  intros G Hv. unfold obtener_nodos_lista, HashTable.obtener_valores in Hv.
  apply in_map_iff in Hv as ([k v'] & E & Hin). cbn in E. subst v'.
  destruct (gi_nodo s G k v Hin) as (nodo & -> & -> & _). exists nodo. split; [done|].
  apply in_map_iff. by eexists (_, _).
Qed.

Lemma conexiones_de_efecto (s : EstadoGrafo) (nodos : list (option NodoGrafo)) :
  grafo_integro s ->
  (forall v, In v nodos -> exists nodo, v = Some nodo) ->
  exists l,
    conexiones_de s nodos = Ok l /\ con_valores l /\
    forall p, In p l <->
      exists nodo aristas,
        In (Some nodo) nodos /\
        obtener_aristas_nodo (ClaveInt (nodo_id nodo)) s = Ok aristas /\
        p = (nodo, Some (inject_Z (Z.of_nat (length aristas)))).
Proof.
  intros G. induction nodos as [|v nodos IH]; intros Hn.
  - exists []. split; [done|]. split; [intros p []|].
    intros p. split; [intros []|]. by intros (n & a & [] & _).
  - destruct (Hn v ltac:(by left)) as [nodo ->].
    destruct (IH ltac:(intros; apply Hn; by right)) as (l & Hl & Hval & Hin).
    destruct (aristas_nodo_total s (ClaveInt (nodo_id nodo)) G) as (la & Hla & _).
    cbn [conexiones_de]. rewrite Hla. cbn [ligar_r]. rewrite Hl. cbn [ligar_r].
    eexists. split; [done|]. split.
    + intros p [<-|Hp]; [by eexists|by apply Hval].
    + intros p. split.
      * intros [<-|Hp]; [exists nodo, la; split; [by left|done]|].
        apply Hin in Hp as (n & a & H1 & H2 & H3). exists n, a. split; [by right|done].
      * intros (n & a & [[= <-]|H1] & H2 & ->).
        -- left. rewrite Hla in H2. by injection H2 as <-.
        -- right. apply Hin. by exists n, a.
Qed.

Lemma congestion_de_efecto (mem : list AristaGrafo) (aristas : list ref) :
  (forall r, In r aristas -> (r < length mem)%nat) ->
  exists l,
    congestion_de mem aristas = Ok l /\ con_valores l /\
    forall p, In p l <->
      exists r a, In r aristas /\ mem !! r = Some a /\ 0 < carga_trafico a /\
        p = (r, Some (porcentaje_congestion a)).
Proof.
  induction aristas as [|r aristas IH]; intros Hr.
  - exists []. split; [done|]. split; [intros p []|].
    intros p. split; [intros []|]. by intros (n & a & [] & _).
  - destruct (IH ltac:(intros; apply Hr; by right)) as (l & Hl & Hval & Hin).
    destruct (lookup_lt_is_Some_2 mem r (Hr r ltac:(by left))) as [a Ha].
    cbn [congestion_de]. unfold desreferenciar. rewrite Ha. cbn [ligar_r]. rewrite Hl.
    cbn [ligar_r]. eexists. split; [done|].
    destruct (0 <? carga_trafico a) eqn:E.
    + apply Z.ltb_lt in E. split.
      * intros p [<-|Hp]; [by eexists|by apply Hval].
      * intros p. split.
        -- intros [<-|Hp]; [exists r, a; split; [by left|done]|].
           apply Hin in Hp as (r' & a' & H1 & H2). exists r', a'. split; [by right|done].
        -- intros (r' & a' & [<-|H1] & H2 & H3 & ->).
           ++ left. rewrite Ha in H2. by injection H2 as <-.
           ++ right. apply Hin. by exists r', a'.
    + apply Z.ltb_ge in E. split; [done|]. intros p. rewrite Hin. split.
      * intros (r' & a' & H1 & H2). exists r', a'. split; [by right|done].
      * intros (r' & a' & [<-|H1] & H2 & H3 & ->).
        -- rewrite Ha in H2. injection H2 as <-. lia.
        -- by exists r', a'.
Qed.

Section Analizador.
Variable raiz : Q -> Q.

(** X16. [_identificar_nodos_muy_conectados] returns the first five of the nodes
    of the graph, each with the number of the edges that leave it, in
    descending order of that number; each node appears once. *)
Theorem nodos_muy_conectados_ordenados (s : EstadoGrafo) :
  alcanzable raiz s ->
  exists todos,
    _identificar_nodos_muy_conectados s = Ok (take 5 todos) /\
    ordenada_por_valor true todos /\
    length todos = length (HashTable.obtener_claves (nodos (grafo s))) /\
    forall p, In p todos <->
      exists nodo aristas,
        HashTable.obtener (ClaveInt (nodo_id nodo)) (nodos (grafo s)) = Ok (Some nodo) /\
        obtener_aristas_nodo (ClaveInt (nodo_id nodo)) s = Ok aristas /\
        p = (nodo, Some (inject_Z (Z.of_nat (length aristas)))).
Proof.
  intros Alc. pose proof (alcanzable_integro raiz s Alc) as G.
  destruct (conexiones_de_efecto s (obtener_nodos_lista s) G) as (l & Hl & Hval & Hin).
  { intros v Hv. destruct (nodos_lista_integro s v G Hv) as (n & -> & _). by exists n. }
  destruct (cinco_primeros_efecto l Hval) as (todos & Hrun & HP & Hord).
  exists todos. split; [|split; [done|split]].
  - unfold _identificar_nodos_muy_conectados. rewrite Hl. exact Hrun.
  - rewrite (Permutation_length HP).
    assert (forall ns l0, conexiones_de s ns = Ok l0 -> length l0 = length ns) as Hlen.
    { clear. induction ns as [|[n|] ns IH]; intros l0; cbn [conexiones_de].
      - by intros [= <-].
      - destruct (obtener_aristas_nodo _ s); [|done..]. cbn [ligar_r].
        destruct (conexiones_de s ns) as [l1| |]; [|done..]. cbn [ligar_r].
        intros [= <-]. cbn. f_equal. by apply IH.
      - done. }
    rewrite (Hlen _ _ Hl). unfold obtener_nodos_lista, HashTable.obtener_valores,
      HashTable.obtener_claves. by rewrite !length_map.
  - intros p. split.
    + intros Hp. apply (Permutation_in _ HP), Hin in Hp as (n & a & H1 & H2 & ->).
      exists n, a. split; [|done].
      unfold obtener_nodos_lista, HashTable.obtener_valores in H1.
      apply in_map_iff in H1 as ([k v] & E & Hkv). cbn in E. subst v.
      destruct (gi_nodo s G k _ Hkv) as (n' & [= <-] & -> & _).
      by apply obtener_presente; [apply G|].
    + intros (n & a & H1 & H2 & ->). apply (Permutation_in _ (Permutation_sym HP)), Hin.
      exists n, a. split; [|done]. apply obtener_Some_In in H1.
      unfold obtener_nodos_lista, HashTable.obtener_valores. apply in_map_iff.
      by eexists (_, _).
Qed.

(** X17. [_identificar_aristas_congestionadas] returns the first five of the
    edges of the graph that carry traffic, each with its load as a
    percentage of its capacity, in descending order of the percentage. An
    edge without load is never in the result. *)
Theorem aristas_congestionadas_ordenadas (s : EstadoGrafo) :
  alcanzable raiz s ->
  exists aristas todas,
    obtener_todas_aristas s = Ok aristas /\
    _identificar_aristas_congestionadas s = Ok (take 5 todas) /\
    ordenada_por_valor true todas /\
    forall p, In p todas <->
      exists r a, In r aristas /\ mem_aristas s !! r = Some a /\ 0 < carga_trafico a /\
        p = (r, Some (porcentaje_congestion a)).
Proof.
  intros Alc. pose proof (alcanzable_integro raiz s Alc) as G.
  destruct (aristas_de_claves_integro s _ G (fun k H => H)) as (aristas & Ha & Hrefs).
  destruct (congestion_de_efecto (mem_aristas s) aristas) as (l & Hl & Hval & Hin).
  { intros r Hr. destruct (Hrefs r Hr) as (k & lk & Hk & Hrl).
    destruct (gi_lista s G k _ Hk) as (_ & l0 & [= <-] & Hl0).
    destruct (Hl0 r Hrl) as (a & Hma & _). by eapply lookup_lt_Some. }
  destruct (cinco_primeros_efecto l Hval) as (todas & Hrun & HP & Hord).
  exists aristas, todas. split; [exact Ha|]. split; [|split; [done|]].
  - unfold _identificar_aristas_congestionadas, obtener_todas_aristas.
    rewrite Ha. cbn [ligar_r]. rewrite Hl. exact Hrun.
  - intros p. rewrite <- Hin. split; intros Hp.
    + by apply (Permutation_in _ HP).
    + by apply (Permutation_in _ (Permutation_sym HP)).
Qed.

End Analizador.

Lemma grafo_con_carga_alcanzable : alcanzable raiz_racional grafo_con_carga.
Proof. apply alc_agregar_vehiculo, grafo_abc_alcanzable. Qed.

(** On [grafo_abc]: A has two edges, B one, C none. *)
Lemma nodos_muy_conectados_ordenados_testigo :
  alcanzable raiz_racional grafo_abc /\
  ligar_r (_identificar_nodos_muy_conectados grafo_abc)
    (fun l => Ok (map (fun p => (nodo_id (fst p), snd p)) l))
    = Ok [(1, Some 2%Q); (2, Some 1%Q); (3, Some 0%Q)] /\
  exists todos,
    _identificar_nodos_muy_conectados grafo_abc = Ok (take 5 todos) /\
    ordenada_por_valor true todos /\
    length todos = length (HashTable.obtener_claves (nodos (grafo grafo_abc))) /\
    forall p, In p todos <->
      exists nodo aristas,
        HashTable.obtener (ClaveInt (nodo_id nodo)) (nodos (grafo grafo_abc))
          = Ok (Some nodo) /\
        obtener_aristas_nodo (ClaveInt (nodo_id nodo)) grafo_abc = Ok aristas /\
        p = (nodo, Some (inject_Z (Z.of_nat (length aristas)))).
Proof.
  split; [exact grafo_abc_alcanzable|]. split; [vm_compute; reflexivity|].
  exact (nodos_muy_conectados_ordenados raiz_racional grafo_abc grafo_abc_alcanzable).
Defined.

(** On [grafo_con_carga]: the edge A->B, with one vehicle for a capacity of
    10, is the only one listed. *)
Lemma aristas_congestionadas_ordenadas_testigo :
  alcanzable raiz_racional grafo_con_carga /\
  ligar_r (_identificar_aristas_congestionadas grafo_con_carga)
    (fun l => Ok (map (fun p => (fst p, Qred <$> snd p)) l))
    = Ok [(0%nat, Some 10%Q)] /\
  exists aristas todas,
    obtener_todas_aristas grafo_con_carga = Ok aristas /\
    _identificar_aristas_congestionadas grafo_con_carga = Ok (take 5 todas) /\
    ordenada_por_valor true todas /\
    forall p, In p todas <->
      exists r a, In r aristas /\ mem_aristas grafo_con_carga !! r = Some a /\
        0 < carga_trafico a /\ p = (r, Some (porcentaje_congestion a)).
Proof.
  split; [exact grafo_con_carga_alcanzable|]. split; [vm_compute; reflexivity|].
  exact (aristas_congestionadas_ordenadas raiz_racional grafo_con_carga
           grafo_con_carga_alcanzable).
Defined.

(** ** [_calcular_centralidad_intermediacion] *)

(** The first loop: every node id enters the new table. *)
Lemma inicializar_centralidad (ps : list (HashTable.par NodoGrafo)) (h : HashTable.t Q) :
  bien_formada h ->
  (forall p, In p ps -> id_de (snd p) = Ok (fst p)) ->
  List.NoDup (map fst ps) ->
  (forall k, In k (map fst ps) -> ~ In k (HashTable.obtener_claves h)) ->
  exists h',
    para_cada (map snd ps) (fun nodo =>
      id <- puro (id_de nodo) ;; HashTable.insertar id (Some 0%Q))%metodo h = (Ok tt, h').
Proof.
  revert h. induction ps as [|[k0 v0] ps IH]; intros h W Hid Hnd Hfr.
  - by exists h.
  - cbn [map fst snd] in *. apply List.NoDup_cons_iff in Hnd as [Hk0 Hnd].
    pose proof (Hid (k0, v0) ltac:(by left)) as Hid0. cbn in Hid0.
    destruct (insertar_nueva h k0 (Some 0%Q) W (Hfr k0 ltac:(by left)))
      as (h1 & E1 & W1 & P1 & _).
    destruct (IH h1 W1) as (h' & Hrun).
    + intros p Hp. apply Hid. by right.
    + done.
    + intros k Hk Hin. apply (claves_tras_insertar _ _ _ _ _ P1) in Hin as [Hin| ->].
      * by apply (Hfr k); [right|].
      * done.
    + exists h'. cbn [para_cada]. unfold ligar at 1. unfold ligar at 1, puro at 1.
      rewrite Hid0, E1. exact Hrun.
Qed.

Section Centralidad.
Variable raiz : Q -> Q.

Lemma pares_de_nodos (s : EstadoGrafo) :
  grafo_integro s ->
  (forall p, In p (HashTable.obtener_pares (nodos (grafo s))) -> id_de (snd p) = Ok (fst p)) /\
  List.NoDup (map fst (HashTable.obtener_pares (nodos (grafo s)))).
Proof.
  intros G. split.
  - intros [k v] Hp. by destruct (gi_nodo s G k v Hp) as (nodo & -> & -> & _).
  - apply (gi_nodos s G).
Qed.

(** X18. [_calcular_centralidad_intermediacion] gives an answer only on a graph
    with at most one node: the empty list, or the single node with
    centrality 0. With two nodes or more the first route query between two
    different nodes raises [TypeError], and [identificar_puntos_criticos],
    which evaluates the centrality first, raises with it and leaves the graph
    as it was. *)
Theorem centralidad_intermediacion_resultado (s : EstadoGrafo) :
  alcanzable raiz s ->
  match obtener_nodos_lista s with
  | [] => _calcular_centralidad_intermediacion s = Ok []
  | [nodo] =>
      exists n, nodo = Some n /\
        _calcular_centralidad_intermediacion s = Ok [(n, Some 0%Q)]
  | _ :: _ :: _ =>
      _calcular_centralidad_intermediacion s = Lanza TypeError /\
      identificar_puntos_criticos s = (Lanza TypeError, s)
  end.
Proof.
  intros Alc. pose proof (alcanzable_integro raiz s Alc) as G.
  destruct (pares_de_nodos s G) as [Hid Hnd].
  destruct (inicializar_centralidad (HashTable.obtener_pares (nodos (grafo s)))
              HashTable.nueva nueva_bien_formada Hid Hnd ltac:(by intros k _ []))
    as (h' & Hini).
  assert (forall p, In p (HashTable.obtener_pares (nodos (grafo s))) ->
            HashTable.contiene (fst p) (nodos (grafo s)) = Ok true) as Hcont.
  { intros [k v] Hp. destruct (gi_nodo s G k v Hp) as (nodo & -> & -> & _).
    eapply contiene_presente. by apply obtener_presente; [apply G|]. }
  unfold _calcular_centralidad_intermediacion at 1 2 3.
  unfold obtener_nodos_lista, HashTable.obtener_valores in *.
  destruct (HashTable.obtener_pares (nodos (grafo s))) as [|[k0 v0] [|[k1 v1] ps]] eqn:E.
  - reflexivity.
  - cbn [map snd] in *. pose proof (Hid _ ltac:(by left)) as H0. cbn [fst snd] in H0.
    destruct v0 as [n0|]; [|done]. injection H0 as <-. exists n0. split; [done|].
    destruct (insertar_efecto HashTable.nueva (ClaveInt (nodo_id n0)) (Some 0%Q)
                nueva_bien_formada ltac:(by intros []))
      as (h1 & E1 & _ & Ho & _).
    unfold ligar at 1. cbn [para_cada]. unfold ligar at 1. unfold ligar at 1, puro at 1.
    cbn [id_de]. rewrite E1.
    change (enumerar [Some n0]) with [(0, Some n0)]. cbn -[HashTable.obtener cinco_primeros].
    rewrite Ho. reflexivity.
  - cbn [map snd] in *.
    pose proof (Hid _ ltac:(by left)) as H0. pose proof (Hid _ ltac:(right; by left)) as H1.
    cbn [fst snd] in H0, H1.
    pose proof (Hcont _ ltac:(by left)) as C0. pose proof (Hcont _ ltac:(right; by left)) as C1.
    cbn [fst] in C0, C1.
    pose proof (ruta_entre_nodos_presentes s k0 k1 C0 C1) as Hruta.
    assert (forall A (f : resultado (list (NodoGrafo * option Q)) -> A),
      f (let '(r, centralidad) :=
        ((para_cada (v0 :: v1 :: map snd ps) (fun nodo =>
            id <- puro (id_de nodo) ;;
            HashTable.insertar id (Some 0%Q))) ;;;
         para_cada (enumerar (v0 :: v1 :: map snd ps)) (fun s_ =>
           para_cada (enumerar (v0 :: v1 :: map snd ps)) (fun t_ =>
             if negb (fst s_ =? fst t_) then
               id_s <- puro (id_de (snd s_)) ;;
               id_t <- puro (id_de (snd t_)) ;;
               ruta <- puro (encontrar_ruta_mas_corta id_s id_t s) ;;
               incrementar_intermedios (snd (fst ruta))
             else ret tt)))%metodo HashTable.nueva in
      (_ <- r ;;
       nodos_centrales <- valores_de_centralidad centralidad (v0 :: v1 :: map snd ps) ;;
       cinco_primeros nodos_centrales)%resultado) = f (Lanza TypeError)) as Hc.
    { intros A f. f_equal. unfold ligar at 1. rewrite Hini.
      unfold enumerar. cbn [length]. unfold rango. rewrite !Nat2Z.id.
      cbn [seq map combine para_cada].
      change (Z.of_nat 0) with 0. change (Z.of_nat 1) with 1. cbn [fst snd].
      change (0 =? 0) with true. change (0 =? 1) with false. cbn [negb].
      rewrite H0, H1. cbv beta iota delta [ligar puro ret]. rewrite Hruta. reflexivity. }
    assert (_calcular_centralidad_intermediacion s = Lanza TypeError) as Hcalc.
    { unfold _calcular_centralidad_intermediacion, obtener_nodos_lista,
        HashTable.obtener_valores. rewrite E. exact (Hc _ (fun x => x)). }
    split.
    + exact (Hc _ (fun x => x)).
    + unfold identificar_puntos_criticos. unfold ligar at 1, leer at 1.
      unfold ligar at 1, puro at 1. by rewrite Hcalc.
Qed.

End Centralidad.

(** On [grafo_abc], with its three nodes. *)
Lemma centralidad_intermediacion_resultado_testigo :
  alcanzable raiz_racional grafo_abc /\
  _calcular_centralidad_intermediacion grafo_abc = Lanza TypeError /\
  identificar_puntos_criticos grafo_abc = (Lanza TypeError, grafo_abc).
Proof.
  split; [exact grafo_abc_alcanzable|].
  exact (centralidad_intermediacion_resultado raiz_racional grafo_abc grafo_abc_alcanzable).
Defined.

(** ** The route queries on every graph *)

Section Consultas.
Variable raiz : Q -> Q.

(** X19. [encontrar_ruta_mas_corta] never returns a route. On a graph built by
    the methods of the graph it returns the no-path result when one of the
    ids is not a node, and raises [TypeError] when both are, also when they
    are the same node. [encontrar_rutas_multiples] raises [TypeError]
    whenever the origin is a node, whatever the destinations, even none. *)
Theorem consultas_de_ruta_resultado (id_origen id_destino : clave) (s : EstadoGrafo) :
  alcanzable raiz s ->
  (((HashTable.contiene id_origen (nodos (grafo s)) = Ok false \/
     HashTable.contiene id_destino (nodos (grafo s)) = Ok false) /\
    encontrar_ruta_mas_corta id_origen id_destino s = Ok (None, [], [])) \/
   (HashTable.contiene id_origen (nodos (grafo s)) = Ok true /\
    HashTable.contiene id_destino (nodos (grafo s)) = Ok true /\
    encontrar_ruta_mas_corta id_origen id_destino s = Lanza TypeError)) /\
  (HashTable.contiene id_origen (nodos (grafo s)) = Ok true ->
   forall destinos, encontrar_rutas_multiples id_origen destinos s = Lanza TypeError).
Proof.
  intros Alc. pose proof (alcanzable_integro raiz s Alc) as G.
  pose proof (proj1 (gi_nodos s G)) as C.
  assert (forall k, HashTable.contiene k (nodos (grafo s)) = Ok true \/
                    HashTable.contiene k (nodos (grafo s)) = Ok false) as Hc.
  { intros k. unfold HashTable.contiene.
    destruct (obtener_coherente _ k C) as [(v & _ & ->)|[_ ->]]; cbn; [|by right].
    destruct v; cbn; auto. }
  split.
  - destruct (Hc id_origen) as [Ho|Ho]; destruct (Hc id_destino) as [Hd|Hd].
    + right. split; [done|]. split; [done|]. by apply ruta_entre_nodos_presentes.
    + left. split; [by right|]. apply ruta_con_nodo_ausente. right. by split.
    + left. split; [by left|]. apply ruta_con_nodo_ausente. by left.
    + left. split; [by left|]. apply ruta_con_nodo_ausente. by left.
  - intros Ho destinos. apply rutas_multiples_lanza. by apply contiene_true_In.
Qed.

(** X20. [_identificar_cuellos_botella] returns only on a graph without edges,
    and then the empty list. On a graph with an edge the route query
    between the ends of the first edge raises [TypeError]; the edge has been
    blocked for the query by then and stays blocked, whatever it was
    before. *)
Theorem cuellos_botella_resultado (s : EstadoGrafo) :
  alcanzable raiz s ->
  exists aristas,
    obtener_todas_aristas s = Ok aristas /\
    match aristas with
    | [] => _identificar_cuellos_botella s = (Ok [], s)
    | r :: _ =>
        exists a, mem_aristas s !! r = Some a /\
          _identificar_cuellos_botella s
          = (Lanza TypeError,
             poner_mem_aristas (<[r := poner_bloqueada true a]> (mem_aristas s)) s)
    end.
Proof.
  intros Alc. pose proof (alcanzable_integro raiz s Alc) as G.
  destruct (aristas_de_claves_integro s _ G (fun k H => H)) as (l & Hl & Hen).
  exists l. split; [exact Hl|].
  unfold _identificar_cuellos_botella.
  rewrite (ligar_Ok _ _ _ _ _ (eq_refl : leer s = (Ok s, s))).
  rewrite (ligar_Ok _ _ _ _ _ (f_equal (fun x => (x, s)) Hl : puro _ s = (Ok l, s))).
  destruct l as [|r l]; [reflexivity|].
  destruct (Hen r ltac:(by left)) as (k & lk & Hk & Hr).
  destruct (gi_lista s G k _ Hk) as (Hko & l' & [= <-] & Hl').
  destruct (Hl' r Hr) as (a & Ha & Eo & Hd).
  exists a. split; [done|].
  set (s1 := poner_mem_aristas (<[r := poner_bloqueada true a]> (mem_aristas s)) s).
  assert (en_arista r leer s = (Ok a, s)) as E1.
  { rewrite (en_arista_corre r leer s a (Ok a) a Ha eq_refl).
    rewrite list_insert_id by done. by rewrite poner_mem_aristas_misma. }
  assert (en_arista r (modificar (poner_bloqueada true)) s = (Ok tt, s1)) as E2
    by (by apply (en_arista_corre r _ s a)).
  assert (encontrar_ruta_mas_corta (ClaveInt (nodo_id (origen a)))
            (ClaveInt (nodo_id (destino a))) s1 = Lanza TypeError) as E3.
  { apply ruta_entre_nodos_presentes; change (nodos (grafo s1)) with (nodos (grafo s));
      apply contiene_nodo; try done. by rewrite Eo. }
  eapply ligar_Lanza. cbn [bucle_cuellos_botella].
  rewrite (ligar_Ok _ _ _ _ _ E1). rewrite (ligar_Ok _ _ _ _ _ E2).
  rewrite (ligar_Ok _ _ _ _ _ (eq_refl : leer s1 = (Ok s1, s1))).
  eapply ligar_Lanza. unfold puro. by rewrite E3.
Qed.

End Consultas.

(** On [grafo_abc], from A to C. *)
Lemma consultas_de_ruta_resultado_testigo :
  alcanzable raiz_racional grafo_abc /\
  HashTable.contiene (ClaveInt 1) (nodos (grafo grafo_abc)) = Ok true /\
  (((HashTable.contiene (ClaveInt 1) (nodos (grafo grafo_abc)) = Ok false \/
     HashTable.contiene (ClaveInt 3) (nodos (grafo grafo_abc)) = Ok false) /\
    encontrar_ruta_mas_corta (ClaveInt 1) (ClaveInt 3) grafo_abc = Ok (None, [], [])) \/
   (HashTable.contiene (ClaveInt 1) (nodos (grafo grafo_abc)) = Ok true /\
    HashTable.contiene (ClaveInt 3) (nodos (grafo grafo_abc)) = Ok true /\
    encontrar_ruta_mas_corta (ClaveInt 1) (ClaveInt 3) grafo_abc = Lanza TypeError)) /\
  (HashTable.contiene (ClaveInt 1) (nodos (grafo grafo_abc)) = Ok true ->
   forall destinos,
     encontrar_rutas_multiples (ClaveInt 1) destinos grafo_abc = Lanza TypeError).
Proof.
  split; [exact grafo_abc_alcanzable|]. split; [vm_compute; reflexivity|].
  exact (consultas_de_ruta_resultado raiz_racional (ClaveInt 1) (ClaveInt 3) grafo_abc
           grafo_abc_alcanzable).
Defined.

(** On [grafo_abc], whose first edge is A->B. *)
Lemma cuellos_botella_resultado_testigo :
  alcanzable raiz_racional grafo_abc /\
  obtener_todas_aristas grafo_abc = Ok [0%nat; 2%nat; 1%nat] /\
  exists aristas,
    obtener_todas_aristas grafo_abc = Ok aristas /\
    match aristas with
    | [] => _identificar_cuellos_botella grafo_abc = (Ok [], grafo_abc)
    | r :: _ =>
        exists a, mem_aristas grafo_abc !! r = Some a /\
          _identificar_cuellos_botella grafo_abc
          = (Lanza TypeError,
             poner_mem_aristas (<[r := poner_bloqueada true a]> (mem_aristas grafo_abc))
               grafo_abc)
    end.
Proof.
  split; [exact grafo_abc_alcanzable|]. split; [vm_compute; reflexivity|].
  exact (cuellos_botella_resultado raiz_racional grafo_abc grafo_abc_alcanzable).
Defined.

(* ================================================================== *)
(** * The motor: refreshing the weights *)
(* ================================================================== *)

(** ** [MotorSimulacion._actualizar_pesos_dinamicos] *)

(** What [calcular_peso_dinamico] leaves of an edge. *)
Lemma calcular_peso_corre (a : AristaGrafo) :
  exists res, calcular_peso_dinamico a = (Ok res, peso_recalculado a).
Proof.
  unfold calcular_peso_dinamico, peso_recalculado, ligar, leer, modificar.
  destruct (bloqueada a); by eexists.
Qed.

Lemma peso_recalculado_dos_veces (a : AristaGrafo) :
  peso_recalculado (peso_recalculado a) = peso_recalculado a.
Proof. unfold peso_recalculado. by destruct (bloqueada a) eqn:E; cbn; rewrite ?E. Qed.

Lemma bucle_pesos (rs : list ref) (s : EstadoGrafo) :
  (forall r, In r rs -> (r < length (mem_aristas s))%nat) ->
  exists mem',
    para_cada rs (fun arista =>
      _ <- en_arista arista calcular_peso_dinamico ;; ret tt)%metodo s
    = (Ok tt, poner_mem_aristas mem' s) /\
    length mem' = length (mem_aristas s) /\
    forall r a, mem_aristas s !! r = Some a ->
      mem' !! r = Some (if in_dec Nat.eq_dec r rs then peso_recalculado a else a).
Proof.
  revert s. induction rs as [|r0 rs IH]; intros s Hr.
  - exists (mem_aristas s). rewrite poner_mem_aristas_misma. split; [done|]. split; [done|].
    intros r a Ha. by destruct (in_dec Nat.eq_dec r []).
  - destruct (lookup_lt_is_Some_2 (mem_aristas s) r0 (Hr r0 ltac:(by left))) as [a0 Ha0].
    destruct (calcular_peso_corre a0) as [res Hc].
    set (s1 := poner_mem_aristas (<[r0 := peso_recalculado a0]> (mem_aristas s)) s).
    destruct (IH s1) as (mem' & Hrun & Hlen & Hmem).
    { intros r Hin. cbn. rewrite length_insert. apply Hr. by right. }
    exists mem'. split; [|split].
    + cbn [para_cada]. unfold ligar at 1. unfold ligar at 1.
      rewrite (en_arista_corre r0 _ s a0 _ _ Ha0 Hc). unfold ret at 1. fold s1.
      by rewrite Hrun.
    + rewrite Hlen. cbn. by rewrite length_insert.
    + intros r a Ha. destruct (decide (r = r0)) as [->|Hne].
      * rewrite Ha0 in Ha. injection Ha as <-.
        rewrite (Hmem r0 (peso_recalculado a0)).
        2:{ cbn. apply list_lookup_insert_eq. by eapply lookup_lt_Some. }
        destruct (in_dec Nat.eq_dec r0 (r0 :: rs)) as [_|Hno]; [|exfalso; apply Hno; by left].
        destruct (in_dec Nat.eq_dec r0 rs); [by rewrite peso_recalculado_dos_veces|done].
      * rewrite (Hmem r a) by (cbn; by rewrite list_lookup_insert_ne).
        destruct (in_dec Nat.eq_dec r rs) as [Hin|Hout];
          destruct (in_dec Nat.eq_dec r (r0 :: rs)) as [Hin'|Hout']; try done.
        -- exfalso. apply Hout'. by right.
        -- exfalso. destruct Hin' as [?|?]; [by subst|done].
Qed.

Section Motor.
Variable raiz : Q -> Q.

(** X21. [_actualizar_pesos_dinamicos] does not raise on a graph built by the
    methods of the graph. It changes nothing but the current weight of the
    edges of the adjacency lists that are not blocked, which it sets from
    their load: afterwards the weight equation holds on each of them. An
    edge that is blocked, or in no adjacency list, is left as it is. *)
Theorem actualizar_pesos_restablece_ecuacion (s : EstadoGrafo) :
  alcanzable raiz s ->
  exists aristas mem',
    obtener_todas_aristas s = Ok aristas /\
    _actualizar_pesos_dinamicos s = (Ok tt, poner_mem_aristas mem' s) /\
    length mem' = length (mem_aristas s) /\
    forall r a, mem_aristas s !! r = Some a ->
      exists a', mem' !! r = Some a' /\
        (In r aristas -> bloqueada a = false ->
           a' = poner_peso_actual (peso_base a * factor_congestion a)%Q a /\
           ecuacion_peso a') /\
        (~ In r aristas \/ bloqueada a = true -> a' = a).
Proof.
  intros Alc. pose proof (alcanzable_integro raiz s Alc) as G.
  destruct (aristas_de_claves_integro s _ G (fun k H => H)) as (aristas & Ha & Hrefs).
  destruct (bucle_pesos aristas s) as (mem' & Hrun & Hlen & Hmem).
  { intros r Hr. destruct (Hrefs r Hr) as (k & lk & Hk & Hrl).
    destruct (gi_lista s G k _ Hk) as (_ & l0 & [= <-] & Hl0).
    destruct (Hl0 r Hrl) as (a & Hma & _). by eapply lookup_lt_Some. }
  exists aristas, mem'. split; [exact Ha|]. split; [|split; [done|]].
  - unfold _actualizar_pesos_dinamicos. unfold ligar at 1, leer at 1.
    unfold ligar at 1, puro at 1. unfold obtener_todas_aristas. rewrite Ha. exact Hrun.
  - intros r a Hra. eexists. split; [by apply Hmem|]. split.
    + intros Hin Hb. destruct (in_dec Nat.eq_dec r aristas); [|done].
      unfold peso_recalculado. rewrite Hb.
      split; [done|]. apply ecuacion_peso_recalculada.
    + intros [Hout|Hb].
      * by destruct (in_dec Nat.eq_dec r aristas).
      * unfold peso_recalculado. rewrite Hb. by destruct (in_dec Nat.eq_dec r aristas).
Qed.

End Motor.

(** On [grafo_desbloqueado], whose edge carries one vehicle and still has
    its base weight 5: the weight becomes 6. *)
Lemma actualizar_pesos_restablece_ecuacion_testigo :
  alcanzable raiz_racional grafo_desbloqueado /\
  ligar_r (desreferenciar (mem_aristas grafo_desbloqueado) 0%nat)
    (fun a => Ok (Qred (peso_actual a))) = Ok 5%Q /\
  ligar_r (desreferenciar (mem_aristas (tras _actualizar_pesos_dinamicos grafo_desbloqueado))
             0%nat)
    (fun a => Ok (Qred (peso_actual a))) = Ok 6%Q /\
  exists aristas mem',
    obtener_todas_aristas grafo_desbloqueado = Ok aristas /\
    _actualizar_pesos_dinamicos grafo_desbloqueado
    = (Ok tt, poner_mem_aristas mem' grafo_desbloqueado) /\
    length mem' = length (mem_aristas grafo_desbloqueado) /\
    forall r a, mem_aristas grafo_desbloqueado !! r = Some a ->
      exists a', mem' !! r = Some a' /\
        (In r aristas -> bloqueada a = false ->
           a' = poner_peso_actual (peso_base a * factor_congestion a)%Q a /\
           ecuacion_peso a') /\
        (~ In r aristas \/ bloqueada a = true -> a' = a).
Proof.
  assert (alcanzable raiz_racional grafo_desbloqueado) as A.
  { unfold grafo_desbloqueado, grafo_una_arista, tras.
    apply alc_desbloquear_arista, alc_agregar_vehiculo, alc_bloquear_arista,
      alc_agregar_arista, grafo_dos_nodos_alcanzable. }
  split; [exact A|]. split; [vm_compute; reflexivity|]. split; [vm_compute; reflexivity|].
  exact (actualizar_pesos_restablece_ecuacion raiz_racional grafo_desbloqueado A).
Defined.

(* ================================================================== *)
(** * The manager of vehicles *)
(* ================================================================== *)

(** ** [GestorVehiculos.crear_vehiculo] *)

(** X22. [crear_vehiculo] never hands out a vehicle. When an endpoint is not a
    node of the graph it returns [None] and changes nothing. When both are
    nodes it raises [TypeError] out of the route query: by then the counter
    has been advanced and the vehicle object made, but the registry, the
    list of active vehicles, the statistics and the graph are as before. *)
Theorem crear_vehiculo_sin_vehiculo (azar : Azar) (id_origen id_destino : clave)
    (s : Simulacion) :
  bien_formada (nodos (grafo (sim_grafo s))) ->
  ((HashTable.contiene id_origen (nodos (grafo (sim_grafo s))) = Ok false \/
    HashTable.contiene id_destino (nodos (grafo (sim_grafo s))) = Ok false) /\
   crear_vehiculo azar id_origen id_destino s = (Ok None, s)) \/
  (HashTable.contiene id_origen (nodos (grafo (sim_grafo s))) = Ok true /\
   HashTable.contiene id_destino (nodos (grafo (sim_grafo s))) = Ok true /\
   exists s',
     crear_vehiculo azar id_origen id_destino s = (Lanza TypeError, s') /\
     sim_grafo s' = sim_grafo s /\
     vehiculos (gestor s') = vehiculos (gestor s) /\
     vehiculos_activos (gestor s') = vehiculos_activos (gestor s) /\
     vehiculos_completados (gestor s') = vehiculos_completados (gestor s) /\
     estadisticas (gestor s') = estadisticas (gestor s) /\
     contador_vehiculos (gestor s') = contador_vehiculos (gestor s) + 1 /\
     length (mem_vehiculos s') = S (length (mem_vehiculos s))).
Proof.
  intros W. pose proof (proj1 W) as C.
  destruct (obtener_coherente _ id_origen C) as [([no|] & _ & Ho)|[_ Ho]];
    destruct (obtener_coherente _ id_destino C) as [([nd|] & _ & Hd)|[_ Hd]].
  1:{ right. split; [by eapply contiene_presente|]. split; [by eapply contiene_presente|].
      eexists. split; [by apply (crear_vehiculo_lanza azar _ _ s no nd)|].
      cbn. rewrite length_app. cbn. repeat split; lia. }
  all: left; (split; [unfold HashTable.contiene; rewrite ?Ho, ?Hd; auto|]);
    unfold crear_vehiculo, ligar, leer, puro; by rewrite Ho, Hd.
Qed.

(** On [simulacion_en_marcha], from A to C. *)
Lemma crear_vehiculo_sin_vehiculo_testigo :
  bien_formada (nodos (grafo (sim_grafo simulacion_en_marcha))) /\
  fst (crear_vehiculo {| azar_velocidad := 40; azar_color := (255, 0, 0); azar_tipo := "bus" |}
         (ClaveInt 1) (ClaveInt 3) simulacion_en_marcha) = Lanza TypeError.
Proof.
  assert (bien_formada (nodos (grafo (sim_grafo simulacion_en_marcha)))) as W
    by (apply bien_formadab_correcta; vm_compute; reflexivity).
  split; [exact W|].
  destruct (crear_vehiculo_sin_vehiculo
              {| azar_velocidad := 40; azar_color := (255, 0, 0); azar_tipo := "bus" |}
              (ClaveInt 1) (ClaveInt 3) simulacion_en_marcha W)
    as [[_ H]|(_ & _ & s' & H & _)]; [|by rewrite H].
  vm_compute in H. discriminate H.
Defined.

(** ** [GestorVehiculos.eliminar_vehiculo] *)

Lemma eliminar_ref_queda (r x : ref) (l : list ref) :
  In x l -> x <> r -> In x (snd (ListaEnlazada.eliminar misma_ref r l)).
Proof.
  intros Hin Hne. induction l as [|a l IH]; [done|]. cbn [ListaEnlazada.eliminar].
  destruct (misma_ref a r) eqn:E.
  - apply Nat.eqb_eq in E. subst a. cbn. by destruct Hin as [->|Hin].
  - destruct (ListaEnlazada.eliminar misma_ref r l) as [b l']. cbn [snd] in *.
    destruct Hin as [->|Hin]; [by left|right; by apply IH].
Qed.

(** The vehicle leaves the edge it travels on, if any; the graph is the only
    part of the simulation that this touches. *)
Lemma dejar_arista_corre (s : Simulacion) (veh : Vehiculo) :
  0 <= indice_ruta_actual veh ->
  (forall e, In e (ruta_aristas veh) -> (e < length (mem_aristas (sim_grafo s)))%nat) ->
  exists g',
    (if estado_igual (estado veh) viajando && (indice_ruta_actual veh <? largo_ruta veh)
     then
       arista_actual <- puro (elemento_en (ruta_aristas veh) (indice_ruta_actual veh)) ;;
       en_grafo (en_arista arista_actual remover_vehiculo)
     else ret tt)%metodo s
    = (Ok tt, poner_sim_grafo g' s).
Proof.
  intros Hi Hruta.
  destruct (estado_igual (estado veh) viajando && (indice_ruta_actual veh <? largo_ruta veh))
    eqn:E.
  - apply andb_true_iff in E as [_ E]. apply Z.ltb_lt in E. unfold largo_ruta in E.
    destruct (ruta_aristas veh !! Z.to_nat (indice_ruta_actual veh)) as [e1|] eqn:He1.
    2:{ apply lookup_ge_None in He1. lia. }
    assert (In e1 (ruta_aristas veh)) as Hin1 by (apply en_lookup; eauto).
    destruct (mem_aristas (sim_grafo s) !! e1) as [a1|] eqn:Ha1.
    2:{ apply lookup_ge_None in Ha1. specialize (Hruta e1 Hin1). lia. }
    eexists. erewrite ligar_Ok by (unfold puro; erewrite elemento_en_lookup; eauto).
    eapply en_grafo_arista; [done|]. apply carga_tras_remover.
  - exists (sim_grafo s). by destruct s.
Qed.

(** X23. [eliminar_vehiculo] returns, and answers whether the id was registered.
    If it was not, nothing changes. If it was, the id leaves the registry,
    where every other id keeps its vehicle, and the vehicle leaves the list
    of active vehicles, where every other one stays. In both cases the list
    of completed vehicles, the counter, the statistics and the vehicle
    objects are left as they were: a completed vehicle that is eliminated
    stays in the list of completed ones. *)
Theorem eliminar_vehiculo_efecto (id_vehiculo : clave) (s : Simulacion) :
  gestor_coherente s ->
  exists b s',
    eliminar_vehiculo id_vehiculo s = (Ok b, s') /\
    (b = true <-> HashTable.contiene id_vehiculo (vehiculos (gestor s)) = Ok true) /\
    (b = false -> s' = s) /\
    HashTable.contiene id_vehiculo (vehiculos (gestor s')) = Ok false /\
    (forall k, k <> id_vehiculo ->
       HashTable.obtener k (vehiculos (gestor s')) = HashTable.obtener k (vehiculos (gestor s))) /\
    (forall r, HashTable.obtener id_vehiculo (vehiculos (gestor s)) = Ok (Some r) ->
       forall x, In x (vehiculos_activos (gestor s')) <->
                 In x (vehiculos_activos (gestor s)) /\ x <> r) /\
    vehiculos_completados (gestor s') = vehiculos_completados (gestor s) /\
    contador_vehiculos (gestor s') = contador_vehiculos (gestor s) /\
    estadisticas (gestor s') = estadisticas (gestor s) /\
    mem_vehiculos s' = mem_vehiculos s.
Proof.
  intros G. pose proof (gc_tabla s G) as W. pose proof (proj1 W) as C.
  unfold eliminar_vehiculo.
  rewrite (ligar_Ok _ _ _ _ _ (eq_refl : leer s = (Ok s, s))).
  destruct (obtener_coherente (vehiculos (gestor s)) id_vehiculo C)
    as [([r|] & Hin & Hob)|[Hout Hob]].
  2,3: rewrite (ligar_Ok _ _ _ _ _ (f_equal (fun x => (x, s)) Hob : puro _ s = (Ok None, s)));
    exists false, s; unfold HashTable.contiene; rewrite Hob; cbn;
    (split; [done|]); (split; [split; discriminate|]); (split; [done|]); (split; [done|]);
    (split; [done|]); (split; [discriminate|]); done.
  rewrite (ligar_Ok _ _ _ _ _ (f_equal (fun x => (x, s)) Hob : puro _ s = (Ok (Some r), s))).
  assert (In r (registrados s)) as Hr by (apply en_registrados; eauto).
  destruct (gc_vehiculo s G r Hr) as (veh & Hv & Hi & Hruta).
  rewrite (ligar_Ok _ _ _ _ _ (en_vehiculo_leer r s veh Hv)).
  destruct (dejar_arista_corre s veh Hi Hruta) as (g' & Hrun).
  rewrite (ligar_Ok _ _ _ _ _ Hrun).
  rewrite (ligar_Ok _ _ _ _ _ (en_gestor_modificar _ _)).
  destruct (eliminar_efecto (vehiculos (gestor s)) id_vehiculo W)
    as (b & h' & Hel & _ & _ & _ & _ & Hcont & Hotras & _).
  erewrite ligar_Ok by (apply en_registro_corre; cbn; exact Hel).
  eexists true, _. split; [reflexivity|]. cbn.
  split; [split; [intros _; by eapply contiene_presente|done]|].
  split; [discriminate|]. split; [done|]. split; [done|]. split; [|done].
  intros r' Hr'. rewrite Hob in Hr'. injection Hr' as <-. intros x. split.
  - intros Hx. split; [by eapply eliminar_ref_en|]. intros ->.
    by apply (proj2 (eliminar_ref_unicos r _ (gc_activos_unicos s G))).
  - intros [Hx Hne]. by apply eliminar_ref_queda.
Qed.

(** On [simulacion_en_marcha]: its one vehicle is removed. *)
Lemma eliminar_vehiculo_efecto_testigo :
  gestor_coherente simulacion_en_marcha /\
  fst (eliminar_vehiculo (ClaveInt 1) simulacion_en_marcha) = Ok true /\
  vehiculos_activos (gestor (tras (eliminar_vehiculo (ClaveInt 1)) simulacion_en_marcha)) = [] /\
  exists b s',
    eliminar_vehiculo (ClaveInt 1) simulacion_en_marcha = (Ok b, s') /\
    (b = true <->
     HashTable.contiene (ClaveInt 1) (vehiculos (gestor simulacion_en_marcha)) = Ok true) /\
    (b = false -> s' = simulacion_en_marcha) /\
    HashTable.contiene (ClaveInt 1) (vehiculos (gestor s')) = Ok false /\
    (forall k, k <> ClaveInt 1 ->
       HashTable.obtener k (vehiculos (gestor s'))
       = HashTable.obtener k (vehiculos (gestor simulacion_en_marcha))) /\
    (forall r, HashTable.obtener (ClaveInt 1) (vehiculos (gestor simulacion_en_marcha))
               = Ok (Some r) ->
       forall x, In x (vehiculos_activos (gestor s')) <->
                 In x (vehiculos_activos (gestor simulacion_en_marcha)) /\ x <> r) /\
    vehiculos_completados (gestor s') = vehiculos_completados (gestor simulacion_en_marcha) /\
    contador_vehiculos (gestor s') = contador_vehiculos (gestor simulacion_en_marcha) /\
    estadisticas (gestor s') = estadisticas (gestor simulacion_en_marcha) /\
    mem_vehiculos s' = mem_vehiculos simulacion_en_marcha.
Proof.
  split; [exact (proj1 simulacion_en_marcha_coherente)|].
  split; [vm_compute; reflexivity|]. split; [vm_compute; reflexivity|].
  exact (eliminar_vehiculo_efecto (ClaveInt 1) simulacion_en_marcha
           (proj1 simulacion_en_marcha_coherente)).
Defined.

(** ** [GestorVehiculos.actualizar_simulacion] *)

Lemma eliminar_ref_miembros (r x : ref) (l : list ref) :
  List.NoDup l ->
  In x (snd (ListaEnlazada.eliminar misma_ref r l)) <-> In x l /\ x <> r.
Proof.
  intros Hnd. split.
  - intros Hx. split; [by eapply eliminar_ref_en|]. intros ->.
    by apply (proj2 (eliminar_ref_unicos r l Hnd)).
  - intros [Hx Hne]. by apply eliminar_ref_queda.
Qed.

Lemma procesar_completado_efecto (s : Simulacion) (r : ref) :
  gestor_coherente s -> invariante_carga s -> In r (registrados s) ->
  exists s', _procesar_vehiculo_completado r s = (Ok tt, s') /\
    gestor_coherente s' /\ invariante_carga s' /\
    vehiculos (gestor s') = vehiculos (gestor s) /\
    mem_vehiculos s' = mem_vehiculos s /\
    vehiculos_activos (gestor s')
      = snd (ListaEnlazada.eliminar misma_ref r (vehiculos_activos (gestor s))) /\
    vehiculos_completados (gestor s') = vehiculos_completados (gestor s) ++ [r] /\
    total_completados (estadisticas (gestor s'))
      = total_completados (estadisticas (gestor s)) + 1.
Proof.
  intros G I Hr.
  destruct (procesar_completado_conserva s r G I Hr) as (s' & Hrun & G' & I' & Hv).
  exists s'. split; [done|]. split; [done|]. split; [done|]. split; [done|].
  destruct (gc_vehiculo s G r Hr) as (veh & Hveh & _).
  destruct (suma_tiempos_total (mem_vehiculos s)
              (ListaEnlazada.agregar r (vehiculos_completados (gestor s)))) as [q Hq].
  { intros x Hx. apply in_app_or in Hx as [Hx|[<-|[]]]; [by apply G|by eapply lookup_lt_Some]. }
  revert Hrun. unfold _procesar_vehiculo_completado.
  rewrite !(ligar_Ok _ _ _ _ _ (en_gestor_modificar _ _)).
  rewrite (ligar_Ok _ _ _ _ _ (eq_refl : leer _ = (Ok _, _))).
  cbn [mem_vehiculos gestor poner_gestor vehiculos_completados poner_estadisticas
       poner_vehiculos_completados poner_vehiculos_activos ListaEnlazada.obtener_lista].
  rewrite (ligar_Ok _ _ _ _ _ (f_equal (fun x => (x, _)) Hq : puro _ _ = (Ok q, _))).
  match goal with |- context [if ?c then _ else _] => destruct c end.
  - rewrite en_gestor_modificar. intros [= <-]. done.
  - intros [= <-]. done.
Qed.

Section Reparto.
Variable raiz : Q -> Q.

Lemma cuerpo_actualizar_efecto (dt : Q) (s : Simulacion) (r : ref) :
  gestor_coherente s -> invariante_carga s -> In r (registrados s) ->
  exists s' veh veh',
    cuerpo_actualizar raiz dt r s = (Ok tt, s') /\
    gestor_coherente s' /\ invariante_carga s' /\
    mem_vehiculos s !! r = Some veh /\
    mem_vehiculos s' = <[r := veh']> (mem_vehiculos s) /\
    vehiculos (gestor s') = vehiculos (gestor s) /\
    ((estado veh' = arribado /\ estado veh <> arribado /\
      vehiculos_activos (gestor s')
        = snd (ListaEnlazada.eliminar misma_ref r (vehiculos_activos (gestor s))) /\
      vehiculos_completados (gestor s') = vehiculos_completados (gestor s) ++ [r] /\
      total_completados (estadisticas (gestor s'))
        = total_completados (estadisticas (gestor s)) + 1) \/
     (~ (estado veh' = arribado /\ estado veh <> arribado) /\ gestor s' = gestor s)).
Proof.
  intros G I Hr.
  destruct (gc_vehiculo s G r Hr) as (veh & Hv & Hi & Hruta).
  destruct (actualizar_posicion_paso raiz r dt s veh Hv Hi Hruta) as (veh' & s1 & Hrun & P).
  { intros e a Hc Ha. by apply (carga_positiva s r veh e a). }
  destruct (paso_conserva s s1 r veh veh' G I Hr Hv P) as [G1 I1].
  assert (mem_vehiculos s1 !! r = Some veh') as Hv1.
  { rewrite (pv_mem _ _ _ _ _ P). apply list_lookup_insert_eq. by eapply lookup_lt_Some. }
  assert (vehiculos (gestor s1) = vehiculos (gestor s)) as Hv01
    by (by rewrite (pv_gestor _ _ _ _ _ P)).
  unfold cuerpo_actualizar.
  rewrite (ligar_Ok _ _ _ _ _ (en_vehiculo_leer r s veh Hv)).
  rewrite (ligar_Ok _ _ _ _ _ Hrun).
  rewrite (ligar_Ok _ _ _ _ _ (en_vehiculo_leer r s1 veh' Hv1)).
  destruct (estado_igual (estado veh') arribado && negb (estado_igual (estado veh) arribado))
    eqn:E.
  - apply andb_true_iff in E as [E1 E2]. apply estado_igual_eq in E1.
    apply negb_true_iff in E2.
    destruct (procesar_completado_efecto s1 r G1 I1)
      as (s2 & Hrun2 & G2 & I2 & Hv12 & Hm & Ha & Hc & Ht).
    { unfold registrados. rewrite Hv01. exact Hr. }
    exists s2, veh, veh'. split; [done|]. split; [done|]. split; [done|]. split; [done|].
    split; [by rewrite Hm, (pv_mem _ _ _ _ _ P)|]. split; [by rewrite Hv12|].
    left. split; [done|]. split.
    { intros H. apply estado_igual_eq in H. congruence. }
    by rewrite Ha, Hc, Ht, (pv_gestor _ _ _ _ _ P).
  - exists s1, veh, veh'. split; [done|]. split; [done|]. split; [done|]. split; [done|].
    split; [apply P|]. split; [done|]. right. split; [|apply P].
    intros [H1 H2]. apply andb_false_iff in E as [E|E].
    + apply estado_igual_eq in H1. congruence.
    + apply negb_false_iff, estado_igual_eq in E. done.
Qed.

Lemma bucle_actualizar_efecto (dt : Q) (l : list ref) (s : Simulacion) :
  gestor_coherente s -> invariante_carga s ->
  List.NoDup l -> (forall r, In r l -> In r (vehiculos_activos (gestor s))) ->
  exists s' movidos,
    para_cada l (cuerpo_actualizar raiz dt) s = (Ok tt, s') /\
    gestor_coherente s' /\ invariante_carga s' /\
    vehiculos (gestor s') = vehiculos (gestor s) /\
    vehiculos_completados (gestor s') = vehiculos_completados (gestor s) ++ movidos /\
    (forall x, In x (vehiculos_activos (gestor s')) <->
               In x (vehiculos_activos (gestor s)) /\ ~ In x movidos) /\
    List.NoDup movidos /\ (forall x, In x movidos -> In x l) /\
    total_completados (estadisticas (gestor s'))
      = total_completados (estadisticas (gestor s)) + Z.of_nat (length movidos) /\
    (forall x, ~ In x l -> mem_vehiculos s' !! x = mem_vehiculos s !! x) /\
    (forall r, In r l -> exists veh veh',
       mem_vehiculos s !! r = Some veh /\ mem_vehiculos s' !! r = Some veh' /\
       (In r movidos <-> estado veh' = arribado /\ estado veh <> arribado)).
Proof.
  revert s. induction l as [|r l IH]; intros s G I Hnd Hl.
  - exists s, []. split; [done|]. split; [done|]. split; [done|]. split; [done|].
    split; [by rewrite app_nil_r|]. split; [intros x; cbn; tauto|].
    split; [constructor|]. split; [done|]. split; [cbn; lia|]. split; [done|]. intros r [].
  - apply List.NoDup_cons_iff in Hnd as [Hr Hnd].
    pose proof (gc_activos s G r (Hl r ltac:(by left))) as Hreg.
    destruct (cuerpo_actualizar_efecto dt s r G I Hreg)
      as (s1 & veh & veh' & Hrun & G1 & I1 & Hv & Hm1 & Hv1 & Hcaso).
    assert (forall x, x <> r -> mem_vehiculos s1 !! x = mem_vehiculos s !! x) as Hotros.
    { intros x Hne. rewrite Hm1. by apply list_lookup_insert_ne. }
    assert (mem_vehiculos s1 !! r = Some veh') as Hv'.
    { rewrite Hm1. apply list_lookup_insert_eq. by eapply lookup_lt_Some. }
    assert (forall x, In x (vehiculos_activos (gestor s1)) <->
              In x (vehiculos_activos (gestor s)) /\
              ~ (x = r /\ estado veh' = arribado /\ estado veh <> arribado)) as Hact1.
    { intros x. destruct Hcaso as [(E1 & E2 & Ha & _)|[Hno Hg]].
      - rewrite Ha, (eliminar_ref_miembros r x _ (gc_activos_unicos s G)). tauto.
      - rewrite Hg. tauto. }
    destruct (IH s1 G1 I1 Hnd) as (s2 & mov & Hrun2 & G2 & I2 & Hv2 & Hc2 & Ha2 & Hnd2 &
                                     Hsub & Ht2 & Hm2 & Hest).
    { intros x Hx. apply Hact1. split; [apply Hl; by right|]. intros [-> _]. done. }
    assert (~ In r mov) as Hrmov by (intros H; by apply Hr, Hsub).
    assert (para_cada (r :: l) (cuerpo_actualizar raiz dt) s = (Ok tt, s2)) as Htodo.
    { cbn [para_cada]. by rewrite (ligar_Ok _ _ _ _ _ Hrun). }
    destruct Hcaso as [(E1 & E2 & Ha & Hc & Ht)|[Hno Hg]].
    + exists s2, (r :: mov). split; [done|]. split; [done|]. split; [done|].
      split; [by rewrite Hv2|]. split; [by rewrite Hc2, Hc, <- app_assoc|].
      split.
      { intros x. rewrite Ha2, Hact1. cbn [In]. split.
        - intros [[H1 H2] H3]. split; [done|]. intros [<-|H]; [|done]. by apply H2.
        - intros [H1 H2]. split; [split; [done|]|].
          + intros [-> _]. apply H2. by left.
          + intros H. apply H2. by right. }
      split; [by constructor|]. split; [intros x [<-|Hx]; [by left|right; by apply Hsub]|].
      split; [rewrite Ht2, Ht; cbn [length]; lia|].
      split.
      { intros x Hx. rewrite Hm2 by (intros H; apply Hx; by right).
        apply Hotros. intros ->. apply Hx. by left. }
      intros x [<-|Hx].
      * exists veh, veh'. split; [done|]. split; [by rewrite Hm2|].
        split; [done|]. intros _. by left.
      * destruct (Hest x Hx) as (v1 & v2 & H1 & H2 & H3).
        assert (x <> r) as Hne by (intros ->; done).
        exists v1, v2. split; [by rewrite <- Hotros|]. split; [done|].
        rewrite <- H3. cbn [In]. split; [intros [<-|H]; [done|done]|by right].
    + exists s2, mov. split; [done|]. split; [done|]. split; [done|].
      split; [by rewrite Hv2|]. split; [by rewrite Hc2, Hg|].
      split; [intros x; by rewrite Ha2, Hg|].
      split; [done|]. split; [intros x Hx; right; by apply Hsub|].
      split; [by rewrite Ht2, Hg|].
      split.
      { intros x Hx. rewrite Hm2 by (intros H; apply Hx; by right).
        apply Hotros. intros ->. apply Hx. by left. }
      intros x [<-|Hx].
      * exists veh, veh'. split; [done|]. split; [by rewrite Hm2|]. split; [done|done].
      * destruct (Hest x Hx) as (v1 & v2 & H1 & H2 & H3).
        assert (x <> r) as Hne by (intros ->; done).
        exists v1, v2. split; [by rewrite <- Hotros|]. done.
Qed.

(** X24. [actualizar_simulacion] returns and shares out the active vehicles: the
    ones that were not [arribado] before the tick and are after it go to the
    end of the list of completed vehicles and are counted in
    [total_completados]; the others stay active. No vehicle is lost or
    doubled, and the registry is not touched. *)
Theorem actualizar_simulacion_reparte (dt : Q) (s : Simulacion) :
  gestor_coherente s -> invariante_carga s ->
  exists s' movidos,
    actualizar_simulacion raiz dt s = (Ok tt, s') /\
    vehiculos (gestor s') = vehiculos (gestor s) /\
    vehiculos_completados (gestor s') = vehiculos_completados (gestor s) ++ movidos /\
    Permutation (vehiculos_activos (gestor s') ++ movidos) (vehiculos_activos (gestor s)) /\
    total_completados (estadisticas (gestor s'))
      = total_completados (estadisticas (gestor s)) + Z.of_nat (length movidos) /\
    (forall r, In r (vehiculos_activos (gestor s)) -> exists veh veh',
       mem_vehiculos s !! r = Some veh /\ mem_vehiculos s' !! r = Some veh' /\
       (In r movidos <-> estado veh' = arribado /\ estado veh <> arribado)).
Proof.
  intros G I.
  destruct (bucle_actualizar_efecto dt (vehiculos_activos (gestor s)) s G I
              (gc_activos_unicos s G) ltac:(done))
    as (s' & mov & Hrun & G' & _ & Hv & Hc & Ha & Hnd & Hsub & Ht & _ & Hest).
  exists s', mov. split; [exact Hrun|]. split; [done|]. split; [done|].
  split; [|split; [done|done]].
  apply Permutation.NoDup_Permutation.
  - apply List.NoDup_app; [apply G'|done|]. intros x Hx Hm. by apply (proj2 (proj1 (Ha x) Hx)).
  - apply G.
  - intros x. rewrite in_app_iff, Ha. split.
    + intros [[H _]|H]; [done|by apply Hsub].
    + intros H. destruct (in_dec Nat.eq_dec x mov); [by right|by left].
Qed.

End Reparto.


Lemma tras_actualizar_coherente (raiz : Q -> Q) (dt : Q) (s : Simulacion) :
  gestor_coherente s /\ invariante_carga s ->
  gestor_coherente (tras (actualizar_simulacion raiz dt) s) /\
  invariante_carga (tras (actualizar_simulacion raiz dt) s).
Proof.
  intros [G I].
  destruct (actualizar_simulacion_conserva raiz dt s G I) as (s1 & E1 & G1 & I1).
  unfold tras. by rewrite E1.
Qed.

Lemma simulacion_llegando_coherente :
  gestor_coherente simulacion_llegando /\ invariante_carga simulacion_llegando.
Proof.
  unfold simulacion_llegando.
  apply tras_actualizar_coherente, tras_actualizar_coherente, simulacion_en_marcha_coherente.
Qed.

(** On [simulacion_llegando]: the tick marks the vehicle as arrived and moves
    it to the completed ones. *)
Lemma actualizar_simulacion_reparte_testigo :
  gestor_coherente simulacion_llegando /\ invariante_carga simulacion_llegando /\
  vehiculos_activos (gestor simulacion_llegando) = [0%nat] /\
  vehiculos_completados
    (gestor (tras (actualizar_simulacion raiz_racional 3) simulacion_llegando)) = [0%nat] /\
  exists s' movidos,
    actualizar_simulacion raiz_racional 3 simulacion_llegando = (Ok tt, s') /\
    vehiculos (gestor s') = vehiculos (gestor simulacion_llegando) /\
    vehiculos_completados (gestor s')
      = vehiculos_completados (gestor simulacion_llegando) ++ movidos /\
    Permutation (vehiculos_activos (gestor s') ++ movidos)
      (vehiculos_activos (gestor simulacion_llegando)) /\
    total_completados (estadisticas (gestor s'))
      = total_completados (estadisticas (gestor simulacion_llegando))
        + Z.of_nat (length movidos) /\
    (forall r, In r (vehiculos_activos (gestor simulacion_llegando)) -> exists veh veh',
       mem_vehiculos simulacion_llegando !! r = Some veh /\
       mem_vehiculos s' !! r = Some veh' /\
       (In r movidos <-> estado veh' = arribado /\ estado veh <> arribado)).
Proof.
  split; [exact (proj1 simulacion_llegando_coherente)|].
  split; [exact (proj2 simulacion_llegando_coherente)|].
  split; [vm_compute; reflexivity|]. split; [vm_compute; reflexivity|].
  exact (actualizar_simulacion_reparte raiz_racional 3 simulacion_llegando
           (proj1 simulacion_llegando_coherente) (proj2 simulacion_llegando_coherente)).
Defined.
